(* ===== verification/_CoqProject ===== *)
-Q . S2P
Prelude.v
Endian.v
Kernel.v
SimKernel.v
Sockets.v
Io.v
Frame.v
FrameDecoder.v
FrameWriteBuffer.v
Raii.v
Socket.v
Epoll.v
EventFd.v
NonBlocking.v
Processing.v
Connection.v
BoundedQueue.v
ThreadPool.v
PoolFinish.v
Dispatcher.v
Service.v
DispatcherFinish.v
Scheduled.v
Streams.v
EventLoop.v
EventLoopInvariant.v
EventLoopReturns.v
EventLoopSafety.v
EventLoopFinish.v
ServerMain.v
Simulator.v
System.v
