(* ===== verification/Prelude.v ===== *)
(** * NetPulse: a verification development

    NetPulse is a C++20 TCP server for device telemetry: one thread runs an
    epoll reactor over non-blocking sockets, messages are length-prefixed
    frames, and a fixed pool of worker threads answers them.  This library
    models the whole of [include/netpulse/] and [src/] and the two programs
    built on them, as Rocq functions where the code is sequential and as step
    relations where threads interleave.

    ** How the program works, and where each part is modelled

    A client's bytes travel through these parts; each file models the source
    files named with it ([X.hpp] under [include/netpulse/], [X.cpp] under
    [src/]) with the source's names, one definition per function.

    - [Socket], [Epoll], [EventFd] ([network/socket], [network/epoll],
      [network/event_fd]): move-only owners of one descriptor, with the calls
      made on it.  [Raii] holds the class [Owner] of what the three have in
      common, and proves descriptor ownership once for all of them.
      [NonBlocking] ([network/nonblocking]) sets [O_NONBLOCK].
    - [Io] ([network/io]): [sendAll] and [receiveExact], the blocking loops of
      [Frame] ([protocol/frame]), [sendFrame] and [receiveFrame], which the
      device simulator uses.  [Frame] also has the reference encoding
      [encode_frame] and the reference parser that the other protocol parts
      are compared with.
    - [FrameDecoder] ([protocol/frame_decoder]): incremental parsing of the
      received bytes.  [FrameWriteBuffer] ([protocol/frame_write_buffer]):
      frames waiting for the socket.  Both keep a vector and an offset, and
      compact now and then; their abstract state is the list [pending].
    - [Connection] ([server/connection]): a socket, a decoder and a write
      buffer; its read loop alternates [recv] and decoding.
    - [Processing] ([server/processing]): tasks, results and [processFrame].
    - [BoundedQueue] ([concurrency/bounded_queue]): what each operation does
      while it holds the mutex, and whether it then notifies.
      [ThreadPool] ([concurrency/thread_pool]): the worker loops, [trySubmit]
      and [stop] as steps of threads that share the queue, the condition
      variable and the memory the tasks use.  [PoolFinish]: the destructor,
      interleaved with the workers, and the constructor when a thread cannot be
      created.
    - [Dispatcher] ([server/processing_dispatcher]): the pool with
      [processFrame] as its task; a worker's task is the sequence process,
      push the result, notify, record a failure, interleaved with everything
      else.  [DispatcherFinish]: the destructor.
    - [EventLoop] ([server/event_loop]): construction, [run], all handlers and
      the destructor.  It calls the dispatcher through the class [Service],
      whose laws say what the loop relies on; [Scheduled] proves them for
      [Dispatcher] under every schedule of the workers.  [Streams] counts the
      frames in what the clients send; [EventLoopInvariant] has the loop's
      invariant and that every handler keeps it, [EventLoopReturns] that every
      handler and every round returns, [EventLoopSafety] the theorems about a
      running loop, [EventLoopFinish] those about its construction and
      destruction.
    - [ServerMain] ([apps/server/main.cpp]) and [Simulator]
      ([tools/device_simulator/main.cpp]): the two programs.  [Sockets] has the
      system calls that only they make.  [System] puts them together: one
      program's output is the other's input.

    [Prelude] (this file) has machine integers, list, map and loop lemmas and
    the automation; [Endian] the layout of integers in memory on a host of
    either byte order, with [htonl] and [ntohl].

    ** The operating system

    System calls are operations of the class [Kernel], a parameter of every
    definition that makes one.  [KernelLaws] says what the manual pages promise
    of each call as a relation on a visible state [OsView]: open descriptors
    and their flags, the bytes sent and still to be received on each socket,
    eventfd counters, the clients waiting to be accepted, the interest list of
    each epoll instance, which holds the mask and the user data registered with
    a descriptor ([epoll_wait] reports the user data, and the code stores the
    descriptor there), and how many more times a signal interrupts a call (any finite number).
    Beyond that every call may fail with any error and move any number of
    bytes.  [SimKernel] is an executable kernel driven by a script, proved to
    obey the laws; the witnesses evaluate the program on it.

    ** What is proved

    - Event loop: after any number of rounds, what a client was sent followed
      by what it has queued is exactly the answers to that very connection,
      although descriptors are reused; the open descriptors, the epoll
      interest list and the connection ids are what they have to be, and all
      values stay in the range of their types; the conversation with a client,
      from the bytes it sends to the acknowledgements it gets; [run] returns
      only on an error and any number of its rounds comes to an end; accepting
      and the handling of a client's event, branch by branch; construction on
      every path, and that destruction leaves nothing open.
    - Programs: [main] of the server and of the simulator on every path, with
      the status and the open descriptors; the simulator's telemetry is
      accepted once and acknowledged, and what a successful simulator prints is
      that acknowledgement.
    - Connection: any number of reads delivers the frames the peer encoded, in
      order, and a peer within the limit is never refused; one call of
      [readAvailable] agrees with the reference parser, and any number of them
      with cutting the whole of the bytes at once.
    - Dispatcher: each accepted task's result is taken once; completed results
      are always announced, so that an idle event loop has missed none;
      [trySubmit] on every branch; the destructor, whatever the workers are
      doing when it closes the queue and however they go on, ends and loses no
      result.
    - Thread pool and queue: tasks start in the order accepted and run once;
      no wakeup is lost, the pool finishes by itself and [stop] returns with
      all accepted tasks run; a constructor that fails half-way joins the
      threads it started; the queue is first in, first out within its capacity.
    - Protocol: the decoder refines the reference decoder for any sequence of
      calls and its vector stays within twice the pending bytes plus the
      threshold; the write buffer is a faithful byte stream, from which [clear]
      drops what is unsent and nothing else; [sendAll],
      [receiveExact], [sendFrame] and [receiveFrame] on every branch, with a
      round trip.
    - Handles: ownership under any moves and self-assignments; [epoll_wait]
      within its span, never [EINTR], and what it reports after any calls of
      [add], [modify] and [remove]; the eventfd counter, whose calls report
      [EAGAIN] only when it is full or empty; [O_NONBLOCK], also when it is set
      already.

    ** Integers, fuel and bounds

    [std::size_t], [std::uint64_t] and [std::uint32_t] are [Z] with explicit
    wrap-around ([wrap64], [wrap32], the size operations).  A vector holds at
    most [vector_max] bytes.  A loop of the code is [Prelude.loop] with fuel;
    the theorems give a fuel that is enough (the bytes to move plus the signals
    to come) and say that more fuel gives the same result, so none of them is
    only about runs that happen to end.  [EventLoop.run] takes the number of
    rounds besides, because it does not end unless something fails.
    [EventLoopSafety.started] assumes that what the clients send, altogether,
    is at most a sixth of [vector_max]: a frame takes at least 4 bytes and its
    answer 22, so all answers together fit in one vector.  The threads of a
    pool in its destructor follow a schedule while it lasts and are then run by
    [PoolFinish.settle], with [PoolFinish.destroy_measure] steps, which bounds
    the steps in any order.

    ** What is not modelled

    - What the programs print, apart from the response the simulator got.
    - Running out of memory, in general: [std::bad_alloc] is not raised, and
      the theorems assume that what is buffered fits in a vector.  What
      [std::vector::reserve] throws for more threads than a vector can hold is
      modelled.
    - Descriptors duplicated by [dup] or [fork]: closing one closes its file.
    - In the concurrent model a worker's [notify], with its repetition on
      [EINTR], is one step, and the workers' steps are placed at the event
      loop's calls of the dispatcher; all that a worker does to the kernel is
      to add to the notifier's counter, which no other call of the loop reads.
    - The memory model: what is shared is protected by a mutex, an atomic
      variable or the kernel, and steps are sequentially consistent.
    - The build files and the tests.

    ** Plan

    What is left: a finer step for a worker's [notify], one system call at a
    time, and workers that run between any two system calls of the event loop;
    several clients against the server at once, with progress: a client that
    keeps reading gets all its answers. *)

From Stdlib Require Export ZArith Lia.
From Stdlib Require Export Strings.Byte.
From stdpp Require Export base list gmap strings.

#[global] Open Scope Z_scope.

(** ** Notations *)

Declare Scope size_scope.
Delimit Scope size_scope with size.

Abbreviation bytes := (list byte).

#[export] Instance byte_eq_dec : EqDecision byte := Byte.byte_eq_dec.

(** ** Machine integers

    A [std::size_t], [std::uint64_t] or [std::uint32_t] is a [Z] in range;
    every operation that may leave the range wraps explicitly. *)

Definition size_max : Z := 2 ^ 64 - 1.
Definition wrap32 (z : Z) : Z := z mod 2 ^ 32.
Definition wrap64 (z : Z) : Z := z mod 2 ^ 64.
Definition size_add (a b : Z) : Z := wrap64 (a + b).
Definition size_sub (a b : Z) : Z := wrap64 (a - b).
Notation "a ⊕ b" := (size_add a b) (at level 50, left associativity) : size_scope.
Notation "a ⊖ b" := (size_sub a b) (at level 50, left associativity) : size_scope.
#[global] Open Scope size_scope.

(** The size of a container, as the code's [size()] returns it. *)
Definition len {A} (l : list A) : Z := Z.of_nat (length l).

(** [std::vector::max_size()] of a byte vector ([PTRDIFF_MAX]). *)
Definition vector_max : Z := 2 ^ 63 - 1.

(** Pointer arithmetic on contiguous storage: the part from an offset on, and
    the first [n] elements. *)
Definition from {A} (off : Z) (l : list A) : list A := drop (Z.to_nat off) l.
Definition upto {A} (n : Z) (l : list A) : list A := take (Z.to_nat n) l.

(** [std::memcpy] (or a [recv]) into a buffer at an offset. *)
Definition store_at {A} (off : Z) (d l : list A) : list A :=
  upto off l ++ d ++ from (off + len d) l.

(** ** Bytes *)

Definition u8 (b : byte) : Z := Z.of_N (Byte.to_N b).

Definition byte_of (z : Z) : byte :=
  match Byte.of_N (Z.to_N (z mod 2 ^ 8)) with
  | Some b => b
  | None => x00
  end.

(** ** Loops

    Every [while] loop of the program is [loop body fuel s]: the body maps the
    loop's variables to [inl] (continue with new values) or [inr] (leave the
    loop with a result); [None] means that the fuel ran out. *)

Fixpoint loop {S R : Type} (body : S -> S + R) (fuel : nat) (s : S) : option R :=
  match fuel with
  | O => None
  | Datatypes.S fuel' =>
      match body s with
      | inl s' => loop body fuel' s'
      | inr r => Some r
      end
  end.

(** ** Tactics *)

(** Boolean comparisons of [Z] in the context become propositions. *)
Ltac zbool :=
  repeat match goal with
  | H : (_ <? _) = true |- _ => apply Z.ltb_lt in H
  | H : (_ <? _) = false |- _ => apply Z.ltb_ge in H
  | H : (_ <=? _) = true |- _ => apply Z.leb_le in H
  | H : (_ <=? _) = false |- _ => apply Z.leb_gt in H
  | H : (_ =? _) = true |- _ => apply Z.eqb_eq in H
  | H : (_ =? _) = false |- _ => apply Z.eqb_neq in H
  | H : (_ >? _) = _ |- _ => rewrite Z.gtb_ltb in H
  | H : (_ >=? _) = _ |- _ => rewrite Z.geb_leb in H
  | H : (_ || _)%bool = true |- _ => apply orb_true_iff in H
  | H : (_ || _)%bool = false |- _ => apply orb_false_iff in H; destruct H
  | H : (_ && _)%bool = true |- _ => apply andb_true_iff in H; destruct H
  | H : negb _ = true |- _ => apply negb_true_iff in H
  | H : negb _ = false |- _ => apply negb_false_iff in H
  end.

(** Splits [if]s and [match]es of the goal, keeping the equations. *)
Ltac split_cases :=
  repeat match goal with
  | |- context [match ?x with _ => _ end] =>
      lazymatch x with
      | context [match _ with _ => _ end] => fail
      | _ => destruct x eqn:?
      end
  end.

(** Only the boolean tests of the goal. *)
Ltac split_ifs :=
  repeat match goal with
  | |- context [if ?b then _ else _] =>
      lazymatch type of b with bool => idtac end;
      lazymatch b with
      | context [match _ with _ => _ end] => fail
      | _ => destruct b eqn:?
      end
  end; zbool.

(** The same in a hypothesis. *)
Ltac split_cases_in H :=
  repeat match type of H with
  | context [match ?x with _ => _ end] =>
      lazymatch x with
      | context [match _ with _ => _ end] => fail
      | _ => destruct x eqn:?
      end
  end.

(** Uses the equation of a call inside an [option] computation. *)
Ltac run E := rewrite E; cbn [mbind option_bind].

(** ** Lemmas on sizes *)

Create HintDb netpulse.
Create Rewrite HintDb len.
Create Rewrite HintDb decoder.
Create Rewrite HintDb os.

Lemma len_nonneg {A} (l : list A) : 0 <= len l.
Proof. unfold len; lia. Qed.

Lemma len_nil {A} : len (@nil A) = 0.
Proof. reflexivity. Qed.

Lemma len_cons {A} (x : A) l : len (x :: l) = 1 + len l.
Proof. unfold len; simpl length; lia. Qed.

Lemma len_app {A} (l1 l2 : list A) : len (l1 ++ l2) = len l1 + len l2.
Proof. unfold len; rewrite length_app; lia. Qed.

Lemma len_zero {A} (l : list A) : len l = 0 -> l = [].
Proof. destruct l; [done|]; rewrite len_cons; pose proof (len_nonneg l); lia. Qed.

Lemma len_from {A} off (l : list A) : 0 <= off <= len l -> len (from off l) = len l - off.
Proof. unfold len, from; rewrite length_drop; lia. Qed.

Lemma len_upto {A} n (l : list A) : 0 <= n <= len l -> len (upto n l) = n.
Proof. unfold len, upto; rewrite length_take; lia. Qed.

Lemma len_upto_min {A} n (l : list A) : 0 <= n -> len (upto n l) = n `min` len l.
Proof. unfold len, upto; rewrite length_take; lia. Qed.

Lemma from_0 {A} (l : list A) : from 0 l = l.
Proof. reflexivity. Qed.

Lemma from_all {A} off (l : list A) : len l <= off -> from off l = [].
Proof. unfold len, from; intros; apply drop_ge; lia. Qed.

Lemma from_from {A} a b (l : list A) : 0 <= a -> 0 <= b -> from a (from b l) = from (b + a) l.
Proof. unfold from; intros; rewrite drop_drop; f_equal; lia. Qed.

Lemma from_app_le {A} off (l1 l2 : list A) :
  0 <= off <= len l1 -> from off (l1 ++ l2) = from off l1 ++ l2.
Proof. unfold from, len; intros; apply drop_app_le; lia. Qed.

Lemma from_app_len {A} (l1 l2 : list A) : from (len l1) (l1 ++ l2) = l2.
Proof. unfold from, len; rewrite Nat2Z.id; apply drop_app_length. Qed.

Lemma from_app_ge {A} off (l1 l2 : list A) :
  len l1 <= off -> from off (l1 ++ l2) = from (off - len l1) l2.
Proof. unfold from, len; intros; rewrite drop_app_ge by lia; f_equal; lia. Qed.

Lemma upto_app_len {A} (l1 l2 : list A) : upto (len l1) (l1 ++ l2) = l1.
Proof. unfold upto, len; rewrite Nat2Z.id; apply take_app_length. Qed.

Lemma upto_app_le {A} n (l1 l2 : list A) :
  n <= len l1 -> upto n (l1 ++ l2) = upto n l1.
Proof. unfold upto, len; intros; apply take_app_le; lia. Qed.

Lemma upto_all {A} n (l : list A) : len l <= n -> upto n l = l.
Proof. unfold upto, len; intros; apply take_ge; lia. Qed.

Lemma upto_0 {A} (l : list A) : upto 0 l = [].
Proof. reflexivity. Qed.

Lemma upto_from {A} n (l : list A) : upto n l ++ from n l = l.
Proof. apply take_drop. Qed.

Lemma upto_add {A} a b (l : list A) :
  0 <= a -> 0 <= b -> upto (a + b) l = upto a l ++ upto b (from a l).
Proof.
  unfold upto, from; intros.
  rewrite Z2Nat.inj_add by lia. symmetry; apply take_take_drop.
Qed.

Lemma store_at_app {A} (a b d : list A) :
  store_at (len a) d (a ++ b) = a ++ d ++ from (len d) b.
Proof.
  unfold store_at. pose proof (len_nonneg d).
  rewrite upto_app_len, from_app_ge by lia.
  by replace (len a + len d - len a) with (len d) by lia.
Qed.

(** Overwriting a whole buffer, or nothing of it. *)
Lemma store_at_all {A} (d l : list A) : len d = len l -> store_at 0 d l = d.
Proof.
  intros E; unfold store_at. rewrite upto_0, from_all by lia. simpl; apply app_nil_r.
Qed.

Lemma store_at_nil {A} (l : list A) : store_at 0 [] l = l.
Proof. reflexivity. Qed.

Lemma wrap64_small z : 0 <= z < 2 ^ 64 -> wrap64 z = z.
Proof. apply Z.mod_small. Qed.

Lemma wrap32_small z : 0 <= z < 2 ^ 32 -> wrap32 z = z.
Proof. apply Z.mod_small. Qed.

Lemma size_sub_small a b : 0 <= b <= a -> a < 2 ^ 64 -> a ⊖ b = a - b.
Proof. intros; apply wrap64_small; lia. Qed.

Lemma size_add_small a b : 0 <= a -> 0 <= b -> a + b < 2 ^ 64 -> a ⊕ b = a + b.
Proof. intros; apply wrap64_small; lia. Qed.

#[export] Hint Rewrite @len_nil @len_cons @len_app : len.
#[export] Hint Resolve len_nonneg : netpulse.

(** ** Lemmas on bytes *)

Lemma u8_range b : 0 <= u8 b < 256.
Proof. unfold u8; pose proof (Byte.to_N_bounded b); lia. Qed.

Lemma u8_byte_of z : u8 (byte_of z) = z mod 256.
Proof.
  unfold u8, byte_of. change (2 ^ 8) with 256.
  pose proof (Z.mod_pos_bound z 256 eq_refl).
  destruct (Byte.of_N _) eqn:E.
  - apply Byte.to_of_N in E; rewrite E; lia.
  - apply Byte.of_N_None_iff in E; lia.
Qed.

Lemma u8_inj b1 b2 : u8 b1 = u8 b2 -> b1 = b2.
Proof.
  unfold u8; intros E%N2Z.inj.
  pose proof (Byte.of_to_N b1) as E1; pose proof (Byte.of_to_N b2) as E2.
  rewrite E in E1; congruence.
Qed.

Lemma byte_of_u8 b : byte_of (u8 b) = b.
Proof.
  apply u8_inj; rewrite u8_byte_of; pose proof (u8_range b); apply Z.mod_small; lia.
Qed.

Lemma byte_of_mod z1 z2 : z1 mod 256 = z2 mod 256 -> byte_of z1 = byte_of z2.
Proof. intros E; apply u8_inj; rewrite !u8_byte_of; done. Qed.

(** ** Rules for loops *)

Section LoopRules.
Context {S R : Type} (body : S -> S + R).

(** Partial correctness: an invariant. *)
Lemma loop_inv (I : S -> Prop) (Q : R -> Prop) fuel s r :
    (forall s, I s -> match body s with inl s' => I s' | inr r => Q r end) ->
    I s -> loop body fuel s = Some r -> Q r.
  Proof.
    intros Hbody; revert s; induction fuel as [|fuel IH]; simpl; intros s Hs E; [done|].
    specialize (Hbody s Hs); destruct (body s) as [s'|r']; eauto; congruence.
  Qed.

(** Total correctness: an invariant and a measure. *)
Lemma loop_total (I : S -> Prop) (m : S -> nat) (Q : R -> Prop) fuel s :
    (forall s, I s ->
       match body s with inl s' => I s' /\ (m s' < m s)%nat | inr r => Q r end) ->
    I s -> (m s < fuel)%nat -> exists r, loop body fuel s = Some r /\ Q r.
  Proof.
    intros Hbody; revert s; induction fuel as [|fuel IH]; simpl; intros s Hs Hm; [lia|].
    specialize (Hbody s Hs); destruct (body s) as [s'|r']; eauto.
    destruct Hbody; apply IH; auto; lia.
  Qed.

Lemma loop_mono fuel fuel' s r :
    (fuel <= fuel')%nat -> loop body fuel s = Some r -> loop body fuel' s = Some r.
  Proof.
    revert fuel' s; induction fuel as [|fuel IH]; intros [|fuel'] s Hle; simpl; try done; try lia.
    destruct (body s); auto with lia.
  Qed.

Lemma loop_det fuel fuel' s r r' :
    loop body fuel s = Some r -> loop body fuel' s = Some r' -> r = r'.
  Proof.
    intros E E'.
    apply (loop_mono _ (fuel `max` fuel')%nat) in E; [|lia].
    apply (loop_mono _ (fuel `max` fuel')%nat) in E'; [|lia]. congruence.
  Qed.
End LoopRules.

(** ** Updating one element of a list *)

Lemma list_update_split {A} (l : list A) i x :
  l !! i = Some x -> exists l1 l2, l = l1 ++ x :: l2 /\ forall y, <[i := y]> l = l1 ++ y :: l2.
Proof.
  intros Hi. exists (take i l), (drop (S i) l). split; [by rewrite take_drop_middle|].
  intros y; apply insert_take_drop. by eapply lookup_lt_Some.
Qed.

Lemma bind_update {A B} (f : A -> list B) l i x y :
  l !! i = Some x -> f x ++ mbind f (<[i := y]> l) ≡ₚ f y ++ mbind f l.
Proof.
  intros (l1 & l2 & -> & Hy)%list_update_split; rewrite Hy, !bind_app; cbn [mbind list_bind].
  rewrite (Permutation_app_swap_app (mbind f l1)), (Permutation_app_swap_app (mbind f l1) (f x)).
  apply Permutation_app_swap_app.
Qed.

Lemma sum_update {A} (f : A -> nat) l i x y :
  l !! i = Some x ->
  (f x + sum_list_with f (<[i := y]> l) = f y + sum_list_with f l)%nat.
Proof.
  intros (l1 & l2 & -> & Hy)%list_update_split; rewrite Hy, !sum_list_with_app; simpl; lia.
Qed.

Lemma sum_fmap {A B} (f : B -> nat) (g : A -> B) l :
  sum_list_with f (g <$> l) = sum_list_with (fun a => f (g a)) l.
Proof. induction l; csimpl; congruence. Qed.

Lemma sum_bound {A} (f g : A -> nat) c l :
  (forall a, f a <= g a + c)%nat ->
  (sum_list_with f l <= sum_list_with g l + c * length l)%nat.
Proof. intros Hf; induction l as [|a l IH]; simpl; [lia|]. specialize (Hf a); lia. Qed.

Lemma elem_of_update {A} (l : list A) i x y z :
  l !! i = Some x -> z ∈ <[i := y]> l -> z = y \/ z ∈ l.
Proof.
  intros (l1 & l2 & -> & Hy)%list_update_split; rewrite Hy, !elem_of_app, !elem_of_cons. tauto.
Qed.

Lemma elem_of_update_other {A} (l : list A) i x y z :
  l !! i = Some x -> z ∈ l -> z <> x -> z ∈ <[i := y]> l.
Proof.
  intros (l1 & l2 & -> & Hy)%list_update_split; rewrite Hy, !elem_of_app, !elem_of_cons. tauto.
Qed.
