(* ===== verification/Endian.v ===== *)
(** * Integers in memory

    The bytes of an unsigned integer on a host of either byte order, and the
    POSIX conversions [htonl] and [ntohl] the protocol code calls.  The host's
    byte order is a parameter of every definition that lays an integer out in
    memory; the protocol theorems hold for both. *)

From S2P Require Export Prelude.

Inductive endian := Little | Big.

(** The byte order of the machine the program runs on ([std::endian::native]). *)
Class Host := native : endian.

(** ** Definitions *)

Fixpoint le_bytes (n : nat) (v : Z) : bytes :=
  match n with
  | O => []
  | S n' => byte_of v :: le_bytes n' (v / 256)
  end.

Fixpoint le_value (bs : bytes) : Z :=
  match bs with
  | [] => 0
  | b :: bs' => u8 b + 256 * le_value bs'
  end.

(** The memory image of an [n]-byte integer, and the integer of an image. *)
Definition store_uint (e : endian) (n : nat) (v : Z) : bytes :=
  match e with Little => le_bytes n v | Big => reverse (le_bytes n v) end.

Definition load_uint (e : endian) (bs : bytes) : Z :=
  match e with Little => le_value bs | Big => le_value (reverse bs) end.

(** [htonl v] is the integer whose image on the host is [v] in network order;
    [ntohl] is the inverse conversion. *)
Definition htonl `{Host} (v : Z) : Z := load_uint native (store_uint Big 4 v).
Definition ntohl `{Host} (v : Z) : Z := load_uint Big (store_uint native 4 v).

(** ** Lemmas *)

Lemma le_bytes_length n v : length (le_bytes n v) = n.
Proof. revert v; induction n; simpl; auto. Qed.

Lemma le_value_range bs : 0 <= le_value bs < 256 ^ len bs.
Proof.
  induction bs as [|b bs IH]; simpl le_value; [done|].
  rewrite len_cons, Z.pow_add_r by auto with lia netpulse.
  pose proof (u8_range b); lia.
Qed.

Lemma le_value_bytes n v : le_value (le_bytes n v) = v mod 256 ^ Z.of_nat n.
Proof.
  revert v; induction n as [|n IH]; intros v; cbn [le_bytes le_value].
  { by rewrite Z.mod_1_r. }
  replace (256 ^ Z.of_nat (S n)) with (256 * 256 ^ Z.of_nat n)
    by (rewrite <-Z.pow_succ_r by lia; f_equal; lia).
  assert (0 < 256 ^ Z.of_nat n) by (apply Z.pow_pos_nonneg; lia).
  rewrite IH, u8_byte_of, Z.rem_mul_r by lia. done.
Qed.

Lemma le_bytes_value bs : le_bytes (length bs) (le_value bs) = bs.
Proof.
  induction bs as [|b bs IH]; simpl; [done|].
  pose proof (u8_range b). f_equal.
  - rewrite <-(byte_of_u8 b) at 2. apply byte_of_mod.
    rewrite Z.mul_comm, Z.mod_add by lia. done.
  - etrans; [|exact IH]. f_equal.
    rewrite Z.mul_comm, Z.div_add, Z.div_small by lia. lia.
Qed.

Lemma store_uint_length e n v : length (store_uint e n v) = n.
Proof. destruct e; simpl; rewrite ?length_reverse; apply le_bytes_length. Qed.

Lemma len_store_uint e n v : len (store_uint e n v) = Z.of_nat n.
Proof. unfold len; by rewrite store_uint_length. Qed.

Lemma load_store_uint e n v :
  0 <= v < 256 ^ Z.of_nat n -> load_uint e (store_uint e n v) = v.
Proof.
  intros; destruct e; simpl; rewrite ?reverse_involutive, le_value_bytes;
    by apply Z.mod_small.
Qed.

Lemma store_load_uint e bs : store_uint e (length bs) (load_uint e bs) = bs.
Proof.
  destruct e; simpl; [apply le_bytes_value|].
  rewrite <-(length_reverse bs), le_bytes_value; apply reverse_involutive.
Qed.

Lemma load_uint_range e bs : 0 <= load_uint e bs < 256 ^ len bs.
Proof.
  destruct e; simpl; [apply le_value_range|].
  pose proof (le_value_range (reverse bs)) as Hr.
  unfold len in *; by rewrite length_reverse in Hr.
Qed.

(** What the code stores after [htonl] is the big-endian image, whatever the
    host; what it computes with [ntohl] from four stored bytes is their
    big-endian value. *)
Lemma store_htonl `{Host} v : store_uint native 4 (htonl v) = store_uint Big 4 v.
Proof.
  unfold htonl.
  pose proof (store_load_uint native (store_uint Big 4 v)) as E.
  by rewrite store_uint_length in E.
Qed.

Lemma ntohl_load `{Host} bs :
  length bs = 4%nat -> ntohl (load_uint native bs) = load_uint Big bs.
Proof.
  intros E; unfold ntohl.
  rewrite <-E at 1. by rewrite store_load_uint.
Qed.

#[export] Hint Rewrite @len_store_uint : len.
#[global] Arguments store_uint : simpl never.
#[global] Arguments load_uint : simpl never.
