(* ===== verification/Kernel.v ===== *)
(** * The operating system the program runs on

    The system calls the program makes are not its own code: they are the
    operations of the class [Kernel], a parameter of every definition that
    makes one.  What the code relies on is the class [KernelLaws]: each call
    is allowed by a relation on [OsView], the part of the operating system's
    state that the calls' documentation (the POSIX and Linux manual pages)
    speaks about.  [SimKernel] gives a concrete kernel that obeys the laws. *)

From S2P Require Export Prelude Endian.

(** ** Constants of the Linux headers *)

Definition ENOENT : Z := 2.
Definition EINTR : Z := 4.
Definition EIO : Z := 5.
Definition EBADF : Z := 9.
Definition EAGAIN : Z := 11.
Definition EWOULDBLOCK : Z := EAGAIN.
Definition EINVAL : Z := 22.
Definition EPIPE : Z := 32.

Definition MSG_NOSIGNAL : Z := 0x4000.
Definition SOCK_NONBLOCK : Z := 0x800.
Definition SOCK_CLOEXEC : Z := 0x80000.
Definition F_GETFL : Z := 3.
Definition F_SETFL : Z := 4.
Definition O_NONBLOCK : Z := 0x800.
Definition EFD_NONBLOCK : Z := 0x800.
Definition EFD_CLOEXEC : Z := 0x80000.
Definition EPOLL_CLOEXEC : Z := 0x80000.
Definition EPOLL_CTL_ADD : Z := 1.
Definition EPOLL_CTL_DEL : Z := 2.
Definition EPOLL_CTL_MOD : Z := 3.
Definition EPOLLIN : Z := 0x001.
Definition EPOLLOUT : Z := 0x004.
Definition EPOLLERR : Z := 0x008.
Definition EPOLLHUP : Z := 0x010.
Definition EPOLLRDHUP : Z := 0x2000.

(** Arithmetic that needs the constants' values. *)
Ltac errno_lia :=
  unfold ENOENT, EINTR, EIO, EBADF, EWOULDBLOCK, EAGAIN, EINVAL, EPIPE in *; lia.

(** [struct epoll_event]: the event mask and the user data's [fd] field. *)
Record epoll_event := EpollEvent { events : Z; data_fd : Z }.

(** ** The system calls

    A call returns the new kernel and C's return value; [errno] reads the
    variable the failed call has set.  A call that fills a buffer also
    returns what it stored at the buffer's start. *)
Class Kernel (K : Type) := {
  errno : K -> Z;
  sys_send : K -> Z -> bytes -> Z -> K * Z;
  sys_recv : K -> Z -> Z -> Z -> K * Z * bytes;
  sys_accept4 : K -> Z -> Z -> K * Z;
  sys_close : K -> Z -> K * Z;
  sys_fcntl : K -> Z -> Z -> Z -> K * Z;
  sys_epoll_create1 : K -> Z -> K * Z;
  sys_epoll_ctl : K -> Z -> Z -> Z -> option epoll_event -> K * Z;
  sys_epoll_wait : K -> Z -> Z -> Z -> K * Z * list epoll_event;
  sys_eventfd : K -> Z -> Z -> K * Z;
  sys_write : K -> Z -> bytes -> K * Z;
  sys_read : K -> Z -> Z -> K * Z * bytes
}.

(** ** The operating system's visible state *)

Record OsView := mkOs {
  (** file status flags; the domain is the set of open descriptors *)
  os_flags : gmap Z Z;
  (** the bytes each socket has accepted for sending so far *)
  os_out : gmap Z bytes;
  (** the bytes each socket's peer has sent or will send, not received yet *)
  os_in : gmap Z bytes;
  (** the counter of each eventfd *)
  os_count : gmap Z Z;
  (** the interest list of each epoll instance: the event each descriptor was
      last registered with, mask and user data *)
  os_interest : gmap Z (gmap Z epoll_event);
  (** the byte streams of the clients that have connected or will connect
      and are not accepted yet *)
  os_clients : list bytes;
  (** how many more times a signal interrupts a call *)
  os_signals : nat
}.

Definition is_open (v : OsView) (fd : Z) : Prop := is_Some (os_flags v !! fd).
Definition outbound (v : OsView) (fd : Z) : bytes := default [] (os_out v !! fd).
Definition incoming (v : OsView) (fd : Z) : bytes := default [] (os_in v !! fd).
Definition counter (v : OsView) (fd : Z) : Z := default 0 (os_count v !! fd).
Definition interest (v : OsView) (ep : Z) : gmap Z epoll_event := default ∅ (os_interest v !! ep).

Definition set_flags fd f (v : OsView) :=
  mkOs (<[fd := f]> (os_flags v)) (os_out v) (os_in v) (os_count v) (os_interest v)
    (os_clients v) (os_signals v).
Definition set_out fd d (v : OsView) :=
  mkOs (os_flags v) (<[fd := d]> (os_out v)) (os_in v) (os_count v) (os_interest v)
    (os_clients v) (os_signals v).
Definition set_in fd d (v : OsView) :=
  mkOs (os_flags v) (os_out v) (<[fd := d]> (os_in v)) (os_count v) (os_interest v)
    (os_clients v) (os_signals v).
Definition set_count fd c (v : OsView) :=
  mkOs (os_flags v) (os_out v) (os_in v) (<[fd := c]> (os_count v)) (os_interest v)
    (os_clients v) (os_signals v).
Definition set_interest ep m (v : OsView) :=
  mkOs (os_flags v) (os_out v) (os_in v) (os_count v) (<[ep := m]> (os_interest v))
    (os_clients v) (os_signals v).
Definition set_clients l (v : OsView) :=
  mkOs (os_flags v) (os_out v) (os_in v) (os_count v) (os_interest v) l (os_signals v).
Definition interrupted (v : OsView) :=
  mkOs (os_flags v) (os_out v) (os_in v) (os_count v) (os_interest v)
    (os_clients v) (pred (os_signals v)).

(** Closing the last descriptor of an open file releases everything attached
    to it and takes it out of every interest list. *)
Definition close_fd fd (v : OsView) :=
  mkOs (delete fd (os_flags v)) (delete fd (os_out v)) (delete fd (os_in v))
    (delete fd (os_count v)) (delete fd (delete fd <$> os_interest v))
    (os_clients v) (os_signals v).

(** ** What each call may do

    [call_rel v args ret err v']: in state [v], the call may return [ret], set
    [errno] to [err] and leave [v'].  [EINTR] means that a signal arrived; how
    many arrive is finite ([os_signals]). *)

Inductive send_rel (v : OsView) (fd : Z) (d : bytes) : Z -> Z -> OsView -> Prop :=
| send_ok n e :
    0 < n <= len d -> send_rel v fd d n e (set_out fd (outbound v fd ++ upto n d) v)
| send_zero e : send_rel v fd d 0 e v
| send_intr : (0 < os_signals v)%nat -> send_rel v fd d (-1) EINTR (interrupted v)
| send_err e : e <> EINTR -> send_rel v fd d (-1) e v.

Inductive recv_rel (v : OsView) (fd : Z) (size : Z) : Z -> Z -> bytes -> OsView -> Prop :=
| recv_ok d rest e :
    0 < len d <= size -> incoming v fd = d ++ rest ->
    recv_rel v fd size (len d) e d (set_in fd rest v)
| recv_eof e : incoming v fd = [] -> recv_rel v fd size 0 e [] v
| recv_intr : (0 < os_signals v)%nat -> recv_rel v fd size (-1) EINTR [] (interrupted v)
| recv_err e : e <> EINTR -> recv_rel v fd size (-1) e [] v.

Inductive accept_rel (v : OsView) (lfd : Z) (fl : Z) : Z -> Z -> OsView -> Prop :=
| accept_ok fd s rest e :
    0 <= fd -> ~ is_open v fd -> os_clients v = s :: rest ->
    accept_rel v lfd fl fd e
      (set_flags fd (Z.land fl O_NONBLOCK) (set_out fd [] (set_in fd s (set_clients rest v))))
| accept_intr : (0 < os_signals v)%nat -> accept_rel v lfd fl (-1) EINTR (interrupted v)
| accept_err e : 0 < e -> e <> EINTR -> accept_rel v lfd fl (-1) e v.

Inductive close_rel (v : OsView) (fd : Z) : Z -> OsView -> Prop :=
| close_any r : close_rel v fd r (close_fd fd v).

Inductive fcntl_rel (v : OsView) (fd : Z) : Z -> Z -> Z -> Z -> OsView -> Prop :=
| getfl_ok f a e :
    os_flags v !! fd = Some f -> 0 <= f -> fcntl_rel v fd F_GETFL a f e v
| setfl_ok f f' e r :
    os_flags v !! fd = Some f -> r <> -1 -> fcntl_rel v fd F_SETFL f' r e (set_flags fd f' v)
| fcntl_err op a e : fcntl_rel v fd op a (-1) e v.

Inductive epoll_ctl_rel (v : OsView) (ep : Z) (fd : Z) :
    Z -> option epoll_event -> Z -> Z -> OsView -> Prop :=
| ctl_add ev e :
    interest v ep !! fd = None ->
    epoll_ctl_rel v ep fd EPOLL_CTL_ADD (Some ev) 0 e
      (set_interest ep (<[fd := ev]> (interest v ep)) v)
| ctl_mod ev e :
    is_Some (interest v ep !! fd) ->
    epoll_ctl_rel v ep fd EPOLL_CTL_MOD (Some ev) 0 e
      (set_interest ep (<[fd := ev]> (interest v ep)) v)
| ctl_del o e :
    is_Some (interest v ep !! fd) ->
    epoll_ctl_rel v ep fd EPOLL_CTL_DEL o 0 e
      (set_interest ep (delete fd (interest v ep)) v)
| ctl_err op o e : epoll_ctl_rel v ep fd op o (-1) e v.

(** Each registered descriptor is reported at most once, as the user data it
    was registered with. *)
Inductive epoll_wait_rel (v : OsView) (ep : Z) (maxevents : Z) :
    Z -> Z -> list epoll_event -> OsView -> Prop :=
| wait_ok fds evs e :
    len evs <= maxevents -> NoDup fds ->
    Forall2 (fun fd ev => exists registered,
      interest v ep !! fd = Some registered /\ data_fd ev = data_fd registered) fds evs ->
    epoll_wait_rel v ep maxevents (len evs) e evs v
| wait_intr : (0 < os_signals v)%nat ->
    epoll_wait_rel v ep maxevents (-1) EINTR [] (interrupted v)
| wait_err e : 0 < e -> e <> EINTR -> epoll_wait_rel v ep maxevents (-1) e [] v.

(** The value an eventfd's counter never exceeds (eventfd(2)). *)
Definition eventfd_max : Z := 2 ^ 64 - 2.

Inductive eventfd_write_rel (v : OsView) (fd : Z) (value : Z) : Z -> Z -> OsView -> Prop :=
| efd_write_ok e :
    counter v fd + value <= eventfd_max ->
    eventfd_write_rel v fd value 8 e (set_count fd (counter v fd + value) v)
| efd_write_full :
    eventfd_max < counter v fd + value -> eventfd_write_rel v fd value (-1) EAGAIN v
| efd_write_intr : (0 < os_signals v)%nat ->
    eventfd_write_rel v fd value (-1) EINTR (interrupted v)
| efd_write_err e : 0 < e -> e <> EINTR -> e <> EAGAIN -> eventfd_write_rel v fd value (-1) e v.

Inductive eventfd_read_rel (v : OsView) (fd : Z) : Z -> Z -> Z -> OsView -> Prop :=
| efd_read_ok e :
    0 < counter v fd -> eventfd_read_rel v fd 8 e (counter v fd) (set_count fd 0 v)
| efd_read_empty : counter v fd = 0 -> eventfd_read_rel v fd (-1) EAGAIN 0 v
| efd_read_intr : (0 < os_signals v)%nat ->
    eventfd_read_rel v fd (-1) EINTR 0 (interrupted v)
| efd_read_err e : 0 < e -> e <> EINTR -> e <> EAGAIN -> eventfd_read_rel v fd (-1) e 0 v.

Inductive epoll_create_rel (v : OsView) : Z -> Z -> OsView -> Prop :=
| epoll_create_ok fd e :
    0 <= fd -> ~ is_open v fd ->
    epoll_create_rel v fd e (set_flags fd 0 (set_interest fd ∅ v))
| epoll_create_err e : 0 < e -> epoll_create_rel v (-1) e v.

Inductive eventfd_rel (v : OsView) (initial fl : Z) : Z -> Z -> OsView -> Prop :=
| eventfd_ok fd e :
    0 <= fd -> ~ is_open v fd ->
    eventfd_rel v initial fl fd e
      (set_flags fd (Z.land fl O_NONBLOCK) (set_count fd initial v))
| eventfd_err e : 0 < e -> eventfd_rel v initial fl (-1) e v.

(** ** The laws

    [view] is the operating system's state as the laws see it; it is not
    computed by the program. *)
Class KernelView (K : Type) := view : K -> OsView.

Class KernelLaws (K : Type) `{Host} {KO : Kernel K} {KV : KernelView K} : Prop := {
  send_law k fd d fl k' r :
    sys_send k fd d fl = (k', r) -> send_rel (view k) fd d r (errno k') (view k');
  recv_law k fd size fl k' r d :
    0 < size -> sys_recv k fd size fl = (k', r, d) ->
    recv_rel (view k) fd size r (errno k') d (view k');
  accept_law k lfd fl k' r :
    sys_accept4 k lfd fl = (k', r) -> accept_rel (view k) lfd fl r (errno k') (view k');
  close_law k fd k' r :
    sys_close k fd = (k', r) -> close_rel (view k) fd r (view k');
  fcntl_law k fd op a k' r :
    sys_fcntl k fd op a = (k', r) -> fcntl_rel (view k) fd op a r (errno k') (view k');
  epoll_create_law k fl k' r :
    sys_epoll_create1 k fl = (k', r) -> epoll_create_rel (view k) r (errno k') (view k');
  epoll_ctl_law k ep op fd ev k' r :
    sys_epoll_ctl k ep op fd ev = (k', r) ->
    epoll_ctl_rel (view k) ep fd op ev r (errno k') (view k');
  epoll_wait_law k ep n timeout k' r evs :
    0 < n -> sys_epoll_wait k ep n timeout = (k', r, evs) ->
    epoll_wait_rel (view k) ep n r (errno k') evs (view k');
  eventfd_law k initial fl k' r :
    sys_eventfd k initial fl = (k', r) ->
    eventfd_rel (view k) initial fl r (errno k') (view k');
  write_law k fd value k' r :
    is_Some (os_count (view k) !! fd) -> 0 < value < 2 ^ 64 ->
    sys_write k fd (store_uint native 8 value) = (k', r) ->
    eventfd_write_rel (view k) fd value r (errno k') (view k');
  read_law k fd k' r d :
    is_Some (os_count (view k) !! fd) ->
    sys_read k fd 8 = (k', r, d) ->
    exists c, eventfd_read_rel (view k) fd r (errno k') c (view k') /\
      (r = 8 -> d = store_uint native 8 c) /\ (r < 0 -> d = [])
}.

(** ** Lemmas on the view *)

Lemma outbound_set_out fd fd' d v :
  outbound (set_out fd d v) fd' = if decide (fd = fd') then d else outbound v fd'.
Proof. unfold outbound, set_out; simpl; rewrite lookup_insert; case_decide; done. Qed.

Lemma incoming_set_in fd fd' d v :
  incoming (set_in fd d v) fd' = if decide (fd = fd') then d else incoming v fd'.
Proof. unfold incoming, set_in; simpl; rewrite lookup_insert; case_decide; done. Qed.

Lemma counter_set_count fd fd' c v :
  counter (set_count fd c v) fd' = if decide (fd = fd') then c else counter v fd'.
Proof. unfold counter, set_count; simpl; rewrite lookup_insert; case_decide; done. Qed.

Lemma interest_set_interest ep ep' m v :
  interest (set_interest ep m v) ep' = if decide (ep = ep') then m else interest v ep'.
Proof. unfold interest, set_interest; simpl; rewrite lookup_insert; case_decide; done. Qed.

#[export] Hint Rewrite outbound_set_out incoming_set_in counter_set_count
  interest_set_interest : os.

(** [moved fd out inn v v']: between [v] and [v'] the bytes [out] were accepted
    for sending on [fd], the bytes [inn] were received from it, signals may
    have arrived, and nothing else changed. *)
Record moved (fd : Z) (out inn : bytes) (v v' : OsView) : Prop := Moved {
  moved_flags : os_flags v' = os_flags v;
  moved_count : os_count v' = os_count v;
  moved_interest : os_interest v' = os_interest v;
  moved_clients : os_clients v' = os_clients v;
  moved_signals : (os_signals v' <= os_signals v)%nat;
  moved_out : outbound v' fd = outbound v fd ++ out;
  moved_in : incoming v fd = inn ++ incoming v' fd;
  moved_others fd' :
    fd' <> fd -> outbound v' fd' = outbound v fd' /\ incoming v' fd' = incoming v fd'
}.

Lemma moved_refl fd v : moved fd [] [] v v.
Proof. by split; rewrite ?app_nil_r. Qed.

Lemma moved_trans fd o1 i1 o2 i2 v1 v2 v3 :
  moved fd o1 i1 v1 v2 -> moved fd o2 i2 v2 v3 -> moved fd (o1 ++ o2) (i1 ++ i2) v1 v3.
Proof.
  intros [] []; split; try congruence; try lia.
  - rewrite app_assoc; congruence.
  - rewrite <-app_assoc; congruence.
  - intros fd' Hne; destruct (moved_others0 fd' Hne), (moved_others1 fd' Hne); split; congruence.
Qed.

Lemma moved_send fd d v : moved fd d [] v (set_out fd (outbound v fd ++ d) v).
Proof.
  split; try done; autorewrite with os; rewrite ?decide_True by done; try done.
  intros fd' Hne; rewrite outbound_set_out, decide_False by congruence; done.
Qed.

Lemma moved_recv fd d rest v : incoming v fd = d ++ rest -> moved fd [] d v (set_in fd rest v).
Proof.
  intros E; split; try done; autorewrite with os; rewrite ?decide_True, ?app_nil_r by done;
    try done.
  intros fd' Hne; rewrite incoming_set_in, decide_False by congruence; done.
Qed.

Lemma moved_interrupted fd v : moved fd [] [] v (interrupted v).
Proof. split; simpl; rewrite ?app_nil_r; try done; lia. Qed.

#[export] Hint Resolve moved_refl moved_send moved_recv moved_interrupted : netpulse.

(** The stream calls' laws in terms of [moved]: what the I/O loops use. *)
Section StreamCalls.
  Context {K : Type} `{KL : KernelLaws K}.

Lemma send_moved k fd d fl k' r :
  sys_send k fd d fl = (k', r) ->
  (0 < r <= len d /\ moved fd (upto r d) [] (view k) (view k')) \/
  (r <= 0 /\ moved fd [] [] (view k) (view k') /\
   (r <> 0 -> errno k' = EINTR -> (os_signals (view k') < os_signals (view k))%nat)).
Proof.
  intros E%send_law; inversion E as [n e Hn|e|Hs|e He]; subst;
    [left; split; [done|apply moved_send]|right..];
    (split; [lia|split; [auto with netpulse|]]); try done; simpl; lia.
Qed.

Lemma recv_moved k fd size fl k' r d :
  0 < size -> sys_recv k fd size fl = (k', r, d) ->
  (0 < r <= size /\ len d = r /\ moved fd [] d (view k) (view k')) \/
  (r = 0 /\ incoming (view k) fd = [] /\ moved fd [] [] (view k) (view k')) \/
  (r < 0 /\ moved fd [] [] (view k) (view k') /\
   (errno k' = EINTR -> (os_signals (view k') < os_signals (view k))%nat)).
Proof.
  intros Hsz E%recv_law; [|done].
  inversion E as [d' rest e Hd Hin|e Hin|Hs|e He]; subst;
    [left; split; [done|split; [done|by apply moved_recv]]|right; left; auto with netpulse|right; right..];
    (split; [lia|split; [auto with netpulse|]]); try done; simpl; lia.
Qed.
End StreamCalls.
