(* ===== verification/SimKernel.v ===== *)
(** * A concrete kernel

    An executable kernel that obeys [KernelLaws]: it keeps an [OsView], the
    last error, and a script that decides how each call ends (a positive entry
    bounds the bytes it moves, any other entry [-e] makes it fail with error
    [e]).  The concrete runs of the program use it, and it shows that the laws
    the theorems assume can hold. *)

From S2P Require Import Prelude Endian Kernel.

Record Sim := mkSim { sim_view : OsView; sim_errno : Z; sim_script : list Z;
                      sim_ready : list (list epoll_event) }.

#[export] Instance sim_host : Host := Little.

Definition os_empty : OsView := mkOs ∅ ∅ ∅ ∅ ∅ [] 0.

(** The next entry of the script; an empty script lets every call succeed. *)
Definition sim_next (k : Sim) : Z * Sim :=
  match sim_script k with
  | [] => (2 ^ 32, k)
  | o :: s => (o, mkSim (sim_view k) (sim_errno k) s (sim_ready k))
  end.

Definition sim_set (v : OsView) (k : Sim) : Sim :=
  mkSim v (sim_errno k) (sim_script k) (sim_ready k).

Definition sim_error (e : Z) (k : Sim) : Sim :=
  mkSim (sim_view k) e (sim_script k) (sim_ready k).

(** A failing call's error is positive; no error is reported as an interruption unless a signal
    is left, nor as [EAGAIN] unless the call allows it. *)
Definition sim_fail (again : bool) (e : Z) (k : Sim) : Sim :=
  if e =? EINTR then
    match os_signals (sim_view k) with
    | O => sim_error EIO k
    | S _ => sim_error EINTR (sim_set (interrupted (sim_view k)) k)
    end
  else if (negb again && (e =? EAGAIN)) || (e <=? 0) then sim_error EIO k
  else sim_error e k.

(** The lowest unused descriptor of a table of 64. *)
Definition sim_free (v : OsView) : option Z :=
  find (fun fd => bool_decide (os_flags v !! fd = None)) (seqZ 3 64).

Definition sim_send (k : Sim) (fd : Z) (d : bytes) (fl : Z) : Sim * Z :=
  let '(o, k) := sim_next k in
  let v := sim_view k in
  if (0 <? o) && (0 <? len d) then
    let n := o `min` len d in (sim_set (set_out fd (outbound v fd ++ upto n d) v) k, n)
  else if o <? 0 then (sim_fail true (- o) k, -1)
  else (k, 0).

Definition sim_recv (k : Sim) (fd size fl : Z) : Sim * Z * bytes :=
  let '(o, k) := sim_next k in
  let v := sim_view k in
  if (0 <? o) && (0 <? size) then
    match incoming v fd with
    | [] => (k, 0, [])
    | inc =>
        let d := upto (o `min` size) inc in
        (sim_set (set_in fd (from (o `min` size) inc) v) k, len d, d)
    end
  else (sim_fail true (- o) k, -1, []).

Definition sim_accept (k : Sim) (lfd fl : Z) : Sim * Z :=
  let '(o, k) := sim_next k in
  let v := sim_view k in
  if 0 <? o then
    match os_clients v, sim_free v with
    | s :: rest, Some fd =>
        (sim_set (set_flags fd (Z.land fl O_NONBLOCK)
                    (set_out fd [] (set_in fd s (set_clients rest v)))) k, fd)
    | _, _ => (sim_fail true EAGAIN k, -1)
    end
  else (sim_fail true (- o) k, -1).

Definition sim_close (k : Sim) (fd : Z) : Sim * Z :=
  (sim_set (close_fd fd (sim_view k)) k, 0).

Definition sim_fcntl (k : Sim) (fd op a : Z) : Sim * Z :=
  let '(o, k) := sim_next k in
  let v := sim_view k in
  match os_flags v !! fd with
  | Some f =>
      if (0 <? o) && (op =? F_GETFL) && (0 <=? f) then (k, f)
      else if (0 <? o) && (op =? F_SETFL) then (sim_set (set_flags fd a v) k, 0)
      else (sim_error (- o) k, -1)
  | None => (sim_error EBADF k, -1)
  end.

Definition sim_epoll_create (k : Sim) (fl : Z) : Sim * Z :=
  let v := sim_view k in
  match sim_free v with
  | Some fd => (sim_set (set_flags fd 0 (set_interest fd ∅ v)) k, fd)
  | None => (sim_error EINVAL k, -1)
  end.

Definition sim_epoll_ctl (k : Sim) (ep op fd : Z) (ev : option epoll_event) : Sim * Z :=
  let '(o, k) := sim_next k in
  let v := sim_view k in
  let m := interest v ep in
  let fails e := (sim_error e k, -1) in
  if 0 <? o then
    match m !! fd, ev with
    | None, Some e =>
        if op =? EPOLL_CTL_ADD then (sim_set (set_interest ep (<[fd := e]> m) v) k, 0)
        else fails ENOENT
    | Some _, Some e =>
        if op =? EPOLL_CTL_MOD then (sim_set (set_interest ep (<[fd := e]> m) v) k, 0)
        else if op =? EPOLL_CTL_DEL then (sim_set (set_interest ep (delete fd m) v) k, 0)
        else fails EINVAL
    | Some _, None =>
        if op =? EPOLL_CTL_DEL then (sim_set (set_interest ep (delete fd m) v) k, 0)
        else fails EINVAL
    | None, None => fails ENOENT
    end
  else fails (- o).

(** The script's events name descriptors; what is reported is their user data. *)
Definition sim_report (m : gmap Z epoll_event) (ev : epoll_event) : epoll_event :=
  EpollEvent (events ev) (default (-1) (data_fd <$> m !! data_fd ev)).

Definition sim_epoll_wait (k : Sim) (ep n timeout : Z) : Sim * Z * list epoll_event :=
  let '(o, k) := sim_next k in
  let m := interest (sim_view k) ep in
  match sim_ready k with
  | evs :: rest =>
      let k' := mkSim (sim_view k) (sim_errno k) (sim_script k) rest in
      if (0 <? o) && (len evs <=? n)
         && bool_decide (Forall (fun ev => is_Some (m !! data_fd ev)) evs)
         && bool_decide (NoDup (data_fd <$> evs))
      then (k', len evs, sim_report m <$> evs)
      else (sim_fail true (- o) k', -1, [])
  | [] => (sim_fail true EINVAL k, -1, [])
  end.

Definition sim_eventfd (k : Sim) (initial fl : Z) : Sim * Z :=
  let v := sim_view k in
  match sim_free v with
  | Some fd => (sim_set (set_flags fd (Z.land fl O_NONBLOCK) (set_count fd initial v)) k, fd)
  | None => (sim_error EINVAL k, -1)
  end.

Definition sim_write (k : Sim) (fd : Z) (d : bytes) : Sim * Z :=
  let '(o, k) := sim_next k in
  let v := sim_view k in
  if 0 <? o then
    let c := counter v fd + load_uint native d in
    if c <=? eventfd_max then (sim_set (set_count fd c v) k, 8)
    else (sim_error EAGAIN k, -1)
  else (sim_fail false (- o) k, -1).

Definition sim_read (k : Sim) (fd n : Z) : Sim * Z * bytes :=
  let '(o, k) := sim_next k in
  let v := sim_view k in
  if 0 <? o then
    if 0 <? counter v fd
    then (sim_set (set_count fd 0 v) k, 8, store_uint native 8 (counter v fd))
    else if counter v fd =? 0 then (sim_error EAGAIN k, -1, [])
    else (sim_error EIO k, -1, [])
  else (sim_fail false (- o) k, -1, []).

#[export] Instance sim_kernel : Kernel Sim := {
  errno := sim_errno;
  sys_send := sim_send;
  sys_recv := sim_recv;
  sys_accept4 := sim_accept;
  sys_close := sim_close;
  sys_fcntl := sim_fcntl;
  sys_epoll_create1 := sim_epoll_create;
  sys_epoll_ctl := sim_epoll_ctl;
  sys_epoll_wait := sim_epoll_wait;
  sys_eventfd := sim_eventfd;
  sys_write := sim_write;
  sys_read := sim_read
}.

#[export] Instance sim_kernel_view : KernelView Sim := sim_view.

(** A socket, descriptor 3, with the given bytes to receive; calls end as the
    script says. *)
Definition sim_socket (inc : bytes) (signals : nat) (script : list Z) : Sim :=
  mkSim (mkOs {[3 := 0]} ∅ {[3 := inc]} ∅ ∅ [] signals) 0 script [].

(** ** The laws hold *)

Lemma sim_next_view k o k' : sim_next k = (o, k') -> sim_view k' = sim_view k.
Proof. unfold sim_next; split_cases; intros; simplify_eq; done. Qed.

(** How a failing call leaves the view. *)
Lemma sim_fail_spec again e k :
  (sim_errno (sim_fail again e k) = EINTR /\ (0 < os_signals (sim_view k))%nat /\
   sim_view (sim_fail again e k) = interrupted (sim_view k)) \/
  (0 < sim_errno (sim_fail again e k) /\ sim_errno (sim_fail again e k) <> EINTR /\
   (again = false -> sim_errno (sim_fail again e k) <> EAGAIN) /\
   sim_view (sim_fail again e k) = sim_view k).
Proof.
  unfold sim_fail; destruct (e =? EINTR) eqn:E1; zbool.
  - destruct (os_signals (sim_view k)) eqn:E; simpl; [right|left]; naive_solver lia.
  - right; destruct again, (e =? EAGAIN) eqn:E2, (e <=? 0) eqn:E3; zbool; simpl;
      split_and!; try done; errno_lia.
Qed.

Lemma sim_free_spec v fd : sim_free v = Some fd -> 0 <= fd /\ ~ is_open v fd.
Proof.
  unfold sim_free, is_open; intros [Hin Hb]%find_some.
  apply list_elem_of_In, elem_of_seqZ in Hin. apply bool_decide_eq_true in Hb.
  rewrite Hb; split; [lia|]. by intros [??].
Qed.

(** Runs a call's definition to the end of each branch. *)
Ltac sim_call f :=
  intros;
  match goal with
  | E : _ = (_, _) |- _ =>
      simpl in E; unfold f in E;
      match type of E with
      | context [sim_next ?k] => let N := fresh "N" in
          destruct (sim_next k) eqn:N; apply sim_next_view in N
      | _ => idtac
      end
  end;
  unfold view, sim_kernel_view in *;
  repeat match goal with N : sim_view ?s = sim_view ?k |- _ => rewrite <-N in *; clear N end;
  repeat case_match; simplify_eq; zbool; simpl in *.

(** Closes the branches that end in [sim_fail]. *)
Ltac sim_failed :=
  match goal with
  | |- context [sim_fail ?b ?e ?k] =>
      destruct (sim_fail_spec b e k) as [(E1&?&E2)|(?&?&?&E2)]; rewrite ?E1, ?E2;
      constructor; auto
  end.

Section SimLaws.
  Implicit Types k : Sim.

Lemma sim_send_law k fd d fl k' r :
  sys_send k fd d fl = (k', r) -> send_rel (view k) fd d r (errno k') (view k').
Proof. sim_call sim_send; [constructor; lia|sim_failed|constructor]. Qed.

Lemma sim_recv_law k fd size fl k' r d :
  0 < size -> sys_recv k fd size fl = (k', r, d) ->
  recv_rel (view k) fd size r (errno k') d (view k').
Proof.
  sim_call sim_recv; [by constructor| |sim_failed].
  match goal with |- context [?b :: ?l] =>
    assert (0 < len (b :: l)) by (rewrite len_cons; pose proof (len_nonneg l); lia)
  end.
  constructor; [|by rewrite upto_from].
  rewrite len_upto_min by lia. lia.
Qed.

Lemma sim_accept_law k lfd fl k' r :
  sys_accept4 k lfd fl = (k', r) -> accept_rel (view k) lfd fl r (errno k') (view k').
Proof.
  sim_call sim_accept; try first [by constructor | sim_failed].
  match goal with E : sim_free _ = Some _ |- _ => apply sim_free_spec in E as [??] end.
  by constructor.
Qed.

Lemma sim_close_law k fd k' r :
  sys_close k fd = (k', r) -> close_rel (view k) fd r (view k').
Proof. sim_call sim_close; constructor. Qed.

Lemma sim_fcntl_law k fd op a k' r :
  sys_fcntl k fd op a = (k', r) -> fcntl_rel (view k) fd op a r (errno k') (view k').
Proof. sim_call sim_fcntl; subst; econstructor; eauto; lia. Qed.

Lemma sim_epoll_create_law k fl k' r :
  sys_epoll_create1 k fl = (k', r) -> epoll_create_rel (view k) r (errno k') (view k').
Proof.
  sim_call sim_epoll_create; [|by constructor].
  match goal with E : sim_free _ = Some _ |- _ => apply sim_free_spec in E as [??] end.
  by constructor.
Qed.

Lemma sim_epoll_ctl_law k ep op fd ev k' r :
  sys_epoll_ctl k ep op fd ev = (k', r) ->
  epoll_ctl_rel (view k) ep fd op ev r (errno k') (view k').
Proof. sim_call sim_epoll_ctl; subst; constructor; eauto. Qed.

Lemma sim_report_law v ep n l e :
  len l <= n -> Forall (fun ev => is_Some (interest v ep !! data_fd ev)) l ->
  NoDup (data_fd <$> l) ->
  epoll_wait_rel v ep n (len l) e (sim_report (interest v ep) <$> l) v.
Proof.
  intros Hn Hl Hnd. assert (El : len l = len (sim_report (interest v ep) <$> l))
    by (unfold len; by rewrite length_fmap).
  rewrite El in *. apply (wait_ok _ _ _ (data_fd <$> l)); [done|done|].
  apply Forall2_fmap, Forall_Forall2_diag. apply (Forall_impl _ _ _ Hl).
  intros ev [registered Hr]. exists registered. unfold sim_report. by rewrite Hr.
Qed.

Lemma sim_epoll_wait_law k ep n timeout k' r evs :
  0 < n -> sys_epoll_wait k ep n timeout = (k', r, evs) ->
  epoll_wait_rel (view k) ep n r (errno k') evs (view k').
Proof.
  sim_call sim_epoll_wait; try first [by constructor | sim_failed].
  apply sim_report_law; [done|by eapply bool_decide_eq_true_1..].
Qed.

Lemma sim_eventfd_law k initial fl k' r :
  sys_eventfd k initial fl = (k', r) ->
  eventfd_rel (view k) initial fl r (errno k') (view k').
Proof.
  sim_call sim_eventfd; [|by constructor].
  match goal with E : sim_free _ = Some _ |- _ => apply sim_free_spec in E as [??] end.
  by constructor.
Qed.

Lemma sim_write_law k fd value k' r :
  is_Some (os_count (view k) !! fd) -> 0 < value < 2 ^ 64 ->
  sys_write k fd (store_uint native 8 value) = (k', r) ->
  eventfd_write_rel (view k) fd value r (errno k') (view k').
Proof.
  intros _ Hv; simpl; unfold sim_write; rewrite load_store_uint by (change (256 ^ Z.of_nat 8) with (2 ^ 64); lia).
  sim_call sim_write; [by constructor|by constructor|].
  match goal with
  | |- context [sim_fail ?b ?e ?k] =>
      destruct (sim_fail_spec b e k) as [(E1&?&E2)|(?&?&?&E2)]; rewrite ?E1, ?E2;
      constructor; auto
  end.
Qed.

Lemma sim_read_law k fd k' r d :
  is_Some (os_count (view k) !! fd) ->
  sys_read k fd 8 = (k', r, d) ->
  exists c, eventfd_read_rel (view k) fd r (errno k') c (view k') /\
    (r = 8 -> d = store_uint native 8 c) /\ (r < 0 -> d = []).
Proof.
  sim_call sim_read; eexists; (split; [|split; (done || lia)]);
    try by constructor. sim_failed.
Qed.

#[export] Instance sim_kernel_laws : KernelLaws Sim.
Proof.
  split; eauto using sim_send_law, sim_recv_law, sim_accept_law, sim_close_law,
    sim_fcntl_law, sim_epoll_create_law, sim_epoll_ctl_law, sim_epoll_wait_law,
    sim_eventfd_law, sim_write_law, sim_read_law.
Qed.
End SimLaws.

(** Replaces the results of a finished run [E : call = Some (...)] by their
    values. *)
Ltac sim_eval E :=
  let E' := fresh in
  pose proof E as E'; vm_compute in E'; injection E'; clear E'; intros; subst.
