(* ===== verification/Sockets.v ===== *)
(** * Opening and connecting sockets

    The system calls that only the two programs make, as the class
    [SocketCalls] beside [Kernel], with their documented behaviour as the laws
    [SocketLaws], and their implementation by the concrete kernel. *)

From Stdlib Require Import Strings.String.
From S2P Require Import Prelude Endian Kernel SimKernel.

Definition AF_INET : Z := 2.
Definition SOCK_STREAM : Z := 1.
Definition SOL_SOCKET : Z := 1.
Definition SO_REUSEADDR : Z := 2.
Definition INADDR_ANY : Z := 0.

(** [struct sockaddr_in]; port and address are in network byte order. *)
Record sockaddr_in := mkSockaddrIn { sin_family : Z; sin_port : Z; sin_addr : Z }.

(** [htons], as [Endian.htonl] for two bytes. *)
Definition htons `{Host} (v : Z) : Z := load_uint native (store_uint Big 2 v).

(** [inet_pton] returns 1 and the address if the text is one. *)
Class SocketCalls (K : Type) := {
  sys_socket : K -> Z -> Z -> Z -> K * Z;
  sys_setsockopt : K -> Z -> Z -> Z -> Z -> K * Z;
  sys_bind : K -> Z -> sockaddr_in -> K * Z;
  sys_listen : K -> Z -> Z -> K * Z;
  sys_connect : K -> Z -> sockaddr_in -> K * Z;
  inet_pton : Z -> string -> Z * Z
}.

Inductive socket_rel (v : OsView) (type : Z) : Z -> OsView -> Prop :=
| socket_ok fd :
    0 <= fd -> ~ is_open v fd ->
    socket_rel v type fd
      (set_flags fd (Z.land type O_NONBLOCK) (set_out fd [] (set_in fd [] v)))
| socket_err : socket_rel v type (-1) v.

(** After connecting, [stream] is what the peer sends or will send. *)
Inductive connect_rel (v : OsView) (fd : Z) : Z -> OsView -> Prop :=
| connect_ok stream : connect_rel v fd 0 (set_in fd stream v)
| connect_err : connect_rel v fd (-1) v.

Class SocketLaws (K : Type) `{Host} {KO : Kernel K} {KV : KernelView K} {KS : SocketCalls K} : Prop := {
  socket_law k domain type protocol k' r :
    sys_socket k domain type protocol = (k', r) -> socket_rel (view k) type r (view k');
  setsockopt_law k fd level name value k' r :
    sys_setsockopt k fd level name value = (k', r) -> (r = 0 \/ r = -1) /\ view k' = view k;
  bind_law k fd a k' r :
    sys_bind k fd a = (k', r) -> (r = 0 \/ r = -1) /\ view k' = view k;
  listen_law k fd backlog k' r :
    sys_listen k fd backlog = (k', r) -> (r = 0 \/ r = -1) /\ view k' = view k;
  connect_law k fd a k' r :
    sys_connect k fd a = (k', r) -> connect_rel (view k) fd r (view k')
}.

(** ** The concrete kernel

    Its script decides whether a call succeeds; the peer of a connected socket
    sends the first of the streams to come. *)

Definition sim_new_socket (k : Sim) (domain type protocol : Z) : Sim * Z :=
  let '(o, k) := sim_next k in
  let v := sim_view k in
  match sim_free v with
  | Some fd =>
      if 0 <? o then
        (sim_set (set_flags fd (Z.land type O_NONBLOCK) (set_out fd [] (set_in fd [] v))) k, fd)
      else (sim_error (- o) k, -1)
  | None => (sim_error EINVAL k, -1)
  end.

Definition sim_succeeds (k : Sim) : Sim * Z :=
  let '(o, k) := sim_next k in if 0 <? o then (k, 0) else (sim_error (- o) k, -1).

Definition sim_connect (k : Sim) (fd : Z) (a : sockaddr_in) : Sim * Z :=
  let '(o, k) := sim_next k in
  let v := sim_view k in
  if 0 <? o then (sim_set (set_in fd (default [] (head (os_clients v))) v) k, 0)
  else (sim_error (- o) k, -1).

#[export] Instance sim_socket_calls : SocketCalls Sim := {
  sys_socket := sim_new_socket;
  sys_setsockopt k _ _ _ _ := sim_succeeds k;
  sys_bind k _ _ := sim_succeeds k;
  sys_listen k _ _ := sim_succeeds k;
  sys_connect := sim_connect;
  inet_pton _ text := if String.eqb text "127.0.0.1" then (1, 0x0100007F) else (0, 0)
}.

Lemma sim_succeeds_law k k' r :
  sim_succeeds k = (k', r) -> (r = 0 \/ r = -1) /\ view k' = view k.
Proof. sim_call sim_succeeds; auto. Qed.

#[export] Instance sim_socket_laws : SocketLaws Sim.
Proof.
  split.
  - sim_call sim_new_socket; try apply socket_err.
    match goal with E : sim_free _ = Some _ |- _ => apply sim_free_spec in E as [??] end.
    by apply socket_ok.
  - intros k fd level name value k' r. apply sim_succeeds_law.
  - intros k fd a k' r. apply sim_succeeds_law.
  - intros k fd backlog k' r. apply sim_succeeds_law.
  - sim_call sim_connect; constructor.
Qed.
