(* ===== verification/Io.v ===== *)
(** * Reliable socket I/O: [network/io.hpp], [network/io.cpp]

    [sendAll] and [receiveExact] repeat [send] and [recv] until the whole span
    is transferred or the call reports something else. *)

From S2P Require Import Prelude Kernel SimKernel.

(** ** Data *)

Inductive IoStatus :=
| IoStatus_completed
| IoStatus_peer_closed
| IoStatus_would_block
| IoStatus_error.

#[export] Instance IoStatus_eq_dec : EqDecision IoStatus.
Proof. solve_decision. Defined.

Record IoResult := mkIoResult {
  status : IoStatus;
  bytes_transferred : Z;
  error_number : Z
}.

Definition completed (r : IoResult) : bool := bool_decide (status r = IoStatus_completed).

(** ** Operations *)

Section Io.
  Context {K : Type} `{Kernel K}.

Definition sendAll_body (fd : Z) (data : bytes) (s : K * Z) : (K * Z) + (K * IoResult) :=
  let '(k, total_sent) := s in
  if total_sent <? len data then
    let '(k, sent) := sys_send k fd (from total_sent data) MSG_NOSIGNAL in
    if 0 <? sent then inl (k, total_sent ⊕ sent)
    else if sent =? 0 then inr (k, mkIoResult IoStatus_error total_sent EPIPE)
    else
      let error_number := errno k in
      if error_number =? EINTR then inl (k, total_sent)
      else if (error_number =? EAGAIN) || (error_number =? EWOULDBLOCK) then
        inr (k, mkIoResult IoStatus_would_block total_sent error_number)
      else inr (k, mkIoResult IoStatus_error total_sent error_number)
  else inr (k, mkIoResult IoStatus_completed total_sent 0).

Definition sendAll (fuel : nat) (k : K) (fd : Z) (data : bytes) : option (K * IoResult) :=
  loop (sendAll_body fd data) fuel (k, 0).

(** The loop's variables are the kernel, the caller's buffer and the count. *)
Definition receiveExact_body (fd : Z) (s : K * bytes * Z) :
    (K * bytes * Z) + (K * bytes * IoResult) :=
  let '(k, buffer, total_received) := s in
  if total_received <? len buffer then
    let '(k, received, d) := sys_recv k fd (len buffer ⊖ total_received) 0 in
    if 0 <? received then
      inl (k, store_at total_received d buffer, total_received ⊕ received)
    else if received =? 0 then
      inr (k, buffer, mkIoResult IoStatus_peer_closed total_received 0)
    else
      let error_number := errno k in
      if error_number =? EINTR then inl (k, buffer, total_received)
      else if (error_number =? EAGAIN) || (error_number =? EWOULDBLOCK) then
        inr (k, buffer, mkIoResult IoStatus_would_block total_received error_number)
      else inr (k, buffer, mkIoResult IoStatus_error total_received error_number)
  else inr (k, buffer, mkIoResult IoStatus_completed total_received 0).

Definition receiveExact (fuel : nat) (k : K) (fd : Z) (buffer : bytes) :
    option (K * bytes * IoResult) :=
  loop (receiveExact_body fd) fuel (k, buffer, 0).
End Io.

(** ** What the results promise *)

(** [n] bytes of [total] were transferred when the call ended with [r]. *)
Definition io_outcome (total : Z) (closed : Prop) (r : IoResult) : Prop :=
  let n := bytes_transferred r in
  match status r with
  | IoStatus_completed => n = total /\ error_number r = 0
  | IoStatus_peer_closed => 0 <= n < total /\ error_number r = 0 /\ closed
  | IoStatus_would_block => 0 <= n < total /\ error_number r = EAGAIN
  | IoStatus_error => 0 <= n < total /\ error_number r <> EINTR /\ error_number r <> EAGAIN
  end.

Section IoFacts.
  Context `{Host} {K : Type} {KO : Kernel K} {KV : KernelView K} {KL : KernelLaws K}.

(** One round of [sendAll], from [total] bytes sent in kernel [k0]. *)
Lemma sendAll_body_step fd data k0 k total :
  len data < 2 ^ 64 -> 0 <= total <= len data ->
  moved fd (upto total data) [] (view k0) (view k) ->
  match sendAll_body fd data (k, total) with
  | inl (k', total') =>
      0 <= total' <= len data /\
      moved fd (upto total' data) [] (view k0) (view k') /\
      (Z.to_nat (len data - total') + os_signals (view k')
       < Z.to_nat (len data - total) + os_signals (view k))%nat
  | inr (k', r) =>
      moved fd (upto (bytes_transferred r) data) [] (view k0) (view k') /\
      io_outcome (len data) False r
  end.
Proof.
  intros Hfit Ht Hm; unfold sendAll_body, io_outcome.
  destruct (total <? len data) eqn:Hlt; zbool.
  2: { split; [done|]; simpl; split; [lia|done]. }
  destruct (sys_send k fd (from total data) MSG_NOSIGNAL) as [k' sent] eqn:E.
  apply send_moved in E; rewrite len_from in E by lia.
  assert (Hstay : forall k'', moved fd [] [] (view k) (view k'') ->
    moved fd (upto total data) [] (view k0) (view k'')).
  { intros k'' Hm'; pose proof (moved_trans _ _ _ _ _ _ _ _ Hm Hm') as Ht'.
    by rewrite app_nil_r in Ht'. }
  destruct E as [(Hs & Hm')|(Hs & Hm' & Hi)].
  - replace (0 <? sent) with true by lia.
    rewrite size_add_small by lia.
    pose proof (moved_signals _ _ _ _ _ Hm').
    pose proof (moved_trans _ _ _ _ _ _ _ _ Hm Hm') as Ht'.
    rewrite <-upto_add in Ht' by lia. split; [lia|]. split; [exact Ht'|lia].
  - replace (0 <? sent) with false by lia.
    split_ifs; simpl; repeat (split; [by auto with netpulse lia|]); auto; errno_lia.
Qed.

(** One round of [receiveExact], the bytes [d] having been received. *)
Lemma receiveExact_body_step fd b0 k0 k d :
  len b0 < 2 ^ 64 -> len d <= len b0 -> moved fd [] d (view k0) (view k) ->
  match receiveExact_body fd (k, d ++ from (len d) b0, len d) with
  | inl (k', buffer, total') =>
      exists d', buffer = d' ++ from (len d') b0 /\ total' = len d' /\ len d' <= len b0 /\
        moved fd [] d' (view k0) (view k') /\
        (Z.to_nat (len b0 - total') + os_signals (view k')
         < Z.to_nat (len b0 - len d) + os_signals (view k))%nat
  | inr (k', buffer, r) =>
      exists d', buffer = d' ++ from (len d') b0 /\ bytes_transferred r = len d' /\
        moved fd [] d' (view k0) (view k') /\
        io_outcome (len b0) (incoming (view k') fd = []) r
  end.
Proof.
  intros Hfit Ht Hm; unfold receiveExact_body, io_outcome.
  pose proof (len_nonneg d).
  assert (Hlen : len (d ++ from (len d) b0) = len b0) by (rewrite len_app, len_from; lia).
  rewrite Hlen. destruct (len d <? len b0) eqn:Hlt; zbool.
  2: { exists d; simpl; split_and!; auto; lia. }
  rewrite size_sub_small by lia.
  destruct (sys_recv k fd (len b0 - len d) 0) as [[k' rcv] d'] eqn:E.
  apply recv_moved in E; [|lia].
  assert (Hstay : moved fd [] [] (view k) (view k') -> moved fd [] d (view k0) (view k')).
  { intros Hm'; pose proof (moved_trans _ _ _ _ _ _ _ _ Hm Hm') as Ht'.
    by rewrite !app_nil_r in Ht'. }
  destruct E as [(Hr & Hd & Hm')|[(-> & Hin & Hm')|(Hr & Hm' & Hi)]].
  - replace (0 <? rcv) with true by lia.
    rewrite size_add_small, store_at_app, from_from by lia.
    exists (d ++ d'). rewrite len_app, Hd, <-app_assoc. split_and!; try done; try lia.
    + apply (moved_trans _ _ _ _ _ _ _ _ Hm Hm').
    + pose proof (moved_signals _ _ _ _ _ Hm'); lia.
  - simpl. exists d; split_and!; auto; try lia.
    pose proof (moved_in _ _ _ _ _ Hm') as E; by rewrite Hin in E.
  - replace (0 <? rcv) with false by lia. replace (rcv =? 0) with false by lia.
    split_ifs; simpl; exists d; split_and!; auto; try lia;
      try (specialize (Hi ltac:(done))); errno_lia.
Qed.

(** [sendAll] returns once the signals that interrupt it are over, and its
    result says exactly which prefix of the data the socket has taken. *)
Lemma sendAll_total fuel k fd data :
  len data < 2 ^ 64 -> (length data + os_signals (view k) < fuel)%nat ->
  exists k' r, sendAll fuel k fd data = Some (k', r) /\
    moved fd (upto (bytes_transferred r) data) [] (view k) (view k') /\
    io_outcome (len data) False r.
Proof.
  intros Hfit Hfuel; unfold sendAll.
  destruct (loop_total (sendAll_body fd data)
    (fun s => 0 <= s.2 <= len data /\ moved fd (upto s.2 data) [] (view k) (view s.1))
    (fun s => Z.to_nat (len data - s.2) + os_signals (view s.1))%nat
    (fun r => moved fd (upto (bytes_transferred r.2) data) [] (view k) (view r.1) /\
              io_outcome (len data) False r.2) fuel (k, 0)) as ([k' r] & E & Hr); eauto.
  - intros [k1 t] [Ht Hm]; cbn [fst snd] in *.
    pose proof (sendAll_body_step fd data k k1 t Hfit Ht Hm) as Hstep.
    destruct (sendAll_body _ _ _) as [[k2 t2]|[k2 r2]]; tauto.
  - simpl; split; [pose proof (len_nonneg data); lia|apply moved_refl].
  - unfold len; simpl; lia.
Qed.

Lemma receiveExact_total fuel k fd buffer :
  len buffer < 2 ^ 64 -> (length buffer + os_signals (view k) < fuel)%nat ->
  exists k' d r,
    receiveExact fuel k fd buffer = Some (k', d ++ from (len d) buffer, r) /\
    bytes_transferred r = len d /\ moved fd [] d (view k) (view k') /\
    io_outcome (len buffer) (incoming (view k') fd = []) r.
Proof.
  intros Hfit Hfuel; unfold receiveExact.
  destruct (loop_total (receiveExact_body fd)
    (fun s => exists d, s.1.2 = d ++ from (len d) buffer /\ s.2 = len d /\
       len d <= len buffer /\ moved fd [] d (view k) (view s.1.1))
    (fun s => Z.to_nat (len buffer - s.2) + os_signals (view s.1.1))%nat
    (fun r => exists d, r.1.2 = d ++ from (len d) buffer /\ bytes_transferred r.2 = len d /\
       moved fd [] d (view k) (view r.1.1) /\
       io_outcome (len buffer) (incoming (view r.1.1) fd = []) r.2) fuel (k, buffer, 0))
    as ([[k' b] r] & E & d & Hb & Hr); eauto.
  - intros [[k1 b] t] (d & E1 & E2 & Hd & Hm); cbn [fst snd] in *; subst.
    pose proof (receiveExact_body_step fd buffer k k1 d Hfit Hd Hm) as Hstep.
    destruct (receiveExact_body _ _) as [[[k2 b2] t2]|[[k2 b2] r2]]; [|done].
    destruct Hstep as (d'&->&->&?&?&?); eauto 10.
  - exists []; simpl; split_and!; auto with netpulse; pose proof (len_nonneg buffer);
      rewrite ?len_nil; lia.
  - unfold len; simpl; lia.
  - simpl in *; subst; eauto 10.
Qed.
End IoFacts.

Section IoTheorems.
  Context `{Host} {K : Type} {KO : Kernel K} {KV : KernelView K} {KL : KernelLaws K}.

(** C31. [sendAll] always returns once the interrupting signals are over, and
    reports neither an interruption nor more than happened: the socket has
    taken exactly the first [bytes_transferred] bytes of the data, which are all
    of them if and only if the status is [completed]; it never reports a closed
    peer, [would_block] comes with [EAGAIN] and nothing else does. *)
Theorem sendAll_correct fuel k fd data :
  len data < 2 ^ 64 -> (length data + os_signals (view k) < fuel)%nat ->
  exists k' r, sendAll fuel k fd data = Some (k', r) /\
    moved fd (upto (bytes_transferred r) data) [] (view k) (view k') /\
    io_outcome (len data) False r.
Proof. apply sendAll_total. Qed.

(** C32. [receiveExact] always returns: the buffer then starts with exactly the
    bytes taken from the socket, [bytes_transferred] of them, and keeps its old
    contents behind them; it is full if and only if the status is [completed],
    and [peer_closed] means that the peer's stream has ended. *)
Theorem receiveExact_correct fuel k fd buffer :
  len buffer < 2 ^ 64 -> (length buffer + os_signals (view k) < fuel)%nat ->
  exists k' d r,
    receiveExact fuel k fd buffer = Some (k', d ++ from (len d) buffer, r) /\
    bytes_transferred r = len d /\ moved fd [] d (view k) (view k') /\
    io_outcome (len buffer) (incoming (view k') fd = []) r.
Proof. apply receiveExact_total. Qed.
End IoTheorems.

(** ** Concrete runs *)

(** Two bytes are taken, a signal interrupts, one more is taken, and then the
    socket would block. *)
Lemma sendAll_correct_witness :
  exists k' r, sendAll 20 (sim_socket [] 1 [2; -4; 1; -11]) 3 [x61; x62; x63; x64] = Some (k', r) /\
    r = mkIoResult IoStatus_would_block 3 EAGAIN /\ outbound (view k') 3 = [x61; x62; x63].
Proof.
  destruct (sendAll_correct 20 (sim_socket [] 1 [2; -4; 1; -11]) 3 [x61; x62; x63; x64])
    as (k' & r & E & Hm & _); [done|simpl; lia|].
  exists k', r. split; [exact E|].
  assert (Hr : r = mkIoResult IoStatus_would_block 3 EAGAIN)
    by (clear Hm; vm_compute in E; by injection E as <- <-).
  subst r. split; [done|]. exact (moved_out _ _ _ _ _ Hm).
Defined.

(** The peer sends two bytes and closes. *)
Lemma receiveExact_correct_witness :
  exists k' d r, receiveExact 20 (sim_socket [x61; x62] 1 [1; -4]) 3 [x00; x00; x00]
      = Some (k', d ++ from (len d) [x00; x00; x00], r) /\
    d = [x61; x62] /\ status r = IoStatus_peer_closed.
Proof.
  destruct (receiveExact_correct 20 (sim_socket [x61; x62] 1 [1; -4]) 3 [x00; x00; x00])
    as (k' & d & r & E & Hb & Hm & Ho); [done|simpl; lia|].
  exists k', d, r. split; [exact E|].
  assert (Hr : r = mkIoResult IoStatus_peer_closed 2 0).
  { clear Hb Hm Ho. destruct (receiveExact 20 _ 3 _) as [[[k1 b] r1]|] eqn:E1; [|done].
    vm_compute in E1. injection E1 as <- <- <-. by simplify_eq. }
  subst r. split; [|done]. pose proof (moved_in _ _ _ _ _ Hm) as Hin. destruct Ho as (_ & _ & Hnil).
  rewrite Hnil, app_nil_r in Hin. by symmetry.
Defined.
