(* ===== verification/Frame.v ===== *)
(** * Length-prefixed frames: [protocol/frame.hpp], [protocol/frame.cpp]

    The wire format and the blocking send and receive of one frame.  The
    reference encoding [encode_frame] and the reference parser [parse_header]
    are what the other protocol components are compared with. *)

From S2P Require Import Prelude Endian Kernel SimKernel Io.

(** ** Data *)

Definition max_payload_size : Z := 1024 * 1024.

(** [sizeof(std::uint32_t)], the size of the header. *)
Definition kFrameHeaderSize : Z := 4.

Inductive FrameStatus :=
| FrameStatus_completed
| FrameStatus_peer_closed
| FrameStatus_would_block
| FrameStatus_payload_too_large
| FrameStatus_io_error.

#[export] Instance FrameStatus_eq_dec : EqDecision FrameStatus.
Proof. solve_decision. Defined.

Record SendFrameResult := mkSendFrameResult {
  send_status : FrameStatus;
  send_bytes_transferred : Z;
  send_error_number : Z
}.

Record ReceiveFrameResult := mkReceiveFrameResult {
  receive_status : FrameStatus;
  receive_payload : bytes;
  receive_bytes_transferred : Z;
  receive_error_number : Z
}.

Definition send_completed (r : SendFrameResult) : bool :=
  bool_decide (send_status r = FrameStatus_completed).
Definition receive_completed (r : ReceiveFrameResult) : bool :=
  bool_decide (receive_status r = FrameStatus_completed).

(** ** Operations *)

Definition toFrameStatus (s : IoStatus) : FrameStatus :=
  match s with
  | IoStatus_completed => FrameStatus_completed
  | IoStatus_peer_closed => FrameStatus_peer_closed
  | IoStatus_would_block => FrameStatus_would_block
  | IoStatus_error => FrameStatus_io_error
  end.

Section Frame.
  Context `{Host} {K : Type} `{Kernel K}.

Definition sendFrame (fuel : nat) (k : K) (fd : Z) (payload : bytes) :
    option (K * SendFrameResult) :=
  if max_payload_size <? len payload then
    Some (k, mkSendFrameResult FrameStatus_payload_too_large 0 0)
  else
    let payload_size := wrap32 (len payload) in
    let network_size := htonl payload_size in
    let header := store_uint native 4 network_size in
    '(k, header_result) ← sendAll fuel k fd header;
    if negb (completed header_result) then
      Some (k, mkSendFrameResult (toFrameStatus (status header_result))
                 (bytes_transferred header_result) (error_number header_result))
    else
      '(k, payload_result) ← sendAll fuel k fd payload;
      Some (k, mkSendFrameResult (toFrameStatus (status payload_result))
                 (bytes_transferred header_result ⊕ bytes_transferred payload_result)
                 (error_number payload_result)).

Definition receiveFrame (fuel : nat) (k : K) (fd : Z) : option (K * ReceiveFrameResult) :=
  '(k, header, header_result) ← receiveExact fuel k fd (repeat x00 4);
  if negb (completed header_result) then
    Some (k, mkReceiveFrameResult (toFrameStatus (status header_result)) []
               (bytes_transferred header_result) (error_number header_result))
  else
    let network_size := load_uint native header in
    let payload_size := ntohl network_size in
    if max_payload_size <? payload_size then
      Some (k, mkReceiveFrameResult FrameStatus_payload_too_large [] (len header) 0)
    else
      '(k, payload, payload_result) ←
        receiveExact fuel k fd (repeat x00 (Z.to_nat payload_size));
      Some (k, mkReceiveFrameResult (toFrameStatus (status payload_result)) payload
                 (bytes_transferred header_result ⊕ bytes_transferred payload_result)
                 (error_number payload_result)).
End Frame.

(** ** The wire format *)

(** A frame on the wire: the payload's size, big-endian, then the payload. *)
Definition frame_header (n : Z) : bytes := store_uint Big 4 n.
Definition encode_frame (payload : bytes) : bytes := frame_header (len payload) ++ payload.

(** The payload size a stream's first four bytes announce. *)
Definition parse_header (s : bytes) : Z := load_uint Big (upto kFrameHeaderSize s).

Lemma len_frame_header n : len (frame_header n) = 4.
Proof. apply len_store_uint. Qed.

Lemma len_encode_frame p : len (encode_frame p) = 4 + len p.
Proof. unfold encode_frame; by rewrite len_app, len_frame_header. Qed.

#[export] Hint Rewrite len_frame_header len_encode_frame : len.

Lemma store_network_size `{Host} (p : bytes) :
  len p <= max_payload_size ->
  store_uint native 4 (htonl (wrap32 (len p))) = frame_header (len p).
Proof.
  intros; rewrite store_htonl, wrap32_small; [done|].
  unfold max_payload_size in *; pose proof (len_nonneg p); lia.
Qed.

Lemma parse_header_range s : kFrameHeaderSize <= len s -> 0 <= parse_header s < 2 ^ 32.
Proof.
  intros Hl; unfold parse_header.
  pose proof (load_uint_range Big (upto kFrameHeaderSize s)) as Hr.
  rewrite len_upto in Hr by (unfold kFrameHeaderSize in *; lia). exact Hr.
Qed.

(** Reading a header back from the start of a stream. *)
Lemma parse_header_app n s : 0 <= n < 2 ^ 32 -> parse_header (frame_header n ++ s) = n.
Proof.
  intros; unfold parse_header, kFrameHeaderSize.
  rewrite <-(len_frame_header n), upto_app_len. by apply load_store_uint.
Qed.

Lemma parse_header_encode (p s : bytes) :
  len p <= max_payload_size -> parse_header (encode_frame p ++ s) = len p.
Proof.
  intros; unfold encode_frame; rewrite <-app_assoc; apply parse_header_app.
  unfold max_payload_size in *; pose proof (len_nonneg p); lia.
Qed.

(** A stream that starts with a complete frame is the encoding of its payload. *)
Lemma encode_parse s :
  kFrameHeaderSize + parse_header s <= len s -> kFrameHeaderSize <= len s ->
  let n := parse_header s in
  let p := upto n (from kFrameHeaderSize s) in
  len p = n /\ s = encode_frame p ++ from (kFrameHeaderSize + n) s.
Proof.
  intros Hn H4 n p.
  pose proof (parse_header_range s H4) as Hr.
  assert (Hp : len p = n).
  { unfold p; apply len_upto; rewrite len_from; subst n; unfold kFrameHeaderSize in *; lia. }
  split; [done|].
  assert (Hh : frame_header n = upto kFrameHeaderSize s).
  { unfold frame_header, n, parse_header.
    replace 4%nat with (length (upto kFrameHeaderSize s)); [apply store_load_uint|].
    pose proof (len_upto kFrameHeaderSize s); unfold len, kFrameHeaderSize in *; lia. }
  unfold encode_frame; rewrite Hp, Hh, <-app_assoc.
  rewrite <-from_from by (unfold kFrameHeaderSize; lia).
  unfold p; by rewrite !upto_from.
Qed.

(** Two streams that start with the same header announce the same size. *)
Lemma parse_header_prefix s t :
  kFrameHeaderSize <= len s -> parse_header (s ++ t) = parse_header s.
Proof. intros; unfold parse_header; by rewrite upto_app_le. Qed.

(** A header read whole is the header of the size it announces. *)
Lemma frame_header_parse d : len d = kFrameHeaderSize -> frame_header (parse_header d) = d.
Proof.
  intros E; unfold frame_header, parse_header. rewrite upto_all by lia.
  replace 4%nat with (length d); [apply store_load_uint|].
  unfold len, kFrameHeaderSize in E; lia.
Qed.

Lemma ntohl_header `{Host} d :
  len d = kFrameHeaderSize -> ntohl (load_uint native d) = parse_header d.
Proof.
  intros E; unfold parse_header. rewrite upto_all by lia.
  apply ntohl_load. unfold len, kFrameHeaderSize in E; lia.
Qed.

Lemma len_repeat (n : Z) (b : byte) : 0 <= n -> len (repeat b (Z.to_nat n)) = n.
Proof. unfold len; rewrite repeat_length; lia. Qed.

(** ** Sending and receiving one frame *)

(** The bytes [d] are not a whole frame yet. *)
Definition incomplete_frame (d : bytes) : Prop :=
  len d < kFrameHeaderSize \/ len d < kFrameHeaderSize + parse_header d.

Definition send_outcome (total : Z) (r : SendFrameResult) : Prop :=
  let n := send_bytes_transferred r in
  match send_status r with
  | FrameStatus_completed => n = total /\ send_error_number r = 0
  | FrameStatus_would_block => 0 <= n < total /\ send_error_number r = EAGAIN
  | FrameStatus_io_error =>
      0 <= n < total /\ send_error_number r <> EINTR /\ send_error_number r <> EAGAIN
  | FrameStatus_peer_closed | FrameStatus_payload_too_large => False
  end.

(** What a received result says about the bytes [d] consumed for it; [closed]
    says that the peer's stream has ended. *)
Definition receive_outcome (d : bytes) (closed : Prop) (r : ReceiveFrameResult) : Prop :=
  receive_bytes_transferred r = len d /\
  match receive_status r with
  | FrameStatus_completed =>
      d = encode_frame (receive_payload r) /\ len (receive_payload r) <= max_payload_size /\
      receive_error_number r = 0
  | FrameStatus_payload_too_large =>
      len d = kFrameHeaderSize /\ max_payload_size < parse_header d /\
      receive_payload r = [] /\ receive_error_number r = 0
  | FrameStatus_peer_closed => incomplete_frame d /\ closed /\ receive_error_number r = 0
  | FrameStatus_would_block => incomplete_frame d /\ receive_error_number r = EAGAIN
  | FrameStatus_io_error =>
      incomplete_frame d /\ receive_error_number r <> EINTR /\ receive_error_number r <> EAGAIN
  end.

Lemma completed_spec r : completed r = true <-> status r = IoStatus_completed.
Proof. apply bool_decide_eq_true. Qed.

Section FrameFacts.
  Context `{Host} {K : Type} {KO : Kernel K} {KV : KernelView K} {KL : KernelLaws K}.

Lemma sendFrame_total fuel k fd payload :
  len payload <= max_payload_size ->
  (length payload + 4 + os_signals (view k) < fuel)%nat ->
  exists k' r, sendFrame fuel k fd payload = Some (k', r) /\
    moved fd (upto (send_bytes_transferred r) (encode_frame payload)) [] (view k) (view k') /\
    send_outcome (len (encode_frame payload)) r.
Proof.
  intros Hmax Hfuel. unfold sendFrame, send_outcome.
  pose proof (len_nonneg payload). unfold max_payload_size in *.
  replace (_ <? len payload) with false by lia.
  rewrite store_network_size, len_encode_frame by (unfold max_payload_size; lia).
  set (hd := frame_header (len payload)).
  assert (Hhd : len hd = 4) by apply len_frame_header.
  destruct (sendAll_total fuel k fd hd) as (k1 & r1 & E1 & Hm1 & Ho1);
    [lia|unfold len in Hhd; lia|]. rewrite E1; simpl.
  assert (Hpre : 0 <= bytes_transferred r1 <= 4 ->
    upto (bytes_transferred r1) (encode_frame payload) = upto (bytes_transferred r1) hd).
  { intros; unfold encode_frame; fold hd; apply upto_app_le; lia. }
  destruct r1 as [s1 n1 e1]; unfold io_outcome in Ho1; rewrite Hhd in Ho1; simpl in *.
  destruct s1; simpl; try (eexists _, _; split; [done|]; simpl; rewrite Hpre by lia);
    [|tauto|split; [done|lia]..|split; [done|split; [lia|tauto]]].
  destruct Ho1 as [-> ->].
  destruct (sendAll_total fuel k1 fd payload) as (k2 & r2 & E2 & Hm2 & Ho2);
    [lia|pose proof (moved_signals _ _ _ _ _ Hm1); lia|].
  rewrite E2; simpl. eexists _, _; split; [done|]; simpl.
  destruct r2 as [s2 n2 e2]; unfold io_outcome in Ho2; simpl in *.
  assert (Hn2 : 0 <= n2 <= len payload) by (destruct s2; lia).
  rewrite size_add_small by lia. split; [|destruct s2; simpl; (tauto || intuition lia)].
  pose proof (moved_trans _ _ _ _ _ _ _ _ Hm1 Hm2) as Hm.
  rewrite (upto_all 4 hd) in Hm by lia.
  rewrite upto_add by lia. unfold encode_frame.
  change (frame_header (len payload)) with hd. rewrite <-Hhd at 1.
  rewrite upto_app_len. rewrite <-Hhd at 1. by rewrite from_app_len.
Qed.

(** The second half of [receiveFrame]: the payload of a header already read. *)
Lemma receive_payload_total fuel k fd n :
  0 <= n <= max_payload_size ->
  (Z.to_nat n + os_signals (view k) < fuel)%nat ->
  exists k' d r,
    receiveExact fuel k fd (repeat x00 (Z.to_nat n)) =
      Some (k', d ++ from (len d) (repeat x00 (Z.to_nat n)), r) /\
    bytes_transferred r = len d /\ 0 <= len d <= n /\ moved fd [] d (view k) (view k') /\
    (status r = IoStatus_completed ->
       len d = n /\ d ++ from (len d) (repeat x00 (Z.to_nat n)) = d) /\
    io_outcome n (incoming (view k') fd = []) r.
Proof.
  intros Hn Hfuel. unfold max_payload_size in *.
  destruct (receiveExact_total fuel k fd (repeat x00 (Z.to_nat n)))
    as (k' & d & r & E & Hb & Hm & Ho).
  { rewrite len_repeat; lia. } { rewrite repeat_length; lia. }
  rewrite len_repeat in Ho by lia. rewrite E. pose proof (len_nonneg d).
  exists k', d, r. unfold io_outcome in Ho; rewrite Hb in Ho.
  split_and!; auto; try (destruct (status r); lia).
  - intros Es; rewrite Es in Ho; destruct Ho as [Ho _]; split; [done|].
    rewrite from_all by (rewrite len_repeat; lia). apply app_nil_r.
  - unfold io_outcome; by rewrite Hb.
Qed.

Lemma receiveFrame_total fuel k fd :
  (Z.to_nat (kFrameHeaderSize + max_payload_size) + os_signals (view k) < fuel)%nat ->
  exists k' r d, receiveFrame fuel k fd = Some (k', r) /\
    moved fd [] d (view k) (view k') /\
    receive_outcome d (incoming (view k') fd = []) r.
Proof.
  intros Hfuel. unfold receiveFrame, receive_outcome.
  assert (0 < max_payload_size < 2 ^ 32) by done.
  destruct (receive_payload_total fuel k fd 4)
    as (k1 & d1 & r1 & E1 & Hb1 & Hl1 & Hm1 & Hc1 & Ho1);
    [done|unfold kFrameHeaderSize in *; lia|].
  change (Z.to_nat 4) with 4%nat in *. run E1. unfold io_outcome in Ho1.
  destruct (completed r1) eqn:Ec; cbn [negb].
  2: { assert (status r1 <> IoStatus_completed) by (rewrite <-completed_spec; congruence).
       eexists _, _, d1; split; [done|]; split; [done|]; split; [done|]; simpl.
       unfold incomplete_frame, kFrameHeaderSize in *.
       destruct (status r1); simpl; (done || intuition lia). }
  apply completed_spec in Ec; rewrite Ec in *. destruct (Hc1 eq_refl) as [Hd1 ->].
  rewrite ntohl_header by done.
  pose proof (parse_header_range d1 ltac:(unfold kFrameHeaderSize; lia)) as Hr.
  destruct (max_payload_size <? parse_header d1) eqn:Hbig; zbool.
  { eexists _, _, d1; split; [done|]; split; [done|]; simpl; by rewrite Hd1. }
  pose proof (moved_signals _ _ _ _ _ Hm1).
  destruct (receive_payload_total fuel k1 fd (parse_header d1))
    as (k2 & d2 & r2 & E2 & Hb2 & Hl2 & Hm2 & Hc2 & Ho2); [lia|unfold kFrameHeaderSize in *; lia|].
  run E2. eexists _, _, (d1 ++ d2); split; [done|].
  split; [apply (moved_trans _ _ _ _ _ _ _ _ Hm1 Hm2)|]; simpl.
  rewrite Hb1, Hb2, size_add_small, len_app by lia. split; [done|].
  unfold io_outcome in Ho2.
  assert (Hinc : len d2 < parse_header d1 -> incomplete_frame (d1 ++ d2)).
  { intros; right. rewrite parse_header_prefix, len_app; unfold kFrameHeaderSize in *; lia. }
  destruct (status r2); simpl; try (intuition auto with lia; fail).
  destruct (Hc2 eq_refl) as [Hd2 ->]. split_and!; [|lia|tauto].
  unfold encode_frame. rewrite Hd2. f_equal. symmetry; by apply frame_header_parse.
Qed.
End FrameFacts.

(** The code is prefix-free: what follows a frame does not change it. *)
Lemma encode_frame_inj p q s t :
  len p <= max_payload_size -> len q <= max_payload_size ->
  encode_frame p ++ s = encode_frame q ++ t -> p = q /\ s = t.
Proof.
  intros Hp Hq E.
  assert (El : len p = len q) by (rewrite <-(parse_header_encode p s), E, parse_header_encode; done).
  apply app_inj_1 in E as [E ->].
  - unfold encode_frame in E; rewrite El in E. by apply app_inv_head in E.
  - pose proof (len_encode_frame p); pose proof (len_encode_frame q); unfold len in *; lia.
Qed.

Section FrameTheorems.
  Context `{Host} {K : Type} {KO : Kernel K} {KV : KernelView K} {KL : KernelLaws K}.

(** C28. [sendFrame] always returns. A payload above the limit is refused with
    nothing sent; otherwise the socket takes exactly the reported number of
    bytes of the frame's encoding, and [completed] means all of them. *)
Theorem sendFrame_correct fuel k fd payload :
  (length payload + 4 + os_signals (view k) < fuel)%nat ->
  exists k' r, sendFrame fuel k fd payload = Some (k', r) /\
    if max_payload_size <? len payload then
      k' = k /\ r = mkSendFrameResult FrameStatus_payload_too_large 0 0
    else
      moved fd (upto (send_bytes_transferred r) (encode_frame payload)) [] (view k) (view k') /\
      send_outcome (len (encode_frame payload)) r.
Proof.
  intros Hfuel. destruct (max_payload_size <? len payload) eqn:Hbig.
  - unfold sendFrame; rewrite Hbig; eauto.
  - zbool; by apply sendFrame_total.
Qed.

(** C29. [receiveFrame] always returns, and its result describes exactly the
    bytes it took from the socket: a completed frame is the encoding of the
    returned payload, a size above the limit is refused after the header, and
    every other status leaves an incomplete frame. *)
Theorem receiveFrame_correct fuel k fd :
  (Z.to_nat (kFrameHeaderSize + max_payload_size) + os_signals (view k) < fuel)%nat ->
  exists k' r d, receiveFrame fuel k fd = Some (k', r) /\
    moved fd [] d (view k) (view k') /\
    receive_outcome d (incoming (view k') fd = []) r.
Proof. apply receiveFrame_total. Qed.

(** C30. Round trip: when the peer's stream starts with an encoded frame, what
    [receiveFrame] completes is that frame's payload, the stream is left at
    the next byte, and neither an oversized frame nor a closed peer is
    reported. *)
Theorem receiveFrame_roundtrip fuel k fd payload rest k' r :
  len payload <= max_payload_size ->
  incoming (view k) fd = encode_frame payload ++ rest ->
  (Z.to_nat (kFrameHeaderSize + max_payload_size) + os_signals (view k) < fuel)%nat ->
  receiveFrame fuel k fd = Some (k', r) ->
  match receive_status r with
  | FrameStatus_completed => receive_payload r = payload /\ incoming (view k') fd = rest
  | FrameStatus_would_block | FrameStatus_io_error => True
  | FrameStatus_peer_closed | FrameStatus_payload_too_large => False
  end.
Proof.
  intros Hmax Hin Hfuel E.
  destruct (receiveFrame_total fuel k fd Hfuel) as (k1 & r1 & d & E1 & Hm & _ & Ho).
  rewrite E in E1; simplify_eq. pose proof (moved_in _ _ _ _ _ Hm) as Hd.
  rewrite Hin in Hd. destruct (receive_status r1); try done.
  - destruct Ho as (-> & Hl & _). symmetry in Hd.
    by apply encode_frame_inj in Hd.
  - destruct Ho as (Hinc & Hnil & _). rewrite Hnil, app_nil_r in Hd; subst d.
    unfold incomplete_frame, kFrameHeaderSize in Hinc. rewrite parse_header_encode in Hinc by done.
    autorewrite with len in Hinc. pose proof (len_nonneg rest); pose proof (len_nonneg payload); lia.
  - destruct Ho as (Hl & Hbig & _).
    rewrite <-(parse_header_prefix d (incoming (view k1) fd)), <-Hd, parse_header_encode in Hbig
      by (done || lia). lia.
Qed.
End FrameTheorems.

#[global] Arguments encode_frame : simpl never.
#[global] Arguments frame_header : simpl never.

(** ** Concrete runs *)

Lemma sendFrame_correct_witness :
  exists k' r, sendFrame 20 (sim_socket [] 1 [2; -4; 1; 1; -11]) 3 [x61; x62] = Some (k', r) /\
    send_status r = FrameStatus_would_block /\ send_bytes_transferred r = 4.
Proof.
  destruct (sendFrame_correct 20 (sim_socket [] 1 [2; -4; 1; 1; -11]) 3 [x61; x62])
    as (k' & r & E & _); [simpl; lia|].
  exists k', r. split; [exact E|]. vm_compute in E. injection E as <- <-. done.
Defined.

Lemma receiveFrame_correct_witness :
  exists k' r d,
    receiveFrame (Z.to_nat (kFrameHeaderSize + max_payload_size) + 1)
      (sim_socket [x00; x00] 0 []) 3 = Some (k', r) /\
    receive_outcome d (incoming (view k') 3 = []) r.
Proof.
  destruct (receiveFrame_correct (Z.to_nat (kFrameHeaderSize + max_payload_size) + 1)
    (sim_socket [x00; x00] 0 []) 3) as (k' & r & d & E & _ & Ho).
  { change (os_signals (view (sim_socket [x00; x00] 0 []))) with O. lia. }
  exists k', r, d. split; [exact E|exact Ho].
Defined.

Lemma receiveFrame_roundtrip_witness :
  exists k' r,
    receiveFrame (Z.to_nat (kFrameHeaderSize + max_payload_size) + 2)
      (sim_socket (encode_frame [x61; x62] ++ [x63]) 1 [3; -4; 1; 1]) 3 = Some (k', r) /\
    receive_payload r = [x61; x62] /\ incoming (view k') 3 = [x63].
Proof.
  set (k := sim_socket (encode_frame [x61; x62] ++ [x63]) 1 [3; -4; 1; 1]).
  set (fuel := (Z.to_nat (kFrameHeaderSize + max_payload_size) + 2)%nat).
  assert (Hs : forall k' r, receiveFrame fuel k 3 = Some (k', r) ->
            receive_status r = FrameStatus_completed ->
            receive_payload r = [x61; x62] /\ incoming (view k') 3 = [x63]).
  { intros k' r E Es.
    pose proof (receiveFrame_roundtrip fuel k 3 [x61; x62] [x63] k' r) as T.
    rewrite Es in T; apply T; [done|reflexivity| |done].
    change (os_signals (view k)) with 1%nat. subst fuel. lia. }
  destruct (receiveFrame fuel k 3) as [[k' r]|] eqn:E; [|vm_compute in E; discriminate].
  exists k', r; split; [done|]. apply Hs; [done|].
  vm_compute in E. injection E as <- <-. reflexivity.
Defined.
