(* ===== verification/FrameDecoder.v ===== *)
(** * Incremental frame decoder: [protocol/frame_decoder.hpp], [protocol/frame_decoder.cpp]

    The decoder keeps the received bytes in a vector and the offset of the
    first byte not decoded yet; it moves the vector's contents to the front
    (compaction) only now and then.  Its abstract state is the list of pending
    bytes, and [spec_next] is the reference parser on that list. *)

From S2P Require Import Prelude Endian SimKernel Frame.

(** ** Data *)

Inductive FrameDecodeStatus :=
| need_more_data
| frame_ready
| payload_too_large.

#[export] Instance FrameDecodeStatus_eq_dec : EqDecision FrameDecodeStatus.
Proof. solve_decision. Defined.

Record FrameDecodeResult := mkFrameDecodeResult {
  status : FrameDecodeStatus;
  payload : bytes
}.

Record FrameDecoder := mkFrameDecoder {
  buffer_ : bytes;
  read_offset_ : Z
}.

Definition empty_decoder : FrameDecoder := mkFrameDecoder [] 0.

(** ** Operations *)

Definition append (d : FrameDecoder) (data : bytes) : FrameDecoder :=
  mkFrameDecoder (buffer_ d ++ data) (read_offset_ d).

Definition bufferedBytes (d : FrameDecoder) : Z := len (buffer_ d) ⊖ read_offset_ d.

Definition clear (d : FrameDecoder) : FrameDecoder := mkFrameDecoder [] 0.

Definition kCompactionThreshold : Z := 4096.

Definition compact (d : FrameDecoder) : FrameDecoder :=
  if read_offset_ d =? 0 then d
  else if read_offset_ d =? len (buffer_ d) then mkFrameDecoder [] 0
  else if (kCompactionThreshold <=? read_offset_ d)
          && (len (buffer_ d) / 2 <=? read_offset_ d) then
    mkFrameDecoder (from (read_offset_ d) (buffer_ d)) 0
  else d.

Definition decodeNext `{Host} (d : FrameDecoder) : FrameDecodeResult * FrameDecoder :=
  if bufferedBytes d <? kFrameHeaderSize then (mkFrameDecodeResult need_more_data [], d)
  else
    let network_payload_size :=
      load_uint native (upto kFrameHeaderSize (from (read_offset_ d) (buffer_ d))) in
    let payload_size := ntohl network_payload_size in
    if max_payload_size <? payload_size then (mkFrameDecodeResult payload_too_large [], d)
    else
      let complete_frame_size := kFrameHeaderSize ⊕ payload_size in
      if bufferedBytes d <? complete_frame_size then
        (mkFrameDecodeResult need_more_data [], d)
      else
        let payload := repeat x00 (Z.to_nat payload_size) in
        let payload :=
          if 0 <? payload_size then
            store_at 0
              (upto payload_size (from (read_offset_ d ⊕ kFrameHeaderSize) (buffer_ d)))
              payload
          else payload in
        let d := mkFrameDecoder (buffer_ d) (read_offset_ d ⊕ complete_frame_size) in
        (mkFrameDecodeResult frame_ready payload, compact d).

(** ** The abstract decoder *)

(** The bytes received and not decoded yet. *)
Definition pending (d : FrameDecoder) : bytes := from (read_offset_ d) (buffer_ d).

(** The representation invariant: the offset lies in the vector, and the
    vector is one the standard library can hold. *)
Definition wf (d : FrameDecoder) : Prop :=
  0 <= read_offset_ d <= len (buffer_ d) /\ len (buffer_ d) <= vector_max.

(** The reference decoder: what to do with the pending bytes. *)
Definition spec_next (s : bytes) : FrameDecodeResult * bytes :=
  if len s <? kFrameHeaderSize then (mkFrameDecodeResult need_more_data [], s)
  else if max_payload_size <? parse_header s then
    (mkFrameDecodeResult payload_too_large [], s)
  else if len s <? kFrameHeaderSize + parse_header s then
    (mkFrameDecodeResult need_more_data [], s)
  else (mkFrameDecodeResult frame_ready (upto (parse_header s) (from kFrameHeaderSize s)),
        from (kFrameHeaderSize + parse_header s) s).

(** Two well-formed decoders are equivalent when the same bytes are pending:
    what they have compacted already does not matter. *)
Definition same_pending (d1 d2 : FrameDecoder) : Prop :=
  wf d1 /\ wf d2 /\ pending d1 = pending d2.

(** The decoding of a whole stream: the frames found, the bytes left over and
    the status the decoder stops with. *)
Inductive parses : bytes -> list bytes -> bytes -> FrameDecodeStatus -> Prop :=
| parses_stop s st :
    st <> frame_ready -> spec_next s = (mkFrameDecodeResult st [], s) -> parses s [] s st
| parses_frame s p s' ps rest st :
    spec_next s = (mkFrameDecodeResult frame_ready p, s') ->
    parses s' ps rest st -> parses s (p :: ps) rest st.

(** The space compaction keeps wasted: the offset is small, or at most half of
    the vector. *)
Definition tight (d : FrameDecoder) : Prop :=
  read_offset_ d < kCompactionThreshold \/ 2 * read_offset_ d <= len (buffer_ d).

(** ** Lemmas *)

Lemma wf_empty : wf empty_decoder.
Proof. by split. Qed.

Lemma pending_len d : wf d -> len (pending d) = len (buffer_ d) - read_offset_ d.
Proof. intros [??]; unfold pending; by apply len_from. Qed.

Lemma bufferedBytes_pending d : wf d -> bufferedBytes d = len (pending d).
Proof.
  intros Hwf; rewrite pending_len by done. destruct Hwf as [??].
  unfold bufferedBytes, vector_max in *; apply size_sub_small; lia.
Qed.

Lemma append_pending d data : wf d -> pending (append d data) = pending d ++ data.
Proof. intros [??]; unfold pending, append; simpl; by apply from_app_le. Qed.

Lemma append_wf d data :
  wf d -> len (buffer_ d) + len data <= vector_max -> wf (append d data).
Proof.
  intros [??] ?; unfold wf, append; simpl; rewrite len_app.
  pose proof (len_nonneg data); lia.
Qed.

Lemma compact_pending d : wf d -> pending (compact d) = pending d.
Proof.
  intros [??]; unfold compact, pending; split_ifs; simpl; try done.
  symmetry; apply from_all; lia.
Qed.

Lemma compact_wf d : wf d -> wf (compact d).
Proof.
  intros [??]; unfold compact, wf; split_ifs; simpl; try lia.
  - done.
  - rewrite len_from by lia; lia.
Qed.

#[export] Hint Resolve wf_empty append_wf compact_wf : netpulse.
#[export] Hint Rewrite append_pending compact_pending using assumption : decoder.

#[export] Instance same_pending_per : RelationClasses.PER same_pending.
Proof.
  split; unfold same_pending; [intros d1 d2 (?&?&?); done|].
  intros d1 d2 d3 (?&?&?) (?&?&?); split_and!; congruence.
Qed.

Lemma same_pending_compact d : wf d -> same_pending (compact d) d.
Proof. intros; split_and!; auto with netpulse. by apply compact_pending. Qed.

#[export] Instance compact_proper : Proper (same_pending ==> same_pending) compact.
Proof.
  intros d1 d2 (?&?&E); split_and!; auto with netpulse. by rewrite !compact_pending.
Qed.

Lemma decodeNext_refines `{Host} d r d' :
  wf d -> decodeNext d = (r, d') ->
  spec_next (pending d) = (r, pending d') /\ wf d' /\
  (d' = d \/ exists d2, wf d2 /\ buffer_ d2 = buffer_ d /\ d' = compact d2).
Proof.
  intros Hwf. unfold decodeNext, spec_next. rewrite bufferedBytes_pending by done.
  destruct (len (pending d) <? kFrameHeaderSize) eqn:H4; zbool.
  { intros; simplify_eq; auto. }
  pose proof (parse_header_range _ H4) as Hr.
  assert (Hn : ntohl (load_uint native (upto kFrameHeaderSize (from (read_offset_ d) (buffer_ d))))
               = parse_header (pending d)).
  { fold (pending d). rewrite ntohl_load; [done|].
    pose proof (len_upto kFrameHeaderSize (pending d)).
    unfold len, kFrameHeaderSize in *; lia. }
  rewrite Hn. destruct (max_payload_size <? parse_header (pending d)) eqn:Hbig; zbool.
  { intros; simplify_eq; auto. }
  unfold max_payload_size in *.
  rewrite (size_add_small kFrameHeaderSize) by (unfold kFrameHeaderSize; lia).
  destruct (len (pending d) <? _) eqn:Hall; zbool; intros; simplify_eq; [auto|].
  pose proof (pending_len d Hwf). destruct Hwf as [Ho Hv]. unfold vector_max in Hv.
  set (n := parse_header (pending d)) in *.
  assert (Hk : kFrameHeaderSize = 4) by done.
  rewrite !size_add_small by lia.
  replace (from (read_offset_ d + kFrameHeaderSize) (buffer_ d))
    with (from kFrameHeaderSize (pending d)) by (apply from_from; lia).
  set (d2 := mkFrameDecoder _ _).
  assert (Hwf2 : wf d2) by (unfold wf, d2, vector_max; simpl; lia).
  split; [|split; [by apply compact_wf|right; by exists d2]].
  rewrite compact_pending by done.
  f_equal; [f_equal|by apply from_from; lia].
  assert (Hp : len (upto n (from kFrameHeaderSize (pending d))) = n)
    by (rewrite len_upto; rewrite ?len_from; lia).
  destruct (0 <? n) eqn:Hpos; zbool.
  - rewrite store_at_all; [done|]. etrans; [exact Hp|symmetry; apply len_repeat; lia].
  - replace n with 0 by lia. done.
Qed.

(** *** The reference decoder *)

Lemma spec_next_frame p s :
  len p <= max_payload_size ->
  spec_next (encode_frame p ++ s) = (mkFrameDecodeResult frame_ready p, s).
Proof.
  intros Hp; unfold spec_next. rewrite parse_header_encode by done.
  pose proof (len_nonneg p); pose proof (len_nonneg s).
  autorewrite with len; unfold kFrameHeaderSize.
  replace (_ <? 4) with false by lia. replace (max_payload_size <? _) with false by lia.
  replace (_ <? 4 + len p) with false by lia. f_equal; [f_equal|].
  - unfold encode_frame; rewrite <-app_assoc.
    rewrite <-(len_frame_header (len p)) at 1. rewrite from_app_len. apply upto_app_len.
  - rewrite <-(len_encode_frame p). apply from_app_len.
Qed.

Lemma spec_next_ready s p s' :
  spec_next s = (mkFrameDecodeResult frame_ready p, s') ->
  len p <= max_payload_size /\ s = encode_frame p ++ s'.
Proof.
  unfold spec_next; split_ifs; intros; simplify_eq.
  destruct (encode_parse s) as [E1 E2]; [lia..|]. split; [lia|exact E2].
Qed.

Lemma spec_next_stop s r s' :
  spec_next s = (r, s') -> status r <> frame_ready -> s' = s /\ r = mkFrameDecodeResult (status r) [].
Proof. unfold spec_next; split_ifs; intros; simplify_eq; done. Qed.

(** A stream that is not a whole frame yet is the prefix of one at most. *)
Lemma spec_next_more s s' :
  spec_next s = (mkFrameDecodeResult need_more_data [], s') ->
  s' = s /\ len s < kFrameHeaderSize + max_payload_size.
Proof.
  assert (0 < max_payload_size) by done.
  unfold spec_next; split_ifs; intros; simplify_eq; (split; [done|lia]).
Qed.

(** More bytes do not change a verdict, unless it asked for them. *)
Lemma spec_next_app s t st :
  st <> need_more_data -> spec_next s = (mkFrameDecodeResult st [], s) ->
  st <> frame_ready -> spec_next (s ++ t) = (mkFrameDecodeResult st [], s ++ t).
Proof.
  intros Hst E Hr. unfold spec_next in *.
  destruct (len s <? kFrameHeaderSize) eqn:H4; zbool; [simplify_eq|].
  rewrite parse_header_prefix by done. autorewrite with len. pose proof (len_nonneg t).
  replace (len s + len t <? kFrameHeaderSize) with false by lia.
  destruct (max_payload_size <? parse_header s); [congruence|].
  destruct (len s <? kFrameHeaderSize + parse_header s); simplify_eq.
Qed.

Lemma parses_det s ps rest st ps' rest' st' :
  parses s ps rest st -> parses s ps' rest' st' -> ps = ps' /\ rest = rest' /\ st = st'.
Proof.
  intros Hp; revert ps' rest' st'.
  induction Hp as [s st Hst E|s p s' ps rest st E Hp IH]; intros ps' rest' st';
    inversion 1 as [|? p2 s2 ? ? ? E2]; subst; try congruence; [split_and!; congruence|].
  assert (p = p2 /\ s' = s2) as [-> ->] by (split; congruence).
  edestruct IH as (->&->&->); eauto.
Qed.

(** What the reference decoder finds is what was encoded. *)
Lemma parses_encode ps rest s' qs st :
  Forall (fun p => len p <= max_payload_size) ps ->
  parses rest qs s' st -> parses (concat (encode_frame <$> ps) ++ rest) (ps ++ qs) s' st.
Proof.
  intros Hps Hr; induction Hps as [|p ps Hp Hps IH]; simpl; [done|].
  eapply parses_frame; [|exact IH]. rewrite <-app_assoc; by apply spec_next_frame.
Qed.

Lemma parses_sound s ps rest st :
  parses s ps rest st ->
  s = concat (encode_frame <$> ps) ++ rest /\
  Forall (fun p => len p <= max_payload_size) ps /\
  st <> frame_ready /\ spec_next rest = (mkFrameDecodeResult st [], rest).
Proof.
  induction 1 as [s st Hst E|s p s' ps rest st E Hp (-> & Hall & Hst & Hr)]; simpl.
  - split_and!; auto.
  - apply spec_next_ready in E as [Hl ->]. rewrite app_assoc. split_and!; auto.
Qed.

(** Decoding a stream in two pieces is decoding it in one. *)
Lemma parses_app s t ps rest qs rest' st :
  parses s ps rest need_more_data -> parses (rest ++ t) qs rest' st ->
  parses (s ++ t) (ps ++ qs) rest' st.
Proof.
  intros (-> & Hall & _ & _)%parses_sound Hq. rewrite <-app_assoc. by apply parses_encode.
Qed.

Lemma parses_app_stop s t ps rest st :
  st <> need_more_data -> parses s ps rest st -> parses (s ++ t) ps (rest ++ t) st.
Proof.
  intros Hst (-> & Hall & Hr & E)%parses_sound. rewrite <-app_assoc. rewrite <-(app_nil_r ps) at 2.
  apply parses_encode; [done|]. apply parses_stop; [done|]. by apply spec_next_app.
Qed.

(** ** The decoder as a machine: every sequence of calls *)

Inductive DecoderCall :=
| CallAppend (data : bytes)
| CallDecodeNext
| CallClear.

Section Machine.
  Context `{Host}.

(** The results a client sees, with the decoder and with the reference. *)
Fixpoint run_decoder (calls : list DecoderCall) (d : FrameDecoder) :
    list FrameDecodeResult * FrameDecoder :=
  match calls with
  | [] => ([], d)
  | CallAppend data :: calls => run_decoder calls (append d data)
  | CallDecodeNext :: calls =>
      let '(r, d) := decodeNext d in
      let '(rs, d) := run_decoder calls d in (r :: rs, d)
  | CallClear :: calls => run_decoder calls (clear d)
  end.

Fixpoint run_spec (calls : list DecoderCall) (s : bytes) : list FrameDecodeResult * bytes :=
  match calls with
  | [] => ([], s)
  | CallAppend data :: calls => run_spec calls (s ++ data)
  | CallDecodeNext :: calls =>
      let '(r, s) := spec_next s in
      let '(rs, s) := run_spec calls s in (r :: rs, s)
  | CallClear :: calls => run_spec calls []
  end.

(** The bytes a sequence of calls appends. *)
Fixpoint appended (calls : list DecoderCall) : Z :=
  match calls with
  | [] => 0
  | CallAppend data :: calls => len data + appended calls
  | _ :: calls => appended calls
  end.

Lemma appended_nonneg calls : 0 <= appended calls.
Proof.
  induction calls as [|[data| |] calls IH]; simpl; try done.
  pose proof (len_nonneg data); lia.
Qed.

Lemma compact_shrinks d : wf d -> len (buffer_ (compact d)) <= len (buffer_ d).
Proof.
  intros [??]; unfold compact; split_ifs; simpl; try lia.
  - rewrite len_nil; apply len_nonneg.
  - rewrite len_from; lia.
Qed.

Lemma compact_tight d : wf d -> tight (compact d).
Proof.
  intros [??]; unfold compact, tight; split_ifs; simpl; try (left; done).
  - left; unfold kCompactionThreshold; lia.
  - match goal with H : (_ && _)%bool = false |- _ => apply andb_false_iff in H as [?|?] end;
      zbool; [left; lia|right].
    pose proof (Z.mul_div_le (len (buffer_ d)) 2); lia.
Qed.

Lemma decodeNext_tight d r d' :
  wf d -> tight d -> decodeNext d = (r, d') ->
  tight d' /\ len (buffer_ d') <= len (buffer_ d).
Proof.
  intros Hwf Ht E; apply decodeNext_refines in E as (_ & _ & [->|(d2 & Hwf2 & Eb & ->)]);
    [by auto with lia| |done].
  split; [by apply compact_tight|]. rewrite <-Eb; by apply compact_shrinks.
Qed.

Lemma append_tight d data : tight d -> tight (append d data).
Proof.
  unfold tight, append; simpl; rewrite len_app; pose proof (len_nonneg data); lia.
Qed.

Lemma tight_bound d :
  wf d -> tight d -> len (buffer_ d) <= 2 * len (pending d) + kCompactionThreshold.
Proof.
  intros Hwf Ht; pose proof (pending_len d Hwf); pose proof (len_nonneg (pending d)).
  destruct Ht; unfold kCompactionThreshold in *; lia.
Qed.

(** The decoder's representation is invisible: any sequence of calls gives the
    results of the reference decoder, and keeps the representation invariant. *)
Lemma run_decoder_spec calls d rs d' :
  wf d -> tight d -> len (buffer_ d) + appended calls <= vector_max ->
  run_decoder calls d = (rs, d') ->
  run_spec calls (pending d) = (rs, pending d') /\ wf d' /\ tight d'.
Proof.
  revert d rs d'; induction calls as [|[data| |] calls IH]; simpl; intros d rs d' Hwf Ht Hfit E.
  - by simplify_eq.
  - pose proof (appended_nonneg calls).
    rewrite <-append_pending by done. apply IH; auto using append_tight.
    + apply append_wf; [done|lia].
    + unfold append; simpl; rewrite len_app; lia.
  - destruct (decodeNext d) as [r d1] eqn:E1.
    destruct (run_decoder calls d1) as [rs1 d2] eqn:E2. simplify_eq.
    destruct (decodeNext_tight _ _ _ Hwf Ht E1).
    apply decodeNext_refines in E1 as (Es & Hwf1 & _); [|done]. rewrite Es.
    apply IH in E2 as (-> & ? & ?); auto; lia.
  - apply (IH (clear d)) in E as (<- & ? & ?); auto with netpulse; [by left|].
    pose proof (len_nonneg (buffer_ d)); simpl; rewrite len_nil; lia.
Qed.
End Machine.

(** Equivalent decoders decode alike. *)
#[export] Instance decodeNext_proper `{Host} :
  Proper (same_pending ==> prod_relation eq same_pending) decodeNext.
Proof.
  intros d1 d2 (Hwf1&Hwf2&E).
  destruct (decodeNext d1) as [r1 e1] eqn:E1, (decodeNext d2) as [r2 e2] eqn:E2.
  apply decodeNext_refines in E1 as (E1&?&_); [|done].
  apply decodeNext_refines in E2 as (E2&?&_); [|done].
  rewrite E in E1. split; simpl; [congruence|]. split_and!; congruence.
Qed.

Section DecoderTheorems.
  Context `{Host}.

(** C21. Refinement: whatever calls a client makes, in whatever order, a
    decoder that starts empty answers [decodeNext] exactly as the reference
    decoder does on the plain list of pending bytes. *)
Theorem decoder_refines_reference calls :
  appended calls <= vector_max ->
  (run_decoder calls empty_decoder).1 = (run_spec calls []).1.
Proof.
  intros Hfit. destruct (run_decoder calls empty_decoder) as [rs d'] eqn:E.
  apply run_decoder_spec in E as (E & _); auto with netpulse; [|by left].
  change (pending empty_decoder) with (@nil byte) in E. by rewrite E.
Qed.

(** C35. Space: after any calls the offset lies in the vector and the vector is
    at most twice the undecoded bytes plus the compaction threshold. *)
Theorem decoder_space_bound calls rs d :
  appended calls <= vector_max ->
  run_decoder calls empty_decoder = (rs, d) ->
  0 <= read_offset_ d <= len (buffer_ d) /\
  len (buffer_ d) <= 2 * bufferedBytes d + kCompactionThreshold.
Proof.
  intros Hfit E. apply run_decoder_spec in E as (_ & Hwf & Ht); auto with netpulse; [|by left].
  rewrite bufferedBytes_pending by done. split; [apply Hwf|by apply tight_bound].
Qed.
End DecoderTheorems.

(** A frame in two pieces, followed by the start of another one. *)
Definition example_calls : list DecoderCall :=
  [CallAppend (take 5 (encode_frame [x61; x62])); CallDecodeNext;
   CallAppend (drop 5 (encode_frame [x61; x62]) ++ [x00]); CallDecodeNext; CallDecodeNext].

Lemma decoder_refines_reference_witness :
  appended example_calls <= vector_max /\
  (run_decoder example_calls empty_decoder).1 =
    [mkFrameDecodeResult need_more_data []; mkFrameDecodeResult frame_ready [x61; x62];
     mkFrameDecodeResult need_more_data []].
Proof.
  assert (Hfit : appended example_calls <= vector_max) by (vm_compute; discriminate).
  split; [exact Hfit|]. rewrite (decoder_refines_reference example_calls Hfit). reflexivity.
Defined.

Lemma decoder_space_bound_witness :
  exists rs d, run_decoder example_calls empty_decoder = (rs, d) /\
    0 <= read_offset_ d <= len (buffer_ d) /\
    len (buffer_ d) <= 2 * bufferedBytes d + kCompactionThreshold.
Proof.
  destruct (run_decoder example_calls empty_decoder) as [rs d] eqn:E.
  exists rs, d. split; [done|].
  apply (decoder_space_bound example_calls rs d); [vm_compute; discriminate|exact E].
Defined.
