(* ===== verification/FrameWriteBuffer.v ===== *)
(** * Outgoing frames: [protocol/frame_write_buffer.hpp], [protocol/frame_write_buffer.cpp]

    The write buffer holds encoded frames the socket has not taken yet;
    [flush] sends as much as a non-blocking socket accepts.  Its abstract state
    is the list of pending bytes. *)

From S2P Require Import Prelude Endian Kernel SimKernel Frame.

(** ** Data *)

Inductive FrameQueueStatus :=
| queued
| payload_too_large.

Inductive FrameFlushStatus :=
| drained
| would_block
| error.

#[export] Instance FrameQueueStatus_eq_dec : EqDecision FrameQueueStatus.
Proof. solve_decision. Defined.
#[export] Instance FrameFlushStatus_eq_dec : EqDecision FrameFlushStatus.
Proof. solve_decision. Defined.

Record FrameFlushResult := mkFrameFlushResult {
  flush_status : FrameFlushStatus;
  bytes_transferred : Z;
  error_number : Z
}.

Definition is_drained (r : FrameFlushResult) : bool := bool_decide (flush_status r = drained).

Record FrameWriteBuffer := mkFrameWriteBuffer {
  buffer_ : bytes;
  write_offset_ : Z
}.

Definition empty_buffer : FrameWriteBuffer := mkFrameWriteBuffer [] 0.

(** ** Operations *)

Definition clear (b : FrameWriteBuffer) : FrameWriteBuffer := mkFrameWriteBuffer [] 0.

Definition pendingBytes (b : FrameWriteBuffer) : Z := len (buffer_ b) ⊖ write_offset_ b.

Definition empty (b : FrameWriteBuffer) : bool := pendingBytes b =? 0.

Definition compact (b : FrameWriteBuffer) : FrameWriteBuffer :=
  if write_offset_ b =? 0 then b
  else if write_offset_ b =? len (buffer_ b) then clear b
  else mkFrameWriteBuffer (from (write_offset_ b) (buffer_ b)) 0.

(** [vector::resize]: new elements are zero. *)
Definition resize (n : Z) (l : bytes) : bytes :=
  upto n l ++ repeat x00 (Z.to_nat (n - len l)).

Section FrameWriteBuffer.
  Context `{Host} {K : Type} `{Kernel K}.

Definition enqueue (b : FrameWriteBuffer) (payload : bytes) :
    FrameQueueStatus * FrameWriteBuffer :=
  if max_payload_size <? len payload then (payload_too_large, b)
  else
    let b := compact b in
    let payload_size := wrap32 (len payload) in
    let network_size := htonl payload_size in
    let old_size := len (buffer_ b) in
    let frame_size := 4 ⊕ len payload in
    let buffer := resize (old_size ⊕ frame_size) (buffer_ b) in
    let buffer := store_at old_size (store_uint native 4 network_size) buffer in
    let buffer :=
      if bool_decide (payload = []) then buffer
      else store_at (old_size ⊕ 4) payload buffer in
    (queued, mkFrameWriteBuffer buffer (write_offset_ b)).

(** The loop's variables: the kernel, the buffer and the bytes sent. *)
Definition flush_body (fd : Z) (s : K * FrameWriteBuffer * Z) :
    (K * FrameWriteBuffer * Z) + (K * FrameWriteBuffer * FrameFlushResult) :=
  let '(k, b, total_sent) := s in
  if write_offset_ b <? len (buffer_ b) then
    let '(k, sent) := sys_send k fd (from (write_offset_ b) (buffer_ b)) MSG_NOSIGNAL in
    if 0 <? sent then
      inl (k, mkFrameWriteBuffer (buffer_ b) (write_offset_ b ⊕ sent), total_sent ⊕ sent)
    else if sent =? 0 then inr (k, b, mkFrameFlushResult error total_sent EPIPE)
    else
      let error_number := errno k in
      if error_number =? EINTR then inl (k, b, total_sent)
      else if (error_number =? EAGAIN) || (error_number =? EWOULDBLOCK) then
        inr (k, b, mkFrameFlushResult would_block total_sent error_number)
      else inr (k, b, mkFrameFlushResult error total_sent error_number)
  else inr (k, clear b, mkFrameFlushResult drained total_sent 0).

Definition flush (fuel : nat) (k : K) (b : FrameWriteBuffer) (fd : Z) :
    option (K * FrameWriteBuffer * FrameFlushResult) :=
  loop (flush_body fd) fuel (k, b, 0).
End FrameWriteBuffer.

(** ** The abstract buffer *)

(** The bytes queued and not taken by the socket yet. *)
Definition pending (b : FrameWriteBuffer) : bytes := from (write_offset_ b) (buffer_ b).

Definition wf (b : FrameWriteBuffer) : Prop :=
  0 <= write_offset_ b <= len (buffer_ b) /\ len (buffer_ b) <= vector_max.

(** ** Lemmas *)

Lemma wf_empty_buffer : wf empty_buffer.
Proof. by split. Qed.

Lemma buffer_pending_len b : wf b -> len (pending b) = len (buffer_ b) - write_offset_ b.
Proof. intros [??]; unfold pending; by apply len_from. Qed.

Lemma pendingBytes_pending b : wf b -> pendingBytes b = len (pending b).
Proof.
  intros Hwf; rewrite buffer_pending_len by done. destruct Hwf as [??].
  unfold pendingBytes, vector_max in *; apply size_sub_small; lia.
Qed.

Lemma empty_pending b : wf b -> empty b = true <-> pending b = [].
Proof.
  intros Hwf; unfold empty; rewrite pendingBytes_pending by done.
  rewrite Z.eqb_eq; split; [apply len_zero|by intros ->].
Qed.

Lemma compact_spec b :
  wf b -> wf (compact b) /\ pending (compact b) = pending b /\ write_offset_ (compact b) = 0.
Proof.
  intros [??]; unfold compact, clear, pending, wf; split_ifs; simpl.
  - split_and!; (done || lia).
  - split; [done|]. split; [|done]. symmetry; apply from_all; lia.
  - rewrite from_0, len_from by lia. split_and!; (done || lia).
Qed.

Lemma resize_app l n : 0 <= n -> resize (len l + n) l = l ++ repeat x00 (Z.to_nat n).
Proof.
  intros; unfold resize. rewrite upto_all by lia. do 3 f_equal. lia.
Qed.

(** What a flush result says: [b] is the buffer left. *)
Definition flush_outcome (b : FrameWriteBuffer) (r : FrameFlushResult) : Prop :=
  match flush_status r with
  | drained => b = empty_buffer /\ error_number r = 0
  | would_block => pending b <> [] /\ error_number r = EAGAIN
  | error => pending b <> [] /\ error_number r <> EINTR /\ error_number r <> EAGAIN
  end.

Section WriteBufferFacts.
  Context `{Host} {K : Type} {KO : Kernel K} {KV : KernelView K} {KL : KernelLaws K}.

Lemma enqueue_spec b p :
  wf b -> len p <= max_payload_size ->
  len (pending b) + len (encode_frame p) <= vector_max ->
  exists b', enqueue b p = (queued, b') /\ wf b' /\
    pending b' = pending b ++ encode_frame p.
Proof.
  intros Hwf Hp Hfit. rewrite len_encode_frame in Hfit.
  unfold enqueue. replace (max_payload_size <? len p) with false by lia.
  destruct (compact_spec b Hwf) as (Hwf1 & Hpend & Hoff).
  set (b1 := compact b) in *.
  assert (Ep : pending b = buffer_ b1) by (rewrite <-Hpend; unfold pending; by rewrite Hoff).
  rewrite Ep in *.
  pose proof (len_nonneg (buffer_ b1)); pose proof (len_nonneg p). unfold vector_max in *.
  rewrite store_network_size by done. rewrite (size_add_small 4) by lia; rewrite !size_add_small by lia.
  rewrite resize_app by lia.
  pose proof (len_frame_header (len p)) as Hh.
  rewrite store_at_app, Hh. set (z := from 4 _).
  assert (Hz : len z = len p) by (unfold z; rewrite len_from; rewrite ?len_repeat; lia).
  assert (Hbuf : (if bool_decide (p = []) then buffer_ b1 ++ frame_header (len p) ++ z
     else store_at (len (buffer_ b1) + 4) p (buffer_ b1 ++ frame_header (len p) ++ z))
     = buffer_ b1 ++ encode_frame p).
  { unfold encode_frame. case_bool_decide as Ep0.
    - subst p; apply len_zero in Hz; by rewrite Hz.
    - rewrite app_assoc. replace (len (buffer_ b1) + 4)
        with (len (buffer_ b1 ++ frame_header (len p))) by (autorewrite with len; lia).
      rewrite store_at_app, (from_all (len p) z) by lia. by rewrite app_nil_r, <-app_assoc. }
  rewrite Hbuf. eexists; split; [done|]. unfold wf, pending, vector_max; simpl.
  rewrite Hoff. autorewrite with len. split; [lia|done].
Qed.

Lemma flush_body_step fd b0 k0 k b taken :
  wf b -> pending b0 = taken ++ pending b -> len (pending b0) <= vector_max ->
  moved fd taken [] (view k0) (view k) ->
  match flush_body fd (k, b, len taken) with
  | inl (k', b', total') =>
      exists taken', wf b' /\ pending b0 = taken' ++ pending b' /\ total' = len taken' /\
        moved fd taken' [] (view k0) (view k') /\
        (Z.to_nat (len (pending b')) + os_signals (view k')
         < Z.to_nat (len (pending b)) + os_signals (view k))%nat
  | inr (k', b', r) =>
      exists taken', wf b' /\ pending b0 = taken' ++ pending b' /\
        bytes_transferred r = len taken' /\
        moved fd taken' [] (view k0) (view k') /\ flush_outcome b' r
  end.
Proof.
  intros Hwf Hb Hfit Hm; unfold flush_body, flush_outcome.
  pose proof (buffer_pending_len b Hwf) as Hl. fold (pending b).
  destruct (write_offset_ b <? len (buffer_ b)) eqn:Hlt; zbool.
  2: { exists taken; unfold clear; cbn [flush_status bytes_transferred error_number].
       replace (pending b) with (@nil byte) in Hb
         by (symmetry; apply len_zero; destruct Hwf; lia).
       split_and!; auto using wf_empty_buffer. }
  destruct (sys_send k fd (pending b) MSG_NOSIGNAL) as [k' sent] eqn:E.
  apply send_moved in E.
  assert (Hne : pending b <> []) by (intros Hn; rewrite Hn, len_nil in Hl; lia).
  assert (Hstay : moved fd [] [] (view k) (view k') -> moved fd taken [] (view k0) (view k')).
  { intros Hm'; pose proof (moved_trans _ _ _ _ _ _ _ _ Hm Hm') as Ht'.
    by rewrite !app_nil_r in Ht'. }
  pose proof (len_nonneg taken). rewrite Hb, len_app in Hfit. unfold vector_max in Hfit.
  destruct E as [(Hs & Hm')|(Hs & Hm' & Hi)].
  - replace (0 <? sent) with true by lia.
    destruct Hwf as [Ho Hv]; unfold vector_max in Hv. rewrite !size_add_small by lia.
    exists (taken ++ upto sent (pending b)).
    assert (Hp' : pending (mkFrameWriteBuffer (buffer_ b) (write_offset_ b + sent))
                  = from sent (pending b)) by (symmetry; apply from_from; lia).
    rewrite Hp', len_app, len_upto, len_from, <-app_assoc, upto_from by lia.
    pose proof (moved_signals _ _ _ _ _ Hm').
    split; [unfold wf, vector_max; simpl; lia|]. split_and!; try done; try lia.
    apply (moved_trans _ _ _ _ _ _ _ _ Hm Hm').
  - replace (0 <? sent) with false by lia.
    split_ifs; simpl; exists taken; (split; [done|]); split_and!; auto; errno_lia.
Qed.

Lemma flush_total fuel k b fd :
  wf b -> (Z.to_nat (len (pending b)) + os_signals (view k) < fuel)%nat ->
  exists k' b' r taken, flush fuel k b fd = Some (k', b', r) /\
    wf b' /\ pending b = taken ++ pending b' /\ bytes_transferred r = len taken /\
    moved fd taken [] (view k) (view k') /\ flush_outcome b' r.
Proof.
  intros Hwf Hfuel; unfold flush.
  assert (Hfit : len (pending b) <= vector_max)
    by (rewrite buffer_pending_len by done; destruct Hwf; lia).
  destruct (loop_total (flush_body fd)
    (fun s => exists taken, wf s.1.2 /\ pending b = taken ++ pending s.1.2 /\
       s.2 = len taken /\ moved fd taken [] (view k) (view s.1.1))
    (fun s => Z.to_nat (len (pending s.1.2)) + os_signals (view s.1.1))%nat
    (fun r => exists taken, wf r.1.2 /\ pending b = taken ++ pending r.1.2 /\
       bytes_transferred r.2 = len taken /\
       moved fd taken [] (view k) (view r.1.1) /\ flush_outcome r.1.2 r.2) fuel (k, b, 0))
    as ([[k' b'] r] & E & taken & Hr); eauto.
  - intros [[k1 b1] t] (taken & Hwf1 & Hp & Et & Hm); cbn [fst snd] in *; subst t.
    pose proof (flush_body_step fd b k k1 b1 taken Hwf1 Hp Hfit Hm) as Hstep.
    destruct (flush_body _ _) as [[[k2 b2] t2]|[[k2 b2] r2]]; [|done].
    destruct Hstep as (tk & ? & ? & ? & ? & ?); eauto 10.
  - exists []; cbn; split_and!; auto with netpulse.
  - exists k', b', r, taken; auto.
Qed.

(** The same for whatever fuel a run ended with. *)
Lemma flush_spec fuel k b fd k' b' r :
  wf b -> flush fuel k b fd = Some (k', b', r) ->
  exists taken, wf b' /\ pending b = taken ++ pending b' /\
    bytes_transferred r = len taken /\
    moved fd taken [] (view k) (view k') /\ flush_outcome b' r.
Proof.
  intros Hwf E.
  destruct (flush_total (S (Z.to_nat (len (pending b)) + os_signals (view k))) k b fd)
    as (k2 & b2 & r2 & taken & E2 & Hr); [done|lia|].
  unfold flush in *. pose proof (loop_det _ _ _ _ _ _ E E2) as Eq; simplify_eq. by exists taken.
Qed.

(** The encodings of a list of payloads, one after the other. *)
Definition encodings (ps : list bytes) : bytes := concat (encode_frame <$> ps).

(** A client's use of one buffer: frames are queued or refused, the buffer is
    flushed or cleared, and in between other calls leave the socket's output
    alone.  [ps] are the payloads queued since the last [clear], [past] those of
    each stretch that a [clear] ended. *)
Inductive session (fd : Z) (k0 : K) :
    list (list bytes) -> list bytes -> K -> FrameWriteBuffer -> Prop :=
| session_start : session fd k0 [] [] k0 empty_buffer
| session_enqueue past ps k b p b' :
    session fd k0 past ps k b -> enqueue b p = (queued, b') ->
    session fd k0 past (ps ++ [p]) k b'
| session_refused past ps k b p b' :
    session fd k0 past ps k b -> enqueue b p = (payload_too_large, b') ->
    session fd k0 past ps k b'
| session_flush past ps k b fuel k' b' r :
    session fd k0 past ps k b -> flush fuel k b fd = Some (k', b', r) ->
    session fd k0 past ps k' b'
| session_clear past ps k b :
    session fd k0 past ps k b -> session fd k0 (past ++ [ps]) [] k (clear b)
| session_other past ps k b k' :
    session fd k0 past ps k b -> outbound (view k') fd = outbound (view k) fd ->
    session fd k0 past ps k' b.

Lemma enqueue_cases b p st b' :
  enqueue b p = (st, b') ->
  (st = queued /\ len p <= max_payload_size) \/
  (st = payload_too_large /\ max_payload_size < len p /\ b' = b).
Proof. unfold enqueue; destruct (_ <? _) eqn:E; zbool; intros; simplify_eq; auto. Qed.

Lemma encodings_snoc ps p : encodings (ps ++ [p]) = encodings ps ++ encode_frame p.
Proof. unfold encodings. rewrite fmap_app, concat_app; simpl; by rewrite app_nil_r. Qed.

Definition fits (ps : list bytes) : Prop := len (encodings ps) <= vector_max.

Lemma session_stream fd k0 past ps k b :
  session fd k0 past ps k b -> Forall fits past -> fits ps ->
  exists cut sent, wf b /\ Forall2 (fun c qs => c `prefix_of` encodings qs) cut past /\
    outbound (view k) fd = outbound (view k0) fd ++ concat cut ++ sent /\
    sent ++ pending b = encodings ps.
Proof.
  unfold fits. induction 1 as [|past ps k b p b' Hs IH E|past ps k b p b' Hs IH E
    |past ps k b fuel k' b' r Hs IH E|past ps k b Hs IH|past ps k b k' Hs IH Eo]; intros Hpast Hfit.
  - exists [], []; rewrite app_nil_r; split_and!; auto using wf_empty_buffer.
  - rewrite encodings_snoc, len_app in Hfit. pose proof (len_nonneg (encode_frame p)).
    destruct IH as (cut & sent & Hwf & Hcut & Ho & Eq); [done|lia|].
    pose proof (len_nonneg sent). rewrite <-Eq, len_app in Hfit.
    destruct (enqueue_cases _ _ _ _ E) as [[_ Hp]|[? _]]; [|done].
    destruct (enqueue_spec b p Hwf Hp) as (b2 & E2 & Hwf2 & Hp2); [lia|].
    rewrite E in E2; simplify_eq. exists cut, sent.
    split_and!; auto. by rewrite encodings_snoc, <-Eq, Hp2, app_assoc.
  - destruct (enqueue_cases _ _ _ _ E) as [[? _]|(_ & _ & ->)]; [done|]. by apply IH.
  - destruct IH as (cut & sent & Hwf & Hcut & Ho & Eq); [done..|].
    destruct (flush_spec _ _ _ _ _ _ _ Hwf E) as (taken & Hwf' & Hp & _ & Hm & _).
    exists cut, (sent ++ taken).
    split_and!; [done..| |by rewrite <-app_assoc, <-Hp].
    rewrite (moved_out _ _ _ _ _ Hm), Ho, <-!app_assoc. reflexivity.
  - apply Forall_app in Hpast as [Hpast Hps%Forall_inv].
    destruct IH as (cut & sent & Hwf & Hcut & Ho & Eq); [done|exact Hps|].
    exists (cut ++ [sent]), []. split; [apply wf_empty_buffer|].
    split; [apply Forall2_app; [done|]; constructor; [rewrite <-Eq; by apply prefix_app_r|done]|].
    rewrite concat_app; simpl. by rewrite !app_nil_r.
  - destruct IH as (cut & sent & Hwf & Hcut & Ho & Eq); [done..|]. exists cut, sent. by rewrite Eo.
Qed.

(** C33. Queueing: a payload above the limit is refused and the buffer is not
    touched; any other payload is queued, and the pending bytes grow by exactly
    its encoding, however the buffer was compacted. *)
Theorem enqueue_correct b p :
  wf b -> len (pending b) + len (encode_frame p) <= vector_max ->
  if max_payload_size <? len p then enqueue b p = (payload_too_large, b)
  else exists b', enqueue b p = (queued, b') /\ wf b' /\
    pending b' = pending b ++ encode_frame p.
Proof.
  intros Hwf Hfit; destruct (max_payload_size <? len p) eqn:E; zbool.
  - unfold enqueue. by replace (max_payload_size <? len p) with true by lia.
  - by apply enqueue_spec.
Qed.

(** C23. Flushing always returns once the interrupting signals are over; the
    socket takes a prefix of the pending bytes, of the reported length, and the
    rest stays pending: nothing is lost, sent twice or reordered. [drained]
    means that nothing is left, the other statuses that something is. *)
Theorem flush_correct fuel k b fd :
  wf b -> (Z.to_nat (pendingBytes b) + os_signals (view k) < fuel)%nat ->
  exists k' b' r taken, flush fuel k b fd = Some (k', b', r) /\
    wf b' /\ pending b = taken ++ pending b' /\ bytes_transferred r = len taken /\
    moved fd taken [] (view k) (view k') /\
    (flush_status r = drained <-> empty b' = true) /\ flush_outcome b' r.
Proof.
  intros Hwf; rewrite pendingBytes_pending by done; intros Hfuel.
  destruct (flush_total fuel k b fd Hwf Hfuel)
    as (k' & b' & r & taken & E & Hwf' & Hp & Hb & Hm & Ho).
  exists k', b', r, taken; split_and!; auto. rewrite empty_pending by done.
  unfold flush_outcome in Ho; destruct (flush_status r); [by destruct Ho as [-> _]|..];
    (split; [done|tauto]).
Qed.

(** C13. Over any calls of a buffer, [clear] included, flushed to one socket: the
    socket's output grows, for each stretch that a [clear] ended, by a prefix of
    the encodings of the payloads queued in it, in order, and then by a prefix
    of those queued since; the pending bytes are exactly the rest of the last,
    so that [clear] drops the unsent bytes and nothing else is ever lost. *)
Theorem write_buffer_stream fd k0 past ps k b :
  session fd k0 past ps k b -> Forall fits past -> fits ps ->
  exists cut sent, Forall2 (fun c qs => c `prefix_of` encodings qs) cut past /\
    outbound (view k) fd = outbound (view k0) fd ++ concat cut ++ sent /\
    sent ++ pending b = encodings ps /\
    (empty b = true -> sent = encodings ps).
Proof.
  intros Hs Hpast Hfit.
  destruct (session_stream _ _ _ _ _ _ Hs Hpast Hfit) as (cut & sent & Hwf & Hcut & Ho & Eq).
  exists cut, sent; split_and!; auto. rewrite empty_pending by done.
  intros Hn; by rewrite <-Eq, Hn, app_nil_r.
Qed.
End WriteBufferFacts.

(** ** Concrete runs *)

Lemma enqueue_correct_witness :
  exists b', enqueue (mkFrameWriteBuffer [x01; x02] 1) [x61] = (queued, b') /\
    pending b' = [x02; x00; x00; x00; x01; x61].
Proof.
  destruct (enqueue_correct (mkFrameWriteBuffer [x01; x02] 1) [x61]) as (b' & E & _ & Hp);
    [by repeat split; vm_compute|by vm_compute|].
  exists b'; split; [exact E|]. rewrite Hp. reflexivity.
Defined.

Lemma flush_correct_witness :
  exists k' b' r, flush 10 (sim_socket [] 1 [1; -4; -11]) (mkFrameWriteBuffer [x01; x02; x03] 1) 3
      = Some (k', b', r) /\
    flush_status r = would_block /\ pending b' = [x03] /\ outbound (view k') 3 = [x02].
Proof.
  destruct (flush_correct 10 (sim_socket [] 1 [1; -4; -11]) (mkFrameWriteBuffer [x01; x02; x03] 1) 3)
    as (k' & b' & r & taken & E & _);
    [by repeat split; vm_compute|vm_compute; lia|].
  exists k', b', r; split; [exact E|]. vm_compute in E. injection E as <- <- <-. done.
Defined.

(** Three bytes of a frame are sent, the rest is cleared, and another frame is
    queued: its encoding follows. *)
Lemma write_buffer_stream_witness :
  exists k0 k b cut sent, session 3 k0 [[[x61; x62]]] [[x63]] k b /\
    Forall2 (fun c qs => c `prefix_of` encodings qs) cut [[[x61; x62]]] /\
    outbound (view k) 3 = outbound (view k0) 3 ++ concat cut ++ sent /\
    sent ++ pending b = encodings [[x63]].
Proof.
  set (k := sim_socket [] 0 [3; -11]).
  assert (E1 : enqueue empty_buffer [x61; x62] = (queued,
    mkFrameWriteBuffer [x00; x00; x00; x02; x61; x62] 0)) by (vm_compute; reflexivity).
  eassert (E2 : flush 10 k (mkFrameWriteBuffer [x00; x00; x00; x02; x61; x62] 0) 3
    = Some (_, _, _)) by (vm_compute; reflexivity).
  assert (E3 : enqueue empty_buffer [x63] = (queued,
    mkFrameWriteBuffer [x00; x00; x00; x01; x63] 0)) by (vm_compute; reflexivity).
  pose proof (session_enqueue _ _ _ _ _ _ _ _ (session_clear _ _ _ _ _ _
    (session_flush _ _ _ _ _ _ _ _ _ _
      (session_enqueue _ _ _ _ _ _ _ _ (session_start 3 k) E1) E2)) E3) as S3.
  destruct (write_buffer_stream _ _ _ _ _ _ S3) as (cut & sent & Hcut & Ho & Eq & _);
    [by repeat constructor; vm_compute|by vm_compute|].
  eexists _, _, _, cut, sent. split; [exact S3|split; [exact Hcut|split; [exact Ho|exact Eq]]].
Defined.
