(* ===== verification/Raii.v ===== *)
(** * Descriptor ownership, as an interface

    [Socket], [Epoll] and [EventFd] are move-only owners of one descriptor.
    The class [Owner] is what each of them promises: which descriptor an
    object owns and what its move operations and its destructor do.  The
    ownership theorem is proved once against [OwnerLaws], for any sequence of
    constructions, moves, move assignments (self-assignment included) and
    destructions of a set of objects. *)

From S2P Require Import Prelude Endian Kernel SimKernel.

(** What closing an owned descriptor does to the kernel. *)
Definition close_owned {K} `{Kernel K} (k : K) (fd : Z) : K :=
  if 0 <=? fd then (sys_close k fd).1 else k.

(** Objects live in a store, so that two operands may be the same object. *)
Class Owner (K T : Type) := {
  owned : T -> Z;
  move_construct : T -> T * T;
  move_assign : K -> gmap nat T -> nat -> nat -> K * gmap nat T;
  destroy : K -> T -> K
}.

Class OwnerLaws (K T : Type) `{Kernel K} {O : Owner K T} : Prop := {
  move_construct_law t :
    owned (K := K) (move_construct t).1 = owned t /\ owned (K := K) (move_construct t).2 = -1;
  move_assign_self k objs i : move_assign k objs i i = (k, objs);
  move_assign_law k objs i j t u :
    objs !! i = Some t -> objs !! j = Some u -> i <> j ->
    owned (K := K) t <> owned u \/ owned (K := K) t < 0 ->
    exists t' u',
      move_assign k objs i j = (close_owned k (owned t), <[j := u']> (<[i := t']> objs)) /\
      owned (K := K) t' = owned u /\ owned (K := K) u' = -1;
  destroy_law k t : destroy k t = close_owned k (owned t)
}.

Section Ownership.
  Context `{Host} {K : Type} {KO : Kernel K} {KV : KernelView K} {KL : KernelLaws K}.
  Context {T : Type} {O : Owner K T} {OL : OwnerLaws K T}.

Inductive raii_step : K * gmap nat T -> K * gmap nat T -> Prop :=
| step_construct k objs i t k' :
    objs !! i = None ->
    (* the descriptor is one the kernel has just opened, or none *)
    (owned t < 0 /\ view k' = view k \/
     0 <= owned t /\ ~ is_open (view k) (owned t) /\
     (forall fd, is_open (view k') fd <-> is_open (view k) fd \/ fd = owned t)) ->
    raii_step (k, objs) (k', <[i := t]> objs)
| step_move k objs i j t :
    objs !! i = Some t -> objs !! j = None ->
    raii_step (k, objs)
      (k, <[j := (move_construct t).1]> (<[i := (move_construct t).2]> objs))
| step_assign k objs i j :
    is_Some (objs !! i) -> is_Some (objs !! j) ->
    raii_step (k, objs) (move_assign k objs i j)
| step_destroy k objs i t :
    objs !! i = Some t -> raii_step (k, objs) (destroy k t, delete i objs).

(** The descriptor the object at [i] owns; [-1] where there is none. *)
Definition owner_fd (objs : gmap nat T) (i : nat) : Z := default (-1) (owned <$> objs !! i).

(** [base] are the descriptors opened by others.  The open descriptors are
    those and the owned ones, and no descriptor has two owners. *)
Record raii_inv (base : gset Z) (k : K) (own : nat -> Z) : Prop := RaiiInv {
  raii_open fd : 0 <= fd -> (is_open (view k) fd <-> fd ∈ base \/ exists i, own i = fd);
  raii_apart i : 0 <= own i -> own i ∉ base;
  raii_unique i j : i <> j -> own i = own j -> own i < 0
}.

Lemma close_owned_open k fd fd' :
  is_open (view (close_owned k fd)) fd' <->
  is_open (view k) fd' /\ (fd' <> fd \/ fd < 0).
Proof.
  unfold close_owned; destruct (0 <=? fd) eqn:E; zbool.
  2: { split; [auto with lia|by intros [? _]]. }
  destruct (sys_close k fd) as [k' r] eqn:Ec; apply close_law in Ec; simpl.
  inversion Ec; unfold is_open; simpl.
  rewrite lookup_delete_is_Some. split; intros [??]; split; auto; lia.
Qed.

(** The three changes of ownership. *)
Lemma raii_drop base k own own' i :
  raii_inv base k own -> (forall a, own' a = if decide (a = i) then -1 else own a) ->
  raii_inv base (close_owned k (own i)) own'.
Proof.
  intros [Hopen Hapart Huniq] Hf; split.
  - intros fd Hfd; rewrite close_owned_open, Hopen by done.
    assert (Hi : own i = fd -> fd ∉ base) by (intros <-; auto).
    split.
    + intros [[Hb|[a Ha]] Hne]; [by left|right]. exists a; rewrite Hf, decide_False; [done|].
      intros ->; destruct Hne; lia.
    + intros [Hb|[a Ha]].
      * split; [by left|]. left; intros E; by apply Hi.
      * rewrite Hf in Ha; case_decide; [lia|]. split; [eauto|].
        left; intros E. pose proof (Huniq a i ltac:(done)); lia.
  - intros a; rewrite Hf; case_decide; [lia|auto].
  - intros a b Hab; rewrite !Hf; repeat case_decide; intros; try lia; by apply (Huniq a b).
Qed.

Lemma raii_transfer base k own own' i j :
  raii_inv base k own -> own j < 0 -> i <> j ->
  (forall a, own' a = if decide (a = j) then own i else if decide (a = i) then -1 else own a) ->
  raii_inv base k own'.
Proof.
  intros [Hopen Hapart Huniq] Hj Hij Hf; split.
  - intros fd Hfd; rewrite Hopen by done. split; (intros [Hb|[a Ha]]; [by left|right]).
    + destruct (decide (a = i)) as [->|Hai]; [exists j; by rewrite Hf, decide_True|].
      exists a. rewrite Hf, !decide_False; [done..|]. intros ->; lia.
    + rewrite Hf in Ha; repeat case_decide; [eauto|lia|eauto].
  - intros a; rewrite Hf; repeat case_decide; auto; lia.
  - intros a b Hab; rewrite !Hf; repeat case_decide; try lia; intros E; subst;
      try done; first [by apply (Huniq i b)|rewrite E; by apply (Huniq i a)|by apply (Huniq a b)].
Qed.

Lemma raii_add base k k' own own' i fd :
  raii_inv base k own -> own i < 0 ->
  (forall a, own' a = if decide (a = i) then fd else own a) ->
  (fd < 0 /\ view k' = view k \/
   0 <= fd /\ ~ is_open (view k) fd /\
   (forall fd', is_open (view k') fd' <-> is_open (view k) fd' \/ fd' = fd)) ->
  raii_inv base k' own'.
Proof.
  intros [Hopen Hapart Huniq] Hi Hf Hk.
  assert (Hnew : forall a, 0 <= fd -> own a <> fd).
  { intros a Hfd <-. destruct Hk as [[? _]|(_ & Hc & _)]; [lia|].
    apply Hc, Hopen; eauto. }
  assert (Hothers : forall fd', 0 <= fd' ->
    (exists a, own' a = fd') <-> fd' = fd \/ exists a, own a = fd').
  { intros fd' Hfd'; split.
    - intros [a Ha]; rewrite Hf in Ha; case_decide; eauto.
    - intros [->|[a Ha]]; [exists i; by rewrite Hf, decide_True|].
      exists a; rewrite Hf, decide_False; [done|]. intros ->; lia. }
  split.
  - intros fd' Hfd'; rewrite Hothers by done.
    destruct Hk as [[? Ev]|(Hp & Hc & Hk)]; [rewrite Ev, Hopen by done|rewrite Hk, Hopen by done];
      intuition lia.
  - intros a; rewrite Hf; case_decide; [|auto].
    intros Hfd Hb. destruct Hk as [[? _]|(_ & Hc & _)]; [lia|]. apply Hc, Hopen; auto.
  - intros a b Hab; rewrite !Hf; repeat case_decide; subst; try done; auto; intros E.
    + destruct (decide (fd < 0)); [done|]. destruct (Hnew b); [lia|done].
    + destruct (decide (fd < 0)); [lia|]. destruct (Hnew a); [lia|done].
    + by apply (Huniq a b).
Qed.

Lemma owner_fd_insert objs i t a :
  owner_fd (<[i := t]> objs) a = if decide (a = i) then owned t else owner_fd objs a.
Proof. unfold owner_fd; rewrite lookup_insert; repeat case_decide; subst; done. Qed.

Lemma owner_fd_delete objs i a :
  owner_fd (delete i objs) a = if decide (a = i) then -1 else owner_fd objs a.
Proof. unfold owner_fd; rewrite lookup_delete; repeat case_decide; subst; done. Qed.

Lemma owner_fd_lookup objs i t : objs !! i = Some t -> owner_fd objs i = owned t.
Proof. unfold owner_fd; by intros ->. Qed.

Lemma raii_step_inv base k objs k' objs' :
  raii_step (k, objs) (k', objs') ->
  raii_inv base k (owner_fd objs) -> raii_inv base k' (owner_fd objs').
Proof.
  intros Hstep Hinv; inversion Hstep as
    [? ? i t ? Hi Hk|? ? i j t Hi Hj|? ? i j [t Hi] [u Hj]|? ? i t Hi]; subst.
  - eapply (raii_add _ _ _ _ _ i (owned t)); [exact Hinv| |apply owner_fd_insert|exact Hk].
    unfold owner_fd; by rewrite Hi.
  - destruct (move_construct_law t) as [E1 E2].
    assert (i <> j) by congruence.
    apply (raii_transfer _ _ _ _ i j Hinv); [unfold owner_fd; by rewrite Hj|done|].
    intros a; rewrite !owner_fd_insert, E1, E2, (owner_fd_lookup _ _ _ Hi). done.
  - rename select (move_assign _ _ _ _ = _) into E.
    destruct (decide (i = j)) as [->|Hij].
    { rewrite move_assign_self in E; by simplify_eq. }
    destruct (move_assign_law k objs i j t u Hi Hj Hij) as (t' & u' & Ea & E1 & E2).
    { rewrite <-(owner_fd_lookup _ _ _ Hi), <-(owner_fd_lookup _ _ _ Hj).
      destruct (decide (owner_fd objs i = owner_fd objs j)) as [Eq|]; [right|by left].
      by apply (raii_unique _ _ _ Hinv i j). }
    rewrite Ea in E; simplify_eq.
    rewrite <-(owner_fd_lookup _ _ _ Hi).
    apply (raii_transfer _ _ (fun a => if decide (a = i) then -1 else owner_fd objs a) _ j i).
    + by apply (raii_drop _ _ (owner_fd objs)).
    + by rewrite decide_True.
    + done.
    + intros a. rewrite !owner_fd_insert, E1, E2, (owner_fd_lookup _ _ _ Hj).
      repeat case_decide; subst; try done.
  - rewrite destroy_law, <-(owner_fd_lookup _ _ _ Hi).
    apply (raii_drop _ _ _ _ i Hinv), owner_fd_delete.
Qed.

(** The general theorem: any sequence of steps. *)
Lemma raii_steps_inv base s s' :
  rtc raii_step s s' -> raii_inv base s.1 (owner_fd s.2) -> raii_inv base s'.1 (owner_fd s'.2).
Proof.
  induction 1 as [|[k objs] [k1 objs1] s3 Hstep _ IH]; [done|].
  intros Hinv; by apply IH, (raii_step_inv _ _ _ _ _ Hstep).
Qed.

(** The open descriptors are those of [base] and the owned ones, and each of
    the latter has one owner. *)
Definition owns_exactly (base : gset Z) (k : K) (objs : gmap nat T) : Prop :=
  (forall fd, 0 <= fd -> is_open (view k) fd <->
     fd ∈ base \/ exists i t, objs !! i = Some t /\ owned t = fd) /\
  (forall i j t u, i <> j -> objs !! i = Some t -> objs !! j = Some u -> 0 <= owned t ->
     owned t <> owned u /\ owned t ∉ base).

Lemma raii_owns_exactly base k k' (objs : gmap nat T) :
  (forall fd, 0 <= fd -> is_open (view k) fd <-> fd ∈ base) ->
  rtc raii_step (k, ∅) (k', objs) -> owns_exactly base k' objs.
Proof.
  intros Hbase Hsteps.
  apply (raii_steps_inv base) in Hsteps as [Hopen Hapart Huniq].
  2: { split; simpl; unfold owner_fd; setoid_rewrite lookup_empty; simpl; try lia.
       intros fd Hfd; rewrite Hbase by done. split; [auto|intros [?|[_ ?]]; [done|lia]]. }
  simpl in *; split.
  - intros f Hf; rewrite Hopen by done. split; (intros [Hb|Ho]; [by left|right]).
    + destruct Ho as [i Hi]; unfold owner_fd in Hi.
      destruct (objs !! i) as [t|] eqn:E; simpl in Hi; [eauto|lia].
    + destruct Ho as (i & t & Hi & Ht). exists i. by rewrite (owner_fd_lookup _ _ _ Hi).
  - intros i j t u Hij Hi Hj Hv. apply owner_fd_lookup in Hi, Hj.
    specialize (Huniq i j Hij); specialize (Hapart i).
    rewrite Hi, Hj in *; split; [intros E; specialize (Huniq E); lia|auto].
Qed.
End Ownership.
