(* ===== verification/Socket.v ===== *)
(** * Socket handle: [network/socket.hpp], [network/socket.cpp] *)

From S2P Require Import Prelude Endian Kernel SimKernel Raii.

Record Socket := mkSocket { fd_ : Z }.

(** [Socket()] and [Socket(fd)]. *)
Definition default_socket : Socket := mkSocket (-1).
Definition make_socket (fd : Z) : Socket := mkSocket fd.

Definition fd (s : Socket) : Z := fd_ s.
Definition valid (s : Socket) : bool := 0 <=? fd_ s.

(** [std::exchange(fd_, -1)]: the old descriptor and the object after. *)
Definition release (s : Socket) : Z * Socket := (fd_ s, mkSocket (-1)).

Section Socket.
  Context {K : Type} `{Kernel K}.

Definition reset (k : K) (s : Socket) (new_fd : Z) : K * Socket :=
  if fd_ s =? new_fd then (k, s)
  else
    let k := if valid s then (sys_close k (fd_ s)).1 else k in
    (k, mkSocket new_fd).

Definition destruct_socket (k : K) (s : Socket) : K := (reset k s (-1)).1.

(** The move constructor: the new object and the source after. *)
Definition move_socket (other : Socket) : Socket * Socket :=
  let '(fd, other) := release other in (mkSocket fd, other).

(** The move assignment [*this = std::move(other)] on stored objects. *)
Definition assign_socket (k : K) (objs : gmap nat Socket) (this other : nat) :
    K * gmap nat Socket :=
  if decide (this = other) then (k, objs)
  else
    match objs !! this, objs !! other with
    | Some t, Some o =>
        let '(fd, o) := release o in
        let '(k, t) := reset k t fd in
        (k, <[other := o]> (<[this := t]> objs))
    | _, _ => (k, objs)
    end.

#[export] Instance socket_owner : Owner K Socket := {
  owned := fd_;
  move_construct := move_socket;
  move_assign := assign_socket;
  destroy := destruct_socket
}.

Lemma reset_spec k s new_fd :
  fd_ s <> new_fd \/ fd_ s < 0 ->
  reset k s new_fd = (close_owned k (fd_ s), mkSocket new_fd).
Proof.
  intros Hne; unfold reset, close_owned, valid. destruct s as [f]; simpl in *.
  split_ifs; try done; try lia. by subst.
Qed.

#[export] Instance socket_owner_laws : OwnerLaws K Socket.
Proof.
  split.
  - done.
  - intros k objs i; simpl; unfold assign_socket. by rewrite decide_True.
  - intros k objs i j t u Hi Hj Hij Hne; simpl; unfold assign_socket.
    rewrite decide_False, Hi, Hj by done; simpl. rewrite reset_spec by done. eauto.
  - intros k t; simpl; unfold destruct_socket.
    destruct (decide (fd_ t = -1)) as [E|E].
    + unfold reset, close_owned; by rewrite E.
    + by rewrite reset_spec by auto.
Qed.
End Socket.

Section SocketTheorems.
  Context `{Host} {K : Type} {KO : Kernel K} {KV : KernelView K} {KL : KernelLaws K}.

Lemma destruct_closed_socket k s : fd s = -1 -> destruct_socket k s = k.
Proof. unfold destruct_socket, fd, reset; by intros ->. Qed.

Lemma destruct_socket_open k s f :
  0 <= f ->
  is_open (view (destruct_socket k s)) f <-> is_open (view k) f /\ f <> fd s.
Proof.
  intros Hf. destruct (decide (fd s = -1)) as [E|E].
  { rewrite destruct_closed_socket by done. intuition lia. }
  unfold destruct_socket, fd in *. rewrite reset_spec by (left; congruence); simpl.
  rewrite close_owned_open. intuition lia.
Qed.

(** C25. Ownership: start with no socket objects and any set [base] of open
    descriptors, and construct, move, move-assign (to itself too) and destroy
    sockets in any order. The open descriptors are always those of [base] and
    the ones some socket owns: no descriptor leaks, none of [base] is ever
    closed, and no two sockets own (and will close) the same descriptor. *)
Theorem socket_ownership (base : gset Z) k k' (objs : gmap nat Socket) :
  (forall fd, 0 <= fd -> is_open (view k) fd <-> fd ∈ base) ->
  rtc raii_step (k, ∅) (k', objs) ->
  (forall fd, 0 <= fd -> is_open (view k') fd <->
     fd ∈ base \/ exists i s, objs !! i = Some s /\ fd_ s = fd) /\
  (forall i j s t, i <> j -> objs !! i = Some s -> objs !! j = Some t ->
     valid s = true -> fd_ s <> fd_ t /\ fd_ s ∉ base).
Proof.
  intros Hbase Hsteps. destruct (raii_owns_exactly base k k' objs Hbase Hsteps) as [Ho Hu].
  split; [exact Ho|]. unfold valid; intros i j s t Hij Hi Hj Hv; zbool. by apply (Hu i j).
Qed.
End SocketTheorems.

(** Descriptor 3 belongs to someone else; a socket opens 4, is moved, assigned
    to itself and destroyed. *)
Lemma socket_ownership_witness :
  exists k k' (objs : gmap nat Socket),
    rtc raii_step (k, ∅) (k', objs) /\
    is_open (view k') 3 /\ ~ is_open (view k') 4.
Proof.
  set (v0 := mkOs {[3 := 0]} ∅ ∅ ∅ ∅ [] 0).
  set (k0 := mkSim v0 0 [] []). set (k1 := mkSim (set_flags 4 0 v0) 0 [] []).
  set (o1 := <[0%nat := mkSocket 4]> (∅ : gmap nat Socket)).
  set (o2 := <[1%nat := mkSocket 4]> (<[0%nat := mkSocket (-1)]> o1)).
  assert (Hopen : forall fd, is_open v0 fd <-> fd = 3).
  { intros fd; unfold is_open; simpl. rewrite lookup_singleton_is_Some. done. }
  assert (Hs : rtc raii_step (k0, ∅) (destruct_socket k1 (mkSocket 4), delete 1%nat o2)).
  { eapply rtc_l; [apply (step_construct k0 ∅ 0 (mkSocket 4) k1); [done|right]|].
    { split; [done|]. split; [by intros E%Hopen|]. intros fd.
      change (view k0) with v0; rewrite Hopen.
      unfold is_open; simpl. rewrite lookup_insert_is_Some', lookup_singleton_is_Some. lia. }
    eapply rtc_l; [apply (step_move k1 o1 0 1 (mkSocket 4)); done|].
    eapply rtc_l; [apply (step_assign k1 o2 1 1); eexists; done|].
    eapply rtc_l; [apply (step_destroy k1 o2 1 (mkSocket 4)); done|]. constructor. }
  destruct (socket_ownership {[3]} k0 _ _
    (fun fd _ => iff_trans (Hopen fd) (iff_sym (elem_of_singleton fd 3))) Hs) as [Ho _].
  eexists k0, _, _; split; [exact Hs|]. split.
  - apply Ho; [done|]. left; by apply elem_of_singleton.
  - rewrite Ho by done. intros [E%elem_of_singleton|(i & s & Hi & E)]; [done|].
    apply lookup_delete_Some in Hi as [Hne Hi]. unfold o2 in Hi.
    rewrite lookup_insert_ne in Hi by done. unfold o1 in Hi. rewrite insert_insert_eq in Hi.
    apply lookup_insert_Some in Hi as [[_ <-]|[_ Hi]]; done.
Defined.
