(* ===== verification/Epoll.v ===== *)
(** * epoll handle: [network/epoll.hpp], [network/epoll.cpp] *)

From S2P Require Import Prelude Endian Kernel SimKernel Raii.

(** ** Data *)

Record Epoll := mkEpoll { fd_ : Z }.

Record EpollOperationResult := mkEpollOperationResult {
  success : bool;
  error_number : Z
}.

Record EpollWaitResult := mkEpollWaitResult {
  event_count : Z;
  wait_error_number : Z
}.

Definition completed (r : EpollWaitResult) : bool := 0 <=? event_count r.

(** [std::numeric_limits<int>::max()]. *)
Definition int_max : Z := 2 ^ 31 - 1.

(** ** Operations *)

Definition fd (e : Epoll) : Z := fd_ e.
Definition valid (e : Epoll) : bool := 0 <=? fd_ e.

Section Epoll.
  Context {K : Type} `{Kernel K}.

Definition controlEpoll (k : K) (epoll_fd operation watched_fd evs : Z) :
    K * EpollOperationResult :=
  let event := EpollEvent evs watched_fd in
  let event_pointer := if operation =? EPOLL_CTL_DEL then None else Some event in
  let '(k, r) := sys_epoll_ctl k epoll_fd operation watched_fd event_pointer in
  if r =? -1 then (k, mkEpollOperationResult false (errno k))
  else (k, mkEpollOperationResult true 0).

Definition make_epoll (k : K) : K * Epoll :=
  let '(k, r) := sys_epoll_create1 k EPOLL_CLOEXEC in (k, mkEpoll r).

Definition destruct_epoll (k : K) (e : Epoll) : K :=
  if valid e then (sys_close k (fd_ e)).1 else k.

Definition move_epoll (other : Epoll) : Epoll * Epoll := (mkEpoll (fd_ other), mkEpoll (-1)).

Definition assign_epoll (k : K) (objs : gmap nat Epoll) (this other : nat) :
    K * gmap nat Epoll :=
  if decide (this = other) then (k, objs)
  else
    match objs !! this, objs !! other with
    | Some t, Some o =>
        let k := if valid t then (sys_close k (fd_ t)).1 else k in
        (k, <[other := mkEpoll (-1)]> (<[this := mkEpoll (fd_ o)]> objs))
    | _, _ => (k, objs)
    end.

Definition add (k : K) (e : Epoll) (watched_fd evs : Z) : K * EpollOperationResult :=
  if negb (valid e) || (watched_fd <? 0) then (k, mkEpollOperationResult false EBADF)
  else controlEpoll k (fd_ e) EPOLL_CTL_ADD watched_fd evs.

Definition modify (k : K) (e : Epoll) (watched_fd evs : Z) : K * EpollOperationResult :=
  if negb (valid e) || (watched_fd <? 0) then (k, mkEpollOperationResult false EBADF)
  else controlEpoll k (fd_ e) EPOLL_CTL_MOD watched_fd evs.

Definition remove (k : K) (e : Epoll) (watched_fd : Z) : K * EpollOperationResult :=
  if negb (valid e) || (watched_fd <? 0) then (k, mkEpollOperationResult false EBADF)
  else controlEpoll k (fd_ e) EPOLL_CTL_DEL watched_fd 0.

(** The [do] loop: repeat [epoll_wait] while a signal interrupts it. *)
Definition wait_body (e : Epoll) (size timeout_ms : Z) (k : K) :
    K + (K * Z * list epoll_event) :=
  let '(k, event_count, evs) := sys_epoll_wait k (fd_ e) size timeout_ms in
  if (event_count =? -1) && (errno k =? EINTR) then inl k
  else inr (k, event_count, evs).

(** [size] is the size of the caller's span of events; the last component is
    what the kernel stored in it. *)
Definition wait (fuel : nat) (k : K) (e : Epoll) (size timeout_ms : Z) :
    option (K * EpollWaitResult * list epoll_event) :=
  if negb (valid e) then Some (k, mkEpollWaitResult (-1) EBADF, [])
  else if (size =? 0) || (int_max <? size) then Some (k, mkEpollWaitResult (-1) EINVAL, [])
  else
    '(k, event_count, evs) ← loop (wait_body e size timeout_ms) fuel k;
    if event_count =? -1 then Some (k, mkEpollWaitResult (-1) (errno k), evs)
    else Some (k, mkEpollWaitResult event_count 0, evs).

#[export] Instance epoll_owner : Owner K Epoll := {
  owned := fd_;
  move_construct := move_epoll;
  move_assign := assign_epoll;
  destroy := destruct_epoll
}.

#[export] Instance epoll_owner_laws : OwnerLaws K Epoll.
Proof.
  split.
  - done.
  - intros k objs i; simpl; unfold assign_epoll. by rewrite decide_True.
  - intros k objs i j t u Hi Hj Hij _; simpl; unfold assign_epoll.
    rewrite decide_False, Hi, Hj by done. eauto.
  - done.
Qed.
End Epoll.

(** ** What the operations do to the interest list *)

(** Runs one control operation and compares it with the kernel's law. *)
Ltac epoll_control :=
  match goal with E : _ = (_, _) |- _ =>
    unfold controlEpoll in E;
    destruct (negb _ || _); [simplify_eq; by right|];
    destruct (sys_epoll_ctl _ _ _ _ _) as [? ?] eqn:Ec;
    apply epoll_ctl_law in Ec; simpl in Ec;
    inversion Ec; subst; simpl in *; simplify_eq; [left|right]; auto
  end.

Section EpollFacts.
  Context `{Host} {K : Type} {KO : Kernel K} {KV : KernelView K} {KL : KernelLaws K}.

(** The result of an operation that would set the interest list to [m] and
    needs [pre] of the list. *)
Definition control_outcome (e : Epoll) (pre : Prop) (m : gmap Z epoll_event) (k k' : K)
    (r : EpollOperationResult) : Prop :=
  (success r = true /\ error_number r = 0 /\ pre /\ view k' = set_interest (fd_ e) m (view k)) \/
  (success r = false /\ view k' = view k).

Lemma add_spec k e w evs k' r :
  add k e w evs = (k', r) ->
  control_outcome e (interest (view k) (fd_ e) !! w = None)
    (<[w := EpollEvent evs w]> (interest (view k) (fd_ e))) k k' r.
Proof.
  unfold add, control_outcome; intros E; epoll_control.
Qed.

Lemma modify_spec k e w evs k' r :
  modify k e w evs = (k', r) ->
  control_outcome e (is_Some (interest (view k) (fd_ e) !! w))
    (<[w := EpollEvent evs w]> (interest (view k) (fd_ e))) k k' r.
Proof.
  unfold modify, control_outcome; intros E; epoll_control.
Qed.

Lemma remove_spec k e w k' r :
  remove k e w = (k', r) ->
  control_outcome e (is_Some (interest (view k) (fd_ e) !! w))
    (delete w (interest (view k) (fd_ e))) k k' r.
Proof.
  unfold remove, control_outcome; intros E; epoll_control.
Qed.

(** Between [v] and [v'] at most signals arrived. *)
Definition only_signals (v v' : OsView) : Prop :=
  (os_signals v' <= os_signals v)%nat /\
  v' = mkOs (os_flags v) (os_out v) (os_in v) (os_count v) (os_interest v) (os_clients v)
         (os_signals v').

Lemma only_signals_refl v : only_signals v v.
Proof. split; [done|by destruct v]. Qed.

Lemma only_signals_trans v1 v2 v3 :
  only_signals v1 v2 -> only_signals v2 v3 -> only_signals v1 v3.
Proof. intros [? E1] [? E2]; split; [lia|]. rewrite E2 at 1; rewrite E1; done. Qed.

Lemma only_signals_interrupted v : only_signals v (interrupted v).
Proof. split; [simpl; lia|done]. Qed.

Lemma only_signals_interest v v' ep : only_signals v v' -> interest v' ep = interest v ep.
Proof. intros [_ ->]; done. Qed.

(** What [wait] reports: the user data of distinct registered descriptors, at
    most as many as the caller has room for, or an error that is not an
    interruption. *)
Definition reports (m : gmap Z epoll_event) (fds : list Z) (evs : list epoll_event) : Prop :=
  NoDup fds /\
  Forall2 (fun fd ev => exists registered,
    m !! fd = Some registered /\ data_fd ev = data_fd registered) fds evs.

Definition wait_outcome (e : Epoll) (size : Z) (v : OsView) (r : EpollWaitResult)
    (evs : list epoll_event) : Prop :=
  if completed r then
    event_count r = len evs /\ len evs <= size /\ wait_error_number r = 0 /\
    exists fds, reports (interest v (fd_ e)) fds evs
  else event_count r = -1 /\ 0 < wait_error_number r /\ wait_error_number r <> EINTR.

Lemma wait_total fuel k e size timeout_ms :
  (os_signals (view k) < fuel)%nat -> 0 <= size ->
  exists k' r evs, wait fuel k e size timeout_ms = Some (k', r, evs) /\
    only_signals (view k) (view k') /\ wait_outcome e size (view k) r evs /\
    (valid e = false -> r = mkEpollWaitResult (-1) EBADF) /\
    (valid e = true -> size = 0 \/ int_max < size -> r = mkEpollWaitResult (-1) EINVAL).
Proof.
  intros Hfuel Hsize. unfold wait, wait_outcome.
  destruct (valid e) eqn:Hv; simpl.
  2: { eexists _, _, _; split; [done|]; split_and!; auto using only_signals_refl; done. }
  destruct ((size =? 0) || (int_max <? size)) eqn:Hs; zbool.
  { eexists _, _, _; split; [done|]; split_and!; auto using only_signals_refl; done. }
  destruct (loop_total (wait_body e size timeout_ms)
    (fun k' => only_signals (view k) (view k')) (fun k' => os_signals (view k'))
    (fun r => only_signals (view k) (view r.1.1) /\
       (0 <= r.1.2 /\ r.1.2 = len r.2 /\ len r.2 <= size /\
        (exists fds, reports (interest (view k) (fd_ e)) fds r.2) \/
        r.1.2 = -1 /\ 0 < errno r.1.1 /\ errno r.1.1 <> EINTR)) fuel k)
    as ([[k' n] evs] & E & Hsig & Hr).
  - intros k1 Hk1; unfold wait_body.
    destruct (sys_epoll_wait k1 (fd_ e) size timeout_ms) as [[k2 n] evs] eqn:Ew.
    apply epoll_wait_law in Ew; [|lia].
    rewrite <-(only_signals_interest _ _ (fd_ e) Hk1).
    inversion Ew as [fds ? ? Hlen Hnd Hreg|Hpos|? Hep Herr]; subst; simpl in *.
    + pose proof (len_nonneg evs). replace (len evs =? -1) with false by lia; simpl.
      split; [congruence|]. left; split_and!; eauto. by exists fds.
    + rename select (interrupted _ = _) into Ei; rewrite <-Ei; split; [|simpl; lia].
      eapply only_signals_trans; [exact Hk1|]. apply only_signals_interrupted.
    + replace (errno k2 =? EINTR) with false by lia. simpl. split; [congruence|]. right; auto.
  - apply only_signals_refl.
  - done.
  - rewrite E; simpl in *. unfold completed.
    destruct Hr as [(Hn & -> & Hr)|(-> & Hpos & Herr)]; simpl.
    + replace (len evs =? -1) with false by lia.
      eexists _, _, _; split; [done|]; simpl. replace (0 <=? len evs) with true by lia.
      split_and!; try tauto; lia.
    + eexists _, _, _; split; [done|]; simpl. split_and!; auto; try lia; done.
Qed.

Lemma wait_mono fuel fuel' k e size timeout_ms r :
  (fuel <= fuel')%nat -> wait fuel k e size timeout_ms = Some r ->
  wait fuel' k e size timeout_ms = Some r.
Proof.
  intros Hle; unfold wait. destruct (negb _); [done|]. destruct (_ || _); [done|].
  destruct (loop _ fuel k) as [x|] eqn:E; [|done]. by rewrite (loop_mono _ _ _ _ _ Hle E).
Qed.

(** The same for whatever fuel a call ended with. *)
Lemma wait_spec fuel k e size timeout_ms k' r evs :
  0 <= size -> wait fuel k e size timeout_ms = Some (k', r, evs) ->
  only_signals (view k) (view k') /\ wait_outcome e size (view k) r evs.
Proof.
  intros Hs E.
  destruct (wait_total (fuel `max` S (os_signals (view k))) k e size timeout_ms ltac:(lia) Hs)
    as (k2 & r2 & evs2 & E2 & Hv & Ho & _).
  apply (wait_mono _ (fuel `max` S (os_signals (view k)))) in E; [|lia].
  rewrite E in E2; by simplify_eq.
Qed.
End EpollFacts.

Section EpollTheorems.
  Context `{Host} {K : Type} {KO : Kernel K} {KV : KernelView K} {KL : KernelLaws K}.

(** The life of an instance: constructed, then used by any sequence of its
    operations, while watched descriptors may be closed and anything else may
    happen that leaves its interest list alone. [m] are the descriptors that
    were registered, with the events asked for. *)
Inductive watching (k0 : K) : K -> Epoll -> gmap Z Z -> Prop :=
| watching_make k e : make_epoll k0 = (k, e) -> valid e = true -> watching k0 k e ∅
| watching_add k e m w evs k' r :
    watching k0 k e m -> add k e w evs = (k', r) ->
    watching k0 k' e (if success r then <[w := evs]> m else m)
| watching_modify k e m w evs k' r :
    watching k0 k e m -> modify k e w evs = (k', r) ->
    watching k0 k' e (if success r then <[w := evs]> m else m)
| watching_remove k e m w k' r :
    watching k0 k e m -> remove k e w = (k', r) ->
    watching k0 k' e (if success r then delete w m else m)
| watching_wait k e m fuel size timeout_ms k' r evs :
    watching k0 k e m -> 0 <= size -> wait fuel k e size timeout_ms = Some (k', r, evs) ->
    watching k0 k' e m
| watching_close k e m w k' :
    watching k0 k e m -> interest (view k') (fd_ e) = delete w (interest (view k) (fd_ e)) ->
    watching k0 k' e (delete w m)
| watching_other k e m k' :
    watching k0 k e m -> interest (view k') (fd_ e) = interest (view k) (fd_ e) ->
    watching k0 k' e m.

(** The interest list that [m] asks for: the user data is the descriptor. *)
Definition registered (m : gmap Z Z) : gmap Z epoll_event :=
  map_imap (fun w evs => Some (EpollEvent evs w)) m.

Lemma registered_lookup m w : registered m !! w = (fun evs => EpollEvent evs w) <$> m !! w.
Proof. unfold registered. rewrite map_lookup_imap. by destruct (m !! w). Qed.

Lemma registered_insert m w evs :
  registered (<[w := evs]> m) = <[w := EpollEvent evs w]> (registered m).
Proof.
  apply map_eq; intros w'. rewrite registered_lookup.
  destruct (decide (w = w')) as [->|]; [by rewrite !lookup_insert_eq|].
  by rewrite !lookup_insert_ne, registered_lookup.
Qed.

Lemma registered_delete m w : registered (delete w m) = delete w (registered m).
Proof.
  apply map_eq; intros w'. rewrite registered_lookup.
  destruct (decide (w = w')) as [->|]; [by rewrite !lookup_delete_eq|].
  by rewrite !lookup_delete_ne, registered_lookup.
Qed.

Lemma control_registered e pre m m' k k' r :
  interest (view k) (fd_ e) = registered m -> control_outcome e pre (registered m') k k' r ->
  interest (view k') (fd_ e) = registered (if success r then m' else m).
Proof.
  intros Hi [(-> & _ & _ & ->)|(-> & ->)]; [|done].
  by rewrite interest_set_interest, decide_True.
Qed.

(** The kernel's interest list is always what was asked for. *)
Lemma watching_interest k0 k e m :
  watching k0 k e m -> valid e = true /\ interest (view k) (fd_ e) = registered m.
Proof.
  induction 1 as [k e Hm Hv|k e m w evs k' r _ [Hv IH] E|k e m w evs k' r _ [Hv IH] E
    |k e m w k' r _ [Hv IH] E|k e m fuel size t k' r evs _ [Hv IH] Hs E|k e m w k' _ [Hv IH] E
    |k e m k' _ [Hv IH] E]; (split; [done|]).
  - unfold make_epoll in Hm. destruct (sys_epoll_create1 k0 _) as [k1 r] eqn:Ec.
    apply epoll_create_law in Ec. simplify_eq. unfold valid in Hv; simpl in *.
    inversion Ec as [f x Hp Hno E1 E2 E3|]; subst; [|done].
    unfold interest; simpl. by rewrite lookup_insert_eq.
  - apply add_spec in E. rewrite IH, <-registered_insert in E. by eapply control_registered.
  - apply modify_spec in E. rewrite IH, <-registered_insert in E. by eapply control_registered.
  - apply remove_spec in E. rewrite IH, <-registered_delete in E. by eapply control_registered.
  - apply wait_spec in E as [Hsig _]; [|done]. by rewrite (only_signals_interest _ _ _ Hsig).
  - by rewrite E, IH, registered_delete.
  - by rewrite E.
Qed.

(** What is reported of such a list are the descriptors themselves. *)
Lemma reports_registered m fds evs :
  reports (registered m) fds evs ->
  NoDup (data_fd <$> evs) /\ Forall (fun ev => is_Some (m !! data_fd ev)) evs.
Proof.
  intros [Hnd Hf]. assert (Hall : fds = data_fd <$> evs /\ Forall (fun ev => is_Some (m !! data_fd ev)) evs).
  { clear Hnd. induction Hf as [|w ev fds evs (reg & Hr & Hd) _ [-> IH]]; [done|].
    rewrite registered_lookup in Hr. destruct (m !! w) as [mask|] eqn:Hm; simpl in Hr; simplify_eq.
    simpl in Hd. split; [rewrite <-Hd; done|]. constructor; [rewrite Hd|done]; eauto. }
  destruct Hall as [-> ?]. done.
Qed.

(** C37. [wait], after any use of the instance: it always returns once the
    interrupting signals are over, and never reports an interruption. It
    refuses a moved-from handle and a span that is empty or too long for the
    system call; otherwise it reports at most as many events as the span holds,
    and their user data are descriptors that were registered with this instance
    and not removed since, each at most once. *)
Theorem epoll_wait_correct k0 k e m fuel size timeout_ms :
  watching k0 k e m -> (os_signals (view k) < fuel)%nat -> 0 <= size ->
  (exists k' r evs, wait fuel k e size timeout_ms = Some (k', r, evs) /\
    only_signals (view k) (view k') /\
    (if completed r then
       event_count r = len evs /\ len evs <= size /\ wait_error_number r = 0 /\
       NoDup (data_fd <$> evs) /\ Forall (fun ev => is_Some (m !! data_fd ev)) evs
     else event_count r = -1 /\ 0 < wait_error_number r /\ wait_error_number r <> EINTR) /\
    (size = 0 \/ int_max < size -> r = mkEpollWaitResult (-1) EINVAL)) /\
  (forall e', valid e' = false ->
     wait fuel k e' size timeout_ms = Some (k, mkEpollWaitResult (-1) EBADF, [])).
Proof.
  intros Hw Hf Hs. destruct (watching_interest _ _ _ _ Hw) as [Hv Hi]. split.
  - destruct (wait_total fuel k e size timeout_ms Hf Hs) as (k' & r & evs & E & Hsig & Ho & _ & Hbad).
    exists k', r, evs. split_and!; auto. unfold wait_outcome in Ho. destruct (completed r); [|done].
    destruct Ho as (Hn & Hle & He & fds & Hrep). rewrite Hi in Hrep.
    destruct (reports_registered _ _ _ Hrep). auto.
  - intros e' Hv'. unfold wait. by rewrite Hv'.
Qed.

(** The constructor opens a descriptor of its own, or none. *)
Lemma make_epoll_step k k' e (objs : gmap nat Epoll) i :
  objs !! i = None -> make_epoll k = (k', e) -> raii_step (k, objs) (k', <[i := e]> objs).
Proof.
  unfold make_epoll. destruct (sys_epoll_create1 k EPOLL_CLOEXEC) as [k1 r] eqn:Ec.
  apply epoll_create_law in Ec. intros Hi E; simplify_eq. apply step_construct; [done|]; simpl.
  inversion Ec as [f e Hp Hno E1 E2 E3|e He E1 E2 E3]; subst; [right|left; split; [lia|done]].
  split_and!; auto. intros f; unfold is_open; simpl. rewrite lookup_insert_is_Some'. intuition.
Qed.

(** C26. Ownership of epoll instances: from any set [base] of open descriptors,
    construct, move, move-assign (to itself too) and destroy them in any order.
    The open descriptors are always those of [base] and the ones some instance
    owns: none leaks, none of [base] is ever closed, no two instances own the
    same one, and the next construction keeps it so. *)
Theorem epoll_ownership (base : gset Z) k k' (objs : gmap nat Epoll) :
  (forall fd, 0 <= fd -> is_open (view k) fd <-> fd ∈ base) ->
  rtc raii_step (k, ∅) (k', objs) ->
  owns_exactly base k' objs /\
  forall i k2 e, objs !! i = None -> make_epoll k' = (k2, e) ->
    owns_exactly base k2 (<[i := e]> objs).
Proof.
  intros Hbase Hsteps. split; [by eapply raii_owns_exactly|]. intros i k2 e Hi E.
  apply (raii_owns_exactly base k); [done|]. eapply rtc_r; [exact Hsteps|].
  by apply make_epoll_step.
Qed.
End EpollTheorems.

(** An instance is constructed, descriptor 4; it is asked to watch 3 and 7, and 9,
    which it then forgets; one signal interrupts the call before both are
    reported. *)
Definition sim_watched : Sim :=
  mkSim (mkOs {[3 := 0; 7 := 0; 9 := 0]} ∅ ∅ ∅ ∅ [] 1) 0 [1; 1; 1; 1; 1; -4]
    [[]; [EpollEvent EPOLLIN 7; EpollEvent EPOLLIN 3]].

Lemma epoll_wait_correct_witness :
  exists k e k' r evs, watching sim_watched k e {[7 := EPOLLIN; 3 := Z.lor EPOLLIN EPOLLOUT]} /\
    wait 3 k e 64 (-1) = Some (k', r, evs) /\ event_count r = 2 /\ data_fd <$> evs = [7; 3].
Proof.
  destruct (make_epoll sim_watched) as [k1 e] eqn:E1. destruct (add k1 e 3 EPOLLIN) as [k2 r2] eqn:E2.
  destruct (add k2 e 7 EPOLLIN) as [k3 r3] eqn:E3. destruct (add k3 e 9 EPOLLIN) as [k4 r4] eqn:E4.
  destruct (modify k4 e 3 (Z.lor EPOLLIN EPOLLOUT)) as [k5 r5] eqn:E5.
  destruct (remove k5 e 9) as [k6 r6] eqn:E6.
  assert (Hs : valid e = true /\ success r2 = true /\ success r3 = true /\ success r4 = true /\
    success r5 = true /\ success r6 = true /\ (os_signals (view k6) < 3)%nat /\
    match wait 3 k6 e 64 (-1) with
    | Some (_, r, evs) => event_count r = 2 /\ data_fd <$> evs = [7; 3]
    | None => False
    end).
  { vm_compute in E1; injection E1 as <- <-. vm_compute in E2; injection E2 as <- <-.
    vm_compute in E3; injection E3 as <- <-. vm_compute in E4; injection E4 as <- <-.
    vm_compute in E5; injection E5 as <- <-. vm_compute in E6; injection E6 as <- <-.
    split_and!; try done. vm_compute; lia. }
  destruct Hs as (Hv & H2 & H3 & H4 & H5 & H6 & Hf & Hwait).
  pose proof (watching_make _ _ _ E1 Hv) as W.
  apply (watching_add _ _ _ _ _ _ _ _ W) in E2 as W2. rewrite H2 in W2.
  apply (watching_add _ _ _ _ _ _ _ _ W2) in E3 as W3. rewrite H3 in W3.
  apply (watching_add _ _ _ _ _ _ _ _ W3) in E4 as W4. rewrite H4 in W4.
  apply (watching_modify _ _ _ _ _ _ _ _ W4) in E5 as W5. rewrite H5 in W5.
  apply (watching_remove _ _ _ _ _ _ _ W5) in E6 as W6. rewrite H6 in W6.
  destruct (epoll_wait_correct _ _ _ _ 3 64 (-1) W6 Hf ltac:(lia)) as [(k' & r & evs & E & _) _].
  rewrite E in Hwait. exists k6, e, k', r, evs. split; [|split; [exact E|exact Hwait]].
  match type of W6 with watching _ _ _ ?m =>
    replace m with ({[7 := EPOLLIN; 3 := Z.lor EPOLLIN EPOLLOUT]} : gmap Z Z) in W6
      by (by vm_compute) end.
  exact W6.
Defined.

(** Descriptor 3 belongs to someone else. Two instances are constructed, the
    second is moved into the first, which closes the first one's descriptor,
    and then the second, now empty, is destroyed. *)
Lemma epoll_ownership_witness :
  exists (k' : Sim) (objs : gmap nat Epoll), owns_exactly {[3]} k' objs /\
    objs !! 0%nat = Some (mkEpoll 5) /\ is_open (view k') 5 /\ ~ is_open (view k') 4.
Proof.
  set (k0 := mkSim (mkOs {[3 := 0]} ∅ ∅ ∅ ∅ [] 0) 0 [] []).
  destruct (make_epoll k0) as [k1 e1] eqn:E1. destruct (make_epoll k1) as [k2 e2] eqn:E2.
  set (o1 := <[0%nat := e1]> (∅ : gmap nat Epoll)). set (o2 := <[1%nat := e2]> o1).
  destruct (assign_epoll k2 o2 0 1) as [k3 o3] eqn:E3.
  assert (Hv : e1 = mkEpoll 4 /\ e2 = mkEpoll 5 /\ o3 !! 0%nat = Some (mkEpoll 5) /\
    o3 !! 1%nat = Some (mkEpoll (-1)) /\ is_open (view k3) 5 /\ ~ is_open (view k3) 4).
  { vm_compute in E1; injection E1 as <- <-. vm_compute in E2; injection E2 as <- <-.
    vm_compute in E3; injection E3 as <- <-. split_and!; try done; [by eexists|].
    intros [x Hx]. by vm_compute in Hx. }
  destruct Hv as (_ & _ & H0 & H1 & Ho & Hno).
  assert (Hassign : raii_step (k2, o2) (k3, o3))
    by (pose proof (step_assign (T := Epoll) k2 o2 0 1 ltac:(by eexists) ltac:(by eexists)) as Ha;
        simpl in Ha; by rewrite E3 in Ha).
  assert (Hs : rtc raii_step (k0, ∅) (destruct_epoll k3 (mkEpoll (-1)), delete 1%nat o3)).
  { eapply rtc_l; [exact (make_epoll_step k0 k1 e1 ∅ 0 eq_refl E1)|].
    eapply rtc_l; [exact (make_epoll_step k1 k2 e2 o1 1 eq_refl E2)|].
    eapply rtc_l; [exact Hassign|].
    eapply rtc_l; [by apply (step_destroy k3 o3 1 (mkEpoll (-1)))|]. constructor. }
  assert (Hbase : forall fd, 0 <= fd -> is_open (view k0) fd <-> fd ∈ ({[3]} : gset Z)).
  { intros fd _. rewrite elem_of_singleton. unfold is_open; simpl.
    rewrite lookup_singleton_is_Some. by split. }
  destruct (epoll_ownership {[3]} k0 _ _ Hbase Hs) as [Hown _].
  eexists _, _; split; [exact Hown|]. rewrite lookup_delete_ne by done. by split_and!.
Defined.
