(* ===== verification/EventFd.v ===== *)
(** * eventfd handle: [network/event_fd.hpp], [network/event_fd.cpp]

    The counter that carries "there are results" from the worker threads to
    the event loop. *)

From S2P Require Import Prelude Endian Kernel SimKernel Raii.

(** ** Data *)

Record EventFd := mkEventFd { fd_ : Z; error_number_ : Z }.

Record EventFdOperationResult := mkEventFdOperationResult {
  success : bool;
  error_number : Z
}.

Record EventFdReadResult := mkEventFdReadResult {
  read_success : bool;
  value : Z;
  read_error_number : Z
}.

(** ** Operations *)

Definition fd (e : EventFd) : Z := fd_ e.
Definition valid (e : EventFd) : bool := 0 <=? fd_ e.
Definition errorNumber (e : EventFd) : Z := error_number_ e.

Section EventFd.
  Context `{Host} {K : Type} `{Kernel K}.

(** [EventFd(initial_value)]; the default constructor passes 0. *)
Definition make_event_fd (k : K) (initial_value : Z) : K * EventFd :=
  let '(k, r) := sys_eventfd k initial_value (Z.lor EFD_NONBLOCK EFD_CLOEXEC) in
  (k, mkEventFd r (if r <? 0 then errno k else 0)).
Definition default_event_fd (k : K) : K * EventFd := make_event_fd k 0.

Definition closeDescriptor (k : K) (e : EventFd) : K * EventFd :=
  if 0 <=? fd_ e then ((sys_close k (fd_ e)).1, mkEventFd (-1) (error_number_ e)) else (k, e).

Definition destruct_event_fd (k : K) (e : EventFd) : K := (closeDescriptor k e).1.

Definition move_event_fd (other : EventFd) : EventFd * EventFd :=
  (mkEventFd (fd_ other) (error_number_ other), mkEventFd (-1) 0).

Definition assign_event_fd (k : K) (objs : gmap nat EventFd) (this other : nat) :
    K * gmap nat EventFd :=
  if decide (this = other) then (k, objs)
  else
    match objs !! this, objs !! other with
    | Some t, Some o =>
        let '(k, _) := closeDescriptor k t in
        (k, <[other := mkEventFd (-1) 0]>
              (<[this := mkEventFd (fd_ o) (error_number_ o)]> objs))
    | _, _ => (k, objs)
    end.

(** [sizeof(std::uint64_t)]. *)
Definition sizeof_value : Z := 8.

Definition notify_body (e : EventFd) (value : Z) (k : K) : K + (K * EventFdOperationResult) :=
  let '(k, bytes_written) := sys_write k (fd_ e) (store_uint native 8 value) in
  if bytes_written =? sizeof_value then inr (k, mkEventFdOperationResult true 0)
  else if (bytes_written <? 0) && (errno k =? EINTR) then inl k
  else
    let operation_error := if bytes_written <? 0 then errno k else EIO in
    inr (k, mkEventFdOperationResult false operation_error).

Definition notify (fuel : nat) (k : K) (e : EventFd) (value : Z) :
    option (K * EventFdOperationResult) :=
  if negb (valid e) then Some (k, mkEventFdOperationResult false EBADF)
  else if value =? 0 then Some (k, mkEventFdOperationResult false EINVAL)
  else loop (notify_body e value) fuel k.

(** The loop's variables: the kernel and the eight bytes of [value]. *)
Definition consume_body (e : EventFd) (s : K * bytes) : (K * bytes) + (K * EventFdReadResult) :=
  let '(k, value) := s in
  let '(k, bytes_read, d) := sys_read k (fd_ e) sizeof_value in
  let value := store_at 0 d value in
  if bytes_read =? sizeof_value then
    inr (k, mkEventFdReadResult true (load_uint native value) 0)
  else if (bytes_read <? 0) && (errno k =? EINTR) then inl (k, value)
  else
    let operation_error := if bytes_read <? 0 then errno k else EIO in
    inr (k, mkEventFdReadResult false 0 operation_error).

Definition consume (fuel : nat) (k : K) (e : EventFd) : option (K * EventFdReadResult) :=
  if negb (valid e) then Some (k, mkEventFdReadResult false 0 EBADF)
  else loop (consume_body e) fuel (k, store_uint native 8 0).

#[export] Instance event_fd_owner : Owner K EventFd := {
  owned := fd_;
  move_construct := move_event_fd;
  move_assign := assign_event_fd;
  destroy := destruct_event_fd
}.

Lemma closeDescriptor_spec k e : (closeDescriptor k e).1 = close_owned k (fd_ e).
Proof. unfold closeDescriptor, close_owned; by destruct (0 <=? fd_ e). Qed.

#[export] Instance event_fd_owner_laws : OwnerLaws K EventFd.
Proof.
  split.
  - done.
  - intros k objs i; simpl; unfold assign_event_fd. by rewrite decide_True.
  - intros k objs i j t u Hi Hj Hij _; simpl; unfold assign_event_fd.
    rewrite decide_False, Hi, Hj by done. rewrite <-closeDescriptor_spec.
    destruct (closeDescriptor k t); eauto.
  - intros k t; apply closeDescriptor_spec.
Qed.
End EventFd.

(** ** What notify and consume do to the counter *)

Section EventFdFacts.
  Context `{Host} {K : Type} {KO : Kernel K} {KV : KernelView K} {KL : KernelLaws K}.

(** The counter of [e] exists and is in the kernel's range. *)
Definition counting (e : EventFd) (v : OsView) : Prop :=
  is_Some (os_count v !! fd_ e) /\ 0 <= counter v (fd_ e) <= eventfd_max.

(** Only the counter of [fd] changed, to [c]; signals may have arrived. *)
Definition counted (fd c : Z) (v v' : OsView) : Prop :=
  (os_signals v' <= os_signals v)%nat /\ counter v' fd = c /\
  is_Some (os_count v' !! fd) /\
  (forall fd', fd' <> fd -> os_count v' !! fd' = os_count v !! fd') /\
  os_flags v' = os_flags v /\ os_out v' = os_out v /\ os_in v' = os_in v /\
  os_interest v' = os_interest v /\ os_clients v' = os_clients v.

Lemma counted_refl fd v : is_Some (os_count v !! fd) -> counted fd (counter v fd) v v.
Proof. intros; split_and!; auto. Qed.

Lemma counted_set fd c v : counted fd c v (set_count fd c v).
Proof.
  split_and!; simpl; auto.
  - rewrite counter_set_count; by rewrite decide_True.
  - rewrite lookup_insert_eq; eauto.
  - intros fd' Hne; by rewrite lookup_insert_ne.
Qed.

Lemma counted_interrupted fd v :
  is_Some (os_count v !! fd) -> counted fd (counter v fd) v (interrupted v).
Proof. intros; split_and!; simpl; auto; lia. Qed.

Lemma counted_trans fd c1 c2 v1 v2 v3 :
  counted fd c1 v1 v2 -> counted fd c2 v2 v3 -> counted fd c2 v1 v3.
Proof.
  intros (?&?&?&Hf1&?&?&?&?&?) (?&?&?&Hf2&?&?&?&?&?); split_and!; try congruence; try lia.
  intros fd' Hne; rewrite Hf2, Hf1; done.
Qed.

(** What a finished call has done, with its result. *)
Definition notify_outcome (e : EventFd) (v : Z) (k k' : K) (r : EventFdOperationResult) : Prop :=
  let c := counter (view k) (fd_ e) in
  (success r = true /\ error_number r = 0 /\ c + v <= eventfd_max /\
     counted (fd_ e) (c + v) (view k) (view k')) \/
  (success r = false /\ counted (fd_ e) c (view k) (view k') /\
     0 < error_number r /\ error_number r <> EINTR /\
     (error_number r = EAGAIN -> eventfd_max < c + v)).

Definition consume_outcome (e : EventFd) (k k' : K) (r : EventFdReadResult) : Prop :=
  let c := counter (view k) (fd_ e) in
  (read_success r = true /\ value r = c /\ read_error_number r = 0 /\ 0 < c /\
     counted (fd_ e) 0 (view k) (view k')) \/
  (read_success r = false /\ value r = 0 /\ counted (fd_ e) c (view k) (view k') /\
     0 < read_error_number r /\ read_error_number r <> EINTR /\
     (read_error_number r = EAGAIN -> c = 0)).

Lemma notify_total fuel k e v :
  valid e = true -> counting e (view k) -> 0 < v < 2 ^ 64 ->
  (os_signals (view k) < fuel)%nat ->
  exists k' r, notify fuel k e v = Some (k', r) /\ notify_outcome e v k k' r.
Proof.
  intros Hv [Hc Hr] Hval Hfuel. unfold notify. rewrite Hv; simpl.
  replace (v =? 0) with false by lia. unfold notify_outcome. set (c := counter (view k) (fd_ e)) in *.
  destruct (loop_total (notify_body e v)
    (fun k1 => counted (fd_ e) c (view k) (view k1)) (fun k1 => os_signals (view k1))
    (fun r => notify_outcome e v k r.1 r.2) fuel k)
    as ([k' r] & E & Hpost); [|by apply counted_refl|done|by exists k', r].
  intros k1 Hk1; unfold notify_body, notify_outcome; fold c. pose proof Hk1 as (_ & Ec & Hs1 & _).
  destruct (sys_write _ _ _) as [k2 n] eqn:Ew. apply write_law in Ew; [|done|done].
  inversion Ew as [e0 Hle E1 E2 E3|Hgt E1 E2 E3|Hpos E1 E2 E3|e0 Hep Hne Hna E1 E2 E3];
    rewrite ?Ec in *; subst n; simpl; rewrite <-?E2, <-?E3; simpl.
  - left; split_and!; auto. eapply counted_trans; [exact Hk1|]. apply counted_set.
  - right; split_and!; auto; done.
  - split; [|lia].
    eapply counted_trans; [exact Hk1|]. rewrite <-Ec; by apply counted_interrupted.
  - replace (e0 =? EINTR) with false by lia; simpl.
    right; split_and!; auto; congruence.
Qed.

Lemma consume_total fuel k e :
  valid e = true -> counting e (view k) -> (os_signals (view k) < fuel)%nat ->
  exists k' r, consume fuel k e = Some (k', r) /\
    consume_outcome e k k' r.
Proof.
  intros Hv [Hc Hr] Hfuel. unfold consume. rewrite Hv; cbn [negb].
  unfold consume_outcome. set (c := counter (view k) (fd_ e)) in *.
  destruct (loop_total (consume_body e)
    (fun s => counted (fd_ e) c (view k) (view s.1) /\ len s.2 = 8)
    (fun s => os_signals (view s.1))
    (fun r => consume_outcome e k r.1 r.2)
    fuel (k, store_uint native 8 0))
    as ([k' r] & E & Hpost); [| |done|by exists k', r].
  2: { split; [by apply counted_refl|apply len_store_uint]. }
  intros [k1 val] [Hk1 Hlen]; cbn [fst snd] in *.
  unfold consume_body, consume_outcome; fold c.
  pose proof Hk1 as (_ & Ec & Hs1 & _).
  destruct (sys_read _ _ _) as [[k2 n] d] eqn:Er.
  apply read_law in Er as (c' & Er & Hd & Hd0); [|done].
  inversion Er as [e0 Hpos E1 E2 E3|Hz E1 E2 E3 E4|Hpos E1 E2 E3 E4|e0 Hep Hne Hna E1 E2 E3 E4];
    rewrite ?Ec in *; subst n; cbn -[store_at]; rewrite <-?E2, <-?E3, <-?E4; cbn -[store_at].
  - rename select (set_count _ _ _ = _) into Ev. rewrite <-Ev. left; split_and!; auto.
    + rewrite Hd, store_at_all by (by rewrite ?len_store_uint, ?Hlen). rewrite <-E3. apply load_store_uint. unfold eventfd_max in Hr.
      change (256 ^ Z.of_nat 8) with (2 ^ 64). lia.
    + eapply counted_trans; [exact Hk1|]. apply counted_set.
  - right; split_and!; auto; done.
  - rewrite Hd0, store_at_nil by lia. split; [split; [|done]|lia].
    eapply counted_trans; [exact Hk1|]. rewrite <-Ec; by apply counted_interrupted.
  - replace (e0 =? EINTR) with false by lia; cbn.
    right; split_and!; auto; congruence.
Qed.

(** The same for whatever fuel a call ended with. *)
Lemma notify_spec fuel k e v k' r :
  valid e = true -> counting e (view k) -> 0 < v < 2 ^ 64 ->
  notify fuel k e v = Some (k', r) -> notify_outcome e v k k' r.
Proof.
  intros Hv Hc Hval E.
  destruct (notify_total (fuel `max` S (os_signals (view k))) k e v Hv Hc Hval ltac:(lia))
    as (k2 & r2 & E2 & Ho).
  assert (E3 : notify (fuel `max` S (os_signals (view k))) k e v = Some (k', r)).
  { revert E; unfold notify. destruct (negb _); [done|]. destruct (v =? 0); [done|].
    apply loop_mono; lia. }
  rewrite E3 in E2; by simplify_eq.
Qed.

Lemma consume_spec fuel k e k' r :
  valid e = true -> counting e (view k) ->
  consume fuel k e = Some (k', r) -> consume_outcome e k k' r.
Proof.
  intros Hv Hc E.
  destruct (consume_total (fuel `max` S (os_signals (view k))) k e Hv Hc ltac:(lia))
    as (k2 & r2 & E2 & Ho).
  assert (E3 : consume (fuel `max` S (os_signals (view k))) k e = Some (k', r)).
  { revert E; unfold consume. destruct (negb _); [done|]. apply loop_mono; lia. }
  rewrite E3 in E2; by simplify_eq.
Qed.

Lemma counted_counting e c v v' :
  counted (fd_ e) c v v' -> 0 <= c <= eventfd_max -> counting e v'.
Proof. intros (_ & Ec & Hs & _) Hr. split; [done|by rewrite Ec]. Qed.

Lemma notify_counting e v k k' r :
  counting e (view k) -> 0 < v -> notify_outcome e v k k' r -> counting e (view k').
Proof.
  intros [_ Hr] Hv [(_ & _ & Hle & Hk)|(_ & Hk & _)]; apply (counted_counting _ _ _ _ Hk); lia.
Qed.

Lemma consume_counting e k k' r :
  counting e (view k) -> consume_outcome e k k' r -> counting e (view k').
Proof.
  intros [_ Hr] [(_ & _ & _ & _ & Hk)|(_ & _ & Hk & _)]; apply (counted_counting _ _ _ _ Hk);
    unfold eventfd_max in *; lia.
Qed.

(** The default constructor: a counter of zero, or the error. *)
Lemma default_event_fd_spec k k' e :
  default_event_fd k = (k', e) ->
  if valid e then
    counting e (view k') /\ counter (view k') (fd_ e) = 0 /\ error_number_ e = 0 /\
    ~ is_open (view k) (fd_ e) /\
    exists f, view k' = set_flags (fd_ e) f (set_count (fd_ e) 0 (view k))
  else 0 < error_number_ e /\ view k' = view k.
Proof.
  unfold default_event_fd, make_event_fd, valid; intros E.
  destruct (sys_eventfd _ _ _) as [k1 r] eqn:Es. injection E as <- <-; simpl.
  apply eventfd_law in Es. inversion Es as [f e0 Hf Hno|e0 He]; subst.
  - destruct (0 <=? r) eqn:Hr; zbool; [|lia]. replace (r <? 0) with false by lia.
    assert (Hc : counter (set_flags r (Z.land (Z.lor EFD_NONBLOCK EFD_CLOEXEC) O_NONBLOCK)
      (set_count r 0 (view k))) r = 0)
      by (unfold counter; simpl; by rewrite lookup_insert_eq).
    split; [split; simpl|split; [exact Hc|split; [done|split; [done|eauto]]]].
    + rewrite lookup_insert_eq; eauto.
    + rewrite Hc; done.
  - split; [done|congruence].
Qed.
End EventFdFacts.

Section EventFdTheorems.
  Context `{Host} {K : Type} {KO : Kernel K} {KV : KernelView K} {KL : KernelLaws K}.

(** C34. The counter as a mailbox flag. [notify] returns: it adds the value, or
    leaves the counter and reports why, and [EAGAIN] only if the counter has no
    room for the value. [consume] after it returns: it takes all that has been
    accumulated, at least 1, and resets the counter, or leaves it and reports
    why, and [EAGAIN] only if there was nothing, so that a notification before
    it had failed. After a notification that succeeded or found the counter
    full there is something to consume. Neither reports an interruption; a
    moved-from object and the value 0 are refused without a call. *)
Theorem notify_then_consume fuel k e v :
  valid e = true -> counting e (view k) -> 0 < v < 2 ^ 64 - 1 ->
  (os_signals (view k) < fuel)%nat ->
  let c := counter (view k) (fd_ e) in
  (exists k1 r1 k2 r2,
    notify fuel k e v = Some (k1, r1) /\ consume fuel k1 e = Some (k2, r2) /\
    let c1 := counter (view k1) (fd_ e) in
    (if success r1 then error_number r1 = 0 /\ c + v <= eventfd_max /\ c1 = c + v
     else c1 = c /\ 0 < error_number r1 /\ error_number r1 <> EINTR /\
       (error_number r1 = EAGAIN -> eventfd_max < c + v)) /\
    (success r1 = true \/ error_number r1 = EAGAIN -> 0 < c1) /\
    (if read_success r2 then
       value r2 = c1 /\ 0 < c1 /\ read_error_number r2 = 0 /\ counter (view k2) (fd_ e) = 0
     else value r2 = 0 /\ counter (view k2) (fd_ e) = c1 /\ 0 < read_error_number r2 /\
       read_error_number r2 <> EINTR /\
       (read_error_number r2 = EAGAIN -> c1 = 0 /\ success r1 = false))) /\
  notify fuel k e 0 = Some (k, mkEventFdOperationResult false EINVAL) /\
  (forall e', valid e' = false ->
     notify fuel k e' v = Some (k, mkEventFdOperationResult false EBADF) /\
     consume fuel k e' = Some (k, mkEventFdReadResult false 0 EBADF)).
Proof.
  intros Hv Hc Hval Hfuel c. pose proof Hc as [Hs Hrange]. split.
  - destruct (notify_total fuel k e v Hv Hc ltac:(lia) Hfuel) as (k1 & r1 & E1 & Hn).
    pose proof (notify_counting e v k k1 r1 Hc ltac:(lia) Hn) as Hc1.
    assert (Hsig : (os_signals (view k1) <= os_signals (view k))%nat)
      by (destruct Hn as [(_ & _ & _ & Hk)|(_ & Hk & _)]; apply Hk).
    destruct (consume_total fuel k1 e Hv Hc1 ltac:(lia)) as (k2 & r2 & E2 & Hr).
    exists k1, r1, k2, r2. split; [done|]. split; [done|]. simpl. fold c in Hn, Hrange.
    assert (H1 : if success r1 then error_number r1 = 0 /\ c + v <= eventfd_max /\
        counter (view k1) (fd_ e) = c + v
      else counter (view k1) (fd_ e) = c /\ 0 < error_number r1 /\ error_number r1 <> EINTR /\
        (error_number r1 = EAGAIN -> eventfd_max < c + v)).
    { destruct Hn as [(-> & He & Hle & Hk)|(-> & Hk & Hrest)]; split_and!; auto; try apply Hk;
        try apply Hrest. }
    assert (H2 : success r1 = true \/ error_number r1 = EAGAIN -> 0 < counter (view k1) (fd_ e)).
    { unfold eventfd_max in *. revert H1. destruct (success r1); [lia|].
      intros (? & _ & _ & Hfull) [?|Ha%Hfull]; [done|lia]. }
    split; [exact H1|]. split; [exact H2|].
    destruct Hr as [(-> & -> & ? & ? & Hk)|(-> & -> & Hk & ? & ? & Ha)]; split_and!; auto; try apply Hk.
    intros Hag. specialize (Ha Hag). split; [done|].
    revert H1. destruct (success r1); [lia|done].
  - split; [unfold notify; by rewrite Hv|].
    intros e' Hv'. unfold notify, consume. by rewrite Hv'.
Qed.

(** The constructor opens a descriptor of its own, or none. *)
Lemma make_event_fd_step k k' e n (objs : gmap nat EventFd) i :
  objs !! i = None -> make_event_fd k n = (k', e) -> raii_step (k, objs) (k', <[i := e]> objs).
Proof.
  unfold make_event_fd. destruct (sys_eventfd k n _) as [k1 r] eqn:Ec.
  apply eventfd_law in Ec. intros Hi E; simplify_eq. apply step_construct; [done|]; simpl.
  inversion Ec as [f e Hp Hno E1 E2 E3|e He E1 E2 E3]; subst; [right|left; split; [lia|done]].
  split_and!; auto. intros f; unfold is_open; simpl. rewrite lookup_insert_is_Some'. intuition.
Qed.

(** C27. Ownership of eventfds: from any set [base] of open descriptors,
    construct, move, move-assign (to itself too) and destroy them in any order.
    The open descriptors are always those of [base] and the ones some object
    owns: none leaks, none of [base] is ever closed, no two objects own the
    same one, and the next construction keeps it so. *)
Theorem event_fd_ownership (base : gset Z) k k' (objs : gmap nat EventFd) :
  (forall fd, 0 <= fd -> is_open (view k) fd <-> fd ∈ base) ->
  rtc raii_step (k, ∅) (k', objs) ->
  owns_exactly base k' objs /\
  forall i n k2 e, objs !! i = None -> make_event_fd k' n = (k2, e) ->
    owns_exactly base k2 (<[i := e]> objs).
Proof.
  intros Hbase Hsteps. split; [by eapply raii_owns_exactly|]. intros i n k2 e Hi E.
  apply (raii_owns_exactly base k); [done|]. eapply rtc_r; [exact Hsteps|].
  by eapply make_event_fd_step.
Qed.
End EventFdTheorems.

(** An eventfd, descriptor 4, with counter 5; a signal interrupts the write. *)
Definition sim_eventfd_5 : Sim :=
  mkSim (mkOs {[4 := 0]} ∅ ∅ {[4 := 5]} ∅ [] 1) 0 [-4] [].

Lemma notify_then_consume_witness :
  exists k1 r1 k2 r2, notify 3 sim_eventfd_5 (mkEventFd 4 0) 1 = Some (k1, r1) /\
    consume 3 k1 (mkEventFd 4 0) = Some (k2, r2) /\
    value r2 = 6 /\ counter (view k2) 4 = 0.
Proof.
  destruct (notify_then_consume 3 sim_eventfd_5 (mkEventFd 4 0) 1 eq_refl) as [Hcalls _];
    [split; [by eexists|by vm_compute]|lia|vm_compute; lia|].
  destruct Hcalls as (k1 & r1 & k2 & r2 & E1 & E2 & H1 & _ & H2).
  exists k1, r1, k2, r2. split; [exact E1|split; [exact E2|]].
  assert (Hs : success r1 = true /\ read_success r2 = true).
  { clear H1 H2. vm_compute in E1. injection E1 as <- <-. vm_compute in E2. by injection E2 as <- <-. }
  destruct Hs as [Hs1 Hs2]. rewrite Hs1 in H1. rewrite Hs2 in H2.
  destruct H1 as (_ & _ & H1). destruct H2 as (-> & _ & _ & H2). split; [exact H1|exact H2].
Defined.

(** Descriptor 3 belongs to someone else. An eventfd is constructed and moved,
    the moved-from object is destroyed, and then the other one assigned to
    itself: its descriptor stays open throughout. *)
Lemma event_fd_ownership_witness :
  exists (k' : Sim) (objs : gmap nat EventFd), owns_exactly {[3]} k' objs /\
    objs !! 1%nat = Some (mkEventFd 4 0) /\ objs !! 0%nat = None /\ is_open (view k') 4.
Proof.
  set (k0 := mkSim (mkOs {[3 := 0]} ∅ ∅ ∅ ∅ [] 0) 0 [] []).
  destruct (make_event_fd k0 7) as [k1 e1] eqn:E1.
  set (o1 := <[0%nat := e1]> (∅ : gmap nat EventFd)).
  set (o2 := <[1%nat := (move_event_fd e1).1]> (<[0%nat := (move_event_fd e1).2]> o1)).
  assert (Hv : e1 = mkEventFd 4 0 /\ is_open (view k1) 4)
    by (vm_compute in E1; injection E1 as <- <-; split; [done|by eexists]).
  destruct Hv as [-> Ho].
  assert (Hs : rtc raii_step (k0, ∅) (k1, delete 0%nat o2)).
  { eapply rtc_l; [exact (make_event_fd_step k0 k1 _ 7 ∅ 0 eq_refl E1)|].
    eapply rtc_l; [by apply (step_move k1 o1 0 1 (mkEventFd 4 0))|].
    eapply rtc_l; [by apply (step_destroy k1 o2 0 (mkEventFd (-1) 0))|].
    eapply rtc_l; [apply (step_assign k1 (delete 0%nat o2) 1 1); by eexists|]. constructor. }
  assert (Hbase : forall fd, 0 <= fd -> is_open (view k0) fd <-> fd ∈ ({[3]} : gset Z)).
  { intros fd _. rewrite elem_of_singleton. unfold is_open; simpl.
    rewrite lookup_singleton_is_Some. by split. }
  destruct (event_fd_ownership {[3]} k0 _ _ Hbase Hs) as [Hown _].
  exists k1, (delete 0%nat o2). split; [exact Hown|]. by split_and!.
Defined.
