(* ===== verification/NonBlocking.v ===== *)
(** * Non-blocking mode: [network/nonblocking.hpp], [network/nonblocking.cpp] *)

From S2P Require Import Prelude Endian Kernel SimKernel.

Record NonBlockingResult := mkNonBlockingResult {
  success : bool;
  error_number : Z
}.

Definition setNonBlocking {K} `{Kernel K} (k : K) (fd : Z) : K * NonBlockingResult :=
  let '(k, current_flags) := sys_fcntl k fd F_GETFL 0 in
  if current_flags =? -1 then (k, mkNonBlockingResult false (errno k))
  else if negb (Z.land current_flags O_NONBLOCK =? 0) then (k, mkNonBlockingResult true 0)
  else
    let '(k, r) := sys_fcntl k fd F_SETFL (Z.lor current_flags O_NONBLOCK) in
    if r =? -1 then (k, mkNonBlockingResult false (errno k))
    else (k, mkNonBlockingResult true 0).

Section NonBlocking.
  Context `{Host} {K : Type} {KO : Kernel K} {KV : KernelView K} {KL : KernelLaws K}.

Lemma land_nonblock_neq f : Z.land f O_NONBLOCK <> 0 <-> Z.testbit f 11 = true.
Proof.
  change O_NONBLOCK with (2 ^ 11). split.
  - intros Hne. destruct (Z.testbit f 11) eqn:E; [done|]. destruct Hne.
    apply Z.bits_inj'; intros n Hn. rewrite Z.land_spec, Z.pow2_bits_eqb, Z.bits_0 by lia.
    destruct (11 =? n) eqn:En; zbool; [subst; by rewrite E|apply andb_false_r].
  - intros E Hz. assert (Hb : Z.testbit (Z.land f (2 ^ 11)) 11 = true)
      by (rewrite Z.land_spec, E; done).
    by rewrite Hz in Hb.
Qed.

(** Only the flags of an open descriptor may change. *)
Lemma setNonBlocking_view k fd k' r :
  setNonBlocking k fd = (k', r) ->
  view k' = view k \/
  (is_open (view k) fd /\ exists f, view k' = set_flags fd f (view k)).
Proof.
  unfold setNonBlocking; intros E.
  destruct (sys_fcntl k fd F_GETFL 0) as [k1 f] eqn:E1; apply fcntl_law in E1.
  assert (Ev : view k1 = view k) by (inversion E1; congruence). clear E1.
  destruct (f =? -1); [simplify_eq; by left|]. destruct (negb _); [simplify_eq; by left|].
  destruct (sys_fcntl k1 fd F_SETFL _) as [k2 r2] eqn:E2; apply fcntl_law in E2.
  assert (k2 = k') as -> by (destruct (r2 =? -1); by simplify_eq). rewrite Ev in E2.
  inversion E2 as [|f1 f2 ? ? Hf|]; [right; split; [by exists f1|eauto]|by left].
Qed.

(** The system call of [setNonBlocking] that failed, if one did: reading the
    flags, or setting them on a descriptor that was still blocking. *)
Inductive failed_call (k : K) (fd : Z) (k' : K) : Prop :=
| getfl_failed : sys_fcntl k fd F_GETFL 0 = (k', -1) -> failed_call k fd k'
| setfl_failed k1 f :
    sys_fcntl k fd F_GETFL 0 = (k1, f) -> os_flags (view k) !! fd = Some f ->
    Z.land f O_NONBLOCK = 0 ->
    sys_fcntl k1 fd F_SETFL (Z.lor f O_NONBLOCK) = (k', -1) -> failed_call k fd k'.

(** C38. [setNonBlocking] fails exactly when one of its system calls does, and
    then with that call's error and nothing changed; otherwise the descriptor
    ends up non-blocking with its other status flags as they were. A descriptor
    that is non-blocking already is left alone: once its flags can be read the
    call succeeds, in particular when it is repeated. *)
Theorem setNonBlocking_correct k fd k' r :
  setNonBlocking k fd = (k', r) ->
  (success r = false <-> failed_call k fd k') /\
  (if success r then
     error_number r = 0 /\
     exists f, os_flags (view k) !! fd = Some f /\
       os_flags (view k') = <[fd := Z.lor f O_NONBLOCK]> (os_flags (view k))
   else view k' = view k /\ error_number r = errno k') /\
  (forall f, os_flags (view k) !! fd = Some f -> Z.land f O_NONBLOCK <> 0 ->
     (sys_fcntl k fd F_GETFL 0).2 <> -1 -> success r = true /\ view k' = view k).
Proof.
  unfold setNonBlocking; intros E.
  destruct (sys_fcntl k fd F_GETFL 0) as [k1 f] eqn:E1. pose proof E1 as L1; apply fcntl_law in L1.
  inversion L1 as [? ? ? Hf Hf0| |? ? ?]; subst.
  2: { simpl in E; simplify_eq; simpl. split; [|split; [auto|by intros]].
       split; [intros _; by apply getfl_failed|done]. }
  replace (f =? -1) with false in E by lia.
  rename select (view k = view k1) into Ev.
  destruct (negb (Z.land f O_NONBLOCK =? 0)) eqn:Hb; zbool.
  - simplify_eq; simpl. split_and!.
    + split; [done|]. intros [Eg|k2 f2 Eg _ Hz _]; rewrite E1 in Eg; simplify_eq; lia.
    + done.
    + exists f; split; [done|].
      rewrite <-Ev. apply land_nonblock_neq in Hb. symmetry; apply insert_id. rewrite Hf; f_equal.
      change O_NONBLOCK with (2 ^ 11). apply Z.bits_inj'; intros n Hn.
      rewrite Z.lor_spec, Z.pow2_bits_eqb by lia.
      destruct (11 =? n) eqn:En; zbool; [subst; by rewrite Hb|by rewrite orb_false_r].
    + done.
  - destruct (sys_fcntl k1 fd F_SETFL _) as [k2 r2] eqn:E2. pose proof E2 as L2; apply fcntl_law in L2.
    assert (Hkeep : forall f', os_flags (view k) !! fd = Some f' -> Z.land f' O_NONBLOCK <> 0 ->
      (k1, f).2 <> -1 -> success r = true /\ view k' = view k) by (intros f' ? ?; simplify_eq).
    inversion L2 as [|f2 ? ? ? Hf2 Hr2|? ? ?]; subst.
    + replace (r2 =? -1) with false in E by lia. simplify_eq; simpl. split_and!; auto.
      * split; [done|]. intros [Eg|k3 f3 Eg _ Hz Es]; rewrite E1 in Eg; simplify_eq.
        rewrite E2 in Es. by simplify_eq.
      * exists f; split; [done|].
        match goal with Hv : set_flags _ _ _ = view _ |- _ => rewrite <-Hv end.
        simpl; by rewrite <-Ev.
    + simpl in E; simplify_eq; simpl. split; [|split; [split; [congruence|done]|exact Hkeep]].
      split; [intros _; by apply (setfl_failed _ _ _ k1 f)|done].
Qed.
End NonBlocking.

(** The flag is set, and set again. *)
Lemma setNonBlocking_correct_witness :
  exists k1 r1 k2 r2, setNonBlocking (sim_socket [] 0 []) 3 = (k1, r1) /\ success r1 = true /\
    os_flags (view k1) = <[3 := Z.lor 0 O_NONBLOCK]> (os_flags (view (sim_socket [] 0 []))) /\
    setNonBlocking k1 3 = (k2, r2) /\ success r2 = true /\ view k2 = view k1.
Proof.
  destruct (setNonBlocking (sim_socket [] 0 []) 3) as [k1 r1] eqn:E1.
  destruct (setNonBlocking k1 3) as [k2 r2] eqn:E2.
  pose proof (setNonBlocking_correct _ _ _ _ E1) as (_ & T1 & _).
  pose proof (setNonBlocking_correct _ _ _ _ E2) as (_ & _ & T2).
  assert (Hs : success r1 = true) by (vm_compute in E1; by injection E1 as <- <-).
  rewrite Hs in T1. destruct T1 as (_ & f & Hf & T1). vm_compute in Hf. injection Hf as <-.
  exists k1, r1, k2, r2. split; [reflexivity|]. split; [exact Hs|]. split; [exact T1|].
  split; [exact E2|]. apply (T2 (Z.lor 0 O_NONBLOCK)).
  - rewrite T1. by rewrite lookup_insert_eq.
  - done.
  - vm_compute in E1; injection E1 as <- <-. by vm_compute.
Defined.
