(* ===== verification/Processing.v ===== *)
(** * Business processing: [server/processing.hpp], [server/processing.cpp] *)

From Stdlib Require Import Strings.String.
From S2P Require Import Prelude.

(** [ConnectionId] is [std::uint64_t]. *)
Definition ConnectionId : Type := Z.

Record ProcessingTask := mkProcessingTask {
  task_client_fd : Z;
  task_connection_id : ConnectionId;
  task_payload : bytes
}.

Record ProcessingResult := mkProcessingResult {
  result_client_fd : Z;
  result_connection_id : ConnectionId;
  result_response : bytes
}.

#[export] Instance ProcessingTask_eq_dec : EqDecision ProcessingTask.
Proof. solve_decision. Defined.
#[export] Instance ProcessingResult_eq_dec : EqDecision ProcessingResult.
Proof. solve_decision. Defined.

Definition kAckResponse : string := "ACK from NetPulse!".

Definition processFrame (task : ProcessingTask) : ProcessingResult :=
  let response_bytes := list_byte_of_string kAckResponse in
  mkProcessingResult (task_client_fd task) (task_connection_id task) response_bytes.

(** The payload of every answer. *)
Definition acknowledgement : bytes := list_byte_of_string kAckResponse.

Lemma processFrame_acknowledges task : result_response (processFrame task) = acknowledgement.
Proof. done. Qed.

(** The result of a task goes back to the connection the task came from. *)
Lemma processFrame_addressee task :
  result_client_fd (processFrame task) = task_client_fd task /\
  result_connection_id (processFrame task) = task_connection_id task.
Proof. done. Qed.

Lemma processFrame_small task : len (result_response (processFrame task)) = 18.
Proof. done. Qed.
