(* ===== verification/Connection.v ===== *)
(** * One client connection: [server/connection.hpp], [server/connection.cpp]

    A connection owns a socket, a frame decoder and a write buffer.
    [readAvailable] reads until the socket has nothing more, decoding after
    every read; writing goes through the write buffer. *)

From S2P Require Import Prelude Endian Kernel SimKernel Frame Socket FrameDecoder FrameWriteBuffer.

(** ** Data *)

Inductive ConnectionReadStatus :=
| ready
| peer_closed
| protocol_error
| io_error.

#[export] Instance ConnectionReadStatus_eq_dec : EqDecision ConnectionReadStatus.
Proof. solve_decision. Defined.

Record ConnectionReadResult := mkConnectionReadResult {
  read_status : ConnectionReadStatus;
  frames : list bytes;
  read_error_number : Z
}.

Record Connection := mkConnection {
  socket_ : Socket;
  decoder_ : FrameDecoder;
  write_buffer_ : FrameWriteBuffer
}.

Definition kReadBufferSize : Z := 4096.

(** ** Operations *)

Definition make_connection (socket : Socket) : Connection :=
  mkConnection socket empty_decoder empty_buffer.

Definition valid (c : Connection) : bool := Socket.valid (socket_ c).
Definition fd (c : Connection) : Z := Socket.fd (socket_ c).

Section Connection.
  Context `{Host} {K : Type} `{Kernel K}.

(** The inner loop, which decodes what has been appended.  Its variables are
    the frames of the result and the decoder; it ends with [true] when the
    decoder refuses the stream. *)
Definition decode_body (s : list bytes * FrameDecoder) :
    (list bytes * FrameDecoder) + (bool * list bytes * FrameDecoder) :=
  let '(frames, decoder) := s in
  let '(decode_result, decoder) := decodeNext decoder in
  if decide (FrameDecoder.status decode_result = frame_ready) then
    inl (frames ++ [FrameDecoder.payload decode_result], decoder)
  else if decide (FrameDecoder.status decode_result = FrameDecoder.payload_too_large) then
    inr (true, frames, decoder)
  else inr (false, frames, decoder).

(** The outer loop.  Its variables are the kernel, the frames of the result and
    the decoder; [None] says that the inner loop ran out of fuel. *)
Definition read_body (fuel : nat) (fd : Z) (s : K * list bytes * FrameDecoder) :
    (K * list bytes * FrameDecoder) + option (K * FrameDecoder * ConnectionReadResult) :=
  let '(k, frames, decoder) := s in
  let '(k, received, read_buffer) := sys_recv k fd kReadBufferSize 0 in
  if 0 <? received then
    match loop decode_body fuel (frames, append decoder (upto received read_buffer)) with
    | None => inr None
    | Some (true, frames, decoder) =>
        inr (Some (k, decoder, mkConnectionReadResult protocol_error frames 0))
    | Some (false, frames, decoder) => inl (k, frames, decoder)
    end
  else if received =? 0 then
    inr (Some (k, decoder, mkConnectionReadResult peer_closed frames 0))
  else
    let error_number := errno k in
    if error_number =? EINTR then inl (k, frames, decoder)
    else if (error_number =? EAGAIN) || (error_number =? EWOULDBLOCK) then
      inr (Some (k, decoder, mkConnectionReadResult ready frames 0))
    else inr (Some (k, decoder, mkConnectionReadResult io_error frames error_number)).

Definition readAvailable (fuel : nat) (k : K) (c : Connection) :
    option (K * Connection * ConnectionReadResult) :=
  match loop (read_body fuel (fd c)) fuel (k, [], decoder_ c) with
  | Some (Some (k, decoder, result)) =>
      Some (k, mkConnection (socket_ c) decoder (write_buffer_ c), result)
  | _ => None
  end.

Definition queueFrame (c : Connection) (payload : bytes) : FrameQueueStatus * Connection :=
  let '(st, b) := enqueue (write_buffer_ c) payload in
  (st, mkConnection (socket_ c) (decoder_ c) b).

Definition flushWrites (fuel : nat) (k : K) (c : Connection) :
    option (K * Connection * FrameFlushResult) :=
  '(k, b, r) ← flush fuel k (write_buffer_ c) (fd c);
  Some (k, mkConnection (socket_ c) (decoder_ c) b, r).
End Connection.

Definition wantsWrite (c : Connection) : bool := negb (empty (write_buffer_ c)).

(** ** Invariant *)

(** Between reads the decoder is well-formed and tight, and the bytes it holds
    are less than a frame. *)
Record read_ok (d : FrameDecoder) : Prop := ReadOk {
  read_wf : FrameDecoder.wf d;
  read_tight : tight d;
  read_parked : spec_next (FrameDecoder.pending d) =
    (mkFrameDecodeResult need_more_data [], FrameDecoder.pending d)
}.

Lemma read_ok_empty : read_ok empty_decoder.
Proof. split; [done|by left|done]. Qed.

(** Such a decoder never holds more than about two frames of the largest size:
    one more read always fits. *)
Lemma read_ok_bound d :
  read_ok d ->
  len (FrameDecoder.pending d) < kFrameHeaderSize + max_payload_size /\
  len (FrameDecoder.buffer_ d) + kReadBufferSize <= vector_max.
Proof.
  intros [Hwf Ht Hp]. apply spec_next_more in Hp as [_ Hp]. split; [done|].
  pose proof (tight_bound _ Hwf Ht).
  unfold kReadBufferSize, vector_max, kCompactionThreshold, kFrameHeaderSize, max_payload_size in *.
  lia.
Qed.

Section ConnectionFacts.
  Context `{Host} {K : Type} {KO : Kernel K} {KV : KernelView K} {KL : KernelLaws K}.

(** One round of the inner loop. *)
Lemma decode_body_spec fs d :
  FrameDecoder.wf d -> tight d ->
  match decode_body (fs, d) with
  | inl (fs', d') =>
      exists p, fs' = fs ++ [p] /\ FrameDecoder.wf d' /\ tight d' /\
        spec_next (FrameDecoder.pending d) =
          (mkFrameDecodeResult frame_ready p, FrameDecoder.pending d')
  | inr (refused, fs', d') =>
      fs' = fs /\ d' = d /\
      spec_next (FrameDecoder.pending d) =
        (mkFrameDecodeResult
           (if refused then FrameDecoder.payload_too_large else need_more_data) [],
         FrameDecoder.pending d)
  end.
Proof.
  intros Hwf Ht; unfold decode_body. destruct (decodeNext d) as [[st p] d'] eqn:E.
  destruct (decodeNext_tight _ _ _ Hwf Ht E) as [Ht' _].
  pose proof E as E0. apply decodeNext_refines in E as (Es & Hwf' & Hd'); [|done]; simpl.
  destruct (decide (st = frame_ready)) as [->|Hst]; [eauto 10|].
  pose proof (spec_next_stop _ _ _ Es Hst) as [Ep Er]; simpl in Er; injection Er as ->.
  assert (d' = d) as ->.
  { revert E0; unfold decodeNext; split_ifs; intros ?; simplify_eq; done. }
  destruct st; simpl; try done; split_and!; auto.
Qed.

(** The inner loop decodes everything that is complete. *)
Lemma decode_loop_total fuel fs d :
  FrameDecoder.wf d -> tight d -> (length (FrameDecoder.pending d) < fuel)%nat ->
  exists refused ps d',
    loop decode_body fuel (fs, d) = Some (refused, fs ++ ps, d') /\
    FrameDecoder.wf d' /\ tight d' /\
    parses (FrameDecoder.pending d) ps (FrameDecoder.pending d')
      (if refused : bool then FrameDecoder.payload_too_large else need_more_data).
Proof.
  revert fs d; induction fuel as [|fuel IH]; intros fs d Hwf Ht Hfuel; [lia|].
  cbn [loop]. pose proof (decode_body_spec fs d Hwf Ht) as Hb.
  destruct (decode_body (fs, d)) as [[fs' d']|[[refused fs'] d']].
  - destruct Hb as (p & -> & Hwf' & Ht' & Es).
    pose proof (spec_next_ready _ _ _ Es) as [_ Ep].
    apply (f_equal length) in Ep; rewrite length_app in Ep.
    pose proof (len_encode_frame p); pose proof (len_nonneg p); unfold len in *.
    destruct (IH (fs ++ [p]) d') as (refused & ps & d2 & El & Hwf2 & Ht2 & Hp); auto; [lia|].
    exists refused, (p :: ps), d2. rewrite El, <-app_assoc. split_and!; auto.
    by eapply parses_frame.
  - destruct Hb as (-> & -> & Es). exists refused, [], d. rewrite app_nil_r. split_and!; auto.
    apply parses_stop; [by destruct refused|done].
Qed.

Lemma parses_parked s ps rest st :
  parses s ps rest st -> spec_next rest = (mkFrameDecodeResult st [], rest).
Proof. by intros (_ & _ & _ & ?)%parses_sound. Qed.

(** What a read has done to a connection whose decoder was [d0] in kernel [k0]. *)
Definition read_so_far (fd : Z) (k0 : K) (d0 : FrameDecoder) (k : K) (fs : list bytes)
    (d : FrameDecoder) (st : FrameDecodeStatus) : Prop :=
  FrameDecoder.wf d /\ tight d /\
  exists data, moved fd [] data (view k0) (view k) /\
    parses (FrameDecoder.pending d0 ++ data) fs (FrameDecoder.pending d) st.

Definition read_outcome (fd : Z) (k0 : K) (d0 : FrameDecoder) (k : K) (d : FrameDecoder)
    (r : ConnectionReadResult) : Prop :=
  read_so_far fd k0 d0 k (frames r) d
    (if decide (read_status r = protocol_error)
     then FrameDecoder.payload_too_large else need_more_data) /\
  match read_status r with
  | ready | protocol_error => read_error_number r = 0
  | peer_closed => read_error_number r = 0 /\ incoming (view k) fd = []
  | io_error => read_error_number r <> EINTR /\ read_error_number r <> EAGAIN
  end.

(** One round of the outer loop. *)
Lemma read_body_step fuel fd k0 d0 k fs d :
  (Z.to_nat (kFrameHeaderSize + max_payload_size + kReadBufferSize) <= fuel)%nat ->
  read_so_far fd k0 d0 k fs d need_more_data ->
  match read_body fuel fd (k, fs, d) with
  | inl (k', fs', d') =>
      read_so_far fd k0 d0 k' fs' d' need_more_data /\
      (length (incoming (view k') fd) + os_signals (view k')
       < length (incoming (view k) fd) + os_signals (view k))%nat
  | inr (Some (k', d', r)) => read_outcome fd k0 d0 k' d' r
  | inr None => False
  end.
Proof.
  intros Hfuel (Hwf & Ht & data & Hm & Hp). unfold read_body.
  assert (Hok : read_ok d) by (split; [done|done|by eapply parses_parked]).
  destruct (read_ok_bound d Hok) as [Hlen Hbuf].
  destruct (sys_recv k fd kReadBufferSize 0) as [[k' n] rb] eqn:E.
  apply recv_moved in E; [|done].
  assert (Hstay : moved fd [] [] (view k) (view k') -> moved fd [] data (view k0) (view k')).
  { intros Hm'; pose proof (moved_trans _ _ _ _ _ _ _ _ Hm Hm') as Ht'.
    by rewrite !app_nil_r in Ht'. }
  destruct E as [(Hn & Hrb & Hm')|[(-> & Hin & Hm')|(Hn & Hm' & Hi)]].
  - replace (0 <? n) with true by lia. rewrite upto_all by lia.
    assert (Hwfa : FrameDecoder.wf (append d rb)) by (apply append_wf; [done|lia]).
    assert (Hpa : FrameDecoder.pending (append d rb) = FrameDecoder.pending d ++ rb)
      by (by apply append_pending).
    destruct (decode_loop_total fuel fs (append d rb)) as (refused & ps & d' & El & Hwf' & Ht' & Hp');
      [done|by apply append_tight| |].
    { rewrite Hpa, length_app. unfold len, kFrameHeaderSize, max_payload_size, kReadBufferSize in *. lia. }
    rewrite El. rewrite Hpa in Hp'.
    pose proof (moved_trans _ _ _ _ _ _ _ _ Hm Hm') as Hmm.
    pose proof (parses_app _ _ _ _ _ _ _ Hp Hp') as Hpp. rewrite <-app_assoc in Hpp.
    assert (Hso : forall st, st = (if refused then FrameDecoder.payload_too_large else need_more_data) ->
      read_so_far fd k0 d0 k' (fs ++ ps) d' st)
      by (intros st ->; split; [done|split; [done|by exists (data ++ rb)]]).
    destruct refused.
    + split; [|done]. by apply Hso.
    + split; [by apply Hso|].
      pose proof (moved_in _ _ _ _ _ Hm') as Ein; apply (f_equal length) in Ein.
      rewrite length_app in Ein. pose proof (moved_signals _ _ _ _ _ Hm').
      unfold len in Hrb; lia.
  - simpl. split; [split; [done|split; [done|exists data; auto]]|].
    simpl. split; [done|]. pose proof (moved_in _ _ _ _ _ Hm') as Ein; by rewrite Hin in Ein.
  - replace (0 <? n) with false by lia. replace (n =? 0) with false by lia.
    pose proof (moved_in _ _ _ _ _ Hm') as Ein; simpl in Ein.
    split_ifs; [split; [split; [done|split; [done|exists data; auto]]|rewrite Ein; specialize (Hi ltac:(done)); lia]|..];
      (split; [split; [done|split; [done|exists data; auto]]|simpl; (done || errno_lia)]).
Qed.

(** Enough fuel for a read: the longest inner loop, and a round per byte that
    may still arrive and per signal. *)
Definition read_fuel (fd : Z) (k : K) : nat :=
  Z.to_nat (kFrameHeaderSize + max_payload_size + kReadBufferSize)
  + length (incoming (view k) fd) + os_signals (view k).

Lemma readAvailable_total fuel k c :
  read_ok (decoder_ c) -> (read_fuel (fd c) k < fuel)%nat ->
  exists k' d' r,
    readAvailable fuel k c = Some (k', mkConnection (socket_ c) d' (write_buffer_ c), r) /\
    read_outcome (fd c) k (decoder_ c) k' d' r.
Proof.
  intros Hok Hfuel; unfold readAvailable, read_fuel in *.
  destruct (loop_total (read_body fuel (fd c))
    (fun s => read_so_far (fd c) k (decoder_ c) s.1.1 s.1.2 s.2 need_more_data)
    (fun s => length (incoming (view s.1.1) (fd c)) + os_signals (view s.1.1))%nat
    (fun o => match o with
              | Some (k', d', r) => read_outcome (fd c) k (decoder_ c) k' d' r
              | None => False
              end) fuel (k, [], decoder_ c)) as (o & E & Ho).
  - intros [[k1 fs] d] Hs; cbn [fst snd] in *.
    pose proof (read_body_step fuel (fd c) k (decoder_ c) k1 fs d ltac:(lia) Hs) as Hstep.
    destruct (read_body _ _ _) as [[[k2 fs2] d2]|[[[k2 d2] r2]|]]; done.
  - destruct Hok as [Hwf Ht Hp]; split; [done|split; [done|]]. exists [].
    rewrite app_nil_r; split; [apply moved_refl|by apply parses_stop].
  - cbn; lia.
  - destruct o as [[[k' d'] r]|]; [|done]. rewrite E. eauto.
Qed.

(** The same for whatever fuel a run ended with. *)
Lemma decode_loop_det fuel fuel' s r :
  (fuel <= fuel')%nat -> loop decode_body fuel s = Some r -> loop decode_body fuel' s = Some r.
Proof. apply loop_mono. Qed.

Lemma read_body_mono fuel fuel' fd s o :
  (fuel <= fuel')%nat -> read_body fuel fd s = o -> o <> inr None -> read_body fuel' fd s = o.
Proof.
  intros Hle <- Hne; revert Hne. destruct s as [[k fs] d]; unfold read_body.
  destruct (sys_recv _ _ _ _) as [[k' n] rb]. destruct (0 <? n); [|done].
  destruct (loop decode_body fuel _) as [[[refused fs'] d']|] eqn:E; [|done].
  by rewrite (loop_mono _ _ _ _ _ Hle E).
Qed.

Lemma readAvailable_mono fuel fuel' k c r :
  (fuel <= fuel')%nat -> readAvailable fuel k c = Some r -> readAvailable fuel' k c = Some r.
Proof.
  intros Hle. unfold readAvailable.
  assert (Hloop : forall n s o, loop (read_body fuel (fd c)) n s = Some (Some o) ->
    loop (read_body fuel' (fd c)) n s = Some (Some o)).
  { intros n; induction n as [|n IH]; intros s o; [done|]; cbn [loop].
    destruct (read_body fuel (fd c) s) as [s'|[o'|]] eqn:E; [| |done];
      rewrite (read_body_mono _ _ _ _ _ Hle E) by done; [apply IH|done]. }
  destruct (loop (read_body fuel (fd c)) fuel _) as [[o|]|] eqn:E; [|done..].
  apply Hloop in E. by rewrite (loop_mono _ _ _ _ _ Hle E).
Qed.

Lemma readAvailable_spec fuel k c k' c' r :
  read_ok (decoder_ c) -> readAvailable fuel k c = Some (k', c', r) ->
  c' = mkConnection (socket_ c) (decoder_ c') (write_buffer_ c) /\
  read_outcome (fd c) k (decoder_ c) k' (decoder_ c') r.
Proof.
  intros Hok E.
  destruct (readAvailable_total (fuel `max` S (read_fuel (fd c) k)) k c Hok ltac:(lia))
    as (k2 & d2 & r2 & E2 & Ho).
  rewrite (readAvailable_mono fuel (fuel `max` S (read_fuel (fd c) k)) _ _ _ ltac:(lia) E) in E2.
  simplify_eq; simpl; auto.
Qed.

(** A read that was not refused leaves the connection ready for the next. *)
Lemma read_outcome_ok fd k0 d0 k d r :
  read_outcome fd k0 d0 k d r -> read_status r <> protocol_error -> read_ok d.
Proof.
  intros [(Hwf & Ht & data & _ & Hp) _] Hst. rewrite decide_False in Hp by done.
  split; [done|done|by eapply parses_parked].
Qed.

(** Successive reads of one connection, with the frames delivered so far; in
    between, other calls leave the socket's input alone and the write buffer may
    change. *)
Inductive reading (k0 : K) (c0 : Connection) : list bytes -> K -> Connection -> Prop :=
| reading_start : reading k0 c0 [] k0 c0
| reading_read fs k c fuel k' c' r :
    reading k0 c0 fs k c -> readAvailable fuel k c = Some (k', c', r) ->
    read_status r <> protocol_error -> reading k0 c0 (fs ++ frames r) k' c'
| reading_other fs k c k' b :
    reading k0 c0 fs k c -> incoming (view k') (fd c) = incoming (view k) (fd c) ->
    reading k0 c0 fs k' (mkConnection (socket_ c) (decoder_ c) b).

Lemma reading_parses k0 c0 fs k c :
  read_ok (decoder_ c0) -> reading k0 c0 fs k c ->
  fd c = fd c0 /\ read_ok (decoder_ c) /\
  exists data, incoming (view k0) (fd c0) = data ++ incoming (view k) (fd c0) /\
    parses (FrameDecoder.pending (decoder_ c0) ++ data) fs
      (FrameDecoder.pending (decoder_ c)) need_more_data.
Proof.
  intros Hok; induction 1 as [|fs k c fuel k' c' r Hr IH E Hst|fs k c k' b Hr IH Ein].
  - split; [done|split; [done|]]. exists []; rewrite app_nil_r; split; [done|].
    by apply parses_stop; [|apply Hok].
  - destruct IH as (Hfd & Hokc & data & Hin & Hp).
    destruct (readAvailable_spec _ _ _ _ _ _ Hokc E) as [Ec Ho].
    pose proof (read_outcome_ok _ _ _ _ _ _ Ho Hst) as Hok'.
    destruct Ho as [(_ & _ & d2 & Hm & Hp2) _]. rewrite decide_False in Hp2 by done.
    split; [by rewrite Ec|split; [done|]]. exists (data ++ d2).
    pose proof (moved_in _ _ _ _ _ Hm) as Ein. rewrite Hfd in Ein.
    split; [by rewrite Hin, Ein, app_assoc|].
    rewrite app_assoc. by eapply parses_app.
  - destruct IH as (Hfd & Hokc & data & Hin & Hp).
    split; [done|split; [done|]]. exists data. by rewrite <-Hfd, Ein, Hfd.
Qed.
End ConnectionFacts.

(** A decoded prefix of a stream of frames is a prefix of the frames. *)
Lemma parses_prefix data t fs rest ps :
  Forall (fun p => len p <= max_payload_size) ps ->
  parses data fs rest need_more_data -> data ++ t = concat (encode_frame <$> ps) ->
  exists qs, ps = fs ++ qs /\ rest ++ t = concat (encode_frame <$> qs).
Proof.
  intros Hps Hp; revert ps Hps. apply parses_sound in Hp as (-> & Hfs & _ & _).
  induction Hfs as [|f fs Hf Hfs IH]; intros ps Hps E; [by exists ps|].
  rewrite fmap_cons, concat_cons in E.
  destruct Hps as [|p ps Hp Hps]; [|rewrite fmap_cons, concat_cons in E].
  - apply (f_equal len) in E; cbn [fmap list_fmap concat] in E. rewrite !len_app, len_encode_frame, len_nil in E.
    pose proof (len_nonneg f); pose proof (len_nonneg rest); pose proof (len_nonneg t);
      pose proof (len_nonneg (concat (encode_frame <$> fs))); lia.
  - rewrite <-!app_assoc in E. apply encode_frame_inj in E as [-> E]; [|done..].
    rewrite app_assoc in E. destruct (IH ps Hps E) as (qs & -> & Eq). by exists qs.
Qed.

(** The reference: cut a whole stream into frames at once. *)
Fixpoint split_stream (fuel : nat) (s : bytes) : list bytes * bytes :=
  match fuel with
  | O => ([], s)
  | S fuel =>
      let '(r, s') := spec_next s in
      if decide (FrameDecoder.status r = frame_ready) then
        let '(ps, rest) := split_stream fuel s' in (FrameDecoder.payload r :: ps, rest)
      else ([], s)
  end.

Lemma split_stream_parses fuel s ps rest st :
  parses s ps rest st -> (length s < fuel)%nat -> split_stream fuel s = (ps, rest).
Proof.
  intros Hp; revert fuel; induction Hp as [s st Hst E|s p s' ps rest st E Hp IH];
    intros [|fuel] Hf; try lia; cbn [split_stream]; rewrite E; simpl.
  - by rewrite decide_False.
  - apply spec_next_ready in E as [_ ->]. rewrite length_app in Hf.
    pose proof (len_encode_frame p); pose proof (len_nonneg p); unfold len in *.
    by rewrite IH by lia.
Qed.

Section ConnectionTheorems.
  Context `{Host} {K : Type} {KO : Kernel K} {KV : KernelView K} {KL : KernelLaws K}.

(** C19. [readAvailable] returns once the peer's bytes and the interrupting
    signals run out. The frames it delivers are those the reference parser
    finds in the bytes held before followed by the bytes received now,
    whatever pieces they arrived in; what is left stays in the decoder, and
    the status says why reading stopped. Only the decoder of the connection
    changes. *)
Theorem readAvailable_correct fuel k c :
  read_ok (decoder_ c) -> (read_fuel (fd c) k < fuel)%nat ->
  exists k' c' r data, readAvailable fuel k c = Some (k', c', r) /\
    socket_ c' = socket_ c /\ write_buffer_ c' = write_buffer_ c /\
    moved (fd c) [] data (view k) (view k') /\
    parses (FrameDecoder.pending (decoder_ c) ++ data) (frames r)
      (FrameDecoder.pending (decoder_ c'))
      (if decide (read_status r = protocol_error)
       then FrameDecoder.payload_too_large else need_more_data) /\
    (read_status r <> protocol_error -> read_ok (decoder_ c')) /\
    (read_status r = peer_closed -> incoming (view k') (fd c) = []).
Proof.
  intros Hok Hfuel. destruct (readAvailable_total fuel k c Hok Hfuel) as (k' & d' & r & E & Ho).
  pose proof (read_outcome_ok _ _ _ _ _ _ Ho) as Hok'.
  destruct Ho as [(_ & _ & data & Hm & Hp) Hst].
  exists k', (mkConnection (socket_ c) d' (write_buffer_ c)), r, data; split_and!; auto.
  intros Ec; rewrite Ec in Hst; by destruct Hst.
Qed.

(** C7. End to end: when the bytes the peer sends are (a prefix of) the
    encodings of [ps], then over any number of reads the delivered frames are
    the first payloads of [ps] in order; when everything has been sent and
    received, they are all of [ps]. *)
Theorem frames_delivered_in_order k0 c0 fs k c ps unsent :
  decoder_ c0 = empty_decoder ->
  Forall (fun p => len p <= max_payload_size) ps ->
  incoming (view k0) (fd c0) ++ unsent = concat (encode_frame <$> ps) ->
  reading k0 c0 fs k c ->
  exists qs, ps = fs ++ qs /\
    (unsent = [] -> incoming (view k) (fd c) = [] -> qs = []).
Proof.
  intros Hd Hps Hin Hr.
  destruct (reading_parses k0 c0 fs k c) as (Hfd & Hok & data & Hdata & Hp);
    [rewrite Hd; apply read_ok_empty|done|].
  rewrite Hd in Hp; simpl in Hp. rewrite Hdata, <-app_assoc in Hin.
  destruct (parses_prefix _ _ _ _ _ Hps Hp Hin) as (qs & -> & Eq).
  exists qs; split; [done|]. intros -> Hnil. rewrite <-Hfd, Hnil, !app_nil_r in Eq.
  destruct qs as [|q qs]; [done|]. exfalso.
  apply Forall_app in Hps as [_ Hqs]; apply Forall_cons in Hqs as [Hq _].
  destruct Hok as [_ _ Hpark]. rewrite Eq, fmap_cons, concat_cons, spec_next_frame in Hpark; done.
Qed.

(** C36. A peer that sends frames within the limit never causes a protocol
    error, however its bytes are cut into reads. *)
Theorem well_formed_stream_accepted k0 c0 fs k c fuel k' c' r ps unsent :
  decoder_ c0 = empty_decoder ->
  Forall (fun p => len p <= max_payload_size) ps ->
  incoming (view k0) (fd c0) ++ unsent = concat (encode_frame <$> ps) ->
  reading k0 c0 fs k c -> readAvailable fuel k c = Some (k', c', r) ->
  read_status r <> protocol_error.
Proof.
  intros Hd Hps Hin Hr E Est.
  destruct (reading_parses k0 c0 fs k c) as (Hfd & Hok & data & Hdata & Hp);
    [rewrite Hd; apply read_ok_empty|done|].
  destruct (readAvailable_spec _ _ _ _ _ _ Hok E) as [_ [(_ & _ & d2 & Hm & Hp2) _]].
  rewrite decide_True in Hp2 by done. rewrite Hd in Hp; simpl in Hp.
  pose proof (moved_in _ _ _ _ _ Hm) as Ein. rewrite Hdata, <-Hfd, Ein, <-!app_assoc in Hin.
  destruct (parses_prefix _ _ _ _ _ Hps Hp Hin) as (qs & -> & Eq).
  apply Forall_app in Hps as [_ Hqs].
  apply (parses_app_stop _ (incoming (view k') (fd c) ++ unsent)) in Hp2; [|done].
  rewrite <-app_assoc, Eq in Hp2.
  pose proof (parses_encode qs [] [] [] need_more_data Hqs
    (parses_stop [] need_more_data ltac:(done) eq_refl)) as Hp3.
  rewrite app_nil_r in Hp3.
  destruct (parses_det _ _ _ _ _ _ _ Hp2 Hp3) as (_ & _ & Hst). done.
Qed.

(** C20. Reading in pieces is the same as reading at once: whatever the calls
    received, however often they were interrupted or told to wait, the frames
    delivered over any number of reads, and the bytes then held, are what
    cutting the whole of the bytes received at once comes to. *)
Theorem reading_equals_reference k0 c0 fs k c :
  read_ok (decoder_ c0) -> reading k0 c0 fs k c ->
  exists data, incoming (view k0) (fd c0) = data ++ incoming (view k) (fd c) /\
    let whole := FrameDecoder.pending (decoder_ c0) ++ data in
    (fs, FrameDecoder.pending (decoder_ c)) = split_stream (S (length whole)) whole.
Proof.
  intros Hok Hr. destruct (reading_parses k0 c0 fs k c Hok Hr) as (Hfd & _ & data & Hdata & Hp).
  exists data. rewrite Hfd. split; [done|]. symmetry. eapply split_stream_parses; [exact Hp|lia].
Qed.
End ConnectionTheorems.

(** ** Concrete runs *)

(** The peer sends two frames; the first read gets six bytes and is then told
    to wait, the second gets the rest and the end of the stream. *)
Definition example_stream : bytes := encode_frame [x61; x62; x63] ++ encode_frame [x64].
Definition example_kernel : Sim := sim_socket example_stream 1 [5; -4; 1; -11].
Definition example_connection : Connection := make_connection (mkSocket 3).

Lemma example_fuel : (read_fuel 3 example_kernel < Z.to_nat (2 ^ 21))%nat.
Proof.
  unfold read_fuel.
  change (incoming (view example_kernel) 3) with example_stream.
  change (os_signals (view example_kernel)) with 1%nat.
  change (length example_stream) with 12%nat.
  unfold kFrameHeaderSize, max_payload_size, kReadBufferSize. lia.
Qed.

Lemma readAvailable_correct_witness :
  exists k' c' r, readAvailable (Z.to_nat (2 ^ 21)) example_kernel example_connection
      = Some (k', c', r) /\
    read_ok (decoder_ c') /\ frames r = [] /\ read_status r = ready.
Proof.
  destruct (readAvailable_correct (Z.to_nat (2 ^ 21)) example_kernel example_connection)
    as (k' & c' & r & data & E & _ & _ & _ & _ & Hok & _);
    [apply read_ok_empty|apply example_fuel|].
  assert (Hr : read_status r = ready /\ frames r = []).
  { vm_compute in E. injection E as <- <- <-. done. }
  exists k', c', r. split; [exact E|]. split; [apply Hok; by rewrite (proj1 Hr)|tauto].
Defined.

(** The two reads of the example, as steps. *)
Lemma example_reading :
  exists fs k c, reading example_kernel example_connection fs k c /\
    incoming (view k) (fd c) = [] /\ fd c = 3.
Proof.
  destruct (readAvailable 100 example_kernel example_connection) as [[[k1 c1] r1]|] eqn:E1;
    [|by vm_compute in E1].
  pose proof (reading_read _ _ _ _ _ _ _ _ _ (reading_start example_kernel example_connection) E1) as R1.
  sim_eval E1. specialize (R1 ltac:(done)).
  match type of R1 with reading _ _ _ ?k ?c =>
    destruct (readAvailable 100 k c) as [[[k2 c2] r2]|] eqn:E2; [|by vm_compute in E2] end.
  pose proof (reading_read _ _ _ _ _ _ _ _ _ R1 E2) as R2.
  sim_eval E2. specialize (R2 ltac:(done)).
  eexists _, _, _. split; [exact R2|]. split; vm_compute; reflexivity.
Defined.

Lemma frames_delivered_in_order_witness :
  exists fs k c, reading example_kernel example_connection fs k c /\ fs = [[x61; x62; x63]; [x64]].
Proof.
  destruct example_reading as (fs & k & c & Hr & Hin & Hfd).
  destruct (frames_delivered_in_order example_kernel example_connection fs k c
    [[x61; x62; x63]; [x64]] []) as (qs & Eq & Hnil); auto.
  - by repeat constructor.
  - exists fs, k, c. split; [done|]. by rewrite Hnil, app_nil_r in Eq.
Defined.

Lemma well_formed_stream_accepted_witness :
  exists k' c' r, readAvailable 100 example_kernel example_connection = Some (k', c', r) /\
    read_status r <> protocol_error.
Proof.
  destruct (readAvailable 100 example_kernel example_connection) as [[[k1 c1] r1]|] eqn:E1;
    [|by vm_compute in E1].
  exists k1, c1, r1; split; [done|].
  apply (well_formed_stream_accepted example_kernel example_connection [] example_kernel
    example_connection 100 k1 c1 r1 [[x61; x62; x63]; [x64]] []); auto.
  - by repeat constructor.
  - constructor.
Defined.

Lemma reading_equals_reference_witness :
  exists fs k c, reading example_kernel example_connection fs k c /\
    (fs, FrameDecoder.pending (decoder_ c)) = ([[x61; x62; x63]; [x64]], []).
Proof.
  destruct example_reading as (fs & k & c & Hr & Hin & Hfd).
  destruct (reading_equals_reference example_kernel example_connection fs k c read_ok_empty Hr)
    as (data & Hdata & E). rewrite Hin, app_nil_r in Hdata.
  exists fs, k, c. split; [exact Hr|]. rewrite E, <-Hdata. by vm_compute.
Defined.
