(* ===== verification/BoundedQueue.v ===== *)
(** * Bounded blocking queue: [concurrency/bounded_queue.hpp]

    The operations are what each call does while it holds the queue's mutex;
    the sleeping and waking of the consumers is in [ThreadPool].  Whether a
    call then notifies the condition variable is part of its result. *)

From S2P Require Import Prelude.

(** ** Data *)

Inductive QueuePushStatus := Success | Full | Closed.

#[export] Instance QueuePushStatus_eq_dec : EqDecision QueuePushStatus.
Proof. solve_decision. Defined.

(** What a call does to [not_empty_] after it has released the mutex. *)
Inductive Notification := notify_none | notify_one | notify_all.

Section Queue.
  Context {T : Type}.

Record BoundedQueue := mkBoundedQueue {
  capacity_ : Z;
  queue_ : list T;
  closed_ : bool
}.

(** ** Operations *)

(** [None]: the constructor throws [std::invalid_argument]. *)
Definition make_queue (capacity : Z) : option BoundedQueue :=
  if capacity =? 0 then None else Some (mkBoundedQueue capacity [] false).

Definition tryPush (q : BoundedQueue) (value : T) : BoundedQueue * QueuePushStatus * Notification :=
  if closed_ q then (q, Closed, notify_none)
  else if len (queue_ q) >=? capacity_ q then (q, Full, notify_none)
  else (mkBoundedQueue (capacity_ q) (queue_ q ++ [value]) (closed_ q), Success, notify_one).

(** The predicate [waitPop] waits for. *)
Definition wait_ready (q : BoundedQueue) : bool :=
  closed_ q || match queue_ q with [] => false | _ => true end.

(** [waitPop] once it holds the mutex: [None] if it has to sleep, otherwise
    what it returns and the queue it leaves. *)
Definition waitPop (q : BoundedQueue) : option (option T * BoundedQueue) :=
  if wait_ready q then
    match queue_ q with
    | [] => Some (None, q)
    | value :: rest => Some (Some value, mkBoundedQueue (capacity_ q) rest (closed_ q))
    end
  else None.

Definition close (q : BoundedQueue) : BoundedQueue * Notification :=
  (mkBoundedQueue (capacity_ q) (queue_ q) true, notify_all).

Definition size (q : BoundedQueue) : Z := len (queue_ q).
Definition capacity (q : BoundedQueue) : Z := capacity_ q.
Definition closed (q : BoundedQueue) : bool := closed_ q.

(** ** Lemmas *)

Lemma tryPush_spec q v :
  exists q' st n, tryPush q v = (q', st, n) /\ capacity_ q' = capacity_ q /\
    closed_ q' = closed_ q /\
    match st with
    | Success => closed_ q = false /\ size q < capacity q /\ queue_ q' = queue_ q ++ [v] /\
        n = notify_one
    | Full => closed_ q = false /\ capacity q <= size q /\ q' = q /\ n = notify_none
    | Closed => closed_ q = true /\ q' = q /\ n = notify_none
    end.
Proof.
  unfold tryPush, size, capacity. destruct (closed_ q) eqn:Hc; [by eexists _, _, _|].
  destruct (_ >=? _) eqn:Hs; eexists _, _, _; (split; [reflexivity|]); simpl;
    split_and!; auto; lia.
Qed.

Lemma waitPop_none q : waitPop q = None <-> closed_ q = false /\ queue_ q = [].
Proof.
  unfold waitPop, wait_ready; destruct (closed_ q), (queue_ q); simpl; split;
    intros; try done; destruct_and?; done.
Qed.

Lemma waitPop_some q o q' :
  waitPop q = Some (o, q') ->
  capacity_ q' = capacity_ q /\ closed_ q' = closed_ q /\
  queue_ q = match o with Some v => [v] | None => [] end ++ queue_ q' /\
  (o = None -> closed_ q = true /\ q' = q /\ queue_ q = []).
Proof.
  unfold waitPop, wait_ready; destruct (closed_ q) eqn:Hc, (queue_ q) eqn:Hq; simpl;
    intros; simplify_eq; simpl; rewrite ?Hq; split_and!; auto; done.
Qed.

(** ** Histories

    A call that got the mutex and ran, with what it returned. *)
Inductive QueueCall :=
| CallPush (v : T) (st : QueuePushStatus)
| CallPop (o : option T)
| CallClose.

Inductive queue_step (q : BoundedQueue) : QueueCall -> BoundedQueue -> Prop :=
| step_push v q' st n : tryPush q v = (q', st, n) -> queue_step q (CallPush v st) q'
| step_pop o q' : waitPop q = Some (o, q') -> queue_step q (CallPop o) q'
| step_close q' n : close q = (q', n) -> queue_step q CallClose q'.

Inductive queue_steps : BoundedQueue -> list QueueCall -> BoundedQueue -> Prop :=
| steps_nil q : queue_steps q [] q
| steps_cons q1 c q2 h q3 :
    queue_step q1 c q2 -> queue_steps q2 h q3 -> queue_steps q1 (c :: h) q3.

Definition accepted_of (c : QueueCall) : list T :=
  match c with CallPush v Success => [v] | _ => [] end.
Definition popped_of (c : QueueCall) : list T :=
  match c with CallPop (Some v) => [v] | _ => [] end.

(** The values accepted and the values handed out, in order. *)
Definition accepted (h : list QueueCall) : list T := mbind accepted_of h.
Definition popped (h : list QueueCall) : list T := mbind popped_of h.

Definition queue_wf (q : BoundedQueue) : Prop := 0 < capacity_ q /\ size q <= capacity_ q.

Lemma queue_step_spec q c q' :
  queue_wf q -> queue_step q c q' ->
  queue_wf q' /\ capacity_ q' = capacity_ q /\
  queue_ q ++ accepted_of c = popped_of c ++ queue_ q' /\
  (closed_ q = true -> closed_ q' = true).
Proof.
  unfold queue_wf, size; intros [Hc Hs] Hstep; destruct Hstep as [v q' st n E|o q' E|q' n E].
  - destruct (tryPush_spec q v) as (q2 & st2 & n2 & E2 & Ecap & Ecl & Hst).
    rewrite E in E2; injection E2 as <- <- <-. unfold size, capacity in Hst.
    destruct st; simpl; destruct_and!; subst; rewrite ?Ecap;
      repeat match goal with H : queue_ _ = _ |- _ => rewrite H end;
      autorewrite with len; rewrite ?app_nil_r; split_and!; auto; lia || congruence.
  - apply waitPop_some in E as (Ecap & Ecl & Eq & Hnone). rewrite Ecap, Ecl.
    rewrite Eq in Hs |- *. autorewrite with len in Hs.
    pose proof (len_nonneg (match o with Some v => [v] | None => [] end)).
    split_and!; auto; [lia|]. simpl; rewrite app_nil_r. by destruct o.
  - injection E as <- <-; simpl. rewrite app_nil_r; auto.
Qed.
End Queue.

Arguments BoundedQueue : clear implicits.
Arguments QueueCall : clear implicits.

(** What a history does, from any queue that agrees with a history [h0]. *)
Lemma queue_steps_history {T} (q1 q : BoundedQueue T) h :
  queue_steps q1 h q -> forall h0,
  queue_wf q1 -> (closed_ q1 = true <-> CallClose ∈ h0) -> accepted h0 = popped h0 ++ queue_ q1 ->
  queue_wf q /\ capacity_ q = capacity_ q1 /\ (closed_ q = true <-> CallClose ∈ h0 ++ h) /\
  accepted (h0 ++ h) = popped (h0 ++ h) ++ queue_ q.
Proof.
  induction 1 as [q|q1 c q2 h q3 Hstep _ IH]; intros h0 Hwf Hcl Hacc.
  { rewrite app_nil_r; auto. }
  replace (h0 ++ c :: h) with ((h0 ++ [c]) ++ h) by (by rewrite <-app_assoc).
  destruct (queue_step_spec q1 c q2 Hwf Hstep) as (Hwf2 & Hc2 & Hq & Hcl2).
  rewrite <-Hc2. apply IH; [done| |].
  - rewrite elem_of_app, list_elem_of_singleton, <-Hcl.
    destruct Hstep as [v q' st n E|o q' E|q' n E].
    + destruct (tryPush_spec q1 v) as (q3' & st2 & n2 & E2 & _ & Ecl & _).
      rewrite E in E2; injection E2 as <- <- <-; rewrite Ecl. intuition congruence.
    + apply waitPop_some in E as (_ & Ecl & _); rewrite Ecl. intuition congruence.
    + injection E as <- <-; simpl; intuition.
  - unfold accepted, popped in *. rewrite !bind_app, Hacc; simpl; rewrite !app_nil_r.
    rewrite <-!app_assoc, Hq. done.
Qed.

(** C39. First in, first out, within the bound: after any sequence of calls on
    a new queue, in any interleaving the mutex allows, the values accepted are
    exactly the values handed out followed by the values still queued, in
    order; the size never exceeds the capacity; a call that is refused as
    [Full] met a full queue, and one refused as [Closed] a closed one; a
    consumer is only turned away with nothing once the queue is closed and
    everything accepted before has been handed out. *)
Theorem queue_fifo {T} capacity (q0 q : BoundedQueue T) h :
  0 <= capacity -> make_queue capacity = Some q0 -> queue_steps q0 h q ->
  accepted h = popped h ++ queue_ q /\ size q <= capacity /\
  (forall c q', queue_step q c q' ->
     match c with
     | CallPush _ Success => (CallClose ∉ h) /\ size q' = size q + 1
     | CallPush _ Full => (CallClose ∉ h) /\ size q = capacity /\ q' = q
     | CallPush _ Closed => CallClose ∈ h /\ q' = q
     | CallPop None => CallClose ∈ h /\ popped h = accepted h /\ q' = q
     | CallPop (Some v) => exists rest, queue_ q = v :: rest /\ queue_ q' = rest
     | CallClose => closed q' = true /\ queue_ q' = queue_ q
     end).
Proof.
  intros Hcap Hmake Hsteps.
  unfold make_queue in Hmake. destruct (capacity =? 0) eqn:E0; [done|]; zbool.
  injection Hmake as <-.
  destruct (queue_steps_history _ _ _ Hsteps []) as ([Hp Hs] & Hc & Hcl & Hacc); auto.
  { split; simpl; [lia|]. unfold size; simpl; rewrite len_nil; lia. }
  { simpl; split; [done|]. by intros ?%elem_of_nil. }
  simpl in Hc, Hcl, Hacc. rewrite Hc in Hs. split_and!; [done..|].
  intros c q' Hstep; destruct Hstep as [v q' st n E|o q' E|q' n E].
  - destruct (tryPush_spec q v) as (q2 & st2 & n2 & E2 & Ecap & Ecl & Hst).
    rewrite E in E2; injection E2 as <- <- <-. unfold size, BoundedQueue.capacity in Hst.
    unfold size; destruct st; destruct_and!; subst.
    + split; [intros HC%Hcl; congruence|].
      match goal with H : queue_ _ = _ |- _ => rewrite H end. autorewrite with len; lia.
    + split; [intros HC%Hcl; congruence|]. unfold size in Hs; split; [lia|done].
    + by rewrite <-Hcl.
  - apply waitPop_some in E as (_ & _ & Eq & Hnone).
    destruct o as [v|]; [by exists (queue_ q')|].
    destruct (Hnone eq_refl) as (Hcl' & -> & Enil). rewrite <-Hcl; split_and!; auto.
    by rewrite Hacc, Enil, app_nil_r.
  - by injection E as <- <-.
Qed.

(** Capacity 1: a second value is refused, and the close lets the consumer
    drain what was accepted before it is turned away. *)
Definition queue_example : list (QueueCall Z) :=
  [CallPush 7 Success; CallPush 8 Full; CallPop (Some 7); CallPush 9 Success; CallClose;
   CallPush 5 Closed; CallPop (Some 9); CallPop None].

Lemma queue_fifo_witness :
  exists q0 q, make_queue 1 = Some q0 /\ queue_steps q0 queue_example q /\
    accepted queue_example = [7; 9] /\ popped queue_example = [7; 9] /\ queue_ q = [].
Proof.
  destruct (make_queue (T := Z) 1) as [q0|] eqn:E; [|by vm_compute in E].
  assert (Hs : queue_steps q0 queue_example (mkBoundedQueue 1 [] true)).
  { vm_compute in E; injection E as <-. unfold queue_example.
    repeat first [apply steps_nil
      |eapply steps_cons;
         [first [eapply step_push; reflexivity|apply step_pop; reflexivity
                |eapply step_close; reflexivity]|]]. }
  destruct (queue_fifo 1 q0 _ _ ltac:(lia) E Hs) as (Hacc & _ & _).
  exists q0, (mkBoundedQueue 1 [] true). split; [exact eq_refl || exact E|]. split; [exact Hs|].
  split; [exact Hacc|]. split; reflexivity.
Defined.
