(* ===== verification/ThreadPool.v ===== *)
(** * Thread pool: [concurrency/thread_pool.hpp], [concurrency/thread_pool.cpp]

    The workers and the threads that call the pool interleave: [pool_step] is
    one step of one of them.  A step is what a thread does while it holds the
    queue's mutex, a notification of the condition variable (which the code
    makes after releasing the mutex, so that anything may happen in between),
    a step of a running task, or a step of [stop].  A worker that finds nothing
    to do sleeps on the condition variable until a notification or a spurious
    wakeup, and then takes the mutex again. *)

From S2P Require Import Prelude BoundedQueue.

(** ** Data *)

Inductive SubmitStatus := Success | QueueFull | Stopped | InvalidTask.

#[export] Instance SubmitStatus_eq_dec : EqDecision SubmitStatus.
Proof. solve_decision. Defined.

(** What a step of a running task ends with. *)
Inductive TaskOutcome (E : Type) := Continues (e : E) | Returned | Threw.
Arguments Continues {E} e.
Arguments Returned {E}.
Arguments Threw {E}.

(** A worker thread, in [workerLoop]: about to take the queue's mutex in
    [waitPop] (on entry or after a wakeup), asleep on the condition variable,
    running a task, or returned. *)
Inductive Worker (T E : Type) :=
| Locking
| Waiting
| Running (task : T) (e : E)
| Exited.
Arguments Locking {T E}.
Arguments Waiting {T E}.
Arguments Running {T E} task e.
Arguments Exited {T E}.

(** The thread that holds [stop_mutex_], if one does: between [exchange] and
    [close]'s critical section, before [close]'s [notify_all], or joining. *)
Inductive StopPhase := NotStopping | Closing | Notifying | Joining.

#[export] Instance StopPhase_eq_dec : EqDecision StopPhase.
Proof. solve_decision. Defined.

Record ThreadPool (T E : Type) := mkPool {
  tasks_ : BoundedQueue T;
  workers_ : list (Worker T E);
  stopped_ : bool;
  (** calls of [tryPush] that have pushed and not yet notified *)
  notifying : nat;
  stop_phase : StopPhase
}.
Arguments mkPool {T E} _ _ _ _ _.
Arguments tasks_ {T E} _.
Arguments workers_ {T E} _.
Arguments stopped_ {T E} _.
Arguments notifying {T E} _.
Arguments stop_phase {T E} _.

Inductive Construction (T E : Type) :=
(** an exception before any thread exists *)
| ConstructorThrows
(** a thread could not be created: the constructor closes the queue, joins the
    threads it has created and throws *)
| ConstructorUnwinds (p : ThreadPool T E)
| Constructed (p : ThreadPool T E).
Arguments ConstructorThrows {T E}.
Arguments ConstructorUnwinds {T E} p.
Arguments Constructed {T E} p.

(** ** Operations *)

Section Operations.
Context {T E : Type}.

(** The constructor's loop; [spawn index] says whether the operating system
    creates the thread. *)
Fixpoint start_workers (spawn : nat -> bool) (index count : nat) : list (Worker T E) * bool :=
  match count with
  | O => ([], true)
  | S count' =>
      if spawn index then
        let '(ws, ok) := start_workers spawn (S index) count' in (Locking :: ws, ok)
      else ([], false)
  end.

(** The largest number of threads that [workers_] can hold, [max_size] of a
    vector of 8-byte elements. *)
Definition threads_max : Z := vector_max / 8.

Definition make_pool (spawn : nat -> bool) (worker_count queue_capacity : Z) :
    Construction T E :=
  match make_queue queue_capacity with
  | None => ConstructorThrows
  | Some q =>
      if worker_count =? 0 then ConstructorThrows
      else if threads_max <? worker_count then ConstructorThrows (* workers_.reserve *)
      else
        match start_workers spawn 0 (Z.to_nat worker_count) with
        | (ws, true) => Constructed (mkPool q ws false 0 NotStopping)
        | (ws, false) => ConstructorUnwinds (mkPool q ws false 0 Closing)
        end
  end.

(** A [Task] is a [std::function]: [None] is the empty one. *)
Definition trySubmit (p : ThreadPool T E) (task : option T) : ThreadPool T E * SubmitStatus :=
  match task with
  | None => (p, InvalidTask)
  | Some t =>
      let '(q, push_status, n) := tryPush (tasks_ p) t in
      let pending := match n with notify_one => S (notifying p) | _ => notifying p end in
      (mkPool q (workers_ p) (stopped_ p) pending (stop_phase p),
       match push_status with
       | BoundedQueue.Success => Success
       | Full => QueueFull
       | Closed => Stopped
       end)
  end.

(** [stop] once it holds [stop_mutex_], up to the call of [close]. *)
Definition stop_begin (p : ThreadPool T E) : ThreadPool T E :=
  mkPool (tasks_ p) (workers_ p) true (notifying p) (if stopped_ p then Joining else Closing).

Definition stop_close (p : ThreadPool T E) : ThreadPool T E :=
  mkPool (close (tasks_ p)).1 (workers_ p) (stopped_ p) (notifying p) Notifying.

Definition wake (w : Worker T E) : Worker T E :=
  match w with Waiting => Locking | _ => w end.

Definition stop_notify (p : ThreadPool T E) : ThreadPool T E :=
  mkPool (tasks_ p) (wake <$> workers_ p) (stopped_ p) (notifying p) Joining.

Definition stop_return (p : ThreadPool T E) : ThreadPool T E :=
  mkPool (tasks_ p) (workers_ p) (stopped_ p) (notifying p) NotStopping.

Definition workerCount (p : ThreadPool T E) : Z := len (workers_ p).
Definition pendingTaskCount (p : ThreadPool T E) : Z := size (tasks_ p).
Definition stopped (p : ThreadPool T E) : bool := stopped_ p.

(** [workerLoop], the part of [waitPop] that holds the mutex: the worker's next
    state and the queue it leaves. *)
Definition worker_lock (start : T -> E) (q : BoundedQueue T) : Worker T E * BoundedQueue T :=
  match waitPop q with
  | None => (Waiting, q)
  | Some (None, q) => (Exited, q)
  | Some (Some task, q) => (Running task (start task), q)
  end.

(** [workerLoop], after a step of its task: an exception ends the task only. *)
Definition worker_after (task : T) (o : TaskOutcome E) : Worker T E :=
  match o with
  | Continues e => Running task e
  | Returned => Locking
  | Threw => Locking
  end.

Definition set_worker (i : nat) (w : Worker T E) (p : ThreadPool T E) : ThreadPool T E :=
  mkPool (tasks_ p) (<[i := w]> (workers_ p)) (stopped_ p) (notifying p) (stop_phase p).
Definition set_tasks (q : BoundedQueue T) (p : ThreadPool T E) : ThreadPool T E :=
  mkPool q (workers_ p) (stopped_ p) (notifying p) (stop_phase p).
Definition notified (ws : list (Worker T E)) (p : ThreadPool T E) : ThreadPool T E :=
  mkPool (tasks_ p) ws (stopped_ p) (pred (notifying p)) (stop_phase p).

(** [notify_one] wakes one sleeping worker, any of them, if there is one. *)
Inductive wakes_one (ws : list (Worker T E)) : list (Worker T E) -> Prop :=
| wakes i : ws !! i = Some Waiting -> wakes_one ws (<[i := Locking]> ws)
| wakes_nobody : Waiting ∉ ws -> wakes_one ws ws.
End Operations.

(** ** The interleavings *)

Inductive PoolEvent (T : Type) :=
| Submitted (task : option T) (st : SubmitStatus)
| Started (task : T)
| Finished (task : T) (threw : bool)
| StopCalled
| StopReturned
| Internal.
Arguments Submitted {T} _ _.
Arguments Started {T} _.
Arguments Finished {T} _ _.
Arguments StopCalled {T}.
Arguments StopReturned {T}.
Arguments Internal {T}.

Section Steps.
(** [G] is the memory that the tasks share; [task_step] is one step of a task. *)
Context {T E G : Type} (start : T -> E) (task_step : E -> G -> TaskOutcome E -> G -> Prop).

Abbreviation Pool := (ThreadPool T E).

(** What another thread, not a worker of the pool, may do to that memory. *)
Context (env_step : G -> G -> Prop).

(** What a worker's step shows. *)
Definition lock_event (w : Worker T E) : PoolEvent T :=
  match w with Running task _ => Started task | _ => Internal end.
Definition task_event (task : T) (o : TaskOutcome E) : PoolEvent T :=
  match o with
  | Continues _ => Internal
  | Returned => Finished task false
  | Threw => Finished task true
  end.

(** The steps the pool makes by itself. *)
Inductive run_step : Pool * G -> PoolEvent T -> Pool * G -> Prop :=
| run_lock p g i w q :
    workers_ p !! i = Some Locking -> worker_lock start (tasks_ p) = (w, q) ->
    run_step (p, g) (lock_event w) (set_worker i w (set_tasks q p), g)
| run_task p g i task e o g' :
    workers_ p !! i = Some (Running task e) -> task_step e g o g' ->
    run_step (p, g) (task_event task o)
      (set_worker i (worker_after task o) p, g')
| run_notify p g ws :
    (0 < notifying p)%nat -> wakes_one (workers_ p) ws ->
    run_step (p, g) Internal (notified ws p, g)
| run_close p g : stop_phase p = Closing -> run_step (p, g) Internal (stop_close p, g)
| run_notify_all p g : stop_phase p = Notifying -> run_step (p, g) Internal (stop_notify p, g)
| run_joined p g :
    stop_phase p = Joining -> Forall (fun w => w = Exited) (workers_ p) ->
    run_step (p, g) StopReturned (stop_return p, g).

(** All steps: also the calls that other threads make, a spurious wakeup, and
    what other threads do to the shared memory. *)
Inductive pool_step : Pool * G -> PoolEvent T -> Pool * G -> Prop :=
| step_run s ev s' : run_step s ev s' -> pool_step s ev s'
| step_submit p g task p' st :
    trySubmit p task = (p', st) -> pool_step (p, g) (Submitted task st) (p', g)
| step_stop p g :
    stop_phase p = NotStopping -> pool_step (p, g) StopCalled (stop_begin p, g)
| step_spurious p g i :
    workers_ p !! i = Some Waiting -> pool_step (p, g) Internal (set_worker i Locking p, g)
| step_memory p g g' : env_step g g' -> pool_step (p, g) Internal (p, g').

Inductive pool_steps : Pool * G -> list (PoolEvent T) -> Pool * G -> Prop :=
| pool_nil s : pool_steps s [] s
| pool_snoc s1 h s2 ev s3 :
    pool_steps s1 h s2 -> pool_step s2 ev s3 -> pool_steps s1 (h ++ [ev]) s3.
End Steps.

(** What a history says of the tasks. *)
Section History.
Context {T : Type}.
Definition accepted_of (ev : PoolEvent T) : list T :=
  match ev with Submitted (Some t) Success => [t] | _ => [] end.
Definition started_of (ev : PoolEvent T) : list T :=
  match ev with Started t => [t] | _ => [] end.
Definition finished_of (ev : PoolEvent T) : list T :=
  match ev with Finished t _ => [t] | _ => [] end.
Definition accepted (h : list (PoolEvent T)) : list T := mbind accepted_of h.
Definition started (h : list (PoolEvent T)) : list T := mbind started_of h.
Definition finished (h : list (PoolEvent T)) : list T := mbind finished_of h.
End History.

(** ** Counting workers *)

Section Counting.
Context {T E : Type}.

Definition running_of (w : Worker T E) : list T :=
  match w with Running t _ => [t] | _ => [] end.
Definition running (ws : list (Worker T E)) : list T := mbind running_of ws.

Definition is_locking (w : Worker T E) : nat := match w with Locking => 1 | _ => 0 end.
Definition locking (ws : list (Worker T E)) : nat := sum_list_with is_locking ws.

Lemma running_update (ws : list (Worker T E)) i w w' :
  ws !! i = Some w -> running_of w ++ running (<[i := w']> ws) ≡ₚ running_of w' ++ running ws.
Proof. apply bind_update. Qed.

Lemma running_wake (ws : list (Worker T E)) : running (wake <$> ws) = running ws.
Proof. unfold running; induction ws as [|[] ws IH]; csimpl; congruence. Qed.

Lemma waiting_wake (ws : list (Worker T E)) : Waiting ∉ wake <$> ws.
Proof. rewrite list_elem_of_fmap. by intros ([] & ? & ?). Qed.

Lemma waiting_or_not (ws : list (Worker T E)) : Waiting ∈ ws \/ Waiting ∉ ws.
Proof.
  induction ws as [|w ws IH]; [right; apply not_elem_of_nil|].
  rewrite elem_of_cons. destruct w; intuition congruence.
Qed.

Lemma wakes_one_total (ws : list (Worker T E)) : exists ws', wakes_one ws ws'.
Proof.
  destruct (waiting_or_not ws) as [[i Hi]%list_elem_of_lookup|Hno]; eauto using wakes_one.
Qed.

Lemma exited_wake (ws : list (Worker T E)) : Exited ∈ wake <$> ws <-> Exited ∈ ws.
Proof.
  rewrite list_elem_of_fmap. split; [intros ([] & ? & ?); done|]. by exists Exited.
Qed.

Lemma start_workers_locking spawn index count ws ok :
  start_workers spawn index count = (ws, ok) ->
  Forall (fun w => w = @Locking T E) ws /\ (ok = true -> length ws = count).
Proof.
  revert index ws ok; induction count as [|count IH]; simpl; intros index ws ok Hs;
    [by simplify_eq|].
  destruct (spawn index); [|by simplify_eq].
  destruct (start_workers spawn (S index) count) as [ws' ok'] eqn:E'; simplify_eq.
  apply IH in E' as [? Hlen]; split; [by constructor|]. intros ->; simpl; auto.
Qed.
End Counting.

(** ** The invariant

    The wakeup condition is the heart: while a worker sleeps, there is for
    every queued task a worker on its way to the mutex or a notification still
    to come. *)

Section Invariant.
Context {T E : Type}.

Record pool_wf (p : ThreadPool T E) : Prop := PoolWf {
  wf_queue : queue_wf (tasks_ p);
  wf_wake : Waiting ∈ workers_ p ->
    (length (queue_ (tasks_ p)) <= locking (workers_ p) + notifying p)%nat;
  wf_asleep : closed_ (tasks_ p) = true -> Waiting ∈ workers_ p -> stop_phase p = Notifying;
  wf_exited : Exited ∈ workers_ p -> closed_ (tasks_ p) = true /\ queue_ (tasks_ p) = [];
  wf_phase :
    match stop_phase p with
    | NotStopping => (stopped_ p || closed_ (tasks_ p)) = true ->
        closed_ (tasks_ p) = true /\ Forall (fun w => w = Exited) (workers_ p)
    | Closing => True
    | Notifying | Joining => closed_ (tasks_ p) = true
    end
}.

Lemma forall_exited_lookup (ws : list (Worker T E)) i w :
  Forall (fun w => w = Exited) ws -> ws !! i = Some w -> w = Exited.
Proof. intros Hws Hi. exact (Forall_lookup_1 _ _ _ _ Hws Hi). Qed.

(** In a pool whose worker [i] has not returned, nobody has joined. *)
Ltac not_all_exited p Hp Hi :=
  destruct (stop_phase p); auto; let Hcl := fresh in
  intros Hcl; exfalso; specialize (Hp Hcl);
  pose proof (forall_exited_lookup _ _ _ (proj2 Hp) Hi); done.

Lemma running_idle (w : Worker T E) (ws : list (Worker T E)) :
  running_of w = [] -> Forall (fun w' => w' = w) ws -> running ws = [].
Proof.
  intros Hw; unfold running; induction 1 as [|w' ws -> _ IH]; [done|]. csimpl. by rewrite Hw, IH.
Qed.

(** When every worker has returned, nothing is left to do. *)
Lemma exited_drained (p : ThreadPool T E) :
  pool_wf p -> (0 < length (workers_ p))%nat -> Forall (fun w => w = Exited) (workers_ p) ->
  queue_ (tasks_ p) = [] /\ running (workers_ p) = [].
Proof.
  intros Hwf Hlen Hex. split; [|by apply (running_idle Exited)].
  apply (wf_exited _ Hwf). destruct Hex as [|w ws -> _]; [simpl in Hlen; lia|constructor].
Qed.

Lemma make_pool_wf spawn worker_count capacity (p : ThreadPool T E) :
  0 <= worker_count -> 0 <= capacity ->
  make_pool spawn worker_count capacity = Constructed p \/
  make_pool spawn worker_count capacity = ConstructorUnwinds p ->
  pool_wf p /\ capacity_ (tasks_ p) = capacity /\ queue_ (tasks_ p) = [] /\
  Forall (fun w => w = Locking) (workers_ p) /\
  (make_pool spawn worker_count capacity = Constructed p ->
     closed_ (tasks_ p) = false /\ workerCount p = worker_count /\ 0 < worker_count).
Proof.
  intros Hn Hc; unfold make_pool, make_queue, workerCount, len.
  destruct (capacity =? 0) eqn:E0; [by intros []|]. destruct (worker_count =? 0) eqn:E1; [by intros []|].
  destruct (threads_max <? _); [by intros []|].
  destruct (start_workers spawn 0 _) as [ws ok] eqn:Ew; zbool.
  apply start_workers_locking in Ew as [Hws Hlen]. rewrite Forall_forall in Hws.
  assert (Hwf : forall ph, ph = NotStopping \/ ph = Closing ->
    pool_wf (mkPool (mkBoundedQueue capacity [] false) ws false 0 ph)).
  { intros ph Hph; split; simpl; try done.
    - split; simpl; [lia|]. unfold size; simpl; rewrite len_nil; lia.
    - lia.
    - intros Hex; by apply Hws in Hex.
    - destruct Hph as [-> | ->]; done. }
  assert (Forall (fun w => w = Locking) ws) by (by apply Forall_forall).
  destruct ok; intros [Eq|Eq]; simplify_eq; simpl; split_and!; auto; intros;
    simplify_eq; split_and!; auto; lia.
Qed.

Lemma trySubmit_spec (p : ThreadPool T E) task p' st :
  pool_wf p -> trySubmit p task = (p', st) ->
  pool_wf p' /\ workers_ p' = workers_ p /\ stop_phase p' = stop_phase p /\
  capacity_ (tasks_ p') = capacity_ (tasks_ p) /\ closed_ (tasks_ p') = closed_ (tasks_ p) /\
  match task, st with
  | None, InvalidTask => p' = p
  | Some t, Success => closed_ (tasks_ p) = false /\ size (tasks_ p) < capacity (tasks_ p) /\
      queue_ (tasks_ p') = queue_ (tasks_ p) ++ [t] /\ notifying p' = S (notifying p)
  | Some t, QueueFull =>
      closed_ (tasks_ p) = false /\ size (tasks_ p) = capacity (tasks_ p) /\ p' = p
  | Some t, Stopped => closed_ (tasks_ p) = true /\ p' = p
  | _, _ => False
  end.
Proof.
  intros Hwf E0. destruct task as [t|]; [|injection E0 as <- <-; auto 10].
  simpl in E0. destruct (tryPush_spec (tasks_ p) t) as (q & st' & n & E1 & Hc & Hcl & Hst).
  rewrite E1 in E0. pose proof (wf_queue _ Hwf) as [Hc0 Hs0].
  pose proof (queue_step_spec (tasks_ p) _ q (conj Hc0 Hs0) (step_push _ _ _ _ _ E1)) as (Hq & _).
  destruct st'; destruct_and!; subst n; injection E0 as <- <-; simpl.
  - split; [|by auto 10]. destruct Hwf; split; simpl; auto.
    + intros Hw. specialize (wf_wake0 Hw).
      match goal with Hv : queue_ q = _ |- _ => rewrite Hv end. rewrite length_app; simpl; lia.
    + rewrite Hcl; done.
    + intros He; destruct (wf_exited0 He); congruence.
    + by rewrite Hcl.
  - subst q. unfold size, capacity in *. destruct p; simpl in *; split_and!; auto; lia.
  - subst q. destruct p; simpl in *; auto 10.
Qed.

Lemma trySubmit_queue (p : ThreadPool T E) task p' st :
  trySubmit p task = (p', st) ->
  workers_ p' = workers_ p /\
  queue_ (tasks_ p') = queue_ (tasks_ p) ++ accepted_of (Submitted task st).
Proof.
  intros E0. destruct task as [t|]; [|injection E0 as <- <-; simpl; by rewrite app_nil_r].
  simpl in E0. destruct (tryPush_spec (tasks_ p) t) as (q & st' & n & E1 & _ & _ & Hst).
  rewrite E1 in E0. injection E0 as <- <-; simpl.
  destruct st'; simpl; destruct_and!; subst; rewrite ?app_nil_r; auto.
Qed.

Lemma locking_update (ws : list (Worker T E)) i w w' :
  ws !! i = Some w ->
  (is_locking w + locking (<[i := w']> ws) = is_locking w' + locking ws)%nat.
Proof. apply sum_update. Qed.

Lemma notified_wf (p : ThreadPool T E) ws :
  pool_wf p -> (0 < notifying p)%nat -> wakes_one (workers_ p) ws -> pool_wf (notified ws p).
Proof.
  intros [? Hw Ha He Hp] Hn [i Hi|Hno].
  - assert (Hin : Waiting ∈ workers_ p) by by eapply list_elem_of_lookup_2.
    split; simpl; auto.
    + intros _. pose proof (locking_update _ _ _ Locking Hi) as Hl. simpl in Hl.
      specialize (Hw Hin); lia.
    + intros Hx; destruct (elem_of_update _ _ _ _ _ Hi Hx); auto; done.
    + not_all_exited p Hp Hi.
  - split; simpl; auto. intros Hin; contradiction.
Qed.

Lemma stop_steps_wf (p : ThreadPool T E) :
  pool_wf p ->
  (stop_phase p = NotStopping -> pool_wf (stop_begin p)) /\
  (stop_phase p = Closing -> pool_wf (stop_close p)) /\
  (stop_phase p = Notifying -> pool_wf (stop_notify p)) /\
  (stop_phase p = Joining -> Forall (fun w => w = Exited) (workers_ p) -> pool_wf (stop_return p)).
Proof.
  intros [Hq Hw Ha He Hp]; split_and!; intros Hph; rewrite Hph in *.
  - split; simpl; auto.
    + intros Hcl Hin. specialize (Ha Hcl Hin). congruence.
    + destruct (stopped_ p); [|done]. by destruct Hp.
  - split; simpl; auto. intros Hx; by destruct (He Hx).
  - split; simpl; auto.
    + intros Hin; by apply waiting_wake in Hin.
    + intros _ Hin; by apply waiting_wake in Hin.
    + by intros ?%exited_wake%He.
  - intros Hall. rewrite Forall_forall in Hall. split; simpl; auto.
    + intros _ Hin; by apply Hall in Hin.
    + rewrite Hp, Forall_forall. auto.
Qed.

Lemma spurious_wf (p : ThreadPool T E) i :
  pool_wf p -> workers_ p !! i = Some Waiting -> pool_wf (set_worker i Locking p).
Proof.
  intros [? Hw Ha He Hp] Hi.
  assert (Hin : Waiting ∈ workers_ p) by by eapply list_elem_of_lookup_2.
  split; simpl; auto.
  - intros _. pose proof (locking_update _ _ _ Locking Hi) as Hl. simpl in Hl.
    specialize (Hw Hin); lia.
  - intros Hx; destruct (elem_of_update _ _ _ _ _ Hi Hx); auto; done.
  - not_all_exited p Hp Hi.
Qed.

Lemma worker_after_wf (p : ThreadPool T E) i task e o :
  pool_wf p -> workers_ p !! i = Some (Running task e) ->
  pool_wf (set_worker i (worker_after task o) p).
Proof.
  intros [? Hw Ha He Hp] Hi.
  assert (Hno : worker_after task o <> Waiting /\ worker_after task o <> Exited) by by destruct o.
  destruct Hno as [Hno1 Hno2].
  split; simpl; auto.
  - intros Hx; destruct (elem_of_update _ _ _ _ _ Hi Hx) as [Hy|Hin]; [by destruct Hno1|].
    pose proof (locking_update _ _ _ (worker_after task o) Hi) as Hl. simpl in Hl.
    specialize (Hw Hin); lia.
  - intros Hcl Hx; destruct (elem_of_update _ _ _ _ _ Hi Hx) as [Hy|Hin]; [by destruct Hno1|auto].
  - intros Hx; destruct (elem_of_update _ _ _ _ _ Hi Hx) as [Hy|Hin]; [by destruct Hno2|auto].
  - not_all_exited p Hp Hi.
Qed.

Lemma worker_lock_spec start (p : ThreadPool T E) i w q :
  pool_wf p -> workers_ p !! i = Some Locking -> worker_lock start (tasks_ p) = (w, q) ->
  pool_wf (set_worker i w (set_tasks q p)) /\
  capacity_ q = capacity_ (tasks_ p) /\ closed_ q = closed_ (tasks_ p) /\
  queue_ (tasks_ p) = started_of (lock_event w) ++ queue_ q /\
  match w with
  | Waiting => closed_ q = false /\ queue_ q = []
  | Exited => closed_ q = true /\ queue_ q = []
  | Running t e => e = start t
  | Locking => False
  end.
Proof.
  intros [[Hc Hs] Hw Ha He Hp] Hi El.
  pose proof (locking_update _ _ _ w Hi) as Hl; simpl in Hl.
  unfold worker_lock in El. destruct (waitPop (tasks_ p)) as [[o q']|] eqn:Ew.
  - pose proof (queue_step_spec (tasks_ p) _ q' (conj Hc Hs) (step_pop _ _ _ Ew)) as (Hwf & _).
    apply waitPop_some in Ew as (Ecap & Ecl & Eq & Hnone).
    destruct o as [t|]; injection El as <- <-; simpl in *.
    + split; [|auto]. split; simpl; rewrite ?Ecl; auto.
      * intros Hx; destruct (elem_of_update _ _ _ _ _ Hi Hx) as [|Hin]; [done|].
        specialize (Hw Hin). rewrite Eq in Hw; simpl in Hw; lia.
      * intros Hcl Hx; destruct (elem_of_update _ _ _ _ _ Hi Hx) as [|Hin]; auto; done.
      * intros Hx; destruct (elem_of_update _ _ _ _ _ Hi Hx) as [|Hin]; [done|].
        destruct (He Hin) as [_ Hnil]. by rewrite Hnil in Eq.
      * not_all_exited p Hp Hi.
    + destruct (Hnone eq_refl) as (Hcl & -> & Enil). split; [|auto].
      split; simpl; auto.
      * intros Hx; rewrite Enil; simpl; lia.
      * intros _ Hx; destruct (elem_of_update _ _ _ _ _ Hi Hx) as [|Hin]; auto; done.
      * not_all_exited p Hp Hi.
  - apply waitPop_none in Ew as [Hcl Enil]. injection El as <- <-; simpl. split; [|auto].
    assert (queue_wf (tasks_ p)) by (by split). split; simpl; auto.
    + intros Hx; rewrite Enil; simpl; lia.
    + congruence.
    + intros Hx; destruct (elem_of_update _ _ _ _ _ Hi Hx) as [|Hin]; auto; done.
    + not_all_exited p Hp Hi.
Qed.
End Invariant.

(** ** The history of the tasks *)

Section Tasks.
Context {T E G : Type} (start : T -> E) (task_step : E -> G -> TaskOutcome E -> G -> Prop).
Context (env_step : G -> G -> Prop).

(** What every step keeps: the queue's order, and each started task in exactly
    one place. *)
Lemma pool_step_spec (p p' : ThreadPool T E) g g' ev :
  pool_wf p -> pool_step start task_step env_step (p, g) ev (p', g') ->
  pool_wf p' /\ capacity_ (tasks_ p') = capacity_ (tasks_ p) /\
  length (workers_ p') = length (workers_ p) /\
  queue_ (tasks_ p) ++ accepted_of ev = started_of ev ++ queue_ (tasks_ p') /\
  finished_of ev ++ running (workers_ p') ≡ₚ started_of ev ++ running (workers_ p) /\
  (closed_ (tasks_ p) = true -> closed_ (tasks_ p') = true).
Proof.
  intros Hwf Hstep. pose proof (stop_steps_wf p Hwf) as (Hbegin & Hclose & Hall & Hret).
  inversion Hstep as [s0 ev0 s0' Hrun|? ? task ? st Hsub|? ? Hph|? ? i Hi|]; subst.
  - inversion Hrun as [? ? i w q Hi El|? ? i task e o ? Hi Ht|? ? ws Hn Hws|? ? Hph|? ? Hph|? ? Hph Hex];
      subst; simpl.
    + destruct (worker_lock_spec start p i w q Hwf Hi El) as (Hwf' & Hc & Hcl & Hq & Hw).
      pose proof (running_update _ _ _ w Hi) as Hr; simpl in Hr.
      rewrite length_insert, Hcl. destruct w; simpl in *; rewrite ?app_nil_r; split_and!; auto; done.
    + pose proof (worker_after_wf p i task e o Hwf Hi) as Hwf'.
      pose proof (running_update _ _ _ (worker_after task o) Hi) as Hr.
      rewrite length_insert. destruct o; simpl in *; rewrite app_nil_r; split_and!; auto.
      by apply (Permutation_app_inv_l [task]).
    + pose proof (notified_wf p ws Hwf Hn Hws) as Hwf'. rewrite app_nil_r.
      destruct Hws as [i Hi|]; simpl; rewrite ?length_insert; split_and!; auto.
      by pose proof (running_update _ _ _ Locking Hi).
    + rewrite app_nil_r; auto 10.
    + rewrite length_fmap, running_wake, app_nil_r; auto 10.
    + rewrite app_nil_r; auto 10.
  - destruct (trySubmit_spec p task p' st Hwf Hsub) as (Hwf' & Ew & Eph & Ec & Ecl & Hst).
    rewrite Ew, Ecl. split_and!; auto.
    destruct task, st; try done; destruct_and?; subst; simpl; rewrite ?app_nil_r; done.
  - simpl; rewrite app_nil_r; auto 10.
  - pose proof (running_update _ _ _ Locking Hi) as Hr.
    simpl; rewrite length_insert, app_nil_r. split_and!; auto. by apply spurious_wf.
  - rewrite app_nil_r; auto 10.
Qed.

Lemma pool_steps_spec s h s' :
  pool_wf s.1 -> pool_steps start task_step env_step s h s' ->
  pool_wf s'.1 /\ capacity_ (tasks_ s'.1) = capacity_ (tasks_ s.1) /\
  length (workers_ s'.1) = length (workers_ s.1) /\
  queue_ (tasks_ s.1) ++ accepted h = started h ++ queue_ (tasks_ s'.1) /\
  finished h ++ running (workers_ s'.1) ≡ₚ started h ++ running (workers_ s.1).
Proof.
  intros Hwf; induction 1 as [s|s1 h [p2 g2] ev [p3 g3] _ IH Hstep].
  { unfold accepted, started, finished; simpl; rewrite app_nil_r; auto 10. }
  destruct (IH Hwf) as (Hwf2 & Hc2 & Hl2 & Hq2 & Hr2); simpl in *.
  destruct (pool_step_spec _ _ _ _ _ Hwf2 Hstep) as (Hwf3 & Hc3 & Hl3 & Hq3 & Hr3 & _).
  unfold accepted, started, finished in *. rewrite !bind_app; simpl; rewrite !app_nil_r.
  split_and!; try congruence.
  - rewrite app_assoc, Hq2, <-!app_assoc; congruence.
  - rewrite <-app_assoc, Hr3, (Permutation_app_comm _ (started_of ev)), <-app_assoc, <-Hr2.
    rewrite !app_assoc. by rewrite (Permutation_app_comm (started_of ev)).
Qed.
End Tasks.

(** ** Termination and progress

    For tasks that terminate: [I] is kept by every step of a task, under [I] a
    task can always take a step, and each step of a task decreases [m]. *)

Section Liveness.
Context {T E G : Type} (start : T -> E) (task_step : E -> G -> TaskOutcome E -> G -> Prop).
Context (I : G -> Prop) (m : E -> nat).
Hypothesis task_keeps : forall e g o g', I g -> task_step e g o g' -> I g'.
Hypothesis task_progress : forall e g, I g -> exists o g', task_step e g o g'.
Hypothesis task_decreases : forall e g e' g',
  I g -> task_step e g (Continues e') g' -> (m e' < m e)%nat.

Definition worker_measure (w : Worker T E) : nat :=
  match w with Locking => 2 | Waiting => 1 | Running _ e => 3 + m e | Exited => 0 end.
Definition phase_measure (ph : StopPhase) (workers : nat) : nat :=
  match ph with NotStopping => 0 | Joining => 1 | Notifying => 2 + workers | Closing => 3 + workers end.
Definition pool_measure (p : ThreadPool T E) : nat :=
  sum_list_with (fun t => 3 + m (start t))%nat (queue_ (tasks_ p))
  + sum_list_with worker_measure (workers_ p)
  + 3 * notifying p + phase_measure (stop_phase p) (length (workers_ p)).

Lemma measure_update (ws : list (Worker T E)) i w w' :
  ws !! i = Some w ->
  (worker_measure w + sum_list_with worker_measure (<[i := w']> ws)
   = worker_measure w' + sum_list_with worker_measure ws)%nat.
Proof. apply sum_update. Qed.

Lemma measure_wake (ws : list (Worker T E)) :
  (sum_list_with worker_measure (wake <$> ws)
   <= sum_list_with worker_measure ws + length ws)%nat.
Proof.
  rewrite sum_fmap. pose proof (sum_bound (fun w => worker_measure (wake w)) worker_measure 1 ws) as Hb.
  rewrite Nat.mul_1_l in Hb. apply Hb. intros []; simpl; lia.
Qed.

Lemma run_step_decreases s ev s' :
  I s.2 -> run_step start task_step s ev s' ->
  I s'.2 /\ (pool_measure s'.1 < pool_measure s.1)%nat.
Proof.
  intros HI Hrun. inversion Hrun as
    [p g i w q Hi El|p g i task e o g' Hi Ht|p g ws Hn Hws|p g Hph|p g Hph|p g Hph Hex];
    subst; simpl in *; (split; [eauto|]); unfold pool_measure; simpl.
  - pose proof (measure_update _ _ _ w Hi) as Hm; simpl in Hm. rewrite length_insert.
    unfold worker_lock in El. destruct (waitPop (tasks_ p)) as [[o q']|] eqn:Ew.
    + apply waitPop_some in Ew as (_ & _ & Eq & _). rewrite Eq.
      destruct o; injection El as <- <-; simpl in *; lia.
    + injection El as <- <-; simpl in *; lia.
  - pose proof (measure_update _ _ _ (worker_after task o) Hi) as Hm; simpl in Hm.
    rewrite length_insert. destruct o as [e'| |]; simpl in *; try lia.
    specialize (task_decreases _ _ _ _ HI Ht); lia.
  - destruct Hws as [i Hi|]; [|lia].
    pose proof (measure_update _ _ _ Locking Hi) as Hm; simpl in Hm. rewrite length_insert; lia.
  - rewrite Hph; simpl; lia.
  - rewrite Hph; simpl. pose proof (measure_wake (workers_ p)); lia.
  - rewrite Hph; simpl; lia.
Qed.

(** A pool that can do nothing by itself has no work left. *)
Lemma stuck_pool p g :
  pool_wf p -> I g -> workers_ p <> [] ->
  ~ (exists ev s', run_step start task_step (p, g) ev s') ->
  stop_phase p = NotStopping /\ notifying p = 0%nat /\ queue_ (tasks_ p) = [] /\
  running (workers_ p) = [] /\
  (stopped_ p = true \/ closed_ (tasks_ p) = true -> Forall (fun w => w = Exited) (workers_ p)).
Proof.
  intros [Hq Hw Ha He Hp] HI Hne Hstuck.
  assert (Hrest : forall i w, workers_ p !! i = Some w -> w = Waiting \/ w = Exited).
  { intros i w Hi; destruct w as [| |task e|]; auto; destruct Hstuck.
    - destruct (worker_lock start (tasks_ p)) as [w q] eqn:El. eauto using run_lock.
    - destruct (task_progress e g HI) as (o & g' & Ht). eauto using run_task. }
  assert (Hn : notifying p = 0%nat).
  { destruct (notifying p) eqn:En; [done|]. destruct Hstuck.
    destruct (wakes_one_total (workers_ p)) as [ws Hws].
    eexists _, _; eapply run_notify; [lia|exact Hws]. }
  assert (Hlock : locking (workers_ p) = 0%nat /\ running (workers_ p) = []).
  { revert Hrest. clear. unfold locking, running. induction (workers_ p) as [|w ws IH]; [done|].
    intros Hrest. destruct IH as [El Er]; [intros i; apply (Hrest (S i))|].
    csimpl; rewrite El, Er. destruct (Hrest 0%nat w eq_refl); by subst. }
  assert (Hex : Waiting ∉ workers_ p -> Forall (fun w => w = Exited) (workers_ p)).
  { intros Hno; apply Forall_lookup; intros i w Hi. destruct (Hrest i w Hi); [subst|done].
    destruct Hno; by eapply list_elem_of_lookup_2. }
  destruct Hlock as [Hl Hr].
  assert (Hph : stop_phase p = NotStopping).
  { destruct (stop_phase p) eqn:Eph; [done|destruct Hstuck..].
    - eauto using run_close.
    - eauto using run_notify_all.
    - eexists _, _; apply run_joined; [done|]. apply Hex; intros Hin. specialize (Ha Hp Hin). congruence. }
  rewrite Hph in Hp. split_and!; auto.
  - destruct (waiting_or_not (workers_ p)) as [Hin|Hno].
    + specialize (Hw Hin). rewrite Hl, Hn in Hw. destruct (queue_ (tasks_ p)); [done|simpl in Hw; lia].
    + apply Hex in Hno. destruct (workers_ p) as [|w ws] eqn:Ew; [done|].
      apply Forall_cons in Hno as [-> _]. by apply He, list_elem_of_here.
  - intros Hc. apply Hp. by apply orb_true_iff.
Qed.

(** The steps the pool makes by itself, from a state with measure [n], are at
    most [n]. *)
Lemma run_steps_bounded n s s' :
  I s.2 -> nsteps (fun s s' => exists ev, run_step start task_step s ev s') n s s' ->
  I s'.2 /\ (n + pool_measure s'.1 <= pool_measure s.1)%nat.
Proof.
  intros HI; induction 1 as [|n s1 s2 s3 (ev & Hstep) _ IH]; [auto|].
  destruct (run_step_decreases _ _ _ HI Hstep) as [HI2 Hlt].
  destruct (IH HI2); split; [done|lia].
Qed.

Context (env_step : G -> G -> Prop).
Hypothesis env_keeps : forall g g', I g -> env_step g g' -> I g'.

Lemma pool_steps_memory s h s' :
  I s.2 -> pool_steps start task_step env_step s h s' -> I s'.2.
Proof.
  intros HI; induction 1 as [|s1 h s2 ev s3 _ IH Hstep]; [done|]. specialize (IH HI).
  destruct Hstep as [s ev s' Hrun| | | |]; simpl in *; eauto.
  by apply run_step_decreases in Hrun as [? _].
Qed.
End Liveness.

(** ** The theorems *)

(** C14. Each accepted task runs exactly once, in submission order: in any
    interleaving of any number of submitting threads, workers and [stop] calls,
    the accepted tasks are the started ones, in order, followed by the queued
    ones, and each started task is finished or being run by one worker, whether
    or not tasks throw.  The queue never exceeds its capacity, and [trySubmit]
    answers [QueueFull] and [Stopped] only for a full and for a closed queue.
    When a call of [stop] returns, every worker has returned and everything
    that was accepted has been run. *)
Theorem pool_runs_each_task_once {T E G} (start : T -> E) task_step env_step
    spawn worker_count capacity (p0 p : ThreadPool T E) (g0 g : G) h :
  0 <= worker_count -> 0 <= capacity ->
  make_pool spawn worker_count capacity = Constructed p0 ->
  pool_steps start task_step env_step (p0, g0) h (p, g) ->
  accepted h = started h ++ queue_ (tasks_ p) /\
  started h ≡ₚ finished h ++ running (workers_ p) /\
  pendingTaskCount p <= capacity /\ workerCount p = worker_count /\
  (forall ev p' g', pool_step start task_step env_step (p, g) ev (p', g') ->
     match ev with
     | Submitted None st => st = InvalidTask
     | Submitted (Some _) Success => pendingTaskCount p < capacity /\ closed (tasks_ p) = false
     | Submitted (Some _) QueueFull => pendingTaskCount p = capacity /\ p' = p
     | Submitted (Some _) Stopped => closed (tasks_ p) = true /\ p' = p
     | Submitted (Some _) InvalidTask => False
     | StopReturned => Forall (fun w => w = Exited) (workers_ p) /\ closed (tasks_ p') = true /\
         finished h ≡ₚ accepted h
     | _ => True
     end).
Proof.
  intros Hn Hc Hmake Hsteps.
  destruct (make_pool_wf spawn worker_count capacity p0 Hn Hc (or_introl Hmake))
    as (Hwf0 & Hcap & Hq0 & Hw0 & Hnew). destruct (Hnew Hmake) as (Hcl0 & Hlen0 & Hpos).
  pose proof (pool_steps_spec start task_step env_step (p0, g0) h (p, g) Hwf0 Hsteps)
    as (Hwf & Hcapp & Hlen & Hq & Hr); simpl in *.
  pose proof (running_idle Locking _ eq_refl Hw0) as Er.
  rewrite Hq0 in Hq; simpl in Hq. rewrite Er, app_nil_r in Hr.
  unfold pendingTaskCount, workerCount, len in *. rewrite Hlen.
  destruct (wf_queue _ Hwf) as [_ Hs]. rewrite Hcapp, Hcap in Hs. split_and!; auto; [by symmetry|].
  intros ev p' g' Hstep; inversion Hstep as [s ev' s' Hrun|? ? task ? st Hsub| | |]; subst; try done.
  - inversion Hrun as [? ? ? w ? ? ?|? ? ? ? ? o| | | |? ? Hph Hex]; subst; try done.
    + by destruct w.
    + by destruct o.
    + split; [done|]. pose proof (wf_phase _ Hwf) as Hcl; rewrite Hph in Hcl. split; [done|].

      destruct (exited_drained _ Hwf ltac:(lia) Hex) as [E1 E2].
      by rewrite Hq, E1, app_nil_r, <-Hr, E2, app_nil_r.
  - destruct (trySubmit_spec p task p' st Hwf Hsub) as (_ & _ & _ & _ & _ & Hst).
    unfold BoundedQueue.capacity in Hst. rewrite Hcapp in Hst.
    destruct task, st; try done; destruct_and?; subst; auto.
Qed.

(** C11. No lost wakeup and no deadlock: for tasks that terminate, and however
    the pool got into its state, the workers, the pending notifications and a
    call of [stop] can together take only finitely many steps
    ([pool_measure]), and when none of them can take a step every accepted task
    has been run and the queue is empty: no worker sleeps while work is queued.
    If the pool has been stopped, [stop] has then returned and every worker has
    returned. *)
Theorem pool_completes {T E G} (start : T -> E) task_step env_step (I : G -> Prop) (m : E -> nat)
    spawn worker_count capacity (p0 p : ThreadPool T E) (g0 g : G) h :
  (forall e g o g', I g -> task_step e g o g' -> I g') ->
  (forall e g, I g -> exists o g', task_step e g o g') ->
  (forall e g e' g', I g -> task_step e g (Continues e') g' -> (m e' < m e)%nat) ->
  (forall g g', I g -> env_step g g' -> I g') ->
  0 <= worker_count -> 0 <= capacity -> I g0 ->
  make_pool spawn worker_count capacity = Constructed p0 ->
  pool_steps start task_step env_step (p0, g0) h (p, g) ->
  (forall n s', nsteps (fun s s' => exists ev, run_step start task_step s ev s') n (p, g) s' ->
     (n <= pool_measure start m p)%nat) /\
  (~ (exists ev s', run_step start task_step (p, g) ev s') ->
     finished h ≡ₚ accepted h /\ pendingTaskCount p = 0 /\ stop_phase p = NotStopping /\
     (stopped p = true -> Forall (fun w => w = Exited) (workers_ p))).
Proof.
  intros Hkeep Hprog Hdec Henv Hn Hc HI0 Hmake Hsteps.
  destruct (make_pool_wf spawn worker_count capacity p0 Hn Hc (or_introl Hmake))
    as (Hwf0 & Hcap & Hq0 & Hw0 & Hnew). destruct (Hnew Hmake) as (_ & Hlen0 & Hpos).
  pose proof (pool_steps_spec start task_step env_step (p0, g0) h (p, g) Hwf0 Hsteps)
    as (Hwf & _ & Hlen & Hq & Hr); simpl in *.
  pose proof (pool_steps_memory start task_step I m Hkeep Hdec env_step Henv (p0, g0) h (p, g)
    HI0 Hsteps) as HI; simpl in HI.
  split.
  - intros n s' Hrun. apply (run_steps_bounded start task_step I m Hkeep Hdec) in Hrun; [|done].
    simpl in *; lia.
  - intros Hstuck. rewrite (running_idle Locking _ eq_refl Hw0), app_nil_r in Hr.
    apply (stuck_pool start task_step I Hprog) in Hstuck as (Hph & _ & Enil & Er & Hex); try done.
    2: { intros Enil; unfold workerCount, len in *. rewrite Enil in Hlen; simpl in Hlen; lia. }
    unfold pendingTaskCount, size, stopped. rewrite Hq0, Enil, app_nil_r in Hq; simpl in Hq.
    rewrite Hq, <-Hr, Er, app_nil_r, Enil. split_and!; auto.
Qed.

(** ** Running an interleaving

    [pool_exec] runs a list of scheduling choices, with functions that run one
    step of a task and of another thread. *)

Section Execution.
Context {T E G X : Type} (start : T -> E).
Context (task_run : E -> G -> option (TaskOutcome E * G)) (env_run : X -> G -> option G).

Inductive Choice :=
| DoLock (i : nat)
| DoTask (i : nat)
| DoNotify (sleeper : option nat)
| DoStopStep
| DoSubmit (task : option T)
| DoStop
| DoSpurious (i : nat)
| DoMemory (x : X).

(** The workers after a notification of worker [i], or of nobody. *)
Definition sleeper_of (i : option nat) (ws : list (Worker T E)) : option (list (Worker T E)) :=
  match i with
  | Some i => match ws !! i with Some Waiting => Some (<[i := Locking]> ws) | _ => None end
  | None => if forallb (fun w => match w with Waiting => false | _ => true end) ws
            then Some ws else None
  end.

Definition choose (c : Choice) (s : ThreadPool T E * G) :
    option (PoolEvent T * (ThreadPool T E * G)) :=
  let '(p, g) := s in
  match c with
  | DoLock i =>
      match workers_ p !! i with
      | Some Locking =>
          let '(w, q) := worker_lock start (tasks_ p) in
          Some (lock_event w, (set_worker i w (set_tasks q p), g))
      | _ => None
      end
  | DoTask i =>
      match workers_ p !! i with
      | Some (Running task e) =>
          '(o, g') ← task_run e g;
          Some (task_event task o, (set_worker i (worker_after task o) p, g'))
      | _ => None
      end
  | DoNotify i =>
      match sleeper_of i (workers_ p), notifying p with
      | Some ws, S _ => Some (Internal, (notified ws p, g))
      | _, _ => None
      end
  | DoStopStep =>
      match stop_phase p with
      | NotStopping => None
      | Closing => Some (Internal, (stop_close p, g))
      | Notifying => Some (Internal, (stop_notify p, g))
      | Joining =>
          if forallb (fun w => match w with Exited => true | _ => false end) (workers_ p)
          then Some (StopReturned, (stop_return p, g)) else None
      end
  | DoSubmit task =>
      let '(p', st) := trySubmit p task in Some (Submitted task st, (p', g))
  | DoStop =>
      match stop_phase p with
      | NotStopping => Some (StopCalled, (stop_begin p, g))
      | _ => None
      end
  | DoSpurious i =>
      match workers_ p !! i with
      | Some Waiting => Some (Internal, (set_worker i Locking p, g))
      | _ => None
      end
  | DoMemory x => g' ← env_run x g; Some (Internal, (p, g'))
  end.

Fixpoint pool_exec (cs : list Choice) (s : ThreadPool T E * G) (h : list (PoolEvent T)) :
    option (list (PoolEvent T) * (ThreadPool T E * G)) :=
  match cs with
  | [] => Some (h, s)
  | c :: cs => '(ev, s') ← choose c s; pool_exec cs s' (h ++ [ev])
  end.

Context (task_step : E -> G -> TaskOutcome E -> G -> Prop) (env_step : G -> G -> Prop).
Hypothesis task_run_sound : forall e g o g', task_run e g = Some (o, g') -> task_step e g o g'.
Hypothesis env_run_sound : forall x g g', env_run x g = Some g' -> env_step g g'.

Abbreviation step := (pool_step start task_step env_step).
Abbreviation steps := (pool_steps start task_step env_step).

Lemma sleeper_of_sound i (ws ws' : list (Worker T E)) :
  sleeper_of i ws = Some ws' -> wakes_one ws ws'.
Proof.
  destruct i as [i|]; simpl.
  - destruct (ws !! i) as [[| | |]|] eqn:Hi; intros; simplify_eq. by constructor.
  - destruct (forallb _ ws) eqn:Hall; intros; simplify_eq. constructor.
    by intros Hw%list_elem_of_In%(proj1 (forallb_forall _ _) Hall).
Qed.

Lemma choose_sound c s ev s' : choose c s = Some (ev, s') -> step s ev s'.
Proof.
  destruct s as [p g]; destruct c as [i|i|i| |task| |i|x]; simpl; intros Ec.
  - destruct (workers_ p !! i) as [[| | |]|] eqn:Hi; try done.
    destruct (worker_lock start (tasks_ p)) as [w q] eqn:El; simplify_eq.
    by apply step_run, run_lock.
  - destruct (workers_ p !! i) as [[| |task e|]|] eqn:Hi; try done.
    destruct (task_run e g) as [[o g']|] eqn:Et; simpl in Ec; simplify_eq.
    eapply step_run, run_task; eauto.
  - destruct (sleeper_of i (workers_ p)) as [ws|] eqn:Hi; [|done].
    destruct (notifying p) eqn:Hn; simplify_eq.
    apply step_run, run_notify; [lia|by apply sleeper_of_sound with i].
  - destruct (stop_phase p) eqn:Hph; try done; simplify_eq; try by constructor; constructor.
    destruct (forallb _ _) eqn:Hall; simplify_eq. apply step_run, run_joined; [done|].
    by apply Forall_forall; intros [] Hw%list_elem_of_In%(proj1 (forallb_forall _ _) Hall).
  - destruct (trySubmit p task) eqn:Es; simplify_eq. by constructor.
  - destruct (stop_phase p) eqn:Hph; simplify_eq. by constructor.
  - destruct (workers_ p !! i) as [[| | |]|] eqn:Hi; simplify_eq. by constructor.
  - destruct (env_run x g) as [g'|] eqn:Ex; simpl in Ec; simplify_eq. apply step_memory; eauto.
Qed.

Lemma choose_submitted c s task st s' :
  choose c s = Some (Submitted task st, s') -> c = DoSubmit task.
Proof.
  destruct s as [p g]; destruct c as [i|i|i| |t| |i|x]; simpl; intros Ec.
  - destruct (workers_ p !! i) as [[| | |]|]; try done.
    destruct (worker_lock start (tasks_ p)) as [[] q]; simplify_eq.
  - destruct (workers_ p !! i) as [[| |t e|]|]; try done.
    destruct (task_run e g) as [[[] g']|]; simpl in Ec; simplify_eq.
  - destruct (sleeper_of i (workers_ p)), (notifying p); simplify_eq.
  - destruct (stop_phase p); simplify_eq. destruct (forallb _ _); simplify_eq.
  - destruct (trySubmit p t); simplify_eq; done.
  - destruct (stop_phase p); simplify_eq.
  - destruct (workers_ p !! i) as [[| | |]|]; simplify_eq.
  - destruct (env_run x g); simpl in Ec; simplify_eq.
Qed.

Lemma pool_exec_sound cs s0 h s h' s' :
  steps s0 h s -> pool_exec cs s h = Some (h', s') -> steps s0 h' s'.
Proof.
  revert h s; induction cs as [|c cs IH]; simpl; intros h s Hs Ee; [by simplify_eq|].
  destruct (choose c s) as [[ev s1]|] eqn:Ec; simpl in Ee; [|done].
  apply (IH _ _ (pool_snoc _ _ _ _ _ _ _ _ Hs (choose_sound _ _ _ _ Ec)) Ee).
Qed.
End Execution.
Arguments Choice : clear implicits.

(** A task counts down; at zero it returns or, if the shared number is odd,
    throws, and increments the shared number. *)
Definition tick (e g : nat) : option (TaskOutcome nat * nat) :=
  match e with
  | S e => Some (Continues e, g)
  | O => Some (if Nat.even g then Returned else Threw, S g)
  end.
Definition tick_step (e g : nat) (o : TaskOutcome nat) (g' : nat) : Prop :=
  tick e g = Some (o, g').
Definition no_env (x : unit) (g : nat) : option nat := None.
Definition no_env_step (g g' : nat) : Prop := False.

Lemma tick_exec_sound cs (s : ThreadPool nat nat * nat) h s' :
  pool_exec (fun n => n) tick no_env cs s [] = Some (h, s') ->
  pool_steps (fun n => n) tick_step no_env_step s h s'.
Proof. apply pool_exec_sound; [done|done|constructor]. Qed.

(** The worker falls asleep, a task arrives, a second one finds the queue full,
    the worker is woken and takes the first, a third one will throw; [stop]
    lets the worker finish both. *)
Definition pool_choices : list (Choice nat unit) :=
  [DoLock 0; DoSubmit (Some 1%nat); DoSubmit (Some 5%nat); DoNotify (Some 0%nat); DoLock 0; DoTask 0;
   DoSubmit (Some 0%nat); DoStop; DoStopStep; DoSubmit (Some 2%nat); DoStopStep; DoTask 0;
   DoLock 0; DoTask 0; DoLock 0; DoNotify None; DoStopStep].

Definition pool_1 : ThreadPool nat nat :=
  mkPool (mkBoundedQueue 1 [] false) [Locking] false 0 NotStopping.

Lemma pool_runs_each_task_once_witness :
  exists h p g, pool_exec (fun n => n) tick no_env pool_choices (pool_1, 0%nat) [] = Some (h, (p, g)) /\
    accepted h = [1; 0]%nat /\ finished h ≡ₚ [1; 0]%nat /\
    Finished 0%nat true ∈ h /\ Submitted (Some 5%nat) QueueFull ∈ h.
Proof.
  destruct (pool_exec (fun n => n) tick no_env pool_choices (pool_1, 0%nat) []) as [[h [p g]]|] eqn:E;
    [|by vm_compute in E].
  exists h, p, g; split; [done|].
  pose proof (tick_exec_sound _ _ _ _ E) as Hs.
  destruct (pool_runs_each_task_once _ _ _ (fun _ => true) 1 1 pool_1 p 0%nat g h
    ltac:(lia) ltac:(lia) eq_refl Hs) as (Ha & Hf & _).
  vm_compute in E. injection E as <- <- <-.
  split; [exact Ha|]. split; [by symmetry|]. split; apply list_elem_of_In; cbn; tauto.
Defined.

Lemma pool_completes_witness :
  exists h p g, pool_exec (fun n => n) tick no_env pool_choices (pool_1, 0%nat) [] = Some (h, (p, g)) /\
    finished h ≡ₚ accepted h /\ stop_phase p = NotStopping /\
    Forall (fun w => w = Exited) (workers_ p).
Proof.
  destruct (pool_exec (fun n => n) tick no_env pool_choices (pool_1, 0%nat) []) as [[h [p g]]|] eqn:E;
    [|by vm_compute in E].
  exists h, p, g; split; [done|].
  pose proof (tick_exec_sound _ _ _ _ E) as Hs.
  destruct (pool_completes (fun n => n) tick_step no_env_step
    (fun _ => True) (fun e => e) (fun _ => true) 1 1 pool_1 p 0%nat g h) as (_ & Hend);
    try done.
  - intros [|e] g1 _; by eexists _, _.
  - unfold tick_step. intros [|e] g1 e' g2 _ Et; simpl in Et; injection Et as Et _; [|lia].
    by destruct (Nat.even g1).
  - assert (Ep : p = mkPool (mkBoundedQueue 1 [] true) [Exited] true 0 NotStopping)
      by (vm_compute in E; by injection E).
    destruct Hend as (Hf & _ & Hph & Hex); [|rewrite Ep in *; auto].
    rewrite Ep. intros (ev & s' & Hrun). inversion Hrun as
      [? ? [|i] ? ? Hi|? ? [|i] ? ? ? ? Hi|? ? ? Hn|? ? Hph|? ? Hph|? ? Hph]; try done.
    simpl in Hn; lia.
Defined.
