(* ===== verification/PoolFinish.v ===== *)
(** * The end of a pool: its destructor, and its constructor when it fails:
      [concurrency/thread_pool.cpp]

    [~ThreadPool] is one call of [stop]: the destroying thread takes
    [stop_mutex_] when it is free and goes through [stop], while the workers go
    on with whatever they are doing.  [destroy_step] are the interleavings;
    [destruct_pool] runs one of them, given by a schedule.  In each of them the
    destructor returns, after a number of steps that [destroy_measure] bounds,
    once the workers have run everything that was accepted. *)

From S2P Require Import Prelude BoundedQueue ThreadPool.

(** Where the destroying thread is: about to take [stop_mutex_], inside [stop],
    or past it. *)
Inductive DestructorPhase := AtMutex | InStop | Destroyed.

#[export] Instance DestructorPhase_eq_dec : EqDecision DestructorPhase.
Proof. solve_decision. Defined.

Section Destruction.
Context {T E G : Type} (start : T -> E).

Abbreviation Choice := (Choice T Empty_set).
Abbreviation Destruction := (ThreadPool T E * G * DestructorPhase)%type.

(** ** The interleavings *)

Section Steps.
Context (task_step : E -> G -> TaskOutcome E -> G -> Prop).

(** When [stop] returns to the destroying thread, the destructor is done. A
    thread that is still in a call of [stop] holds the mutex before it. *)
Definition phase_after (ph : DestructorPhase) (ev : PoolEvent T) : DestructorPhase :=
  match ev, ph with StopReturned, InStop => Destroyed | _, _ => ph end.

(** The steps of the destroying thread and of the workers. *)
Inductive destroy_run : Destruction -> Destruction -> Prop :=
| destroy_locks p g :
    stop_phase p = NotStopping -> destroy_run (p, g, AtMutex) (stop_begin p, g, InStop)
| destroy_runs s ph ev s' :
    ph <> Destroyed -> run_step start task_step s ev s' ->
    destroy_run (s, ph) (s', phase_after ph ev).

(** All steps: spurious wakeups too. *)
Inductive destroy_step : Destruction -> Destruction -> Prop :=
| destroy_own x x' : destroy_run x x' -> destroy_step x x'
| destroy_spurious p g ph i :
    ph <> Destroyed -> workers_ p !! i = Some Waiting ->
    destroy_step (p, g, ph) (set_worker i Locking p, g, ph).
End Steps.

(** ** The destructor, for a schedule *)

Context (task_run : E -> G -> option (TaskOutcome E * G)).
Definition no_memory (x : Empty_set) (g : G) : option G := None.
Abbreviation choose := (choose start task_run no_memory).

(** One choice of a schedule, if it is possible: [DoStop] takes the mutex. *)
Definition destroy_choose (c : Choice) (x : Destruction) : option Destruction :=
  let '(s, ph) := x in
  match ph, c with
  | Destroyed, _ => None
  | AtMutex, DoStop => '(_, s') ← choose c s; Some (s', InStop)
  | _, (DoStop | DoSubmit _ | DoMemory _) => None
  | _, _ => '(ev, s') ← choose c s; Some (s', phase_after ph ev)
  end.

(** A schedule's choices, the impossible ones skipped. *)
Fixpoint run_choices (cs : list Choice) (x : Destruction) : Destruction :=
  match cs with
  | [] => x
  | c :: cs => run_choices cs (default x (destroy_choose c x))
  end.

(** The steps that may be possible without a spurious wakeup: of the destroying
    thread, a notification, and of each worker. *)
Fixpoint first_waiting (i : nat) (ws : list (Worker T E)) : option nat :=
  match ws with
  | [] => None
  | Waiting :: _ => Some i
  | _ :: ws => first_waiting (S i) ws
  end.

Definition candidates (p : ThreadPool T E) : list Choice :=
  DoStop :: DoStopStep :: DoNotify (first_waiting 0 (workers_ p)) ::
    (seq 0 (length (workers_ p)) ≫= fun i => [DoLock i; DoTask i]).

Fixpoint first_step (cs : list Choice) (x : Destruction) : option Destruction :=
  match cs with
  | [] => None
  | c :: cs => match destroy_choose c x with Some x' => Some x' | None => first_step cs x end
  end.

Fixpoint settle (n : nat) (x : Destruction) : Destruction :=
  match n with
  | O => x
  | S n => match first_step (candidates x.1.1) x with Some x' => settle n x' | None => x end
  end.

Context (m : E -> nat).

(** How many steps are left, if [m] bounds the steps of a task. *)
Definition destroy_measure (x : Destruction) : nat :=
  pool_measure start m x.1.1 +
  match x.2 with AtMutex => 4 + length (workers_ x.1.1) | _ => 0 end.

(** [~ThreadPool]: [cs] is the schedule while it lasts. *)
Definition destruct_pool (cs : list Choice) (s : ThreadPool T E * G) : Destruction :=
  let x := run_choices cs (s, AtMutex) in settle (destroy_measure x) x.

(** ** What it does *)

Context (task_step : E -> G -> TaskOutcome E -> G -> Prop) (I : G -> Prop).
Hypothesis task_run_sound : forall e g o g', task_run e g = Some (o, g') -> task_step e g o g'.
Hypothesis task_keeps : forall e g o g', I g -> task_step e g o g' -> I g'.
Hypothesis task_decreases : forall e g e' g',
  I g -> task_step e g (Continues e') g' -> (m e' < m e)%nat.

Abbreviation destroy_run' := (destroy_run task_step).
Abbreviation destroy_step' := (destroy_step task_step).

(** A step of a destruction is one of the pool, in which nothing is submitted. *)
Lemma destroy_step_pool env_step x x' :
  destroy_step' x x' ->
  exists ev, pool_step start task_step env_step x.1 ev x'.1 /\ accepted_of ev = [].
Proof.
  intros [? ? [p g Hph|s ph ev s' _ Hrun]|p g ph i _ Hi]; simpl.
  - eexists; split; [by apply step_stop|done].
  - exists ev. split; [by apply step_run|].
    inversion Hrun as [? ? ? w|? ? ? ? ? o| | | |]; subst; try done; [by destruct w|by destruct o].
  - eexists; split; [by apply step_spurious|done].
Qed.

(** What holds throughout a destruction. *)
Definition destroying (x : Destruction) : Prop :=
  pool_wf x.1.1 /\ workers_ x.1.1 <> [] /\ I x.1.2 /\
  match x.2 with
  | AtMutex => True
  | InStop => stop_phase x.1.1 <> NotStopping
  | Destroyed => stop_phase x.1.1 = NotStopping /\ queue_ (tasks_ x.1.1) = [] /\
      Forall (fun w => w = Exited) (workers_ x.1.1)
  end.

Lemma destroying_step x x' : destroying x -> destroy_step' x x' -> destroying x'.
Proof.
  intros (Hwf & Hne & HI & Hph) Hstep.
  destruct (destroy_step_pool (fun _ _ => False) _ _ Hstep) as (ev & Hp & _).
  destruct x as [[p g] ph], x' as [[p' g'] ph']; simpl in *.
  destruct (pool_step_spec _ _ _ _ _ _ _ _ Hwf Hp) as (Hwf' & _ & Hlen & _).
  assert (Hne' : workers_ p' <> []) by (intros Enil; rewrite Enil in Hlen; by destruct (workers_ p)).
  split; [done|]. split; [done|]. simpl. clear ev Hp.
  inversion Hstep as [? ? Hrun|]; subst; [|by destruct ph'].
  inversion Hrun as [? ? Hno|? ? ev ? Hlive Hs]; subst; clear Hstep Hrun; simpl.
  - split; [done|]. by destruct (stopped_ p).
  - destruct (run_step_decreases start task_step I m task_keeps task_decreases (p, g) ev (p', g') HI Hs)
      as [HI' _].
    split; [done|].
    inversion Hs as [? ? i w q Hi El|? ? i task e o ? Hi Ht|? ? ws Hn Hws|? ? Hc|? ? Hc|? ? Hc Hex];
      subst; destruct ph; simpl in *; try done; try (by destruct w); try (by destruct o).
    split_and!; try done. apply (exited_drained p); [done| |done]. by destruct (workers_ p); simpl; [|lia].
Qed.

Lemma destroying_steps x x' : destroying x -> rtc destroy_step' x x' -> destroying x'.
Proof. intros Hx Hs; induction Hs; eauto using destroying_step. Qed.

(** The steps that are not spurious wakeups are bounded. *)
Lemma destroy_run_decreases x x' :
  I x.1.2 -> destroy_run' x x' -> I x'.1.2 /\ (destroy_measure x' < destroy_measure x)%nat.
Proof.
  intros HI Hrun; revert HI. destruct Hrun as [p g Hph|s ph ev s' Hlive Hs];
    unfold destroy_measure; simpl; intros HI.
  - split; [done|]. unfold pool_measure; simpl. rewrite Hph. destruct (stopped_ p); simpl; lia.
  - destruct (run_step_decreases start task_step I m task_keeps task_decreases s ev s' HI Hs) as [? Hlt].
    split; [done|].
    assert (Hlen : length (workers_ s'.1) = length (workers_ s.1)).
    { inversion Hs as [| |? ? ? ? Hws| | |]; subst; simpl; rewrite ?length_insert, ?length_fmap; try done.
      inversion Hws; subst; by rewrite ?length_insert. }
    destruct ph, ev; simpl; lia.
Qed.

Lemma destroy_runs_bounded n x x' :
  I x.1.2 -> nsteps destroy_run' n x x' ->
  I x'.1.2 /\ (n + destroy_measure x' <= destroy_measure x)%nat.
Proof.
  intros HI; induction 1 as [|n x1 x2 x3 Hs _ IH]; [auto|].
  destruct (destroy_run_decreases _ _ HI Hs) as [HI2 Hlt]. destruct (IH HI2); split; [done|lia].
Qed.

(** [R] is what the tasks keep of the shared memory. *)
Lemma destroy_memory (R : G -> G -> Prop) `{!PreOrder R} x x' :
  (forall e g1 o g2, I g1 -> task_step e g1 o g2 -> R g1 g2) -> I x.1.2 ->
  rtc destroy_step' x x' -> I x'.1.2 /\ R x.1.2 x'.1.2.
Proof.
  intros HR HI Hrun; revert HI; induction Hrun as [x|x x1 x' Hs _ IH]; intros HI; [done|].
  assert (H1 : I x1.1.2 /\ R x.1.2 x1.1.2).
  { inversion Hs as [? ? Hr|]; subst; [|done].
    split; [by eapply destroy_run_decreases|].
    inversion Hr as [|? ? ? ? _ Hp]; subst; [done|]. inversion Hp; subst; simpl in *; eauto; done. }
  destruct H1 as [HI1 H1]. destruct (IH HI1). split; [done|]. by etransitivity.
Qed.

(** If a task can always go on, the destructor can too until it is done. *)
Lemma destroying_progress x :
  (forall e g, I g -> exists o g', task_step e g o g') ->
  destroying x -> ~ (exists x', destroy_run' x x') -> x.2 = Destroyed.
Proof.
  intros Hprog (Hwf & Hne & HI & Hph) Hstuck. destruct x as [[p g] ph]; simpl in *.
  destruct (decide (ph = Destroyed)) as [|Hlive]; [done|].
  destruct (stuck_pool start task_step I Hprog p g Hwf HI Hne) as (Hno & _).
  { intros (ev & s' & Hrun). apply Hstuck. eexists; by eapply destroy_runs. }
  destruct ph; [|by destruct Hph|done]. destruct Hstuck. eexists; by apply destroy_locks.
Qed.

(** ** Runs *)

Definition own_choice (c : Choice) : bool :=
  match c with DoStop | DoStopStep | DoNotify _ | DoLock _ | DoTask _ => true | _ => false end.

Lemma choose_run c s ev s' :
  own_choice c = true -> c <> DoStop -> choose c s = Some (ev, s') ->
  run_step start task_step s ev s'.
Proof.
  destruct s as [p g]; destruct c as [i|i|i| |task| |i|x]; simpl; intros Hc Hns Es; try done.
  - destruct (workers_ p !! i) as [[| | |]|] eqn:Hi; try done.
    destruct (worker_lock start (tasks_ p)) as [w q] eqn:El; simplify_eq. by apply run_lock.
  - destruct (workers_ p !! i) as [[| |task e|]|] eqn:Hi; try done.
    destruct (task_run e g) as [[o g']|] eqn:Et; simpl in Es; simplify_eq.
    eapply run_task; eauto.
  - destruct (sleeper_of i (workers_ p)) as [ws|] eqn:Hi; [|done].
    destruct (notifying p) eqn:Hn; simplify_eq.
    apply run_notify; [lia|by apply sleeper_of_sound with i].
  - destruct (stop_phase p) eqn:Hph; try done; simplify_eq; try by constructor.
    destruct (forallb _ _) eqn:Hall; simplify_eq. apply run_joined; [done|].
    by apply Forall_forall; intros [] Hw%list_elem_of_In%(proj1 (forallb_forall _ _) Hall).
Qed.

Lemma destroy_choose_sound c x x' :
  destroy_choose c x = Some x' ->
  destroy_step' x x' /\ (own_choice c = true -> destroy_run' x x').
Proof.
  destruct x as [s ph]. intros Ex.
  assert (Hown : own_choice c = true -> destroy_run' (s, ph) x').
  { intros Hc. assert (Hns : c = DoStop \/ c <> DoStop) by (destruct c; auto; by right).
    destruct Hns as [->|Hns].
    - destruct ph, s as [p g]; simpl in Ex; try done.
      destruct (stop_phase p) eqn:Hph; simpl in Ex; try done. simplify_eq. by constructor.
    - assert (Hr : ph <> Destroyed /\ exists ev s', choose c s = Some (ev, s') /\ x' = (s', phase_after ph ev)).
      { unfold destroy_choose in Ex.
        destruct ph; try done; destruct c; try done;
          destruct (ThreadPool.choose _ _ _ _ s) as [[ev s']|]; simpl in Ex; simplify_eq; eauto. }
      destruct Hr as (Hlive & ev & s' & Ec & ->). apply destroy_runs; [done|]. by apply (choose_run c). }
  split; [|done]. destruct (own_choice c) eqn:Hc; [by apply destroy_own, Hown|].
  destruct c as [i|i|i| |task| |i|y]; try done; destruct ph, s as [p g]; simpl in Ex; try done;
    (destruct (workers_ p !! i) as [[| | |]|] eqn:Hi; simpl in Ex; simplify_eq;
     by apply destroy_spurious).
Qed.

Lemma run_choices_steps cs x : rtc destroy_step' x (run_choices cs x).
Proof.
  revert x; induction cs as [|c cs IH]; intros x; simpl; [done|].
  destruct (destroy_choose c x) as [x1|] eqn:Ex; simpl; [|done].
  eapply rtc_l; [by eapply destroy_choose_sound|done].
Qed.

Lemma candidates_own p : Forall (fun c => own_choice c = true) (candidates p).
Proof.
  repeat constructor. apply Forall_forall; intros c (i & Hc & _)%list_elem_of_bind.
  by repeat (apply elem_of_cons in Hc as [->|Hc]; [done|]); apply elem_of_nil in Hc.
Qed.

Lemma first_step_some cs x x' :
  Forall (fun c => own_choice c = true) cs -> first_step cs x = Some x' -> destroy_run' x x'.
Proof.
  induction 1 as [|c cs Hc _ IH]; simpl; [done|].
  destruct (destroy_choose c x) as [x1|] eqn:Ec; [|done]. intros; simplify_eq.
  by apply (destroy_choose_sound c).
Qed.

Lemma first_step_none cs x c :
  first_step cs x = None -> c ∈ cs -> destroy_choose c x = None.
Proof.
  induction cs as [|c' cs IH]; simpl; [by intros _ ?%elem_of_nil|].
  destruct (destroy_choose c' x) as [x1|] eqn:Ec; [done|].
  intros Hn [->|Hin]%elem_of_cons; [done|auto].
Qed.

Lemma settle_steps n x : rtc destroy_step' x (settle n x).
Proof.
  revert x; induction n as [|n IH]; intros x; cbn [settle]; [done|].
  destruct (first_step (candidates x.1.1) x) as [x1|] eqn:Ef; [|done].
  apply first_step_some in Ef; [|apply candidates_own].
  eapply rtc_l; [by apply destroy_own|done].
Qed.

Lemma destruct_pool_steps cs s : rtc destroy_step' (s, AtMutex) (destruct_pool cs s).
Proof. unfold destruct_pool. etransitivity; [apply run_choices_steps|apply settle_steps]. Qed.

Lemma first_waiting_sleeper ws : is_Some (sleeper_of (first_waiting 0 ws) ws).
Proof.
  assert (Hspec : forall j, match first_waiting j ws with
    | Some i => (j <= i)%nat /\ ws !! (i - j)%nat = Some Waiting
    | None => Forall (fun w => w <> Waiting) ws
    end).
  { induction ws as [|w ws IH]; intros j; simpl; [done|]. specialize (IH (S j)).
    destruct w; simpl; try (split; [lia|]; by rewrite Nat.sub_diag);
      (destruct (first_waiting (S j) ws) as [i|];
       [destruct IH as [? Hi]; split; [lia|]; by replace (i - j)%nat with (S (i - S j)) by lia
       |by constructor]). }
  specialize (Hspec 0%nat). destruct (first_waiting 0 ws) as [i|]; simpl.
  - destruct Hspec as [_ Hi]. rewrite Nat.sub_0_r in Hi. rewrite Hi. eauto.
  - replace (forallb _ ws) with true; [eauto|]. symmetry; apply forallb_forall.
    rewrite Forall_forall in Hspec. intros w Hw%list_elem_of_In. specialize (Hspec w Hw). by destruct w.
Qed.

Lemma worker_candidates p i w :
  workers_ p !! i = Some w -> DoLock i ∈ candidates p /\ DoTask i ∈ candidates p.
Proof.
  intros Hi%lookup_lt_Some. unfold candidates. rewrite !elem_of_cons.
  split; do 3 right; apply list_elem_of_bind; exists i;
    (split; [set_solver|apply elem_of_seq; lia]).
Qed.

(** From here on a task can always be run. *)
Hypothesis task_run_total : forall e g, I g -> is_Some (task_run e g).

(** A step that is possible has a candidate that is. *)
Lemma run_step_candidate p g ev s' :
  I g -> run_step start task_step (p, g) ev s' ->
  exists c, c ∈ candidates p /\ c <> DoStop /\ own_choice c = true /\ is_Some (choose c (p, g)).
Proof.
  intros HI Hrun.
  inversion Hrun as [? ? i w q Hi El|? ? i task e o ? Hi Ht|? ? ws Hno Hws|? ? Hph|? ? Hph|? ? Hph Hex];
    subst.
  - exists (DoLock i). split; [by eapply worker_candidates|]. simpl; rewrite Hi, El; eauto.
  - exists (DoTask i). split; [by eapply worker_candidates|]. simpl; rewrite Hi.
    destruct (task_run_total e g HI) as [[o' g''] Et]. rewrite Et; simpl; eauto.
  - exists (DoNotify (first_waiting 0 (workers_ p))).
    split; [unfold candidates; rewrite !elem_of_cons; auto|]. simpl.
    destruct (first_waiting_sleeper (workers_ p)) as [ws' Hs]. rewrite Hs.
    destruct (notifying p); [lia|eauto].
  - exists DoStopStep. split; [unfold candidates; rewrite !elem_of_cons; auto|]. simpl; rewrite Hph; eauto.
  - exists DoStopStep. split; [unfold candidates; rewrite !elem_of_cons; auto|]. simpl; rewrite Hph; eauto.
  - exists DoStopStep. split; [unfold candidates; rewrite !elem_of_cons; auto|]. simpl; rewrite Hph.
    replace (forallb _ _) with true; [eauto|]. symmetry; apply forallb_forall.
    rewrite Forall_forall in Hex. intros w Hw%list_elem_of_In. by rewrite (Hex w Hw).
Qed.

Lemma first_step_stuck x :
  I x.1.2 -> first_step (candidates x.1.1) x = None -> ~ (exists x', destroy_run' x x').
Proof.
  intros HI Hn (x' & Hrun).
  inversion Hrun as [p g Hph|[p g] ph ev s' Hlive Hs]; subst; cbn [fst snd] in *.
  - assert (Hin : DoStop ∈ candidates p) by (unfold candidates; by left).
    apply (first_step_none _ _ _ Hn) in Hin. simpl in Hin. by rewrite Hph in Hin.
  - destruct (run_step_candidate _ _ _ _ HI Hs) as (c & Hin & Hns & Hc & [[ev' s''] Ec]).
    apply (first_step_none _ _ _ Hn) in Hin. unfold destroy_choose in Hin. rewrite Ec in Hin.
    by destruct ph, c.
Qed.

(** Until the destructor has returned, a step is possible. *)
Lemma destroying_goes_on x :
  destroying x -> x.2 <> Destroyed -> exists x', destroy_run' x x'.
Proof.
  intros Hx Hph. pose proof Hx as (_ & _ & HI & _).
  destruct (first_step (candidates x.1.1) x) as [x1|] eqn:Ef.
  - exists x1. by apply first_step_some in Ef; [|apply candidates_own].
  - destruct Hph. apply destroying_progress; [|done|by apply first_step_stuck].
    intros e g Hg. destruct (task_run_total e g Hg) as [[o g'] Et]. eauto.
Qed.

Lemma settle_stuck n x :
  I x.1.2 -> (destroy_measure x <= n)%nat -> ~ (exists x', destroy_run' (settle n x) x').
Proof.
  revert x; induction n as [|n IH]; intros x HI Hn; cbn [settle].
  - intros (x' & Hrun). destruct (destroy_run_decreases x x' HI Hrun); lia.
  - destruct (first_step (candidates x.1.1) x) as [x1|] eqn:Ef; [|by apply first_step_stuck].
    apply first_step_some in Ef; [|apply candidates_own].
    destruct (destroy_run_decreases x x1 HI Ef). apply IH; [done|lia].
Qed.

(** For every schedule the destructor returns. *)
Lemma destruct_pool_returns cs s :
  pool_wf s.1 -> workers_ s.1 <> [] -> I s.2 ->
  (destruct_pool cs s).2 = Destroyed /\ destroying (destruct_pool cs s).
Proof.
  intros Hwf Hne HI.
  assert (H0 : destroying (s, AtMutex)) by (unfold destroying; simpl; auto).
  assert (Hx : destroying (destruct_pool cs s))
    by (eapply destroying_steps; [exact H0|apply destruct_pool_steps]).
  split; [|done]. apply destroying_progress; [|done|].
  - intros e g Hg. destruct (task_run_total e g Hg) as [[o g'] Et]. eauto.
  - unfold destruct_pool. apply settle_stuck; [|done].
    eapply destroying_steps; [exact H0|apply run_choices_steps].
Qed.
End Destruction.

(** ** The constructor, also when it fails *)

Section Construction.
Context {T E G : Type} (start : T -> E) (task_step : E -> G -> TaskOutcome E -> G -> Prop).

(** Where no task runs, it makes no difference what tasks do. *)
Definition returning (e : E) (g : G) (o : TaskOutcome E) (g' : G) : Prop := o = Returned /\ g' = g.

(** A pool of [n] threads that is being closed before any task came. *)
Record unwinding (n : nat) (g0 : G) (s : ThreadPool T E * G) : Prop := Unwinding {
  unwinding_wf : pool_wf s.1;
  unwinding_length : length (workers_ s.1) = n;
  unwinding_queue : queue_ (tasks_ s.1) = [];
  unwinding_idle : running (workers_ s.1) = [];
  unwinding_closed : stop_phase s.1 = Closing \/ closed_ (tasks_ s.1) = true;
  unwinding_memory : s.2 = g0
}.

Lemma running_nil_lookup (ws : list (Worker T E)) i task e :
  running ws = [] -> ws !! i <> Some (Running task e).
Proof.
  intros Hr Hi. pose proof (running_update ws i _ Exited Hi) as Hp. rewrite Hr in Hp.
  by apply Permutation_nil_r in Hp.
Qed.

(** Every step of such a pool is one of a pool whose tasks return at once. *)
Lemma unwinding_step n g0 s ev s' :
  unwinding n g0 s -> run_step start task_step s ev s' ->
  unwinding n g0 s' /\ run_step start returning s ev s'.
Proof.
  intros [Hwf Hlen Hq Hr Hcl Hg] Hrun.
  assert (Hrun' : run_step start returning s ev s').
  { destruct Hrun as [p g i w q Hi El|p g i task e o g' Hi Ht|p g ws Hn Hws|p g Hph|p g Hph|p g Hph Hex];
      simpl in *; [by constructor|by apply (running_nil_lookup _ i task e) in Hr|by constructor..]. }
  split; [|done]. destruct s as [p g], s' as [p' g']; simpl in *.
  destruct (pool_step_spec start returning (fun _ _ => False) p p' g g' ev Hwf
    (step_run _ _ _ _ _ _ Hrun')) as (Hwf' & _ & Hlen' & Hq' & Hr' & Hcl').
  assert (Hev : accepted_of ev = [] /\ g' = g /\ (stop_phase p' = Closing \/ closed_ (tasks_ p') = true)).
  { pose proof (wf_phase _ Hwf) as Hp.
    inversion Hrun' as [? ? i w q Hi El|? ? i task e o ? Hi [-> ->]|? ? ws Hn Hws|? ? Hph|? ? Hph|? ? Hph Hex];
      subst; simpl in *; try rewrite Hph in *; split_and!; try done; auto;
      try (destruct Hcl as [|Hc]; [by left|right; auto]); by destruct w. }
  destruct Hev as (Ha & -> & Hc). rewrite Hq, Ha in Hq'. simpl in Hq'.
  symmetry in Hq'; apply app_nil in Hq' as [Hs Hq']. rewrite Hs, Hr in Hr'; simpl in Hr'.
  apply Permutation_nil_r, app_nil in Hr' as [_ Hr']. split; simpl; auto; congruence.
Qed.

Lemma unwinding_start spawn worker_count capacity (p : ThreadPool T E) g :
  0 <= worker_count -> 0 <= capacity ->
  make_pool spawn worker_count capacity = ConstructorUnwinds p ->
  unwinding (length (workers_ p)) g (p, g).
Proof.
  intros Hn Hc Hm. destruct (make_pool_wf spawn worker_count capacity p Hn Hc (or_intror Hm))
    as (Hwf & _ & Hq & Hw & _).
  split; simpl; auto; [by apply (running_idle Locking)|]. left. revert Hm. unfold make_pool.
  destruct (make_queue capacity); [|done]. destruct (_ =? 0); [done|].
  destruct (threads_max <? _); [done|].
  destruct (start_workers _ _ _) as [ws []]; intros; by simplify_eq.
Qed.

(** Unwinding comes to its end, with every thread joined. *)
Lemma unwinding_ends n g0 s :
  unwinding n g0 s -> (~ exists ev s', run_step start task_step s ev s') ->
  stop_phase s.1 = NotStopping /\ workers_ s.1 = replicate n Exited /\ s.2 = g0.
Proof.
  intros Hu Hstuck. pose proof Hu as [Hwf Hlen Hq Hr Hcl Hg]. destruct s as [p g]; simpl in *.
  assert (Hstuck' : ~ exists ev s', run_step start returning (p, g) ev s').
  { intros (ev & s' & Hrun). apply Hstuck. exists ev, s'.
    inversion Hrun; subst; try by constructor. by destruct (running_nil_lookup _ i task e Hr). }
  assert (Hend : stop_phase p = NotStopping /\ Forall (fun w => w = Exited) (workers_ p)).
  { destruct (decide (n = 0%nat)) as [->|Hne].
    - destruct (workers_ p) as [|? ?] eqn:Ew; [|done]. split; [|constructor].
      destruct (stop_phase p) eqn:Hph; [done|destruct Hstuck..]; eexists _, _;
        [by apply run_close|by apply run_notify_all|apply run_joined; [done|by rewrite Ew]].
    - destruct (stuck_pool start returning (fun _ => True)
        (fun e g _ => ex_intro _ Returned (ex_intro _ g (conj eq_refl eq_refl))) p g Hwf I)
        as (Hph & _ & _ & _ & Hex); [|done|].
      { intros Enil; rewrite Enil in Hlen; simpl in Hlen; lia. }
      split; [done|]. apply Hex. right. destruct Hcl; congruence. }
  destruct Hend as [Hph Hex]. split_and!; auto. rewrite <-Hlen. clear -Hex.
  induction Hex as [|w ws -> _ IH]; [done|]. simpl; congruence.
Qed.

(** What [start_workers] starts: the threads up to the first that cannot be
    created. *)
Lemma start_workers_spec spawn index count (ws : list (Worker T E)) ok :
  start_workers spawn index count = (ws, ok) ->
  ws = replicate (length ws) Locking /\
  (forall j, (index <= j < index + length ws)%nat -> spawn j = true) /\
  (if ok then length ws = count
   else (length ws < count)%nat /\ spawn (index + length ws)%nat = false).
Proof.
  revert index ws ok; induction count as [|count IH]; simpl; intros index ws ok Hs.
  { simplify_eq; simpl. split_and!; auto; lia. }
  destruct (spawn index) eqn:Esp.
  2: { simplify_eq; simpl. rewrite Nat.add_0_r. split_and!; auto; lia. }
  destruct (start_workers spawn (S index) count) as [ws' ok'] eqn:E'; simplify_eq.
  apply IH in E' as (Ews & Hall & Hok); simpl. split_and!.
  - by rewrite Ews at 1.
  - intros j Hj. destruct (decide (j = index)) as [->|]; [done|]. apply Hall; lia.
  - destruct ok; [lia|]. replace (index + S (length ws'))%nat with (S index + length ws')%nat by lia.
    split; [lia|tauto].
Qed.

(** C15. The constructor of the pool. It throws before it has started anything
    only for a count or a capacity of zero, or for more threads than its vector
    can hold. Otherwise it starts one thread after
    another; if all can be created the pool is ready, with an empty open queue.
    If one cannot, the queue is closed and the threads that were created are
    joined: they come to an end after finitely many steps, however they
    interleave, and then every one of them has returned, no task has run and
    the shared memory is as it was. *)
Theorem make_pool_correct spawn worker_count capacity g :
  0 <= worker_count -> 0 <= capacity ->
  match make_pool (T := T) (E := E) spawn worker_count capacity with
  | ConstructorThrows => worker_count = 0 \/ capacity = 0 \/ threads_max < worker_count
  | Constructed p => 0 < worker_count <= threads_max /\ 0 < capacity /\
      (forall i, (i < Z.to_nat worker_count)%nat -> spawn i = true) /\
      p = mkPool (mkBoundedQueue capacity [] false)
            (replicate (Z.to_nat worker_count) Locking) false 0 NotStopping
  | ConstructorUnwinds p => 0 < worker_count <= threads_max /\ 0 < capacity /\ exists i,
      (i < Z.to_nat worker_count)%nat /\ (forall j, (j < i)%nat -> spawn j = true) /\
      spawn i = false /\ workers_ p = replicate i Locking /\
      (forall n s, nsteps (fun s s' => exists ev, run_step start task_step s ev s') n (p, g) s ->
         (n <= pool_measure start (fun _ => 0%nat) p)%nat /\
         ((~ exists ev s', run_step start task_step s ev s') ->
          stop_phase s.1 = NotStopping /\ workers_ s.1 = replicate i Exited /\ s.2 = g))
  end.
Proof.
  intros Hn Hc. destruct (make_pool spawn worker_count capacity) as [|p|p] eqn:Hm.
  - revert Hm. unfold make_pool, make_queue.
    destruct (capacity =? 0) eqn:E1; zbool; [auto|]. destruct (worker_count =? 0) eqn:E2; zbool; [auto|].
    destruct (threads_max <? worker_count) eqn:E3; zbool; [auto|]. by destruct (start_workers _ _ _) as [ws []].
  - pose proof (unwinding_start _ _ _ _ g Hn Hc Hm) as Hu.
    assert (Hp : exists ws, start_workers spawn 0 (Z.to_nat worker_count) = (ws, false) /\
      workers_ p = ws /\ 0 < worker_count <= threads_max /\ 0 < capacity).
    { revert Hm. unfold make_pool, make_queue.
      destruct (capacity =? 0) eqn:E1; zbool; [done|]. destruct (worker_count =? 0) eqn:E2; zbool; [done|].
      destruct (threads_max <? _) eqn:E3; zbool; [done|].
      destruct (start_workers _ _ _) as [ws []]; intros; simplify_eq. eexists; split_and!; eauto; lia. }
    destruct Hp as (ws & Es & Ews & Hnpos & Hcpos). split; [done|]. split; [done|]. apply start_workers_spec in Es as (Ewl & Hall & Hlt & Hno).
    exists (length ws). rewrite Ews in *. split_and!; auto; [intros; apply Hall; lia|].
    intros n s Hsteps.
    assert (Hrun : unwinding (length ws) g s /\
      nsteps (fun s s' => exists ev, run_step start returning s ev s') n (p, g) s).
    { revert Hu; induction Hsteps as [|n s1 s2 s3 [ev Hstep] _ IH]; intros Hu; [by split; [|constructor]|].
      destruct (unwinding_step _ _ _ _ _ Hu Hstep) as [Hu2 Hstep']. destruct (IH Hu2).
      split; [done|]. econstructor; eauto. }
    destruct Hrun as [Hend Hrun]. split; [|by apply unwinding_ends].
    apply (run_steps_bounded start returning (fun _ => True) (fun _ => 0%nat)) in Hrun as [_ Hle];
      [simpl in *; lia|done|by intros ? ? ? ? _ [? _]|done].
  - destruct (make_pool_wf spawn worker_count capacity p Hn Hc (or_introl Hm)) as (_ & _ & _ & _ & Hnew).
    destruct (Hnew Hm) as (_ & _ & Hpos). revert Hm. unfold make_pool, make_queue.
    destruct (capacity =? 0) eqn:E1; zbool; [done|]. destruct (worker_count =? 0) eqn:E2; zbool; [done|].
    destruct (threads_max <? _) eqn:E3; zbool; [done|]. destruct (start_workers _ _ _) as [ws []] eqn:Es; intros; simplify_eq.
    apply start_workers_spec in Es as (Ewl & Hall & Hlen).
    split_and!; [lia|lia|lia|intros; apply Hall; lia|]. by rewrite Ewl, Hlen.
Qed.
End Construction.

(** Three threads are wanted and the third cannot be created. *)
Lemma make_pool_correct_witness :
  exists p : ThreadPool nat nat,
    make_pool (fun i => bool_decide (i <> 2%nat)) 3 4 = ConstructorUnwinds p /\
    workers_ p = [Locking; Locking] /\
    exists n s, nsteps (fun s s' => exists ev, run_step id (fun _ _ _ (_ : unit) => False) s ev s')
      n (p, ()) s /\ (n <= pool_measure id (fun _ => 0%nat) p)%nat /\ (0 < n)%nat.
Proof.
  destruct (make_pool (T := nat) (E := nat) (fun i => bool_decide (i <> 2%nat)) 3 4) as [|p|p] eqn:Hm;
    [by vm_compute in Hm| |by vm_compute in Hm].
  pose proof (make_pool_correct (id : nat -> nat) (fun _ _ _ (_ : unit) => False)
    (fun i => bool_decide (i <> 2%nat)) 3 4 () ltac:(done) ltac:(done)) as Hspec.
  rewrite Hm in Hspec. destruct Hspec as (_ & _ & i & Hi & Hall & Hno & Hw & Hsteps).
  apply bool_decide_eq_false, dec_stable in Hno as ->.
  exists p. split; [reflexivity|]. split; [exact Hw|].
  exists 1%nat, (stop_close p, ()).
  assert (Hone : nsteps (fun s s' => exists ev, run_step id (fun _ _ _ (_ : unit) => False) s ev s')
    1 (p, ()) (stop_close p, ())).
  { econstructor; [|constructor]. exists Internal. apply run_close.
    vm_compute in Hm. by injection Hm as <-. }
  split; [exact Hone|]. split; [exact (proj1 (Hsteps _ _ Hone))|lia].
Defined.
