(* ===== verification/Dispatcher.v ===== *)
(** * Processing dispatcher:
      [server/processing_dispatcher.hpp], [server/processing_dispatcher.cpp]

    The dispatcher runs [processFrame] on the pool's workers, collects the
    results in a deque and tells the event loop through an eventfd.  A task is
    a sequence of steps between which the other threads run: process, push the
    result under [completed_mutex_], notify, and record a failed
    notification. *)

From S2P Require Import Prelude Endian Kernel SimKernel EventFd BoundedQueue ThreadPool Processing.

(** ** Data *)

(** Where a worker is in the lambda that [trySubmit] gives to the pool. *)
Inductive Stage :=
| ToProcess (task : ProcessingTask)
| ToPublish (result : ProcessingResult)
| ToNotify
| ToRecord (error_number : Z).

(** What the threads share: the results ([completed_]) and the error of a
    notification that failed. *)
Record Shared := mkShared {
  completed_ : list ProcessingResult;
  error_number_ : Z
}.

Record Dispatcher := mkDispatcher {
  notifier_ : EventFd;
  shared_ : Shared;
  pool_ : ThreadPool ProcessingTask Stage
}.

(** ** Operations *)

Definition valid (d : Dispatcher) : bool :=
  EventFd.valid (notifier_ d) && (error_number_ (shared_ d) =? 0).

Definition errorNumber (d : Dispatcher) : Z :=
  let background_error := error_number_ (shared_ d) in
  if negb (background_error =? 0) then background_error
  else EventFd.errorNumber (notifier_ d).

Definition notificationFd (d : Dispatcher) : Z := EventFd.fd (notifier_ d).

Definition trySubmit (d : Dispatcher) (task : ProcessingTask) : Dispatcher * SubmitStatus :=
  if (task_client_fd task <? 0) || (task_connection_id task =? 0) then (d, InvalidTask)
  else if negb (valid d) then (d, Stopped)
  else
    let '(p, st) := ThreadPool.trySubmit (pool_ d) (Some task) in
    (mkDispatcher (notifier_ d) (shared_ d) p, st).

(** The critical section swaps the deque with an empty one; the loop after it
    moves the results into a vector, front to back. *)
Fixpoint drain (local_results results : list ProcessingResult) : list ProcessingResult :=
  match local_results with
  | [] => results
  | front :: local_results => drain local_results (results ++ [front])
  end.

Definition takeCompleted (s : Shared) : Shared * list ProcessingResult :=
  let local_results := completed_ s in
  (mkShared [] (error_number_ s), drain local_results []).

Definition push_completed (result : ProcessingResult) (s : Shared) : Shared :=
  mkShared (completed_ s ++ [result]) (error_number_ s).

(** [compare_exchange_strong] with 0: only the first error is kept. *)
Definition record_error (e : Z) (s : Shared) : Shared :=
  mkShared (completed_ s) (if error_number_ s =? 0 then e else error_number_ s).

Definition stop (d : Dispatcher) : Dispatcher :=
  mkDispatcher (notifier_ d) (shared_ d) (stop_begin (pool_ d)).

Section Operations.
Context `{Host} {K : Type} `{Kernel K}.

(** The constructor: the notifier, then the pool; with an invalid notifier it
    stores the error and calls [stop].  [None] means that the pool's
    constructor throws. *)
Definition make_dispatcher (k : K) (spawn : nat -> bool) (worker_count task_queue_capacity : Z) :
    K * option Dispatcher :=
  let '(k, notifier) := default_event_fd k in
  match make_pool spawn worker_count task_queue_capacity with
  | Constructed p =>
      (k, Some
        (if negb (EventFd.valid notifier)
         then mkDispatcher notifier (mkShared [] (EventFd.errorNumber notifier)) (stop_begin p)
         else mkDispatcher notifier (mkShared [] 0) p))
  | _ => (destruct_event_fd k notifier, None)
  end.

Definition consumeNotifications (fuel : nat) (k : K) (d : Dispatcher) :
    option (K * EventFdReadResult) :=
  consume fuel k (notifier_ d).

(** One step of the lambda and of [publish]. *)
Definition publish (fuel : nat) (notifier : EventFd) (k : K) (s : Shared) (e : Stage) :
    option (TaskOutcome Stage * K * Shared) :=
  match e with
  | ToProcess task => Some (Continues (ToPublish (processFrame task)), k, s)
  | ToPublish result => Some (Continues ToNotify, k, push_completed result s)
  | ToNotify =>
      '(k, notify_result) ← notify fuel k notifier 1;
      if negb (success notify_result) && negb (error_number notify_result =? EAGAIN)
         && negb (error_number notify_result =? EWOULDBLOCK)
      then Some (Continues (ToRecord (error_number notify_result)), k, s)
      else Some (Returned, k, s)
  | ToRecord e => Some (Returned, k, record_error e s)
  end.
End Operations.

Lemma drain_app l r : drain l r = r ++ l.
Proof.
  revert r; induction l as [|x l IH]; intros r; simpl; [by rewrite app_nil_r|].
  by rewrite IH, <-app_assoc.
Qed.

Lemma takeCompleted_spec s : takeCompleted s = (mkShared [] (error_number_ s), completed_ s).
Proof. unfold takeCompleted; by rewrite drain_app. Qed.

Lemma trySubmit_keeps d task d' st :
  trySubmit d task = (d', st) ->
  notifier_ d' = notifier_ d /\ shared_ d' = shared_ d /\
  (st = InvalidTask -> task_client_fd task < 0 \/ task_connection_id task = 0).
Proof.
  unfold trySubmit; intros E. destruct (_ || _) eqn:Eg; zbool.
  { simplify_eq; split_and!; auto; intros _; destruct Eg; zbool; auto. }
  destruct (negb _); [by simplify_eq|].
  destruct (ThreadPool.trySubmit (pool_ d) (Some task)) as [p st'] eqn:Et; simplify_eq; simpl.
  split_and!; auto. intros ->. unfold ThreadPool.trySubmit in Et.
  destruct (tryPush _ _) as [[q []] n]; by simplify_eq.
Qed.

(** ** The threads

    The memory the workers and the event loop share: the kernel and the
    dispatcher's fields; and, for the statements, whether the event loop has
    consumed notifications and not yet taken the results, and the results it
    has taken so far. *)

Record World (K : Type) := mkWorld {
  kernel_ : K;
  memory_ : Shared;
  consumed_ : bool;
  taken_ : list ProcessingResult
}.
Arguments mkWorld {K} _ _ _ _.
Arguments kernel_ {K} _.
Arguments memory_ {K} _.
Arguments consumed_ {K} _.
Arguments taken_ {K} _.

Section Threads.
Context `{Host} {K : Type} {KO : Kernel K} {KV : KernelView K} {KL : KernelLaws K}.
Context (notifier : EventFd).

Inductive worker_step (e : Stage) (w : World K) (o : TaskOutcome Stage) : World K -> Prop :=
| worker_publishes fuel k s :
    publish fuel notifier (kernel_ w) (memory_ w) e = Some (o, k, s) ->
    worker_step e w o (mkWorld k s (consumed_ w) (taken_ w)).

(** What the event loop does with the dispatcher, and its other system calls,
    which leave the notifier's counter alone. *)
Inductive loop_step (w : World K) : World K -> Prop :=
| loop_consumes fuel k r :
    consume fuel (kernel_ w) notifier = Some (k, r) ->
    loop_step w (mkWorld k (memory_ w) (consumed_ w || read_success r) (taken_ w))
| loop_takes s rs :
    takeCompleted (memory_ w) = (s, rs) ->
    loop_step w (mkWorld (kernel_ w) s false (taken_ w ++ rs))
| loop_other k :
    os_count (view k) !! fd notifier = os_count (view (kernel_ w)) !! fd notifier ->
    loop_step w (mkWorld k (memory_ w) (consumed_ w) (taken_ w)).

Definition dispatcher_of (p : ThreadPool ProcessingTask Stage) (w : World K) : Dispatcher :=
  mkDispatcher notifier (memory_ w) p.

Abbreviation pool_step := (pool_step ToProcess worker_step loop_step).
Abbreviation run_step := (run_step ToProcess worker_step).

(** A step of the running dispatcher: as [pool_step], but tasks come in through
    [trySubmit]. *)
Inductive dispatcher_step :
    ThreadPool ProcessingTask Stage * World K -> PoolEvent ProcessingTask ->
    ThreadPool ProcessingTask Stage * World K -> Prop :=
| step_pool s ev s' :
    pool_step s ev s' -> (forall task st, ev <> Submitted task st) -> dispatcher_step s ev s'
| step_trySubmit p w task d' st :
    trySubmit (dispatcher_of p w) task = (d', st) ->
    dispatcher_step (p, w) (Submitted (Some task) st) (pool_ d', w).

Inductive dispatcher_steps :
    ThreadPool ProcessingTask Stage * World K -> list (PoolEvent ProcessingTask) ->
    ThreadPool ProcessingTask Stage * World K -> Prop :=
| dispatcher_nil s : dispatcher_steps s [] s
| dispatcher_snoc s1 h s2 ev s3 :
    dispatcher_steps s1 h s2 -> dispatcher_step s2 ev s3 -> dispatcher_steps s1 (h ++ [ev]) s3.

(** The results of a task that are still in a worker's hands. *)
Definition in_hand (e : Stage) : list ProcessingResult :=
  match e with
  | ToProcess task => [processFrame task]
  | ToPublish result => [result]
  | ToNotify | ToRecord _ => []
  end.

Definition worker_in_hand (w : Worker ProcessingTask Stage) : list ProcessingResult :=
  match w with Running _ e => in_hand e | _ => [] end.

(** The results of everything accepted that has not reached [completed_]. *)
Definition in_flight (p : ThreadPool ProcessingTask Stage) : list ProcessingResult :=
  mbind worker_in_hand (workers_ p) ++ (processFrame <$> queue_ (tasks_ p)).


(** The notifier is usable. *)
Definition world_ok (w : World K) : Prop :=
  EventFd.valid notifier = true /\ counting notifier (view (kernel_ w)).

(** The event loop will learn of the results: it already has, the counter says
    so, a worker is about to notify, or a notification has failed and the
    dispatcher is (or is about to be) invalid. *)
Definition notification_due (p : ThreadPool ProcessingTask Stage) (w : World K) : Prop :=
  consumed_ w = true \/ 0 < counter (view (kernel_ w)) (fd notifier) \/
  (exists task, Running task ToNotify ∈ workers_ p) \/
  error_number_ (memory_ w) <> 0 \/
  (exists task e, e <> 0 /\ Running task (ToRecord e) ∈ workers_ p).

Lemma in_flight_idle p :
  running (workers_ p) = [] -> queue_ (tasks_ p) = [] -> in_flight p = [].
Proof.
  unfold in_flight, running; intros Hr ->; rewrite app_nil_r. revert Hr.
  induction (workers_ p) as [|[] ws IH]; csimpl; done.
Qed.

(** ** What every step keeps *)

Lemma worker_in_hand_update (ws : list (Worker ProcessingTask Stage)) i w w' :
  ws !! i = Some w ->
  worker_in_hand w ++ mbind worker_in_hand (<[i := w']> ws)
  ≡ₚ worker_in_hand w' ++ mbind worker_in_hand ws.
Proof. apply bind_update. Qed.

Lemma worker_in_hand_wake (ws : list (Worker ProcessingTask Stage)) :
  mbind worker_in_hand (wake <$> ws) = mbind worker_in_hand ws.
Proof. induction ws as [|[] ws IH]; csimpl; congruence. Qed.

(** A worker's step of its task moves its result along. *)
Lemma worker_step_results e w o w' :
  worker_step e w o w' ->
  taken_ w' = taken_ w /\ consumed_ w' = consumed_ w /\
  in_hand e ++ completed_ (memory_ w) ≡ₚ
    match o with Continues e' => in_hand e' | _ => [] end ++ completed_ (memory_ w').
Proof.
  intros [fuel k s Ep]; simpl; split; [done|split; [done|]].
  destruct e as [task|r| |err]; simpl in *; simplify_eq; simpl.
  - done.
  - by rewrite (Permutation_app_comm _ [r]).
  - destruct (notify fuel _ _ _) as [[k' r]|]; simpl in Ep; [|done].
    destruct (_ && _); by simplify_eq.
  - done.
Qed.

Lemma loop_step_results w w' :
  loop_step w w' ->
  taken_ w' ++ completed_ (memory_ w') = taken_ w ++ completed_ (memory_ w).
Proof.
  intros [fuel k r Ec|s rs Et|k Ec]; simpl; try done.
  rewrite takeCompleted_spec in Et; simplify_eq; simpl. by rewrite app_nil_r.
Qed.

(** Moving a result from a worker [i] to another place. *)
Lemma results_move {A} (i i' c c' ws ws' t q : list A) :
  i ++ c ≡ₚ i' ++ c' -> i ++ ws' ≡ₚ i' ++ ws ->
  t ++ c ++ ws ++ q ≡ₚ t ++ c' ++ ws' ++ q.
Proof.
  intros H1 H2. apply (Permutation_app_inv_l (i ++ i')).
  transitivity ((i ++ c) ++ (i' ++ ws) ++ t ++ q); [solve_Permutation|].
  rewrite H1, <-H2. solve_Permutation.
Qed.

(** A result is neither lost nor duplicated by any step. *)
Lemma pool_step_results p w ev p' w' :
  pool_step (p, w) ev (p', w') ->
  (processFrame <$> accepted_of ev) ++ taken_ w ++ completed_ (memory_ w) ++ in_flight p
  ≡ₚ taken_ w' ++ completed_ (memory_ w') ++ in_flight p'.
Proof.
  unfold in_flight. intros Hstep.
  inversion Hstep as [s0 ev0 s0' Hrun|? ? task ? st Hsub|? ? Hph|? ? i Hi|? ? ? Hl]; subst.
  - inversion Hrun as [? ? i wk q Hi El|? ? i task e o ? Hi Ht|? ? ws Hn Hws|? ? Hph|? ? Hph|? ? Hph Hex];
      subst; simpl; try done.
    + pose proof (worker_in_hand_update _ _ _ wk Hi) as Hu; simpl in Hu. rewrite Hu.
      unfold worker_lock in El. destruct (waitPop (tasks_ p)) as [[o q']|] eqn:Ew;
        [|by simplify_eq].
      apply waitPop_some in Ew as (_ & _ & Eq & _). rewrite Eq.
      destruct o; simplify_eq; simpl; [|done]. by solve_Permutation.
    + destruct (worker_step_results _ _ _ _ Ht) as (-> & _ & Hr).
      pose proof (worker_in_hand_update _ _ _ (worker_after task o) Hi) as Hu; simpl in Hu.
      assert (Eo : worker_in_hand (worker_after task o)
        = match o with Continues e' => in_hand e' | _ => [] end) by by destruct o.
      rewrite Eo in Hu. destruct o; simpl; by apply (results_move _ _ _ _ _ _ _ _ Hr Hu).
    + destruct Hws as [i Hi|]; simpl; [|done].
      pose proof (worker_in_hand_update _ _ _ Locking Hi) as Hu; simpl in Hu. by rewrite Hu.
    + by rewrite worker_in_hand_wake.
  - simpl. apply trySubmit_queue in Hsub as [-> ->]. rewrite fmap_app. solve_Permutation.
  - done.
  - simpl. pose proof (worker_in_hand_update _ _ _ Locking Hi) as Hu; simpl in Hu. by rewrite Hu.
  - simpl. apply loop_step_results in Hl. by rewrite !(app_assoc (taken_ _)), Hl.
Qed.

Lemma dispatcher_step_is_pool_step s ev s' :
  dispatcher_step s ev s' -> pool_step s ev s' \/ (s' = s /\ accepted_of ev = [] /\ finished_of ev = []).
Proof.
  intros [s1 ev1 s2 Hs _|p w task d' st Es]; [by left|].
  unfold trySubmit in Es. destruct (_ || _); [by simplify_eq; right|].
  destruct (negb _); [by simplify_eq; right|].
  destruct (ThreadPool.trySubmit _ _) as [p' st'] eqn:Et; simplify_eq. left; by constructor.
Qed.

(** What a run of the dispatcher is as a run of its pool. *)
Lemma dispatcher_steps_pool s h s' :
  dispatcher_steps s h s' ->
  exists h', pool_steps ToProcess worker_step loop_step s h' s' /\
    accepted h' = accepted h /\ finished h' = finished h.
Proof.
  unfold accepted, finished.
  induction 1 as [s|s1 h s2 ev s3 _ (h' & Hs & Ha & Hf) Hstep]; [exists []; split; [constructor|done]|].
  destruct (dispatcher_step_is_pool_step _ _ _ Hstep) as [Hp|(-> & Hacc & Hfin)].
  - exists (h' ++ [ev]). split; [by econstructor|]. by rewrite !bind_app, Ha, Hf.
  - exists h'. split; [done|]. rewrite !bind_app; simpl. by rewrite Hacc, Hfin, !app_nil_r.
Qed.

Lemma dispatcher_steps_results p w h p' w' :
  dispatcher_steps (p, w) h (p', w') ->
  (processFrame <$> accepted h) ++ taken_ w ++ completed_ (memory_ w) ++ in_flight p
  ≡ₚ taken_ w' ++ completed_ (memory_ w') ++ in_flight p'.
Proof.
  intros (h' & Hs & <- & _)%dispatcher_steps_pool. remember (p, w) as s eqn:Es.
  remember (p', w') as s' eqn:Es'. revert p' w' Es'.
  induction Hs as [s|s1 h0 [p2 w2] ev s3 _ IH Hstep]; intros p' w' Es'; subst; [by simplify_eq|].
  specialize (IH eq_refl _ _ eq_refl). apply pool_step_results in Hstep.
  rewrite <-Hstep, <-IH. unfold accepted; rewrite bind_app, fmap_app; simpl. rewrite app_nil_r.
  solve_Permutation.
Qed.

(** Accepted tasks have an addressee. *)
Lemma dispatcher_accepts_valid s h s' :
  dispatcher_steps s h s' ->
  Forall (fun t => 0 <= task_client_fd t /\ task_connection_id t <> 0) (accepted h).
Proof.
  unfold accepted. induction 1 as [s|s1 h s2 ev s3 _ IH Hstep]; [constructor|].
  rewrite bind_app, Forall_app; split; [done|]; simpl; rewrite app_nil_r.
  destruct Hstep as [s1' ev s2' Hs Hno|p w task d' st Es].
  - destruct ev; try constructor. by destruct (Hno task st).
  - unfold trySubmit in Es. destruct (_ || _) eqn:Eg; [by simplify_eq; constructor|]; zbool.
    destruct st; constructor; auto; lia.
Qed.

(** ** The notifications *)

(** A step of a worker that is notifying leaves something behind. *)
Lemma worker_step_due e w o w' :
  world_ok w -> worker_step e w o w' ->
  world_ok w' /\
  (0 < counter (view (kernel_ w)) (fd notifier) ->
   0 < counter (view (kernel_ w')) (fd notifier)) /\
  (error_number_ (memory_ w) <> 0 -> error_number_ (memory_ w') <> 0) /\
  match e with
  | ToProcess _ => completed_ (memory_ w') = completed_ (memory_ w)
  | ToPublish _ => o = Continues ToNotify
  | ToNotify => completed_ (memory_ w') = completed_ (memory_ w) /\
      (0 < counter (view (kernel_ w')) (fd notifier) \/
       exists e, e <> 0 /\ o = Continues (ToRecord e))
  | ToRecord e => completed_ (memory_ w') = completed_ (memory_ w) /\
      (e <> 0 -> error_number_ (memory_ w') <> 0)
  end.
Proof.
  intros [Hv Hc] [fuel k s Ep]; unfold world_ok; simpl.
  destruct e as [task|r| |err]; simpl in Ep; simplify_eq; simpl; auto.
  - destruct (notify fuel _ _ _) as [[k' r]|] eqn:En; simpl in Ep; [|done].
    apply notify_spec in En; [|done|done|lia].
    pose proof (notify_counting _ 1 _ _ _ Hc ltac:(lia) En) as Hc'.
    assert (Hpos : 0 < counter (view (kernel_ w)) (fd notifier) ->
      0 < counter (view k') (fd notifier))
      by (unfold fd; destruct En as [(_ & _ & _ & _ & -> & _)|(_ & (_ & -> & _) & _)]; lia).
    assert (Hdue : 0 < counter (view k') (fd notifier) \/
      (success r = false /\ 0 < EventFd.error_number r /\ EventFd.error_number r <> EAGAIN)).
    { destruct Hc as [_ Hr]; unfold fd in *.
      destruct En as [(_ & _ & _ & _ & -> & _)|(Es & (_ & -> & _) & Hp & _ & Ha)]; [left; lia|].
      destruct (decide (EventFd.error_number r = EAGAIN)) as [Ee|]; [left|by right].
      specialize (Ha Ee). unfold eventfd_max in Ha; lia. }
    destruct (_ && _) eqn:Eb; simplify_eq; split_and!; auto.
    + right; exists (EventFd.error_number r); split; [|done].
      apply andb_true_iff in Eb as [Eb _]; apply andb_true_iff in Eb as [Eb _].
      apply negb_true_iff in Eb. destruct En as [(? & _)|(_ & _ & ? & _)]; [congruence|lia].
    + left. destruct Hdue as [|(Es & _ & Ha)]; [done|].
      rewrite Es in Eb; simpl in Eb. unfold EWOULDBLOCK in Eb.
      replace (EventFd.error_number r =? EAGAIN) with false in Eb by lia. done.
  - unfold record_error; simpl. split_and!; auto; destruct (_ =? 0) eqn:E0; zbool; auto.
Qed.

Lemma loop_step_ok w w' : world_ok w -> loop_step w w' -> world_ok w'.
Proof.
  intros [Hv Hc] [fuel k r Ec|s rs Et|k Ec]; (split; [done|]); simpl; auto.
  - apply consume_spec in Ec; [|done|done]. by eapply consume_counting.
  - unfold counting, counter in *. unfold fd in Ec. by rewrite Ec.
Qed.

Lemma worker_step_ok e w o w' : world_ok w -> worker_step e w o w' -> world_ok w'.
Proof. intros Hw Hs. by destruct (worker_step_due _ _ _ _ Hw Hs). Qed.

(** A task can always go on, and it ends. *)
Lemma worker_step_progress e w : world_ok w -> exists o w', worker_step e w o w'.
Proof.
  intros [Hv Hc].
  assert (exists fuel r, publish fuel notifier (kernel_ w) (memory_ w) e = Some r)
    as (fuel & [[o k] s] & Ep); [|by eexists _, _; econstructor].
  destruct e as [task|r| |err]; try by exists 0%nat; eexists.
  destruct (notify_total (S (os_signals (view (kernel_ w)))) (kernel_ w) notifier 1 Hv Hc
    ltac:(lia) ltac:(lia)) as (k' & r & En & _).
  eexists _; simpl; rewrite En; simpl. destruct (_ && _); by eexists.
Qed.

Definition stages_left (e : Stage) : nat :=
  match e with ToProcess _ => 3 | ToPublish _ => 2 | ToNotify => 1 | ToRecord _ => 0 end.

Lemma worker_step_stages e w e' w' :
  worker_step e w (Continues e') w' -> (stages_left e' < stages_left e)%nat.
Proof.
  intros Hs; inversion Hs as [fuel k s Ep]; subst.
  destruct e as [task|r| |err]; simpl in Ep; simplify_eq; simpl; try lia.
  destruct (notify fuel _ _ _) as [[k' r]|]; simpl in Ep; [|done].
  destruct (_ && _); simplify_eq; simpl; lia.
Qed.

(** Another worker keeps what it is about to do. *)
Lemma running_kept (ws : list (Worker ProcessingTask Stage)) i w w' task e :
  ws !! i = Some w -> Running task e ∈ ws -> w <> Running task e ->
  Running task e ∈ <[i := w']> ws.
Proof. intros Hi Hin Hne. apply (elem_of_update_other _ _ _ _ _ Hi Hin). congruence. Qed.

Lemma due_worker p w i wk wk' :
  workers_ p !! i = Some wk -> (forall task e, wk <> Running task e) ->
  notification_due p w -> forall p', workers_ p' = <[i := wk']> (workers_ p) ->
  notification_due p' w.
Proof.
  intros Hi Hno Hdue p' Ew; unfold notification_due in *. rewrite Ew.
  destruct Hdue as [|[|[(t & Hin)|[|(t & e & He & Hin)]]]]; auto.
  - right; right; left; exists t. by apply (running_kept _ _ _ _ _ _ Hi).
  - right; right; right; right; exists t, e. split; [done|]. by apply (running_kept _ _ _ _ _ _ Hi).
Qed.

Lemma due_task p w i task e o w' :
  world_ok w -> (completed_ (memory_ w) <> [] -> notification_due p w) ->
  workers_ p !! i = Some (Running task e) -> worker_step e w o w' ->
  completed_ (memory_ w') <> [] ->
  notification_due (set_worker i (worker_after task o) p) w'.
Proof.
  intros Hok Hinv Hi Ht Hne. assert (Hlt := lookup_lt_Some _ _ _ Hi).
  destruct (worker_step_results _ _ _ _ Ht) as (_ & Econs & _).
  destruct (worker_step_due _ _ _ _ Hok Ht) as (_ & Hcount & Herr & Hcase).
  assert (Hset : worker_after task o ∈ <[i := worker_after task o]> (workers_ p))
    by (apply list_elem_of_lookup; exists i; by apply list_lookup_insert_eq).
  unfold notification_due in *; simpl; rewrite Econs.
  destruct e as [t0|r| |e0].
  - rewrite Hcase in Hne. destruct (Hinv Hne) as [|[|[(t & Hin)|[|(t & e & He & Hin)]]]]; auto 8.
    + right; right; left; exists t. by apply (running_kept _ _ _ _ _ _ Hi).
    + do 4 right; exists t, e. split; [done|]. by apply (running_kept _ _ _ _ _ _ Hi).
  - rewrite Hcase in Hset |- *. right; right; left; by exists task.
  - destruct Hcase as [_ [|(e & He & ->)]]; [auto 8|]. do 4 right; by exists task, e.
  - destruct Hcase as [Ecomp Hrec]. rewrite Ecomp in Hne.
    destruct (Hinv Hne) as [|[|[(t & Hin)|[|(t & e & He & Hin)]]]]; auto 8.
    + right; right; left; exists t. by apply (running_kept _ _ _ _ _ _ Hi).
    + destruct (decide (e = e0)) as [->|Hee]; [auto 8|].
      do 4 right; exists t, e. split; [done|]. apply (running_kept _ _ _ _ _ _ Hi); [done|congruence].
Qed.

Lemma running_woken (ws : list (Worker ProcessingTask Stage)) task e :
  Running task e ∈ ws -> Running task e ∈ wake <$> ws.
Proof. intros Hin. apply list_elem_of_fmap. by exists (Running task e). Qed.

Lemma due_loop p w w' :
  world_ok w -> (completed_ (memory_ w) <> [] -> notification_due p w) -> loop_step w w' ->
  completed_ (memory_ w') <> [] -> notification_due p w'.
Proof.
  unfold notification_due. intros [Hv Hc] Hinv [fuel k r Ec|s rs Et|k Ec]; simpl; intros Hne.
  - apply consume_spec in Ec; [|done|done].
    destruct Ec as [(-> & _)|(-> & _ & (_ & Ek & _) & _)]; [left; apply orb_true_r|].
    unfold fd in *. rewrite orb_false_r, Ek. auto.
  - rewrite takeCompleted_spec in Et; by simplify_eq.
  - unfold counter in *; rewrite Ec; auto.
Qed.

Lemma pool_step_due p w ev p' w' :
  world_ok w -> (completed_ (memory_ w) <> [] -> notification_due p w) ->
  pool_step (p, w) ev (p', w') ->
  completed_ (memory_ w') <> [] -> notification_due p' w'.
Proof.
  intros Hok Hinv Hstep.
  inversion Hstep as [s0 ev0 s0' Hrun|? ? task ? st Hsub|? ? Hph|? ? i Hi|? ? ? Hl]; subst.
  - inversion Hrun as [? ? i wk q Hi El|? ? i task e o ? Hi Ht|? ? ws Hn Hws|? ? Hph|? ? Hph|? ? Hph Hex];
      subst; intros Hne; try exact (Hinv Hne).
    + by apply (due_worker _ _ _ _ wk Hi ltac:(done) (Hinv Hne)).
    + by apply (due_task p w i task e o).
    + destruct Hws as [i Hi|]; [|exact (Hinv Hne)].
      by apply (due_worker _ _ _ _ Locking Hi ltac:(done) (Hinv Hne)).
    + unfold notification_due in *; simpl.
      destruct (Hinv Hne) as [|[|[(t & Hin)|[|(t & e & He & Hin)]]]]; eauto 10 using running_woken.
  - intros Hne; specialize (Hinv Hne). apply trySubmit_queue in Hsub as [Ew _].
    unfold notification_due in *. by rewrite Ew.
  - exact Hinv.
  - intros Hne. by apply (due_worker _ _ _ _ Locking Hi ltac:(done) (Hinv Hne)).
  - by apply (due_loop _ w).
Qed.

(** Along a run the notifier stays usable and the results stay announced. *)
Lemma dispatcher_steps_due p w h p' w' :
  world_ok w -> (completed_ (memory_ w) <> [] -> notification_due p w) ->
  dispatcher_steps (p, w) h (p', w') ->
  world_ok w' /\ (completed_ (memory_ w') <> [] -> notification_due p' w').
Proof.
  intros Hok Hinv (h' & Hs & _)%dispatcher_steps_pool. remember (p, w) as s eqn:Es.
  remember (p', w') as s' eqn:Es'. revert p' w' Es'.
  induction Hs as [s|s1 h0 [p2 w2] ev s3 Hsteps IH Hstep]; intros p' w' Es'; subst; [by simplify_eq|].
  destruct (IH eq_refl _ _ eq_refl) as [Hok2 Hinv2]. split; [|by apply (pool_step_due _ _ _ _ _ Hok2 Hinv2 Hstep)].
  apply (pool_steps_memory ToProcess worker_step world_ok stages_left (fun e g o g' => worker_step_ok e g o g')
    (fun e g e' g' _ => worker_step_stages e g e' g') loop_step loop_step_ok (p, w) (h0 ++ [ev]) (p', w') Hok).
  by econstructor.
Qed.
End Threads.

Arguments dispatcher_steps {_ _ _ _} notifier _ _ _.

(** A new dispatcher and the world it starts in. *)
Definition first_world {K} (k : K) (d : Dispatcher) : World K := mkWorld k (shared_ d) false [].

Section Theorems.
Context `{Host} {K : Type} {KO : Kernel K} {KV : KernelView K} {KL : KernelLaws K}.

Lemma make_dispatcher_spec k spawn n cap k0 d0 :
  0 <= n -> 0 <= cap -> make_dispatcher k spawn n cap = (k0, Some d0) ->
  completed_ (shared_ d0) = [] /\ in_flight (pool_ d0) = [] /\
  (if EventFd.valid (notifier_ d0)
   then counting (notifier_ d0) (view k0) /\ error_number_ (shared_ d0) = 0 /\
        make_pool spawn n cap = Constructed (pool_ d0)
   else 0 < error_number_ (shared_ d0)).
Proof.
  intros Hn Hc; unfold make_dispatcher.
  destruct (default_event_fd k) as [k1 e] eqn:Ee. apply default_event_fd_spec in Ee.
  destruct (make_pool spawn n cap) as [|p|p] eqn:Ep; intros Eq; simplify_eq.
  destruct (make_pool_wf spawn n cap p Hn Hc (or_introl Ep)) as (_ & _ & Hq & Hw & _).
  assert (Hfl : in_flight p = []).
  { apply in_flight_idle; [by apply (running_idle Locking)|done]. }
  destruct (EventFd.valid e) eqn:Ev; simpl; rewrite Ev; [|by destruct Ee].
  destruct Ee as (? & _ & _ & _); auto.
Qed.

(** C9. Each accepted frame is answered exactly once: in any interleaving of
    the event loop with the workers, the results the event loop has taken, the
    ones waiting in [completed_] and the ones still in flight are together
    exactly the results of the accepted tasks, none lost and none duplicated;
    and each taken result belongs to an accepted task that named a client. *)
Theorem results_delivered_once k spawn n cap k0 d0 h p (w : World K) :
  0 <= n -> 0 <= cap -> make_dispatcher k spawn n cap = (k0, Some d0) ->
  dispatcher_steps (notifier_ d0) (pool_ d0, first_world k0 d0) h (p, w) ->
  taken_ w ++ completed_ (memory_ w) ++ in_flight p ≡ₚ processFrame <$> accepted h /\
  Forall (fun r => exists task, task ∈ accepted h /\ r = processFrame task /\
            0 <= task_client_fd task /\ task_connection_id task <> 0) (taken_ w).
Proof.
  intros Hn Hc Hmake Hs. apply make_dispatcher_spec in Hmake as (Hcomp & Hfl & _); [|done..].
  pose proof (dispatcher_accepts_valid _ _ _ _ Hs) as Hval.
  apply dispatcher_steps_results in Hs as Hr; simpl in Hr. rewrite Hcomp, Hfl, app_nil_r in Hr.
  split; [by symmetry|]. apply Forall_forall; intros r Hin.
  assert (Hin' : r ∈ processFrame <$> accepted h)
    by (rewrite Hr; apply elem_of_app; by left).
  apply list_elem_of_fmap in Hin' as (task & -> & Hacc).
  rewrite Forall_forall in Hval. exists task. destruct (Hval task Hacc); auto.
Qed.

(** C8. No result waits unannounced: whenever [completed_] holds results, the
    event loop has consumed a notification and will take them, or the
    notifier's counter is positive (so that epoll reports it), or a worker is
    about to notify, or a notification has failed for good, which makes the
    dispatcher invalid. The workers always finish: they can take only finitely
    many steps by themselves, and once they cannot take one, with nothing left
    to announce and no failure, every accepted task's result has been taken. *)
Theorem no_lost_notification k spawn n cap k0 d0 h p (w : World K) :
  0 <= n -> 0 <= cap -> make_dispatcher k spawn n cap = (k0, Some d0) ->
  EventFd.valid (notifier_ d0) = true ->
  dispatcher_steps (notifier_ d0) (pool_ d0, first_world k0 d0) h (p, w) ->
  let step s ev s' := run_step ToProcess (worker_step (notifier_ d0)) s ev s' in
  (completed_ (memory_ w) <> [] -> notification_due (notifier_ d0) p w) /\
  (forall m s', nsteps (fun s s' => exists ev, step s ev s') m (p, w) s' ->
     (m <= pool_measure ToProcess stages_left p)%nat) /\
  (~ (exists ev s', step (p, w) ev s') ->
     consumed_ w = false -> counter (view (kernel_ w)) (fd (notifier_ d0)) = 0 ->
     error_number_ (memory_ w) = 0 ->
     taken_ w ≡ₚ processFrame <$> accepted h).
Proof.
  intros Hn Hc Hmake Hv Hs step.
  pose proof (make_dispatcher_spec _ _ _ _ _ _ Hn Hc Hmake) as (Hcomp & Hfl & Hnew).
  rewrite Hv in Hnew. destruct Hnew as (Hcount & Herr & Hpool).
  pose proof (dispatcher_steps_results _ _ _ _ _ _ Hs) as Hr; simpl in Hr.
  rewrite Hcomp, Hfl, app_nil_r in Hr.
  pose proof (dispatcher_steps_due (notifier_ d0) (pool_ d0) (first_world k0 d0) h p w) as Hdue.
  destruct Hdue as [Hok Hdue]; [done|simpl; congruence|done|].
  apply dispatcher_steps_pool in Hs as (h' & Hs & _).
  destruct (make_pool_wf spawn n cap _ Hn Hc (or_introl Hpool)) as (Hwf0 & _ & _ & _ & Hnew).
  destruct (Hnew Hpool) as (_ & Hlen0 & Hpos).
  pose proof (pool_steps_spec _ _ _ (pool_ d0, first_world k0 d0) h' (p, w) Hwf0 Hs)
    as (Hwf & _ & Hlen & _); simpl in Hlen.
  split; [done|]. split.
  - intros m s' Hrun.
    apply (run_steps_bounded ToProcess (worker_step (notifier_ d0)) (world_ok (notifier_ d0))
      stages_left (worker_step_ok _) (fun e g e' g' _ => worker_step_stages _ e g e' g')) in Hrun;
      [simpl in Hrun; lia|done].
  - intros Hstuck Hcons Hcnt Hne.
    apply (stuck_pool ToProcess (worker_step (notifier_ d0)) (world_ok (notifier_ d0))
      (worker_step_progress _)) in Hstuck as (_ & _ & Hq & Hrun & _); [|done|done|].
    2: { intros En; unfold workerCount, len in *; rewrite En in Hlen; simpl in Hlen; lia. }
    assert (Hno : forall task e, Running task e ∉ workers_ p).
    { intros task e [i Hi]%list_elem_of_lookup.
      pose proof (running_update _ _ _ Exited Hi) as Hu; rewrite Hrun in Hu; simpl in Hu.
      by apply Permutation_length in Hu. }
    assert (Ecomp : completed_ (memory_ w) = []).
    { destruct (completed_ (memory_ w)) eqn:Ecomp; [done|].
      destruct (Hdue ltac:(done)) as [|[|[(t & Hin)|[|(t & e & _ & Hin)]]]];
        [congruence|lia|by apply Hno in Hin|done|by apply Hno in Hin]. }
    rewrite Hr, Ecomp, (in_flight_idle p Hrun Hq), app_nil_r. done.
Qed.
End Theorems.

(** C40. [trySubmit] on every branch: a task without an addressee is invalid; a
    dispatcher whose notifier is unusable, or whose pool is closed, answers
    [Stopped]; a full queue is reported as such; and only a success changes
    anything, adding the task at the queue's end. *)
Theorem trySubmit_correct d task d' st :
  trySubmit d task = (d', st) ->
  notifier_ d' = notifier_ d /\ shared_ d' = shared_ d /\ workers_ (pool_ d') = workers_ (pool_ d) /\
  match st with
  | InvalidTask => (task_client_fd task < 0 \/ task_connection_id task = 0) /\ d' = d
  | Stopped =>
      0 <= task_client_fd task /\ task_connection_id task <> 0 /\
      (valid d = false \/ closed (tasks_ (pool_ d)) = true) /\
      queue_ (tasks_ (pool_ d')) = queue_ (tasks_ (pool_ d))
  | QueueFull =>
      valid d = true /\ closed (tasks_ (pool_ d)) = false /\
      capacity (tasks_ (pool_ d)) <= size (tasks_ (pool_ d)) /\
      queue_ (tasks_ (pool_ d')) = queue_ (tasks_ (pool_ d))
  | Success =>
      0 <= task_client_fd task /\ task_connection_id task <> 0 /\ valid d = true /\
      closed (tasks_ (pool_ d)) = false /\
      size (tasks_ (pool_ d)) < capacity (tasks_ (pool_ d)) /\
      queue_ (tasks_ (pool_ d')) = queue_ (tasks_ (pool_ d)) ++ [task]
  end.
Proof.
  unfold trySubmit; intros E.
  destruct (_ || _) eqn:Eg; zbool; [simplify_eq; split_and!; auto; destruct Eg; zbool; auto|].
  destruct (valid d) eqn:Ev; simpl in E; [|simplify_eq; split_and!; auto; lia].
  destruct (tryPush_spec (tasks_ (pool_ d)) task) as (q & st' & n & E1 & _ & Hcl & Hst).
  unfold closed, ThreadPool.trySubmit in *. rewrite E1 in E.
  destruct st'; simplify_eq; simpl; destruct_and!; subst; split_and!; auto; lia.
Qed.

(** ** Running an interleaving *)

Section Execution.
Context `{Host} {K : Type} {KO : Kernel K} {KV : KernelView K} {KL : KernelLaws K}.
Context (fuel : nat) (notifier : EventFd).

Definition publish_run (e : Stage) (w : World K) : option (TaskOutcome Stage * World K) :=
  '(o, k, s) ← publish fuel notifier (kernel_ w) (memory_ w) e;
  Some (o, mkWorld k s (consumed_ w) (taken_ w)).

Inductive LoopCall := Consume | Take.

Definition loop_run (c : LoopCall) (w : World K) : option (World K) :=
  match c with
  | Consume =>
      '(k, r) ← consume fuel (kernel_ w) notifier;
      Some (mkWorld k (memory_ w) (consumed_ w || read_success r) (taken_ w))
  | Take =>
      let '(s, rs) := takeCompleted (memory_ w) in
      Some (mkWorld (kernel_ w) s false (taken_ w ++ rs))
  end.

(** A scheduling choice: a task for [trySubmit], or a step of the pool. *)
Definition dispatcher_choose (c : ProcessingTask + Choice ProcessingTask LoopCall)
    (s : ThreadPool ProcessingTask Stage * World K) :
    option (PoolEvent ProcessingTask * (ThreadPool ProcessingTask Stage * World K)) :=
  match c with
  | inl task =>
      let '(d, st) := trySubmit (dispatcher_of notifier s.1 s.2) task in
      Some (Submitted (Some task) st, (pool_ d, s.2))
  | inr (DoSubmit _) => None
  | inr c => choose ToProcess publish_run loop_run c s
  end.

Fixpoint dispatcher_exec cs s h :
    option (list (PoolEvent ProcessingTask) * (ThreadPool ProcessingTask Stage * World K)) :=
  match cs with
  | [] => Some (h, s)
  | c :: cs => '(ev, s') ← dispatcher_choose c s; dispatcher_exec cs s' (h ++ [ev])
  end.

Lemma publish_run_sound e w o w' : publish_run e w = Some (o, w') -> worker_step notifier e w o w'.
Proof.
  unfold publish_run; destruct (publish _ _ _ _ _) as [[[o' k] s]|] eqn:E; simpl; [|done].
  intros; simplify_eq. by econstructor.
Qed.

Lemma loop_run_sound c w w' : loop_run c w = Some w' -> loop_step notifier w w'.
Proof.
  destruct c; simpl.
  - destruct (consume _ _ _) as [[k r]|] eqn:E; simpl; intros; simplify_eq. by econstructor.
  - intros; simplify_eq. by constructor.
Qed.

Lemma dispatcher_choose_sound c s ev s' :
  dispatcher_choose c s = Some (ev, s') -> dispatcher_step notifier s ev s'.
Proof.
  destruct s as [p w]; destruct c as [task|c]; simpl.
  - destruct (trySubmit _ _) as [d st] eqn:E; intros; simplify_eq. by constructor.
  - intros E. assert (Hc : choose ToProcess publish_run loop_run c (p, w) = Some (ev, s'))
      by by destruct c.
    apply step_pool.
    + by apply (choose_sound _ _ _ _ _ publish_run_sound loop_run_sound c).
    + intros task st ->. apply choose_submitted in Hc as ->. done.
Qed.

Lemma dispatcher_exec_sound cs s0 h s h' s' :
  dispatcher_steps notifier s0 h s -> dispatcher_exec cs s h = Some (h', s') ->
  dispatcher_steps notifier s0 h' s'.
Proof.
  revert h s; induction cs as [|c cs IH]; simpl; intros h s Hs Ee; [by simplify_eq|].
  destruct (dispatcher_choose c s) as [[ev s1]|] eqn:Ec; simpl in Ee; [|done].
  apply (IH _ _ (dispatcher_snoc _ _ _ _ _ _ Hs (dispatcher_choose_sound _ _ _ _ Ec)) Ee).
Qed.
End Execution.

(** An eventfd that a dispatcher of one worker and a queue of one task opens;
    a signal interrupts its first notification. *)
Definition sim_idle : Sim := mkSim (mkOs ∅ ∅ ∅ ∅ ∅ [] 1) 0 [-4] [].

Definition task_a : ProcessingTask := mkProcessingTask 7 1 [x00].
Definition task_b : ProcessingTask := mkProcessingTask 8 2 [].

(** Two tasks, one of them refused at first; the event loop takes the first
    result while the worker is already busy with the second task. *)
Definition dispatcher_choices : list (ProcessingTask + Choice ProcessingTask LoopCall) :=
  [inl task_a; inl task_b; inr (DoLock 0); inl task_b; inr (DoTask 0); inr (DoTask 0);
   inr (DoTask 0); inr (DoNotify None); inr (DoLock 0); inr (DoMemory Consume); inr (DoTask 0);
   inr (DoMemory Take); inr (DoTask 0); inr (DoTask 0); inr (DoNotify None);
   inr (DoMemory Consume); inr (DoMemory Take); inr (DoLock 0)].

Lemma results_delivered_once_witness :
  exists k0 d0 h p w,
    make_dispatcher sim_idle (fun _ => true) 1 1 = (k0, Some d0) /\
    dispatcher_exec 3 (notifier_ d0) dispatcher_choices (pool_ d0, first_world k0 d0) []
      = Some (h, (p, w)) /\
    taken_ w ≡ₚ processFrame <$> [task_a; task_b].
Proof.
  destruct (make_dispatcher sim_idle (fun _ => true) 1 1) as [k0 [d0|]] eqn:E;
    [|by vm_compute in E].
  destruct (dispatcher_exec 3 (notifier_ d0) dispatcher_choices (pool_ d0, first_world k0 d0) [])
    as [[h [p w]]|] eqn:Ex; [|vm_compute in E; injection E as <- <-; by vm_compute in Ex].
  exists k0, d0, h, p, w. split; [reflexivity|split; [exact Ex|]].
  pose proof (dispatcher_exec_sound 3 _ _ _ _ _ _ _ (dispatcher_nil _ _) Ex) as Hs.
  destruct (results_delivered_once sim_idle (fun _ => true) 1 1 k0 d0 h p w
    ltac:(lia) ltac:(lia) E Hs) as [Hr _].
  vm_compute in E; injection E as <- <-. vm_compute in Ex; injection Ex as <- <- <-.
  exact Hr.
Defined.

Lemma no_lost_notification_witness :
  exists k0 d0 h p w,
    make_dispatcher sim_idle (fun _ => true) 1 1 = (k0, Some d0) /\
    dispatcher_exec 3 (notifier_ d0) dispatcher_choices (pool_ d0, first_world k0 d0) []
      = Some (h, (p, w)) /\
    taken_ w ≡ₚ processFrame <$> accepted h /\ accepted h = [task_a; task_b].
Proof.
  destruct (make_dispatcher sim_idle (fun _ => true) 1 1) as [k0 [d0|]] eqn:E;
    [|by vm_compute in E].
  destruct (dispatcher_exec 3 (notifier_ d0) dispatcher_choices (pool_ d0, first_world k0 d0) [])
    as [[h [p w]]|] eqn:Ex; [|vm_compute in E; injection E as <- <-; by vm_compute in Ex].
  exists k0, d0, h, p, w. split; [reflexivity|split; [exact Ex|]].
  pose proof (dispatcher_exec_sound 3 _ _ _ _ _ _ _ (dispatcher_nil _ _) Ex) as Hs.
  assert (Hv : EventFd.valid (notifier_ d0) = true)
    by (vm_compute in E; by injection E as <- <-).
  destruct (no_lost_notification sim_idle (fun _ => true) 1 1 k0 d0 h p w
    ltac:(lia) ltac:(lia) E Hv Hs) as (_ & _ & Hend).
  assert (Ep : p = mkPool (mkBoundedQueue 1 [] false) [Waiting] false 0 NotStopping /\
    consumed_ w = false /\ counter (view (kernel_ w)) (fd (notifier_ d0)) = 0 /\
    error_number_ (memory_ w) = 0 /\ accepted h = [task_a; task_b])
    by (vm_compute in E; injection E as <- <-; vm_compute in Ex; by injection Ex as <- <- <-).
  destruct Ep as (-> & E1 & E2 & E3 & E4). split; [|exact E4].
  apply Hend; [|done..]. intros (ev & s' & Hrun). inversion Hrun as
    [? ? [|i] ? ? Hi|? ? [|i] ? ? ? ? Hi|? ? ? Hn|? ? Hph|? ? Hph|? ? Hph]; try done.
  simpl in Hn; lia.
Defined.

Lemma trySubmit_correct_witness :
  exists d, trySubmit
      (mkDispatcher (mkEventFd 4 0) (mkShared [] 0) (mkPool (mkBoundedQueue 1 [] false) [] false 0 NotStopping))
      task_a = (d, Success) /\ queue_ (tasks_ (pool_ d)) = [task_a].
Proof.
  eexists; split; [reflexivity|].
  by apply (trySubmit_correct (mkDispatcher (mkEventFd 4 0) (mkShared [] 0)
    (mkPool (mkBoundedQueue 1 [] false) [] false 0 NotStopping)) task_a _ Success eq_refl).
Defined.
