(* ===== verification/Service.v ===== *)
(** * The dispatcher as the event loop sees it

    The interface between [EventLoop] and [Dispatcher]: the operations the
    event loop calls, and what they promise.  While a call runs, and between
    calls, the dispatcher's workers run; all they do to the kernel is write to
    the notifier's counter ([only_counts]).  [Scheduled] discharges the
    interface for the dispatcher of [Dispatcher]. *)

From S2P Require Import Prelude Endian Kernel Raii EventFd ThreadPool Processing.

(** Between [v] and [v'] at most eventfd counters changed and signals
    arrived. *)
Definition only_counts (v v' : OsView) : Prop :=
  (os_signals v' <= os_signals v)%nat /\
  v' = mkOs (os_flags v) (os_out v) (os_in v) (os_count v') (os_interest v) (os_clients v)
         (os_signals v').

Lemma only_counts_refl v : only_counts v v.
Proof. split; [done|by destruct v]. Qed.

Lemma only_counts_trans v1 v2 v3 : only_counts v1 v2 -> only_counts v2 v3 -> only_counts v1 v3.
Proof. intros [? E1] [? E2]; split; [lia|]. rewrite E2 at 1; rewrite E1; done. Qed.

(** [service_make] is the constructor ([None]: it throws), [service_destroy] the
    destructor, which waits for the workers. *)
Class Service (K D : Type) := {
  service_make : K -> Z -> Z -> K * option D;
  service_valid : D -> bool;
  service_errorNumber : D -> Z;
  service_fd : D -> Z;
  service_trySubmit : K -> D -> ProcessingTask -> K * D * SubmitStatus;
  service_consume : nat -> K -> D -> option (K * D * EventFdReadResult);
  service_takeCompleted : K -> D -> K * D * list ProcessingResult;
  service_destroy : nat -> K -> D -> option K
}.

(** [accepted] and [taken] are the tasks accepted and the results handed out so
    far; [service_ok] is the condition under which the service works. *)
Class ServiceLaws (K D : Type) `{Host} {KO : Kernel K} {KV : KernelView K} {SO : Service K D} := {
  accepted : D -> list ProcessingTask;
  taken : D -> list ProcessingResult;
  service_ok : K -> D -> Prop;

  (** other calls may change the kernel, but not the notifier's counter *)
  service_ok_kernel k k' d :
    service_ok k d -> os_count (view k') !! service_fd d = os_count (view k) !! service_fd d ->
    service_ok k' d;
  (** every result handed out answers an accepted task of its own *)
  service_answers k d : service_ok k d -> taken d ⊆+ (processFrame <$> accepted d);

  (** a new service has its own descriptor *)
  make_law k n cap k' d :
    0 <= n -> 0 <= cap -> service_make k n cap = (k', Some d) -> service_valid d = true ->
    service_ok k' d /\ accepted d = [] /\ taken d = [] /\
    0 <= service_fd d /\ ~ is_open (view k) (service_fd d) /\
    (forall f, is_open (view k') f <-> is_open (view k) f \/ f = service_fd d) /\
    os_interest (view k') = os_interest (view k) /\ os_clients (view k') = os_clients (view k);
  (** a service, usable or not, owns its descriptor and nothing else, and is
      destroyed without a trace once the interrupting signals are over *)
  service_live : K -> D -> Prop;
  live_ok k d : service_ok k d -> service_live k d;
  live_kernel k k' d :
    service_live k d -> os_count (view k') !! service_fd d = os_count (view k) !! service_fd d ->
    service_live k' d;
  make_live k n cap k' d :
    0 <= n -> 0 <= cap -> service_make k n cap = (k', Some d) ->
    service_live k' d /\ (0 <= service_fd d -> ~ is_open (view k) (service_fd d)) /\
    (forall f, 0 <= f -> is_open (view k') f <-> is_open (view k) f \/ f = service_fd d);
  make_throws k n cap k' :
    0 <= n -> 0 <= cap -> service_make k n cap = (k', None) ->
    forall f, 0 <= f -> is_open (view k') f <-> is_open (view k) f;
  destroy_law fuel k d k' :
    service_live k d -> service_destroy fuel k d = Some k' ->
    exists k1, only_counts (view k) (view k1) /\ k' = close_owned k1 (service_fd d);
  destroy_returns fuel k d :
    service_live k d -> (os_signals (view k) < fuel)%nat -> is_Some (service_destroy fuel k d);
  (** only [service_takeCompleted] hands out results *)
  trySubmit_taken k d task : taken (service_trySubmit k d task).1.2 = taken d;
  consume_taken fuel k d k' d' r :
    service_consume fuel k d = Some (k', d', r) -> taken d' = taken d;
  takeCompleted_taken k d k' d' rs :
    service_takeCompleted k d = (k', d', rs) -> taken d' = taken d ++ rs;

  trySubmit_law k d task k' d' st :
    service_ok k d -> service_trySubmit k d task = (k', d', st) ->
    service_ok k' d' /\ service_fd d' = service_fd d /\ only_counts (view k) (view k') /\
    accepted d' = accepted d ++ (if decide (st = Success) then [task] else []) /\
    (st = InvalidTask -> task_client_fd task < 0 \/ task_connection_id task = 0);
  consume_law fuel k d k' d' r :
    service_ok k d -> service_consume fuel k d = Some (k', d', r) ->
    service_ok k' d' /\ service_fd d' = service_fd d /\ only_counts (view k) (view k') /\
    accepted d' = accepted d /\ (read_success r = false -> 0 < read_error_number r);
  consume_returns k d : service_ok k d -> exists fuel, is_Some (service_consume fuel k d);
  consume_mono fuel fuel' k d r :
    (fuel <= fuel')%nat -> service_consume fuel k d = Some r -> service_consume fuel' k d = Some r;
  takeCompleted_law k d k' d' rs :
    service_ok k d -> service_takeCompleted k d = (k', d', rs) ->
    service_ok k' d' /\ service_fd d' = service_fd d /\ only_counts (view k) (view k') /\
    accepted d' = accepted d
}.
