(* ===== verification/DispatcherFinish.v ===== *)
(** * The dispatcher's destructor: [server/processing_dispatcher.hpp]

    [pool_] is the last member, so it is destroyed first: [~ThreadPool] stops
    the pool and waits for the workers, which still publish the results of the
    accepted tasks; only then is the notifier closed. *)

From S2P Require Import Prelude Endian Kernel SimKernel Raii EventFd BoundedQueue ThreadPool.
From S2P Require Import PoolFinish Processing Dispatcher Service.

Section Destructor.
Context `{Host} {K : Type} {KO : Kernel K}.

(** [cs] is the schedule of the threads; [None] says that [fuel] was not enough
    for the workers' notifications. *)
Definition destruct_dispatcher (fuel : nat) (cs : list (Choice ProcessingTask Empty_set))
    (k : K) (d : Dispatcher) : option (K * Shared) :=
  let '(_, w, ph) := destruct_pool ToProcess (publish_run fuel (notifier_ d)) stages_left cs
    (pool_ d, mkWorld k (shared_ d) false []) in
  if decide (ph = Destroyed)
  then Some (destruct_event_fd (kernel_ w) (notifier_ d), memory_ w) else None.

Context {KV : KernelView K} {KL : KernelLaws K}.

Lemma counted_only_counts fd c v v' : counted fd c v v' -> only_counts v v'.
Proof.
  intros (Hs & _ & _ & _ & Hf & Ho & Hi & Hin & Hc). split; [done|].
  destruct v, v'; simpl in *; congruence.
Qed.

Lemma worker_step_view notifier e w o w' :
  world_ok notifier w -> worker_step notifier e w o w' ->
  only_counts (view (kernel_ w)) (view (kernel_ w')) /\
  consumed_ w' = consumed_ w /\ taken_ w' = taken_ w.
Proof.
  intros [Hv Hc] [fuel k s Ep]; simpl; split; [|done].
  destruct e; simpl in Ep; simplify_eq; try apply only_counts_refl.
  destruct (notify fuel _ _ _) as [[k' r]|] eqn:En; simpl in Ep; [|done].
  apply notify_spec in En; [|done|done|lia].
  assert (k = k') as -> by (revert Ep; destruct (_ && _); congruence).
  destruct En as [(_ & _ & _ & Hk)|(_ & Hk & _)]; by eapply counted_only_counts.
Qed.

(** What the workers rely on; a notifier that could not be created is never
    used. *)
Definition world_live (notifier : EventFd) (w : World K) : Prop :=
  EventFd.valid notifier = true -> counting notifier (view (kernel_ w)).

Lemma world_live_step notifier e w o w' :
  world_live notifier w -> worker_step notifier e w o w' ->
  world_live notifier w' /\ only_counts (view (kernel_ w)) (view (kernel_ w')).
Proof.
  intros Hlive Hs. destruct (EventFd.valid notifier) eqn:Hv.
  - assert (Hok : world_ok notifier w) by (split; [done|by apply Hlive]).
    split; [|by eapply worker_step_view]. intros _. by eapply worker_step_ok.
  - assert (Hk : kernel_ w' = kernel_ w).
    { inversion Hs as [fuel k s Ep]; subst; simpl.
      destruct e; simpl in Ep; simplify_eq; try done.
      unfold notify in Ep; rewrite Hv in Ep; simpl in Ep. by injection Ep as <- <- <-. }
    split; [unfold world_live; congruence|rewrite Hk; apply only_counts_refl].
Qed.

Lemma publish_run_total fuel notifier e w :
  world_live notifier w -> (os_signals (view (kernel_ w)) < fuel)%nat ->
  is_Some (publish_run fuel notifier e w).
Proof.
  intros Hlive Hf; unfold publish_run.
  destruct e; simpl; try by eexists.
  destruct (EventFd.valid notifier) eqn:Hv.
  - destruct (notify_total fuel (kernel_ w) notifier 1 Hv (Hlive Hv) ltac:(lia) Hf)
      as (k' & r & En & _).
    rewrite En; simpl. destruct (_ && _); by eexists.
  - unfold notify; rewrite Hv; simpl. by eexists.
Qed.

#[export] Instance kernel_counts_preorder :
  PreOrder (fun w w' : World K => only_counts (view (kernel_ w)) (view (kernel_ w'))).
Proof. split; [intros w; apply only_counts_refl|intros w1 w2 w3; apply only_counts_trans]. Qed.

(** A dispatcher that can be destroyed. *)
Definition dispatcher_live (k : K) (d : Dispatcher) : Prop :=
  pool_wf (pool_ d) /\ workers_ (pool_ d) <> [] /\
  (EventFd.valid (notifier_ d) = true -> counting (notifier_ d) (view k)).

(** What the workers need to go on: also enough fuel for the signals. *)
Definition world_fuelled (notifier : EventFd) (fuel : nat) (w : World K) : Prop :=
  world_live notifier w /\ (os_signals (view (kernel_ w)) < fuel)%nat.

Lemma world_fuelled_step notifier fuel e w o w' :
  world_fuelled notifier fuel w -> worker_step notifier e w o w' -> world_fuelled notifier fuel w'.
Proof.
  intros [Hl Hf] Hs. destruct (world_live_step _ _ _ _ _ Hl Hs) as [? [? _]]. split; [done|lia].
Qed.

Lemma world_fuelled_run notifier fuel e w :
  world_fuelled notifier fuel w -> is_Some (publish_run fuel notifier e w).
Proof. intros [? ?]. by apply publish_run_total. Qed.

Lemma worker_step_fewer notifier (I : World K -> Prop) e w e' w' :
  I w -> worker_step notifier e w (Continues e') w' -> (stages_left e' < stages_left e)%nat.
Proof. intros _. apply worker_step_stages. Qed.

Abbreviation destroy_steps notifier := (rtc (destroy_step ToProcess (worker_step notifier))).

(** Destroying only counts the notifier's counter up. *)
Lemma destroy_steps_counts notifier x x' :
  world_live notifier x.1.2 -> destroy_steps notifier x x' ->
  only_counts (view (kernel_ x.1.2)) (view (kernel_ x'.1.2)).
Proof.
  intros Hl Hs.
  apply (destroy_memory ToProcess stages_left (worker_step notifier) (world_live notifier)
    (fun e g o g' Hg Hw => proj1 (world_live_step _ _ _ _ _ Hg Hw)) (worker_step_fewer notifier _)
    (fun w w' => only_counts (view (kernel_ w)) (view (kernel_ w'))) x x'); auto.
  intros e g o g' Hg Hw. by eapply world_live_step.
Qed.

(** A result is neither lost nor duplicated, and none is taken. *)
Lemma destroy_steps_results notifier x x' :
  destroy_steps notifier x x' ->
  taken_ x'.1.2 = taken_ x.1.2 /\
  completed_ (memory_ x.1.2) ++ in_flight x.1.1 ≡ₚ completed_ (memory_ x'.1.2) ++ in_flight x'.1.1.
Proof.
  induction 1 as [x|x x1 x' Hs _ [Ht IH]]; [done|].
  assert (Htk : taken_ x1.1.2 = taken_ x.1.2).
  { inversion Hs as [? ? Hr|]; subst; [|done]. inversion Hr as [|? ? ? ? _ Hp]; subst; [done|].
    inversion Hp as [|? ? ? ? ? ? ? ? Hw| | | |]; subst; try done. by destruct Hw. }
  split; [congruence|]. rewrite <-IH.
  destruct (destroy_step_pool _ _ (loop_step notifier) _ _ Hs) as (ev & Hp & Hacc).
  destruct x as [[p w] ph], x1 as [[p1 w1] ph1]; simpl in *.
  apply pool_step_results in Hp. rewrite Hacc, Htk in Hp; simpl in Hp.
  by apply Permutation_app_inv_l in Hp.
Qed.

Lemma exited_in_flight p :
  Forall (fun w => w = Exited) (workers_ p) -> queue_ (tasks_ p) = [] -> in_flight p = [].
Proof. intros Hex. apply in_flight_idle. by apply (running_idle Exited). Qed.

(** For every schedule the destructor returns; the last state of the threads. *)
Lemma destroyed_pool fuel cs k d :
  dispatcher_live k d -> (os_signals (view k) < fuel)%nat ->
  exists p w,
    destroy_steps (notifier_ d) (pool_ d, mkWorld k (shared_ d) false [], AtMutex) (p, w, Destroyed) /\
    Forall (fun w => w = Exited) (workers_ p) /\ queue_ (tasks_ p) = [] /\
    destruct_dispatcher fuel cs k d
      = Some (close_owned (kernel_ w) (notificationFd d), memory_ w).
Proof.
  intros (Hwf & Hne & Hlive) Hf. set (s := (pool_ d, mkWorld k (shared_ d) false [])).
  pose proof (destruct_pool_steps ToProcess (publish_run fuel (notifier_ d)) stages_left
    (worker_step (notifier_ d)) (publish_run_sound fuel (notifier_ d)) cs s) as Hs.
  destruct (destruct_pool_returns ToProcess (publish_run fuel (notifier_ d)) stages_left
    (worker_step (notifier_ d)) (world_fuelled (notifier_ d) fuel)
    (publish_run_sound fuel (notifier_ d)) (world_fuelled_step _ _) (worker_step_fewer _ _)
    (world_fuelled_run _ _) cs s Hwf Hne) as [Hph (_ & _ & _ & Hx)]; [by split|].
  unfold destruct_dispatcher. fold s.
  destruct (destruct_pool _ _ _ _ _) as [[p w] ph]; simpl in Hph, Hx; subst ph.
  destruct Hx as (_ & Hq & Hex). exists p, w. split_and!; auto.
  rewrite decide_True by done. unfold destruct_event_fd. by rewrite closeDescriptor_spec.
Qed.

(** Destroying writes to the notifier, if anything, and closes it. *)
Lemma destruct_dispatcher_view fuel cs k d k' s :
  dispatcher_live k d -> destruct_dispatcher fuel cs k d = Some (k', s) ->
  exists k1, only_counts (view k) (view k1) /\ k' = close_owned k1 (notificationFd d).
Proof.
  intros (_ & _ & Hlive). unfold destruct_dispatcher.
  pose proof (destruct_pool_steps ToProcess (publish_run fuel (notifier_ d)) stages_left
    (worker_step (notifier_ d)) (publish_run_sound fuel (notifier_ d)) cs
    (pool_ d, mkWorld k (shared_ d) false [])) as Hs.
  apply destroy_steps_counts in Hs; [|exact Hlive].
  destruct (destruct_pool _ _ _ _ _) as [[p w] ph]; simpl in *.
  case_decide; [|done]. intros; simplify_eq. exists (kernel_ w). split; [done|].
  unfold destruct_event_fd. apply closeDescriptor_spec.
Qed.

Lemma destruct_dispatcher_returns fuel cs k d :
  dispatcher_live k d -> (os_signals (view k) < fuel)%nat ->
  is_Some (destruct_dispatcher fuel cs k d).
Proof.
  intros Hlive Hf. destruct (destroyed_pool fuel cs k d Hlive Hf) as (p & w & _ & _ & _ & ->). eauto.
Qed.

(** Everything in flight ends up in [completed_]. *)
Lemma results_moved notifier p (w w' : World K) p' ph ph' :
  destroy_steps notifier (p, w, ph) (p', w', ph') ->
  Forall (fun w => w = Exited) (workers_ p') -> queue_ (tasks_ p') = [] ->
  taken_ w' = taken_ w /\ completed_ (memory_ w) ++ in_flight p ≡ₚ completed_ (memory_ w').
Proof.
  intros Hs Hex Hq. apply destroy_steps_results in Hs as [Ht Hr]; simpl in *. split; [done|].
  by rewrite Hr, (exited_in_flight p' Hex Hq), app_nil_r.
Qed.

(** A dispatcher in use can be destroyed. *)
Lemma reached_live k spawn n cap k0 d0 h p (w : World K) :
  0 <= n -> 0 <= cap -> make_dispatcher k spawn n cap = (k0, Some d0) ->
  EventFd.valid (notifier_ d0) = true ->
  dispatcher_steps (notifier_ d0) (pool_ d0, first_world k0 d0) h (p, w) ->
  dispatcher_live (kernel_ w) (dispatcher_of (notifier_ d0) p w).
Proof.
  intros Hn Hc Hm Hv Hs.
  pose proof (make_dispatcher_spec _ _ _ _ _ _ Hn Hc Hm) as (Hcomp & _ & Hnew).
  rewrite Hv in Hnew. destruct Hnew as (Hcount & _ & Hpool).
  destruct (dispatcher_steps_due (notifier_ d0) (pool_ d0) (first_world k0 d0) h p w)
    as [[_ Hok] _]; [done|simpl; congruence|done|].
  destruct (make_pool_wf spawn n cap (pool_ d0) Hn Hc (or_introl Hpool)) as (Hwf & _ & _ & _ & Hnew).
  destruct (Hnew Hpool) as (_ & Hlen & Hpos).
  apply dispatcher_steps_pool in Hs as (h' & Hs & _).
  destruct (pool_steps_spec _ _ _ (pool_ d0, first_world k0 d0) _ _ Hwf Hs) as (Hwf' & _ & Hlen' & _); simpl in *.
  split_and!; auto. simpl; intros Enil. unfold workerCount, len in Hlen. rewrite Enil in Hlen'; simpl in Hlen'; lia.
Qed.

(** C10. The destructor loses nothing. Whatever the workers are doing when it is
    called, and however the threads go on, from every state [x] the destruction
    can be in: the destroying thread and the workers can take only finitely many
    steps, spurious wakeups aside; while the destructor has not returned they can take one; nothing is
    done to the kernel but count the notifier up; and when the destructor of the
    pool has returned, every worker has, and the results taken before and those
    left in the deque are the results of all accepted tasks. For every schedule
    the destructor returns, after the pool it closes the notifier, and it
    touches no other descriptor. *)
Theorem destructor_finishes k spawn n cap k0 d0 h p (w : World K) :
  0 <= n -> 0 <= cap -> make_dispatcher k spawn n cap = (k0, Some d0) ->
  EventFd.valid (notifier_ d0) = true ->
  dispatcher_steps (notifier_ d0) (pool_ d0, first_world k0 d0) h (p, w) ->
  (forall x, destroy_steps (notifier_ d0) (p, w, AtMutex) x ->
     (forall j x', nsteps (destroy_run ToProcess (worker_step (notifier_ d0))) j x x' ->
        (j <= destroy_measure ToProcess stages_left x)%nat) /\
     (x.2 <> Destroyed ->
        exists x', destroy_run ToProcess (worker_step (notifier_ d0)) x x') /\
     only_counts (view (kernel_ w)) (view (kernel_ x.1.2)) /\
     (x.2 = Destroyed ->
        Forall (fun w => w = Exited) (workers_ x.1.1) /\
        taken_ w ++ completed_ (memory_ x.1.2) ≡ₚ processFrame <$> ThreadPool.accepted h)) /\
  (forall fuel cs, (os_signals (view (kernel_ w)) < fuel)%nat ->
     exists k1 s,
       destruct_dispatcher fuel cs (kernel_ w) (dispatcher_of (notifier_ d0) p w)
         = Some (close_owned k1 (EventFd.fd (notifier_ d0)), s) /\
       only_counts (view (kernel_ w)) (view k1) /\
       taken_ w ++ completed_ s ≡ₚ processFrame <$> ThreadPool.accepted h).
Proof.
  intros Hn Hc Hmake Hv Hs.
  assert (Hlive : dispatcher_live (kernel_ w) (dispatcher_of (notifier_ d0) p w))
    by exact (reached_live k spawn n cap k0 d0 h p w Hn Hc Hmake Hv Hs).
  pose proof Hlive as (Hwf & Hne & Hlw).
  apply make_dispatcher_spec in Hmake as (Hcomp & Hfl & _); [|done..].
  apply dispatcher_steps_results in Hs; simpl in Hs.
  rewrite Hcomp, Hfl, app_nil_r in Hs. split.
  - intros x Hx. set (fuel := S (os_signals (view (kernel_ w)))).
    assert (H0 : destroying (world_fuelled (notifier_ d0) fuel) (p, w, AtMutex))
      by (split_and!; simpl; auto; split; [done|unfold fuel; lia]).
    pose proof (destroying_steps _ stages_left _ _ (world_fuelled_step _ _) (worker_step_fewer _ _)
      _ _ H0 Hx) as Hd.
    split; [|split; [|split; [by apply (destroy_steps_counts (notifier_ d0) (p, w, AtMutex))|]]].
    + intros j x' Hj. destruct Hd as (_ & _ & HI & _).
      apply (destroy_runs_bounded _ stages_left _ _ (world_fuelled_step _ fuel) (worker_step_fewer _ _))
        in Hj as [_ Hj]; [lia|done].
    + exact (destroying_goes_on _ _ stages_left _ _ (publish_run_sound fuel _)
        (world_fuelled_step _ _) (worker_step_fewer _ _) (world_fuelled_run _ _) x Hd).
    + intros Hph. destruct x as [[p' w'] ph]; simpl in *; subst ph.
      destruct Hd as (_ & _ & _ & _ & Hq & Hex). split; [done|].
      apply results_moved in Hx as [Ht Hr]; [|done..]. by rewrite Hs, Hr.
  - intros fuel cs Hf. destruct (destroyed_pool fuel cs _ _ Hlive Hf) as (p' & w' & Hx & Hex & Hq & E).
    exists (kernel_ w'), (memory_ w'). split; [exact E|].
    pose proof Hx as Hcount. apply destroy_steps_counts in Hcount; [|exact Hlw].
    split; [exact Hcount|].
    apply results_moved in Hx as [_ Hr]; [|done..]. simpl in Hr. by rewrite Hs, Hr.
Qed.
End Destructor.

(** ** A concrete destruction

    Two tasks have been accepted and the worker is between processing the first
    and publishing it when the destructor is called: the queue is closed at
    once, with the second task still in it. *)

Definition busy_choices : list (ProcessingTask + Choice ProcessingTask LoopCall) :=
  [inl task_a; inr (DoLock 0); inr (DoTask 0); inl task_b].

Definition closing_choices : list (Choice ProcessingTask Empty_set) :=
  [DoStop; DoStopStep; DoTask 0; DoStopStep; DoTask 0].

Lemma destructor_finishes_witness :
  exists k0 d0 h p w k1 s,
    make_dispatcher sim_idle (fun _ => true) 1 1 = (k0, Some d0) /\
    dispatcher_exec 3 (notifier_ d0) busy_choices (pool_ d0, first_world k0 d0) []
      = Some (h, (p, w)) /\
    queue_ (tasks_ p) = [task_b] /\
    destruct_dispatcher 3 closing_choices (kernel_ w) (dispatcher_of (notifier_ d0) p w)
      = Some (close_owned k1 (EventFd.fd (notifier_ d0)), s) /\
    completed_ s ≡ₚ processFrame <$> [task_a; task_b].
Proof.
  destruct (make_dispatcher sim_idle (fun _ => true) 1 1) as [k0 [d0|]] eqn:E;
    [|by vm_compute in E].
  destruct (dispatcher_exec 3 (notifier_ d0) busy_choices (pool_ d0, first_world k0 d0) [])
    as [[h [p w]]|] eqn:Ex; [|vm_compute in E; injection E as <- <-; by vm_compute in Ex].
  pose proof (dispatcher_exec_sound 3 _ _ _ _ _ _ _ (dispatcher_nil _ _) Ex) as Hs.
  assert (Hv : EventFd.valid (notifier_ d0) = true /\ (os_signals (view (kernel_ w)) < 3)%nat /\
    taken_ w = [] /\ ThreadPool.accepted h = [task_a; task_b] /\ queue_ (tasks_ p) = [task_b])
    by (vm_compute in E; injection E as <- <-; vm_compute in Ex; injection Ex as <- <- <-;
        repeat split; simpl; lia).
  destruct Hv as (Hv & Hf & Ht & Ha & Hq).
  destruct (destructor_finishes sim_idle (fun _ => true) 1 1 k0 d0 h p w
    ltac:(lia) ltac:(lia) E Hv Hs) as [_ Hd].
  destruct (Hd 3%nat closing_choices Hf) as (k1 & s & Ed & _ & Hr).
  exists k0, d0, h, p, w, k1, s. rewrite Ht, Ha in Hr.
  split; [reflexivity|]. split; [exact Ex|]. split; [exact Hq|]. split; [exact Ed|exact Hr].
Defined.
