(* ===== verification/Scheduled.v ===== *)
(** * The dispatcher as a service of the event loop

    [Dispatcher] with the threads' scheduling made explicit: at every call of
    the event loop the workers first take the steps the schedule holds for it.
    The interface [Service] holds for every schedule. *)

From S2P Require Import Prelude Endian Kernel EventFd BoundedQueue ThreadPool Processing.
From S2P Require Import Dispatcher Service Raii DispatcherFinish.

Record Scheduled := mkScheduled {
  dispatcher : Dispatcher;
  consumed : bool;
  taken_so_far : list ProcessingResult;
  accepted_so_far : list ProcessingTask;
  (** the steps of the workers before each of the next calls *)
  schedule : list (list (Choice ProcessingTask LoopCall));
  (** fuel of the workers' notifications *)
  notify_fuel : nat
}.

Definition only_worker (c : Choice ProcessingTask LoopCall) : bool :=
  match c with DoSubmit _ | DoMemory _ => false | _ => true end.

Section Operations.
Context `{Host} {K : Type} {KO : Kernel K} {KV : KernelView K} {KL : KernelLaws K}.

Definition world_of (k : K) (s : Scheduled) : World K :=
  mkWorld k (shared_ (dispatcher s)) (consumed s) (taken_so_far s).

(** One step of the workers, if it is possible. *)
Definition work_step (c : Choice ProcessingTask LoopCall) (k : K) (s : Scheduled) : K * Scheduled :=
  let d := dispatcher s in
  if only_worker c then
    match choose ToProcess (publish_run (notify_fuel s) (notifier_ d))
            (fun (_ : LoopCall) (_ : World K) => None) c (pool_ d, world_of k s) with
    | Some (_, (p, w)) =>
        (kernel_ w, mkScheduled (mkDispatcher (notifier_ d) (memory_ w) p) (consumed s)
                      (taken_so_far s) (accepted_so_far s) (schedule s) (notify_fuel s))
    | None => (k, s)
    end
  else (k, s).

Fixpoint work_steps (cs : list (Choice ProcessingTask LoopCall)) (k : K) (s : Scheduled) :
    K * Scheduled :=
  match cs with
  | [] => (k, s)
  | c :: cs => let '(k, s) := work_step c k s in work_steps cs k s
  end.

(** The workers' steps before a call. *)
Definition work (k : K) (s : Scheduled) : K * Scheduled :=
  match schedule s with
  | [] => (k, s)
  | cs :: rest =>
      work_steps cs k (mkScheduled (dispatcher s) (consumed s) (taken_so_far s)
                         (accepted_so_far s) rest (notify_fuel s))
  end.

Definition scheduled_trySubmit (k : K) (s : Scheduled) (task : ProcessingTask) :
    K * Scheduled * SubmitStatus :=
  let '(k, s) := work k s in
  let '(d, st) := trySubmit (dispatcher s) task in
  (k, mkScheduled d (consumed s) (taken_so_far s)
        (accepted_so_far s ++ (if decide (st = Success) then [task] else []))
        (schedule s) (notify_fuel s), st).

Definition scheduled_consume (fuel : nat) (k : K) (s : Scheduled) :
    option (K * Scheduled * EventFdReadResult) :=
  let '(k, s) := work k s in
  '(k, r) ← consumeNotifications fuel k (dispatcher s);
  Some (k, mkScheduled (dispatcher s) (consumed s || read_success r) (taken_so_far s)
             (accepted_so_far s) (schedule s) (notify_fuel s), r).

Definition scheduled_take (k : K) (s : Scheduled) : K * Scheduled * list ProcessingResult :=
  let '(k, s) := work k s in
  let d := dispatcher s in
  let '(sh, rs) := takeCompleted (shared_ d) in
  (k, mkScheduled (mkDispatcher (notifier_ d) sh (pool_ d)) false (taken_so_far s ++ rs)
        (accepted_so_far s) (schedule s) (notify_fuel s), rs).

(** [sched] is the schedule and the fuel a new service runs with. *)
Definition scheduled_make (sched : list (list (Choice ProcessingTask LoopCall)) * nat)
    (k : K) (worker_count task_queue_capacity : Z) : K * option Scheduled :=
  let '(k, d) := make_dispatcher k (fun _ => true) worker_count task_queue_capacity in
  (k, d ← d; Some (mkScheduled d false [] [] sched.1 sched.2)).

(** The choice of a schedule as one of a destruction, in which the event loop's
    thread is in the destructor. *)
Definition destruction_choice (c : Choice ProcessingTask LoopCall) :
    list (Choice ProcessingTask Empty_set) :=
  match c with
  | DoLock i => [DoLock i]
  | DoTask i => [DoTask i]
  | DoNotify sleeper => [DoNotify sleeper]
  | DoStopStep => [DoStopStep]
  | DoStop => [DoStop]
  | DoSpurious i => [DoSpurious i]
  | DoSubmit _ | DoMemory _ => []
  end.

(** The workers' steps before the destructor, and the destructor, in which the
    threads take the steps the schedule holds for one more call first. *)
Definition scheduled_destroy (fuel : nat) (k : K) (s : Scheduled) : option K :=
  let '(k, s) := work k s in
  let cs := hd [] (schedule s) ≫= destruction_choice in
  fst <$> destruct_dispatcher fuel cs k (dispatcher s).

Definition scheduled_service sched : Service K Scheduled := {|
  service_make := scheduled_make sched;
  service_valid s := valid (dispatcher s);
  service_errorNumber s := errorNumber (dispatcher s);
  service_fd s := notificationFd (dispatcher s);
  service_trySubmit := scheduled_trySubmit;
  service_consume := scheduled_consume;
  service_takeCompleted := scheduled_take;
  service_destroy := scheduled_destroy
|}.

(** ** The laws *)

(** The dispatcher was constructed with a usable notifier and has run since. *)
Definition scheduled_ok (k : K) (s : Scheduled) : Prop :=
  exists k0 k1 spawn n cap d0 h,
    0 <= n /\ 0 <= cap /\ make_dispatcher k0 spawn n cap = (k1, Some d0) /\
    EventFd.valid (notifier_ d0) = true /\ notifier_ (dispatcher s) = notifier_ d0 /\
    dispatcher_steps (notifier_ d0) (pool_ d0, first_world k1 d0) h
      (pool_ (dispatcher s), world_of k s) /\
    ThreadPool.accepted h = accepted_so_far s.

Lemma scheduled_step k s k' s' ev :
  scheduled_ok k s -> notifier_ (dispatcher s') = notifier_ (dispatcher s) ->
  dispatcher_step (notifier_ (dispatcher s)) (pool_ (dispatcher s), world_of k s) ev
    (pool_ (dispatcher s'), world_of k' s') ->
  accepted_so_far s' = accepted_so_far s ++ accepted_of ev ->
  scheduled_ok k' s'.
Proof.
  intros (k0 & k1 & spawn & n & cap & d0 & h & Hn & Hc & Hm & Hv & Hd & Hs & Ha) Hn' Hstep Ha'.
  exists k0, k1, spawn, n, cap, d0, (h ++ [ev]). split_and!; auto; [congruence| |].
  - eapply dispatcher_snoc; [exact Hs|]. by rewrite <-Hd.
  - unfold ThreadPool.accepted in *. rewrite bind_app, Ha, Ha'; simpl. by rewrite app_nil_r.
Qed.

Lemma scheduled_world k s : scheduled_ok k s -> world_ok (notifier_ (dispatcher s)) (world_of k s).
Proof.
  intros (k0 & k1 & spawn & n & cap & d0 & h & Hn & Hc & Hm & Hv & -> & Hs & _).
  pose proof (make_dispatcher_spec _ _ _ _ _ _ Hn Hc Hm) as (Hcomp & _ & Hnew).
  rewrite Hv in Hnew. destruct Hnew as (Hcount & _).
  destruct (dispatcher_steps_due (notifier_ d0) (pool_ d0) (first_world k1 d0) h
    (pool_ (dispatcher s)) (world_of k s)) as [Hok _]; [done|simpl; congruence|done|exact Hok].
Qed.

(** A step of the workers is a step of the dispatcher that submits nothing. *)
Lemma choose_worker n notifier c p w ev p' w' :
  only_worker c = true ->
  choose ToProcess (publish_run n notifier) (fun (_ : LoopCall) (_ : World K) => None) c (p, w)
    = Some (ev, (p', w')) ->
  dispatcher_step notifier (p, w) ev (p', w') /\ accepted_of ev = [] /\
  (w' = w \/ exists e o, worker_step notifier e w o w').
Proof.
  intros Hc E.
  pose proof (choose_sound ToProcess (publish_run n notifier)
    (fun (_ : LoopCall) (_ : World K) => None) (worker_step notifier) (loop_step notifier)
    (publish_run_sound n notifier) ltac:(done) c (p, w) ev (p', w') E) as Hstep.
  assert (Hno : forall task st, ev <> Submitted task st).
  { intros task st ->. by apply choose_submitted in E as ->. }
  split; [by constructor|]. split.
  - destruct ev; try done. by destruct (Hno task st).
  - clear Hstep Hno. destruct c as [i|i|i| |task| |i|x]; simpl in E; try done.
    + destruct (workers_ p !! i) as [[| | |]|]; try done.
      destruct (worker_lock _ _); simplify_eq; auto.
    + destruct (workers_ p !! i) as [[| |t e|]|]; try done.
      destruct (publish_run n notifier e w) as [[o w1]|] eqn:Ep; simpl in E; simplify_eq.
      right; exists e, o. by eapply publish_run_sound.
    + destruct (sleeper_of i (workers_ p)), (notifying p); simplify_eq; auto.
    + destruct (stop_phase p); simplify_eq; auto. destruct (forallb _ _); simplify_eq; auto.
    + destruct (stop_phase p); simplify_eq; auto.
    + destruct (workers_ p !! i) as [[| | |]|]; simplify_eq; auto.
Qed.

Definition unchanged (s s' : Scheduled) : Prop :=
  notifier_ (dispatcher s') = notifier_ (dispatcher s) /\ consumed s' = consumed s /\
  taken_so_far s' = taken_so_far s /\ accepted_so_far s' = accepted_so_far s.

Lemma work_step_unchanged c k s k' s' : work_step c k s = (k', s') -> unchanged s s'.
Proof.
  unfold work_step, unchanged. destruct (only_worker c); [|intros; by simplify_eq].
  destruct (choose _ _ _ _ _) as [[ev [p w]]|]; intros; by simplify_eq.
Qed.

Lemma work_step_ok c k s k' s' :
  scheduled_ok k s -> work_step c k s = (k', s') ->
  scheduled_ok k' s' /\ only_counts (view k) (view k').
Proof.
  intros Hok; unfold work_step.
  destruct (only_worker c) eqn:Hc; [|intros; simplify_eq; split; [done|apply only_counts_refl]].
  destruct (choose _ _ _ _ _) as [[ev [p w]]|] eqn:E;
    [|intros; simplify_eq; split; [done|apply only_counts_refl]].
  apply choose_worker in E as (Hstep & Hev & Hw); [|done].
  assert (Hkeep : only_counts (view k) (view (kernel_ w)) /\
    consumed_ w = consumed s /\ taken_ w = taken_so_far s).
  { destruct Hw as [->|(e & o & Hw)]; [split; [apply only_counts_refl|done]|].
    exact (worker_step_view _ _ _ _ _ (scheduled_world _ _ Hok) Hw). }
  destruct Hkeep as (Hv & Hcons & Htk). intros; simplify_eq. split; [|done].
  apply (scheduled_step k s _ _ ev Hok); simpl; [done| |by rewrite Hev, app_nil_r].
  unfold world_of at 2; simpl. rewrite <-Hcons, <-Htk. by destruct w.
Qed.

Lemma work_steps_ok cs k s k' s' :
  work_steps cs k s = (k', s') ->
  unchanged s s' /\
  (scheduled_ok k s -> scheduled_ok k' s' /\ only_counts (view k) (view k')).
Proof.
  revert k s; induction cs as [|c cs IH]; intros k s; simpl.
  { intros; simplify_eq. split; [done|]. split; [done|apply only_counts_refl]. }
  destruct (work_step c k s) as [k1 s1] eqn:Ec. intros [(? & ? & ? & ?) Hok']%IH.
  pose proof (work_step_unchanged _ _ _ _ _ Ec) as (? & ? & ? & ?).
  split; [split_and!; congruence|]. intros Hok.
  destruct (work_step_ok _ _ _ _ _ Hok Ec) as [Hok1 Hv1]. destruct (Hok' Hok1).
  split; [done|by eapply only_counts_trans].
Qed.

Lemma work_ok k s k' s' :
  work k s = (k', s') ->
  unchanged s s' /\
  (scheduled_ok k s -> scheduled_ok k' s' /\ only_counts (view k) (view k')).
Proof.
  unfold work. destruct (schedule s) as [|cs rest].
  - intros; simplify_eq. split; [done|]. split; [done|apply only_counts_refl].
  - intros E%work_steps_ok. exact E.
Qed.

Lemma scheduled_make_ok sched k n cap k' s :
  0 <= n -> 0 <= cap -> scheduled_make sched k n cap = (k', Some s) ->
  valid (dispatcher s) = true ->
  scheduled_ok k' s /\ accepted_so_far s = [] /\ taken_so_far s = [] /\
  0 <= notificationFd (dispatcher s) /\ ~ is_open (view k) (notificationFd (dispatcher s)) /\
  (forall f, is_open (view k') f <-> is_open (view k) f \/ f = notificationFd (dispatcher s)) /\
  os_interest (view k') = os_interest (view k) /\ os_clients (view k') = os_clients (view k).
Proof.
  intros Hn Hc; unfold scheduled_make. destruct (make_dispatcher _ _ _ _) as [k1 [d|]] eqn:Em; simpl;
    [|done]. intros Es Hv; simplify_eq; simpl in *.
  unfold valid in Hv; apply andb_true_iff in Hv as [Hv _].
  pose proof Em as Em'. unfold make_dispatcher in Em'.
  destruct (default_event_fd k) as [k2 e] eqn:Ee. apply default_event_fd_spec in Ee.
  destruct (make_pool _ n cap) as [|p|p]; [done|done|]. injection Em' as -> Ed.
  assert (Hne : notifier_ d = e) by (rewrite <-Ed; by destruct (negb _)).
  rewrite Hne in Hv. rewrite Hv in Ee.
  destruct Ee as (_ & _ & _ & Hno & f & Ev). unfold notificationFd, fd. rewrite Hne.
  split_and!; auto.
  - exists k, k', (fun _ => true), n, cap, d, []. rewrite Hne. split_and!; auto. constructor.
  - unfold EventFd.valid in Hv; lia.
  - intros f'; rewrite Ev; unfold is_open; simpl. rewrite lookup_insert_is_Some'. intuition.
  - by rewrite Ev.
  - by rewrite Ev.
Qed.

Lemma scheduled_trySubmit_ok k s task k' s' st :
  scheduled_trySubmit k s task = (k', s', st) ->
  taken_so_far s' = taken_so_far s /\
  (scheduled_ok k s ->
   scheduled_ok k' s' /\ notifier_ (dispatcher s') = notifier_ (dispatcher s) /\
   only_counts (view k) (view k') /\
   accepted_so_far s' = accepted_so_far s ++ (if decide (st = Success) then [task] else []) /\
   (st = InvalidTask -> task_client_fd task < 0 \/ task_connection_id task = 0)).
Proof.
  unfold scheduled_trySubmit. destruct (work k s) as [k1 s1] eqn:Ew.
  apply work_ok in Ew as [(Hn & Hcons & Htk & Hacc) Hw].
  destruct (trySubmit (dispatcher s1) task) as [d st'] eqn:Et. intros; simplify_eq; simpl.
  split; [done|]. intros [Hok1 Hv]%Hw.
  destruct (trySubmit_keeps _ _ _ _ Et) as (Hnd & Hsh & Hinv).
  split_and!; auto; try congruence.
  apply (scheduled_step k' s1 _ _ (Submitted (Some task) st) Hok1); simpl; [done| |by destruct st].
  unfold world_of; simpl. rewrite Hsh. by apply step_trySubmit; destruct s1 as [[]].
Qed.

Lemma scheduled_consume_ok fuel k s k' s' r :
  scheduled_consume fuel k s = Some (k', s', r) ->
  taken_so_far s' = taken_so_far s /\
  (scheduled_ok k s ->
   scheduled_ok k' s' /\ notifier_ (dispatcher s') = notifier_ (dispatcher s) /\
   only_counts (view k) (view k') /\ accepted_so_far s' = accepted_so_far s /\
   (read_success r = false -> 0 < read_error_number r)).
Proof.
  unfold scheduled_consume. destruct (work k s) as [k1 s1] eqn:Ew.
  apply work_ok in Ew as [(Hn & Hcons & Htk & Hacc) Hw].
  destruct (consumeNotifications fuel k1 _) as [[k2 r']|] eqn:Ec; simpl; [|done].
  intros; simplify_eq; simpl. split; [done|]. intros [Hok1 Hv]%Hw.
  pose proof (scheduled_world _ _ Hok1) as [Hval Hcount].
  pose proof (consume_spec _ _ _ _ _ Hval Hcount Ec) as Ho.
  assert (Hv2 : only_counts (view k1) (view k') /\ (read_success r = false -> 0 < read_error_number r)).
  { destruct Ho as [(Hs & _ & _ & _ & Hk)|(_ & _ & Hk & ? & _)];
      (split; [by eapply counted_only_counts|]); [congruence|done]. }
  destruct Hv2 as [Hv2 Herr]. split_and!; auto; [|by eapply only_counts_trans].
  apply (scheduled_step k1 s1 _ _ Internal Hok1); simpl; [done| |by rewrite app_nil_r].
  apply step_pool; [|done]. by apply step_memory, (loop_consumes _ (world_of k1 s1) fuel).
Qed.

Lemma scheduled_take_ok k s k' s' rs :
  scheduled_take k s = (k', s', rs) ->
  taken_so_far s' = taken_so_far s ++ rs /\
  (scheduled_ok k s ->
   scheduled_ok k' s' /\ notifier_ (dispatcher s') = notifier_ (dispatcher s) /\
   only_counts (view k) (view k') /\ accepted_so_far s' = accepted_so_far s).
Proof.
  unfold scheduled_take. destruct (work k s) as [k1 s1] eqn:Ew.
  apply work_ok in Ew as [(Hn & Hcons & Htk & Hacc) Hw].
  destruct (takeCompleted (shared_ (dispatcher s1))) as [sh rs'] eqn:Et.
  intros; simplify_eq; simpl. split; [congruence|]. intros [Hok1 Hv]%Hw. split_and!; auto.
  apply (scheduled_step k' s1 _ _ Internal Hok1); simpl; [done| |by rewrite app_nil_r].
  apply step_pool; [|done]. by apply step_memory, (loop_takes _ (world_of k' s1)).
Qed.

Lemma scheduled_consume_returns k s :
  scheduled_ok k s -> exists fuel, is_Some (scheduled_consume fuel k s).
Proof.
  intros Hok. unfold scheduled_consume. destruct (work k s) as [k1 s1] eqn:Ew.
  apply work_ok in Ew as [_ Hw]. destruct (Hw Hok) as [Hok1 _].
  pose proof (scheduled_world _ _ Hok1) as [Hval Hcount].
  destruct (consume_total (S (os_signals (view k1))) k1 _ Hval Hcount ltac:(simpl; lia))
    as (k2 & r & E & _).
  eexists; unfold consumeNotifications; rewrite E; simpl; eauto.
Qed.

Lemma scheduled_consume_mono fuel fuel' k s r :
  (fuel <= fuel')%nat -> scheduled_consume fuel k s = Some r -> scheduled_consume fuel' k s = Some r.
Proof.
  intros Hle. unfold scheduled_consume, consumeNotifications, consume.
  destruct (work k s) as [k1 s1]. destruct (negb _); [done|].
  destruct (loop _ fuel _) as [x|] eqn:E; [|done]. by rewrite (loop_mono _ _ _ _ _ Hle E).
Qed.

Lemma scheduled_ok_kernel k k' s :
  scheduled_ok k s ->
  os_count (view k') !! notificationFd (dispatcher s)
    = os_count (view k) !! notificationFd (dispatcher s) ->
  scheduled_ok k' s.
Proof.
  intros Hok Hcount. apply (scheduled_step k s k' s Internal Hok); [done| |].
  - apply step_pool; [|done]. by apply step_memory, (loop_other _ (world_of k s)).
  - simpl. by rewrite app_nil_r.
Qed.

Lemma scheduled_answers k s :
  scheduled_ok k s -> taken_so_far s ⊆+ (processFrame <$> accepted_so_far s).
Proof.
  intros (k0 & k1 & spawn & n & cap & d0 & h & Hn & Hc & Hm & Hv & Hd & Hs & <-).
  pose proof (make_dispatcher_spec _ _ _ _ _ _ Hn Hc Hm) as (Hcomp & Hfl & _).
  apply dispatcher_steps_results in Hs; simpl in Hs. rewrite Hcomp, Hfl, app_nil_r in Hs.
  rewrite Hs. by apply submseteq_inserts_r.
Qed.

Lemma same_notifier s s' :
  notifier_ (dispatcher s') = notifier_ (dispatcher s) ->
  notificationFd (dispatcher s') = notificationFd (dispatcher s).
Proof. unfold notificationFd; by intros ->. Qed.

(** ** Construction and destruction *)

Lemma make_dispatcher_live k spawn n cap k' d :
  0 <= n -> 0 <= cap -> make_dispatcher k spawn n cap = (k', Some d) ->
  dispatcher_live k' d /\ (0 <= notificationFd d -> ~ is_open (view k) (notificationFd d)) /\
  (forall f, 0 <= f -> is_open (view k') f <-> is_open (view k) f \/ f = notificationFd d).
Proof.
  intros Hn Hc. unfold make_dispatcher, notificationFd, EventFd.fd.
  destruct (default_event_fd k) as [k1 e] eqn:Ee. apply default_event_fd_spec in Ee.
  destruct (make_pool spawn n cap) as [|p|p] eqn:Ep; [done|done|].
  destruct (make_pool_wf spawn n cap p Hn Hc (or_introl Ep)) as (Hwf & _ & _ & _ & Hnew).
  destruct (Hnew Ep) as (_ & Hlen & Hpos).
  assert (Hne : workers_ p <> []) by (intros Enil; unfold workerCount, len in Hlen;
    rewrite Enil in Hlen; simpl in Hlen; lia).
  assert (Hph : stop_phase p = NotStopping).
  { unfold make_pool in Ep. destruct (make_queue cap); [|done]. destruct (n =? 0); [done|].
    destruct (threads_max <? n); [done|]. destruct (start_workers spawn 0 _) as [ws []]; by simplify_eq. }
  intros E; injection E as -> <-.
  unfold EventFd.valid in *. destruct (0 <=? EventFd.fd_ e) eqn:Hv; zbool; simpl.
  - destruct Ee as (Hcount & _ & _ & Hno & fl & Ev). split_and!; auto; [by split|].
    intros f _. rewrite Ev; unfold is_open; simpl. rewrite lookup_insert_is_Some'. intuition.
  - destruct Ee as [_ ->]. split_and!; [split; [|split; [done|]]|lia|intuition lia].
    + by apply stop_steps_wf.
    + unfold EventFd.valid; simpl; lia.
Qed.

Lemma make_dispatcher_throws k spawn n cap k' :
  make_dispatcher k spawn n cap = (k', None) ->
  forall f, 0 <= f -> is_open (view k') f <-> is_open (view k) f.
Proof.
  unfold make_dispatcher. destruct (default_event_fd k) as [k1 e] eqn:Ee.
  apply default_event_fd_spec in Ee.
  assert (Hclosed : forall f, 0 <= f ->
    is_open (view (destruct_event_fd k1 e)) f <-> is_open (view k) f).
  { intros f Hf. unfold destruct_event_fd. rewrite closeDescriptor_spec, close_owned_open.
    unfold EventFd.valid in Ee. destruct (0 <=? EventFd.fd_ e) eqn:Hv; zbool.
    - destruct Ee as (_ & _ & _ & Hno & fl & ->). unfold is_open in *; simpl.
      rewrite lookup_insert_is_Some'. split; [|intros Hf'; split; [by right|left; by intros ->]].
      intros [[<-|?] [?|?]]; try done; lia.
    - destruct Ee as [_ ->]. split; [by intros [? _]|intros ?; split; [done|by right]]. }
  destruct (make_pool spawn n cap); intros; by simplify_eq; apply Hclosed.
Qed.

Lemma scheduled_is_live k s : scheduled_ok k s -> dispatcher_live k (dispatcher s).
Proof.
  intros (k0 & k1 & spawn & n & cap & d0 & h & Hn & Hc & Hm & Hv & Hd & Hs & _).
  destruct (reached_live _ _ _ _ _ _ _ _ _ Hn Hc Hm Hv Hs) as (? & ? & Hl); simpl in *.
  unfold dispatcher_live. by rewrite Hd.
Qed.

Lemma dispatcher_live_kernel k k' d :
  dispatcher_live k d ->
  os_count (view k') !! notificationFd d = os_count (view k) !! notificationFd d ->
  dispatcher_live k' d.
Proof.
  unfold dispatcher_live, notificationFd, EventFd.fd, counting, counter.
  intros (? & ? & Hl) ->. auto.
Qed.

(** The workers' steps keep a dispatcher that can be destroyed. *)
Lemma work_step_live c k s k' s' :
  dispatcher_live k (dispatcher s) -> work_step c k s = (k', s') ->
  dispatcher_live k' (dispatcher s') /\ notifier_ (dispatcher s') = notifier_ (dispatcher s) /\
  only_counts (view k) (view k').
Proof.
  intros (Hwf & Hne & Hl). unfold work_step.
  destruct (only_worker c) eqn:Hc; [|intros; simplify_eq; split_and!; auto using only_counts_refl; done].
  destruct (choose _ _ _ _ _) as [[ev [p w]]|] eqn:E;
    [|intros; simplify_eq; split_and!; auto using only_counts_refl; done].
  intros; simplify_eq; simpl.
  pose proof (choose_sound ToProcess (publish_run (notify_fuel s) (notifier_ (dispatcher s)))
    (fun (_ : LoopCall) (_ : World K) => None) (worker_step (notifier_ (dispatcher s)))
    (loop_step (notifier_ (dispatcher s))) (publish_run_sound _ _) ltac:(done) c _ ev (p, w) E) as Hstep.
  destruct (pool_step_spec _ _ _ _ _ _ _ _ Hwf Hstep) as (Hwf' & _ & Hlen & _).
  apply choose_worker in E as (_ & _ & Hw); [|done].
  assert (Hkeep : world_live (notifier_ (dispatcher s)) w /\ only_counts (view k) (view (kernel_ w))).
  { destruct Hw as [->|(e & o & Hw)]; [split; [exact Hl|apply only_counts_refl]|].
    by apply world_live_step in Hw. }
  destruct Hkeep as [Hl' Hv]. split_and!; auto. split_and!; auto; simpl.
  intros Enil; rewrite Enil in Hlen. by destruct (workers_ (pool_ (dispatcher s))).
Qed.

Lemma work_live k s k' s' :
  dispatcher_live k (dispatcher s) -> work k s = (k', s') ->
  dispatcher_live k' (dispatcher s') /\ notifier_ (dispatcher s') = notifier_ (dispatcher s) /\
  only_counts (view k) (view k').
Proof.
  unfold work. destruct (schedule s) as [|cs rest].
  { intros; simplify_eq. split_and!; auto using only_counts_refl. }
  set (s0 := mkScheduled _ _ _ _ _ _). intros Hl.
  assert (Hl0 : dispatcher_live k (dispatcher s0)) by exact Hl.
  change (notifier_ (dispatcher s)) with (notifier_ (dispatcher s0)).
  clearbody s0. clear Hl. revert k s0 Hl0.
  induction cs as [|c cs IH]; intros k s0 Hl0; simpl.
  { intros; simplify_eq. split_and!; auto using only_counts_refl. }
  destruct (work_step c k s0) as [k1 s1] eqn:Ec.
  apply work_step_live in Ec as (Hl1 & Hn1 & Hv1); [|done].
  intros (? & Hn2 & Hv2)%IH; [|done]. split_and!; auto; [congruence|by eapply only_counts_trans].
Qed.

Lemma scheduled_destroy_ok fuel k s k' :
  dispatcher_live k (dispatcher s) -> scheduled_destroy fuel k s = Some k' ->
  exists k1, only_counts (view k) (view k1) /\ k' = close_owned k1 (notificationFd (dispatcher s)).
Proof.
  intros Hl; unfold scheduled_destroy. destruct (work k s) as [k1 s1] eqn:Ew.
  apply work_live in Ew as (Hl1 & Hn1 & Hv1); [|done].
  destruct (destruct_dispatcher fuel _ k1 (dispatcher s1)) as [[k2 sh]|] eqn:Ed; simpl; [|done].
  intros; simplify_eq. apply destruct_dispatcher_view in Ed as (k3 & Hv3 & ->); [|done].
  exists k3. split; [by eapply only_counts_trans|]. unfold notificationFd; by rewrite Hn1.
Qed.

Lemma scheduled_destroy_returns fuel k s :
  dispatcher_live k (dispatcher s) -> (os_signals (view k) < fuel)%nat ->
  is_Some (scheduled_destroy fuel k s).
Proof.
  intros Hl Hf; unfold scheduled_destroy. destruct (work k s) as [k1 s1] eqn:Ew.
  apply work_live in Ew as (Hl1 & _ & [Hs1 _]); [|done].
  destruct (destruct_dispatcher_returns fuel (hd [] (schedule s1) ≫= destruction_choice)
    k1 (dispatcher s1) Hl1 ltac:(lia)) as [[k2 sh] E].
  rewrite E; simpl; eauto.
Qed.

(** The interface, discharged for every schedule. *)
#[export] Instance scheduled_laws sched :
  ServiceLaws (SO := scheduled_service sched) K Scheduled.
Proof.
  refine {| accepted := accepted_so_far : Scheduled -> _; taken := taken_so_far : Scheduled -> _;
            service_ok := scheduled_ok;
            service_live := fun k s => dispatcher_live k (dispatcher s) |}.
  - exact scheduled_ok_kernel.
  - exact scheduled_answers.
  - exact (scheduled_make_ok sched).
  - exact scheduled_is_live.
  - intros k k' s. apply dispatcher_live_kernel.
  - intros k n cap k' s Hn Hc; simpl; unfold scheduled_make.
    destruct (make_dispatcher _ _ _ _) as [k1 [d|]] eqn:Em; simpl; [|done].
    intros; simplify_eq; simpl. by apply (make_dispatcher_live _ _ _ _ _ _ Hn Hc Em).
  - intros k n cap k' Hn Hc; simpl; unfold scheduled_make.
    destruct (make_dispatcher _ _ _ _) as [k1 [d|]] eqn:Em; simpl; [done|].
    intros; simplify_eq. by apply (make_dispatcher_throws _ _ _ _ _ Em).
  - intros fuel k s k'. apply scheduled_destroy_ok.
  - intros fuel k s. apply scheduled_destroy_returns.
  - intros k s task. simpl. destruct (scheduled_trySubmit k s task) as [[k' s'] st] eqn:E.
    by apply scheduled_trySubmit_ok in E as [? _].
  - intros fuel k s k' s' r E. by apply scheduled_consume_ok in E as [? _].
  - intros k s k' s' rs E. by apply scheduled_take_ok in E as [? _].
  - intros k s task k' s' st Hok E. apply scheduled_trySubmit_ok in E as [_ E].
    destruct (E Hok) as (? & Hn & ?). split; [done|split; [by apply same_notifier|done]].
  - intros fuel k s k' s' r Hok E. apply scheduled_consume_ok in E as [_ E].
    destruct (E Hok) as (? & Hn & ?). split; [done|split; [by apply same_notifier|done]].
  - exact scheduled_consume_returns.
  - exact scheduled_consume_mono.
  - intros k s k' s' rs Hok E. apply scheduled_take_ok in E as [_ E].
    destruct (E Hok) as (? & Hn & ?). split; [done|split; [by apply same_notifier|done]].
Defined.
End Operations.
