(* ===== verification/Streams.v ===== *)
(** * The clients' streams

    What the clients send, taken together: the client with id [i] is the
    [i]-th one that is accepted, so its bytes are the [i]-th of the streams
    still to come when the loop starts.  Here is how many tasks such streams
    can amount to. *)

From S2P Require Import Prelude Endian SimKernel Frame FrameDecoder Processing.

Definition total (streams : list bytes) : Z := foldr (fun s n => len s + n) 0 streams.

(** The tasks of one connection, and their frames. *)
Definition of_id (i : ConnectionId) (ts : list ProcessingTask) : list ProcessingTask :=
  filter (fun t => task_connection_id t = i) ts.
Definition tasks_of (i : ConnectionId) (ts : list ProcessingTask) : list bytes :=
  task_payload <$> of_id i ts.

(** [ts] are the first frames of [stream], or of a part of it. *)
Definition stream_tasks (stream : bytes) (ts : list bytes) : Prop :=
  exists data fs rest st, data `prefix_of` stream /\ parses data fs rest st /\ ts `prefix_of` fs.

Lemma of_id_app i ts1 ts2 : of_id i (ts1 ++ ts2) = of_id i ts1 ++ of_id i ts2.
Proof. apply filter_app. Qed.

Lemma of_id_snoc_ne i t ts : task_connection_id t <> i -> of_id i (ts ++ [t]) = of_id i ts.
Proof.
  intros Hne. rewrite of_id_app. unfold of_id at 2.
  by rewrite filter_cons_False, filter_nil, app_nil_r.
Qed.

Lemma of_id_snoc t ts :
  of_id (task_connection_id t) (ts ++ [t]) = of_id (task_connection_id t) ts ++ [t].
Proof. rewrite of_id_app. unfold of_id at 2. by rewrite filter_cons_True, filter_nil. Qed.

Lemma tasks_of_snoc t ts :
  tasks_of (task_connection_id t) (ts ++ [t]) = tasks_of (task_connection_id t) ts ++ [task_payload t].
Proof. unfold tasks_of. by rewrite of_id_snoc, fmap_app. Qed.

Lemma of_id_none i ts : (forall t, t ∈ ts -> task_connection_id t <> i) -> of_id i ts = [].
Proof.
  intros Hno; apply elem_of_nil_inv; intros t [Hi Ht]%list_elem_of_filter. by apply (Hno t).
Qed.

Lemma submseteq_filter {A} (P : A -> Prop) `{forall x, Decision (P x)} (l1 l2 : list A) :
  l1 ⊆+ l2 -> filter P l1 ⊆+ filter P l2.
Proof.
  intros [l ->]%submseteq_Permutation. rewrite filter_app. by apply submseteq_inserts_r.
Qed.

(** A frame takes at least its header. *)
Lemma frames_size (fs : list bytes) : 4 * len fs <= len (concat (encode_frame <$> fs)).
Proof.
  induction fs as [|f fs IH]; [done|]. rewrite fmap_cons, concat_cons.
  rewrite len_cons, len_app, len_encode_frame. pose proof (len_nonneg f); lia.
Qed.

Lemma prefix_len {A} (l1 l2 : list A) : l1 `prefix_of` l2 -> len l1 <= len l2.
Proof. intros [r ->]; rewrite len_app; pose proof (len_nonneg r); lia. Qed.

Lemma stream_tasks_size stream ts : stream_tasks stream ts -> 4 * len ts <= len stream.
Proof.
  intros (data & fs & rest & st & Hd%prefix_len & (-> & _)%parses_sound & Hts%prefix_len).
  rewrite len_app in Hd. pose proof (frames_size fs); pose proof (len_nonneg rest); lia.
Qed.

Lemma stream_tasks_nil stream : stream_tasks stream [].
Proof.
  exists [], [], [], need_more_data. split_and!; try apply prefix_nil. by apply parses_stop.
Qed.

Lemma total_snoc ss s : total (ss ++ [s]) = total ss + len s.
Proof. induction ss as [|s' ss IH]; simpl; [lia|]. unfold total in *; simpl in *; lia. Qed.

(** Tasks of the first [length streams] connections, no more of each than its
    stream has bytes for. *)
Lemma tasks_total streams ts :
  (forall t, t ∈ ts -> 1 <= task_connection_id t <= len streams) ->
  (forall j s, streams !! j = Some s -> 4 * len (tasks_of (Z.of_nat j + 1) ts) <= len s) ->
  4 * len ts <= total streams.
Proof.
  revert ts; induction streams as [|s streams IH] using rev_ind; intros ts Hin Hle.
  { destruct ts as [|t ts]; [done|]. specialize (Hin t (list_elem_of_here t ts)).
    unfold len in Hin; simpl in Hin; lia. }
  set (n := len streams + 1) in *.
  set (ts1 := filter (fun t => ¬ task_connection_id t = n) ts).
  assert (Hsplit : len ts = len (of_id n ts) + len ts1).
  { rewrite <-len_app. unfold len. f_equal. apply Permutation_length.
    unfold of_id, ts1. symmetry. apply filter_app_complement. }
  assert (Hs : 4 * len (of_id n ts) <= len s).
  { specialize (Hle (length streams) s). unfold n, len in *. unfold tasks_of in Hle.
    rewrite length_fmap in Hle. apply Hle. rewrite lookup_app_r, Nat.sub_diag; done. }
  assert (H1 : 4 * len ts1 <= total streams).
  { apply IH.
    - intros t [Hne Ht]%list_elem_of_filter. specialize (Hin t Ht).
      rewrite len_app, len_cons, len_nil in Hin. unfold n in Hne; lia.
    - intros j s' Hj. pose proof (lookup_lt_Some _ _ _ Hj) as Hlt.
      specialize (Hle j s' (lookup_app_l_Some _ _ _ _ Hj)).
      enough (of_id (Z.of_nat j + 1) ts1 = of_id (Z.of_nat j + 1) ts) as E
        by (unfold tasks_of in *; by rewrite E).
      unfold of_id, ts1. rewrite list_filter_filter. apply list_filter_iff.
      intros t. unfold n, len. split; [by intros [? ?]|]. intros Et; split; [done|lia]. }
  rewrite total_snoc. lia.
Qed.
