(* ===== verification/EventLoop.v ===== *)
(** * Event loop: [server/event_loop.hpp], [server/event_loop.cpp]

    The loop waits on epoll and handles one event after another: the notifier's
    (take the results and queue the responses), the listener's (accept), and
    the clients' (read, submit, write).  It uses the dispatcher through the
    interface [Service].  What the code prints is left out. *)

From S2P Require Import Prelude Endian Kernel SimKernel Frame FrameDecoder.
From S2P Require Import FrameWriteBuffer Socket Epoll EventFd NonBlocking Processing.
From S2P Require Import Connection ThreadPool Service.

(** ** Data *)

Definition kMaxEvents : Z := 64.
Definition kClientEvents : Z := Z.lor EPOLLIN EPOLLRDHUP.

Record ClientState := mkClientState { id : ConnectionId; connection : Connection }.

(** [ClientState(connection_id, socket)]. *)
Definition make_client (connection_id : ConnectionId) (socket : Socket) : ClientState :=
  mkClientState connection_id (make_connection socket).

Record EventLoop := mkEventLoop {
  listener_ : Socket;
  epoll_ : Epoll;
  connections_ : gmap Z ClientState;
  next_connection_id_ : ConnectionId;
  error_number_ : Z;
  initialized_ : bool
}.

Definition set_connections (m : gmap Z ClientState) (l : EventLoop) : EventLoop :=
  mkEventLoop (listener_ l) (epoll_ l) m (next_connection_id_ l) (error_number_ l) (initialized_ l).
Definition set_next_id (i : ConnectionId) (l : EventLoop) : EventLoop :=
  mkEventLoop (listener_ l) (epoll_ l) (connections_ l) i (error_number_ l) (initialized_ l).
Definition set_error (e : Z) (l : EventLoop) : EventLoop :=
  mkEventLoop (listener_ l) (epoll_ l) (connections_ l) (next_connection_id_ l) e (initialized_ l).
Definition set_initialized (l : EventLoop) : EventLoop :=
  mkEventLoop (listener_ l) (epoll_ l) (connections_ l) (next_connection_id_ l) (error_number_ l) true.

(** The connection behind a reference into [connections_] has changed. *)
Definition store_connection (fd : Z) (c : Connection) (l : EventLoop) : EventLoop :=
  set_connections (alter (fun s => mkClientState (id s) c) fd (connections_ l)) l.

(** ** Operations *)

Definition valid (l : EventLoop) : bool := initialized_ l.
Definition errorNumber (l : EventLoop) : Z := error_number_ l.
Definition connectionCount (l : EventLoop) : Z := Z.of_nat (base.size (connections_ l)).

Definition has (events mask : Z) : bool := negb (Z.land events mask =? 0).

Section EventLoop.
  Context `{Host} {K D : Type} {KO : Kernel K} {SO : Service K D}.

(** The constructor. The members are built in the order of their declaration;
    [None] means that the dispatcher's constructor throws (the destructors of
    [epoll_] and [listener_] run). *)
Definition make_event_loop (k : K) (listener : Socket) (worker_count task_queue_capacity : Z) :
    K * option (D * EventLoop) :=
  let '(k, epoll) := make_epoll k in
  let '(k, dispatcher) := service_make k worker_count task_queue_capacity in
  match dispatcher with
  | None => (destruct_socket (destruct_epoll k epoll) listener, None)
  | Some d =>
      let l := mkEventLoop listener epoll ∅ 1 0 false in
      if negb (Socket.valid (listener_ l)) then (k, Some (d, set_error EBADF l))
      else if negb (Epoll.valid (epoll_ l)) then (k, Some (d, set_error (errno k) l))
      else if negb (service_valid d) then (k, Some (d, set_error (service_errorNumber d) l))
      else
        let '(k, r) := setNonBlocking k (Socket.fd (listener_ l)) in
        if negb (NonBlocking.success r) then
          (k, Some (d, set_error (NonBlocking.error_number r) l))
        else
          let '(k, r) := add k (epoll_ l) (Socket.fd (listener_ l)) EPOLLIN in
          if negb (Epoll.success r) then (k, Some (d, set_error (Epoll.error_number r) l))
          else
            let '(k, r) := add k (epoll_ l) (service_fd d) EPOLLIN in
            if negb (Epoll.success r) then (k, Some (d, set_error (Epoll.error_number r) l))
            else (k, Some (d, set_initialized l))
  end.

(** Erasing an element destroys its connection, which closes the socket. *)
Definition erase_connection (k : K) (l : EventLoop) (client_fd : Z) : K * EventLoop :=
  match connections_ l !! client_fd with
  | None => (k, l)
  | Some s =>
      (destruct_socket k (socket_ (connection s)),
       set_connections (delete client_fd (connections_ l)) l)
  end.

Definition closeConnection (k : K) (l : EventLoop) (client_fd : Z) : K * EventLoop :=
  match connections_ l !! client_fd with
  | None => (k, l)
  | Some _ =>
      let '(k, _) := remove k (epoll_ l) client_fd in
      erase_connection k l client_fd
  end.

Definition updateInterest (k : K) (l : EventLoop) (c : Connection) : K * bool :=
  let events := if wantsWrite c then Z.lor kClientEvents EPOLLOUT else kClientEvents in
  let '(k, modify_result) := modify k (epoll_ l) (Connection.fd c) events in
  (k, Epoll.success modify_result).

(** One round of the loop of [acceptReadyClients]; it leaves the loop with what
    the function returns. *)
Definition accept_body (s : K * EventLoop) : (K * EventLoop) + (K * EventLoop * bool) :=
  let '(k, l) := s in
  let '(k, client_fd) :=
    sys_accept4 k (Socket.fd (listener_ l)) (Z.lor SOCK_NONBLOCK SOCK_CLOEXEC) in
  if 0 <=? client_fd then
    let client_socket := make_socket client_fd in
    let connection_id := next_connection_id_ l in
    let l := set_next_id (wrap64 (connection_id + 1)) l in
    match connections_ l !! client_fd with
    | Some _ => inl (destruct_socket k client_socket, l)
    | None =>
        let '(socket, client_socket) := move_socket client_socket in
        let l := set_connections
          (<[client_fd := make_client connection_id socket]> (connections_ l)) l in
        let '(k, add_result) := add k (epoll_ l) client_fd kClientEvents in
        let '(k, l) := if negb (Epoll.success add_result) then erase_connection k l client_fd
                       else (k, l) in
        inl (destruct_socket k client_socket, l)
    end
  else
    let operation_error := errno k in
    if operation_error =? EINTR then inl (k, l)
    else if (operation_error =? EAGAIN) || (operation_error =? EWOULDBLOCK) then inr (k, l, true)
    else inr (k, set_error operation_error l, false).

Definition acceptReadyClients (fuel : nat) (k : K) (l : EventLoop) : option (K * EventLoop * bool) :=
  loop accept_body fuel (k, l).

Definition submitFrameForProcessing (k : K) (d : D) (client_fd : Z) (connection_id : ConnectionId)
    (payload : bytes) : K * D * bool :=
  let '(k, d, st) := service_trySubmit k d (mkProcessingTask client_fd connection_id payload) in
  (k, d, match st with Success => true | QueueFull | Stopped | InvalidTask => false end).

(** The [for] loop over the frames read. *)
Fixpoint submit_frames (k : K) (d : D) (client_fd : Z) (connection_id : ConnectionId)
    (frames : list bytes) : K * D * bool :=
  match frames with
  | [] => (k, d, true)
  | frame :: frames =>
      let '(k, d, ok) := submitFrameForProcessing k d client_fd connection_id frame in
      if negb ok then (k, d, false) else submit_frames k d client_fd connection_id frames
  end.

(** The [for] loop over the results. *)
Definition handle_result (k : K) (l : EventLoop) (result : ProcessingResult) : K * EventLoop :=
  match connections_ l !! result_client_fd result with
  | None => (k, l)
  | Some client_state =>
      if negb (id client_state =? result_connection_id result) then (k, l)
      else
        let '(queue_status, c) := queueFrame (connection client_state) (result_response result) in
        let l := store_connection (result_client_fd result) c l in
        if negb (bool_decide (queue_status = queued)) then
          closeConnection k l (result_client_fd result)
        else
          let '(k, ok) := updateInterest k l c in
          if negb ok then closeConnection k l (result_client_fd result) else (k, l)
  end.

Fixpoint handle_results (k : K) (l : EventLoop) (results : list ProcessingResult) : K * EventLoop :=
  match results with
  | [] => (k, l)
  | result :: results =>
      let '(k, l) := handle_result k l result in handle_results k l results
  end.

Definition handleProcessingResults (fuel : nat) (k : K) (d : D) (l : EventLoop) :
    option (K * D * EventLoop * bool) :=
  '(k, d, notification) ← service_consume fuel k d;
  if negb (read_success notification) then
    if (EventFd.read_error_number notification =? EAGAIN)
       || (EventFd.read_error_number notification =? EWOULDBLOCK)
    then Some (k, d, l, true)
    else Some (k, d, set_error (EventFd.read_error_number notification) l, false)
  else
    let '(k, d, results) := service_takeCompleted k d in
    let '(k, l) := handle_results k l results in
    Some (k, d, l, true).

(** The part of [handleClientEvent] that writes. *)
Definition write_client (fuel : nat) (k : K) (d : D) (l : EventLoop) (client_fd : Z)
    (c : Connection) : option (K * D * EventLoop) :=
  let finish (k : K) (l : EventLoop) (c : Connection) :=
    let '(k, ok) := updateInterest k l c in
    if negb ok then let '(k, l) := closeConnection k l client_fd in Some (k, d, l)
    else Some (k, d, l) in
  if wantsWrite c then
    '(k, c, flush_result) ← flushWrites fuel k c;
    let l := store_connection client_fd c l in
    if bool_decide (flush_status flush_result = error) then
      let '(k, l) := closeConnection k l client_fd in Some (k, d, l)
    else finish k l c
  else finish k l c.

Definition handleClientEvent (fuel : nat) (k : K) (d : D) (l : EventLoop) (client_fd events : Z) :
    option (K * D * EventLoop) :=
  match connections_ l !! client_fd with
  | None => Some (k, d, l)
  | Some client_state =>
      let c := connection client_state in
      if has events (Z.lor EPOLLERR EPOLLHUP) then
        let '(k, l) := closeConnection k l client_fd in Some (k, d, l)
      else if has events (Z.lor EPOLLIN EPOLLRDHUP) then
        '(k, c, read_result) ← readAvailable fuel k c;
        let l := store_connection client_fd c l in
        let '(k, d, ok) := submit_frames k d client_fd (id client_state) (frames read_result) in
        if negb ok then let '(k, l) := closeConnection k l client_fd in Some (k, d, l)
        else
          match read_status read_result with
          | peer_closed | protocol_error | io_error =>
              let '(k, l) := closeConnection k l client_fd in Some (k, d, l)
          | ready => write_client fuel k d l client_fd c
          end
      else write_client fuel k d l client_fd c
  end.

(** One event of the [for] loop of [run]; [false] means that [run] returns 1. *)
Definition handle_event (fuel : nat) (k : K) (d : D) (l : EventLoop) (event : epoll_event) :
    option (K * D * EventLoop * bool) :=
  let ready_fd := data_fd event in
  if ready_fd =? service_fd d then
    if has (events event) (Z.lor EPOLLERR EPOLLHUP) then Some (k, d, set_error EIO l, false)
    else if has (events event) EPOLLIN then handleProcessingResults fuel k d l
    else Some (k, d, l, true)
  else if ready_fd =? Socket.fd (listener_ l) then
    '(k, l, ok) ←
      (if has (events event) EPOLLIN then acceptReadyClients fuel k l else Some (k, l, true));
    if negb ok then Some (k, d, l, false)
    else if has (events event) (Z.lor EPOLLERR EPOLLHUP) then Some (k, d, set_error EIO l, false)
    else Some (k, d, l, true)
  else
    '(k, d, l) ← handleClientEvent fuel k d l ready_fd (events event);
    Some (k, d, l, true).

Fixpoint handle_events (fuel : nat) (k : K) (d : D) (l : EventLoop) (evs : list epoll_event) :
    option (K * D * EventLoop * bool) :=
  match evs with
  | [] => Some (k, d, l, true)
  | event :: evs =>
      '(k, d, l, ok) ← handle_event fuel k d l event;
      if negb ok then Some (k, d, l, false) else handle_events fuel k d l evs
  end.

(** One round of [run]'s outer loop; [false] as above. *)
Definition run_round (fuel : nat) (k : K) (d : D) (l : EventLoop) :
    option (K * D * EventLoop * bool) :=
  '(k, wait_result, evs) ← wait fuel k (epoll_ l) kMaxEvents (-1);
  if negb (completed wait_result) then
    Some (k, d, set_error (wait_error_number wait_result) l, false)
  else handle_events fuel k d l evs.

(** [run] with at most [rounds] rounds: the value it returns, if it has
    returned by then. [fuel] bounds the loops inside a round. *)
Fixpoint run_rounds (rounds fuel : nat) (k : K) (d : D) (l : EventLoop) :
    option (K * D * EventLoop * option Z) :=
  match rounds with
  | O => Some (k, d, l, None)
  | S rounds =>
      '(k, d, l, ok) ← run_round fuel k d l;
      if negb ok then Some (k, d, l, Some 1) else run_rounds rounds fuel k d l
  end.

Definition run (rounds fuel : nat) (k : K) (d : D) (l : EventLoop) :
    option (K * D * EventLoop * option Z) :=
  if negb (valid l) then Some (k, d, l, Some 1) else run_rounds rounds fuel k d l.

(** The destructor: the members go in the reverse order of their declaration,
    so the workers have stopped before the connections are destroyed. *)
Definition destroy_connections (k : K) (m : gmap Z ClientState) : K :=
  map_fold (fun _ client_state k => destruct_socket k (socket_ (connection client_state))) k m.

Definition destruct_event_loop (fuel : nat) (k : K) (d : D) (l : EventLoop) : option K :=
  k ← service_destroy fuel k d;
  let k := destroy_connections k (connections_ l) in
  let k := destruct_epoll k (epoll_ l) in
  Some (destruct_socket k (listener_ l)).
End EventLoop.
