(* ===== verification/EventLoopInvariant.v ===== *)
(** * The event loop's invariant

    What holds between any two events: the descriptors are accounted for, the
    epoll interest list is what the connections need, connection ids are
    unique, each client's accepted frames are the first ones of what it sends,
    and its output is exactly the answers addressed to it.  Every handler
    keeps it. *)

From S2P Require Import Prelude Endian Kernel SimKernel Frame FrameDecoder.
From S2P Require Import FrameWriteBuffer Raii Socket Epoll EventFd NonBlocking Processing.
From S2P Require Import Connection BoundedQueue ThreadPool Dispatcher Service Scheduled.
From S2P Require Import EventLoop Streams.

(** ** The invariant *)

(** The results of a list that are addressed to a connection, and their
    encodings. *)
Definition addressed (fd : Z) (i : ConnectionId) (rs : list ProcessingResult) :
    list ProcessingResult :=
  filter (fun r => result_client_fd r = fd /\ result_connection_id r = i) rs.
Definition answers (rs : list ProcessingResult) (fd : Z) (i : ConnectionId) : bytes :=
  concat (encode_frame <$> (result_response <$> addressed fd i rs)).

(** The events a connection waits for, and the interest list of the loop. *)
Definition client_events (s : ClientState) : Z :=
  if wantsWrite (connection s) then Z.lor kClientEvents EPOLLOUT else kClientEvents.
Definition wanted (l : EventLoop) (notifier : Z) : gmap Z epoll_event :=
  registered (<[Socket.fd (listener_ l) := EPOLLIN]>
    (<[notifier := EPOLLIN]> (client_events <$> connections_ l))).

Lemma wanted_lookup l notifier fd :
  wanted l notifier !! fd =
    (fun evs => EpollEvent evs fd) <$>
      (if decide (fd = Socket.fd (listener_ l) \/ fd = notifier) then Some EPOLLIN
       else client_events <$> connections_ l !! fd).
Proof.
  unfold wanted. rewrite registered_lookup. f_equal. destruct (decide (fd = Socket.fd (listener_ l))) as [->|H1].
  { by rewrite lookup_insert_eq, decide_True by auto. }
  rewrite lookup_insert_ne by congruence. destruct (decide (fd = notifier)) as [->|H2].
  { by rewrite lookup_insert_eq, decide_True by auto. }
  rewrite lookup_insert_ne, decide_False, lookup_fmap by (congruence || tauto). done.
Qed.

(** Closing a descriptor takes it out of every interest list. *)
Lemma interest_close_fd fd ep v fd' :
  ep <> fd ->
  interest (close_fd fd v) ep !! fd' = if decide (fd' = fd) then None else interest v ep !! fd'.
Proof.
  intros Hne; unfold interest; simpl. rewrite lookup_delete_ne, lookup_fmap by congruence.
  destruct (os_interest v !! ep) as [m|]; simpl; case_decide; subst;
    rewrite ?lookup_delete_eq, ?lookup_delete_ne, ?lookup_empty by congruence; done.
Qed.

Section Invariant.
Context `{Host} {K D : Type} {KO : Kernel K} {KV : KernelView K} {KL : KernelLaws K}.
Context {SO : Service K D} {SL : ServiceLaws K D}.

(** What the clients send, in the order in which they are accepted. It fits in
    memory, and so do all answers to it: a frame takes at least 4 bytes, an
    answer 22. *)
Context (streams : list bytes).
Hypothesis streams_fit : 6 * total streams <= vector_max.

Definition stream_of (i : ConnectionId) : option bytes := streams !! Z.to_nat (i - 1).

(** Everything received from a client has been decoded and submitted. *)
Definition settled (v : OsView) (acc : list ProcessingTask) (fd : Z) (s : ClientState) : Prop :=
  exists data, stream_of (id s) = Some (data ++ incoming v fd) /\
    parses data (tasks_of (id s) acc) (FrameDecoder.pending (decoder_ (connection s)))
      need_more_data.

Definition rested (v : OsView) (acc : list ProcessingTask) (fd : Z) (s : ClientState) : Prop :=
  read_ok (decoder_ (connection s)) /\ settled v acc fd s.

(** A client of the loop; a [dirty] one is being handled. *)
Record client_ok (v : OsView) (next : Z) (acc : list ProcessingTask) (tk : list ProcessingResult)
    (dirty : bool) (fd : Z) (s : ClientState) : Prop := ClientOk {
  client_fd : 0 <= fd /\ Connection.fd (connection s) = fd;
  client_id : 1 <= id s < next;
  client_rest : dirty = false -> rested v acc fd s;
  client_wf : FrameWriteBuffer.wf (write_buffer_ (connection s));
  client_stream :
    outbound v fd ++ FrameWriteBuffer.pending (write_buffer_ (connection s)) = answers tk fd (id s);
  client_unread : exists data, stream_of (id s) = Some (data ++ incoming v fd);
  client_own : Forall (fun t => task_client_fd t = fd) (of_id (id s) acc)
}.

(** What belongs to the loop and not to a client: the descriptors that were open
    when it was constructed, and its listener, its epoll instance and the
    dispatcher's notifier. *)
Record Parts := mkParts {
  others : gset Z;
  part_listener : Socket;
  part_epoll : Epoll;
  part_notifier : Z
}.

Definition parts_of (k : K) (d : D) (l : EventLoop) : Parts :=
  mkParts (dom (os_flags (view k))) (listener_ l) (epoll_ l) (service_fd d).

(** [base] are the loop's parts; [tk] are the results
    handled so far; [dirty] is the client being handled, if any. *)
Record loop_ok (base : Parts) (dirty : option Z) (tk : list ProcessingResult)
    (k : K) (d : D) (l : EventLoop) : Prop := LoopOk {
  ok_service : service_ok k d;
  ok_epoll : Epoll.valid (epoll_ l) = true;
  ok_base : Socket.fd (listener_ l) ∈ others base /\ Epoll.fd (epoll_ l) ∈ others base /\
    service_fd d ∈ others base;
  ok_parts : listener_ l = part_listener base /\ epoll_ l = part_epoll base /\
    service_fd d = part_notifier base;
  ok_listener : Socket.fd (listener_ l) <> service_fd d;
  ok_open fd : is_open (view k) fd <-> fd ∈ others base \/ is_Some (connections_ l !! fd);
  ok_apart fd : is_Some (connections_ l !! fd) -> fd ∉ others base;
  ok_interest fd : dirty <> Some fd ->
    interest (view k) (Epoll.fd (epoll_ l)) !! fd = wanted l (service_fd d) !! fd;
  ok_clients fd s : connections_ l !! fd = Some s ->
    client_ok (view k) (next_connection_id_ l) (accepted d) tk (bool_decide (dirty = Some fd)) fd s;
  ok_ids fd1 fd2 s1 s2 :
    connections_ l !! fd1 = Some s1 -> connections_ l !! fd2 = Some s2 -> id s1 = id s2 ->
    fd1 = fd2;
  ok_next : 1 <= next_connection_id_ l /\
    next_connection_id_ l + len (os_clients (view k)) < 2 ^ 64;
  ok_to_come : streams = take (Z.to_nat (next_connection_id_ l - 1)) streams ++ os_clients (view k)
    /\ next_connection_id_ l + len (os_clients (view k)) = 1 + len streams;
  ok_tasks t : t ∈ accepted d -> 1 <= task_connection_id t < next_connection_id_ l;
  ok_streams i stream : 1 <= i -> stream_of i = Some stream ->
    stream_tasks stream (tasks_of i (accepted d));
  ok_taken : tk `prefix_of` taken d
}.

(** The accepted tasks are no more than the clients' bytes amount to, and all
    answers ever given fit in memory. *)
Lemma accepted_bound base dirty tk k d l :
  loop_ok base dirty tk k d l -> 4 * len (accepted d) <= total streams.
Proof.
  intros Hok. apply tasks_total.
  - intros t Ht. pose proof (ok_tasks _ _ _ _ _ _ Hok t Ht). pose proof (ok_to_come _ _ _ _ _ _ Hok).
    pose proof (len_nonneg (os_clients (view k))); lia.
  - intros j s Hj. apply stream_tasks_size, (ok_streams _ _ _ _ _ _ Hok); [lia|].
    unfold stream_of. by replace (Z.to_nat (Z.of_nat j + 1 - 1)) with j by lia.
Qed.

Lemma taken_bound k d : service_ok k d -> len (taken d) <= len (accepted d).
Proof.
  intros Hs. pose proof (service_answers k d Hs) as Hsub%submseteq_length.
  rewrite length_fmap in Hsub. unfold len; lia.
Qed.

Lemma loop_room base dirty tk k d l :
  loop_ok base dirty tk k d l -> 22 * len (accepted d) <= vector_max.
Proof. intros Hok%accepted_bound. pose proof (len_nonneg (accepted d)). lia. Qed.

(** ** The kernel's part *)

Lemma only_counts_outbound v v' fd : only_counts v v' -> outbound v' fd = outbound v fd.
Proof. intros [_ E]; unfold outbound; by rewrite E. Qed.

Lemma destruct_socket_view k s :
  Socket.valid s = true -> view (destruct_socket k s) = close_fd (Socket.fd s) (view k).
Proof.
  unfold Socket.valid, destruct_socket, Socket.fd; intros Hv; zbool.
  rewrite reset_spec by lia. simpl. unfold close_owned. replace (0 <=? Socket.fd_ s) with true by lia.
  destruct (sys_close k (Socket.fd_ s)) as [k' r] eqn:E. apply close_law in E. inversion E; subst; simpl; congruence.
Qed.

(** ** Changing the loop's parts *)

Lemma settled_view v v' acc acc' fd s :
  incoming v' fd = incoming v fd -> of_id (id s) acc' = of_id (id s) acc ->
  settled v acc fd s -> settled v' acc' fd s.
Proof. unfold settled, tasks_of; by intros -> ->. Qed.

Lemma client_ok_view v v' next next' acc acc' tk tk' dirty dirty' fd s :
  client_ok v next acc tk dirty fd s -> outbound v' fd = outbound v fd ->
  incoming v' fd = incoming v fd -> next <= next' -> of_id (id s) acc' = of_id (id s) acc ->
  answers tk' fd (id s) = answers tk fd (id s) -> (dirty' = false -> dirty = false) ->
  client_ok v' next' acc' tk' dirty' fd s.
Proof.
  intros [?? Hr ? Hs ??] Ho Hi Hn Hacc Ha Hd; split; rewrite ?Hi, ?Hacc; auto.
  - lia.
  - intros [? ?]%Hd%Hr; split; [done|by apply (settled_view v v' acc)].
  - by rewrite Ho, Ha.
Qed.

(** The service runs. *)
Lemma loop_ok_service base dirty tk k d l k' d' :
  loop_ok base dirty tk k d l -> service_ok k' d' -> service_fd d' = service_fd d ->
  only_counts (view k) (view k') -> tk `prefix_of` taken d' -> accepted d' = accepted d ->
  loop_ok base dirty tk k' d' l.
Proof.
  intros [] Hs Hfd Hv Htk Hacc. pose proof Hv as [_ Ev].
  split; rewrite ?Hfd, ?Hacc; auto.
  - unfold is_open in *; by rewrite Ev.
  - unfold interest in *; by rewrite Ev.
  - intros fd s Hl. apply (client_ok_view (view k) _ _ _ _ _ tk _ _ _ _ _ (ok_clients0 fd s Hl));
      auto using only_counts_outbound; [unfold incoming; by rewrite Ev|lia].
  - by rewrite Ev.
  - by rewrite Ev.
Qed.

(** A task of the client being handled has been submitted. *)
Lemma loop_ok_accepts base tk k d l fd s f k' d' :
  loop_ok base (Some fd) tk k d l -> connections_ l !! fd = Some s ->
  service_ok k' d' -> service_fd d' = service_fd d -> only_counts (view k) (view k') ->
  taken d' = taken d -> accepted d' = accepted d ++ [mkProcessingTask fd (id s) f] ->
  (forall stream, stream_of (id s) = Some stream ->
     stream_tasks stream (tasks_of (id s) (accepted d) ++ [f])) ->
  loop_ok base (Some fd) tk k' d' l.
Proof.
  intros Hok Hc Hs Hfd Hv Htk Hacc Hst. pose proof Hv as [_ Ev].
  pose proof (ok_clients _ _ _ _ _ _ Hok fd s Hc) as [_ Hid _ _ _ _ Hown].
  destruct Hok. split; rewrite ?Hfd, ?Hacc, ?Htk; auto.
  - unfold is_open in *; by rewrite Ev.
  - unfold interest in *; by rewrite Ev.
  - intros fd' s' Hl. pose proof (ok_clients0 fd' s' Hl) as Hcl.
    assert (Hin : incoming (view k') fd' = incoming (view k) fd')
      by (unfold incoming; by rewrite Ev).
    destruct (decide (fd' = fd)) as [->|Hne].
    + rewrite Hc in Hl; injection Hl as <-. destruct Hcl as [?????? _].
      split; rewrite ?Hin; auto; [by rewrite bool_decide_eq_true_2| |].
      * by rewrite (only_counts_outbound _ _ _ Hv).
      * rewrite (of_id_snoc (mkProcessingTask fd (id s) f)). by apply Forall_app_2; [|constructor].
    + apply (client_ok_view (view k) _ _ _ _ _ tk _ _ _ _ _ Hcl);
        auto using only_counts_outbound; [lia|].
      apply of_id_snoc_ne. simpl. intros E. by apply Hne, (ok_ids0 fd' fd s' s).
  - by rewrite Ev.
  - by rewrite Ev.
  - intros t [Ht|Ht%list_elem_of_singleton]%elem_of_app; [auto|by subst].
  - intros i stream Hi Hstr. destruct (decide (i = id s)) as [->|Hne].
    + rewrite (tasks_of_snoc (mkProcessingTask fd (id s) f)). by apply Hst.
    + unfold tasks_of. rewrite of_id_snoc_ne by (simpl; congruence). by apply ok_streams0.
Qed.

(** A call that leaves the descriptors, the clients to come and the streams
    alone. *)
Lemma loop_ok_kernel base dirty tk k d l k' :
  loop_ok base dirty tk k d l ->
  os_flags (view k') = os_flags (view k) -> os_out (view k') = os_out (view k) ->
  os_in (view k') = os_in (view k) ->
  os_count (view k') = os_count (view k) -> os_clients (view k') = os_clients (view k) ->
  (forall fd, dirty <> Some fd ->
     interest (view k') (Epoll.fd (epoll_ l)) !! fd = interest (view k) (Epoll.fd (epoll_ l)) !! fd) ->
  loop_ok base dirty tk k' d l.
Proof.
  intros [] Hf Ho Hin Hc Hcl Hi. split; auto.
  - by apply (service_ok_kernel k); [|rewrite Hc].
  - unfold is_open in *; by rewrite Hf.
  - intros fd Hd; rewrite Hi; auto.
  - intros fd s Hl. apply (client_ok_view (view k) _ _ _ _ _ tk _ _ _ _ _ (ok_clients0 fd s Hl));
      auto; [unfold outbound; by rewrite Ho|unfold incoming; by rewrite Hin|lia].
  - by rewrite Hcl.
  - by rewrite Hcl.
Qed.

(** Any client may be marked as being handled. *)
Lemma loop_ok_dirty base tk k d l fd : loop_ok base None tk k d l -> loop_ok base (Some fd) tk k d l.
Proof.
  intros []; split; auto.
  intros fd' s Hl. apply (client_ok_view (view k) _ _ _ _ _ tk _ _ _ _ _ (ok_clients0 fd' s Hl)); auto; lia.
Qed.

(** Erasing a connection. *)
Lemma erase_ok base tk k d l fd k' l' :
  loop_ok base (Some fd) tk k d l -> is_Some (connections_ l !! fd) ->
  erase_connection k l fd = (k', l') ->
  loop_ok base None tk k' d l' /\ l' = set_connections (delete fd (connections_ l)) l.
Proof.
  intros Hok [s Hs]; unfold erase_connection; rewrite Hs; intros E; simplify_eq. split; [|done].
  pose proof (ok_clients _ _ _ _ _ _ Hok fd s Hs) as [[Hpos Hfd] _ _ _ _ _ _].
  pose proof (ok_apart _ _ _ _ _ _ Hok fd ltac:(eauto)) as Hnb.
  assert (Ev : view (destruct_socket k (socket_ (connection s))) = close_fd fd (view k)).
  { unfold Connection.fd in Hfd. rewrite destruct_socket_view, Hfd; [done|].
    unfold Socket.valid, Socket.fd in *; lia. }
  destruct Hok as [Hsv Hep (Hb1 & Hb2 & Hb3) Hpt Hl Hopen Hap Hint Hcl Hids Hnx Hcome Htasks Hstr Htk]; split; simpl; auto.
  - apply (service_ok_kernel k); [done|]. rewrite Ev; simpl. rewrite lookup_delete_ne; [done|congruence].
  - intros fd'; rewrite Ev; unfold is_open in *; simpl.
    rewrite !lookup_delete_is_Some, Hopen. split; [tauto|].
    intros [Hb|[? ?]]; [split; [congruence|by left]|split; [done|by right]].
  - intros fd' [_ Hx]%lookup_delete_is_Some; auto.
  - intros fd' _; rewrite Ev, wanted_lookup, interest_close_fd by congruence; simpl.
    destruct (decide (fd' = fd)) as [->|Hne].
    + rewrite decide_False by (intros [->| ->]; done). by rewrite lookup_delete_eq.
    + rewrite Hint, wanted_lookup, lookup_delete_ne by congruence. done.
  - intros fd' s' [Hne Hs']%lookup_delete_Some. rewrite Ev.
    apply (client_ok_view (view k) _ _ _ _ _ tk _ _ _ _ _ (Hcl fd' s' Hs')); auto; [| |lia|].
    + unfold outbound; simpl. by rewrite lookup_delete_ne.
    + unfold incoming; simpl. by rewrite lookup_delete_ne.
    + rewrite !bool_decide_eq_false. congruence.
  - intros fd1 fd2 s1 s2 [_ H1]%lookup_delete_Some [_ H2]%lookup_delete_Some; eauto.
  - by rewrite Ev.
  - by rewrite Ev.
Qed.

(** The client being handled is in order again. *)
Lemma loop_ok_clean base tk k d l fd s :
  loop_ok base (Some fd) tk k d l -> connections_ l !! fd = Some s ->
  rested (view k) (accepted d) fd s ->
  interest (view k) (Epoll.fd (epoll_ l)) !! fd = Some (EpollEvent (client_events s) fd) ->
  loop_ok base None tk k d l.
Proof.
  intros Hok Hs Hread Hi.
  pose proof (ok_apart _ _ _ _ _ _ Hok fd ltac:(eauto)) as Hnb.
  destruct (ok_base _ _ _ _ _ _ Hok) as (? & _ & ?).
  destruct Hok; split; auto.
  - intros fd' _. destruct (decide (fd' = fd)) as [->|]; [|apply ok_interest0; congruence].
    rewrite wanted_lookup, decide_False, Hs by (intros [-> | ->]; done). done.
  - intros fd' s' Hs'. pose proof (ok_clients0 fd' s' Hs') as [? ? Hr ? ? ? ?]; split; auto.
    intros _. destruct (decide (fd' = fd)) as [->|Hne]; [congruence|].
    apply Hr, bool_decide_eq_false. congruence.
Qed.

(** A change of the interest list at the client being handled. *)
Lemma loop_ok_interest base tk k d l fd k' m :
  loop_ok base (Some fd) tk k d l -> view k' = set_interest (Epoll.fd (epoll_ l)) m (view k) ->
  (forall fd', fd' <> fd -> m !! fd' = interest (view k) (Epoll.fd (epoll_ l)) !! fd') ->
  loop_ok base (Some fd) tk k' d l.
Proof.
  intros Hok Ev Hm. apply (loop_ok_kernel _ _ _ k); rewrite ?Ev; auto.
  intros fd' Hne. rewrite interest_set_interest, decide_True by done. apply Hm; congruence.
Qed.

(** Closing a connection, whatever epoll says. *)
Lemma close_ok base tk k d l fd k' l' :
  loop_ok base (Some fd) tk k d l -> is_Some (connections_ l !! fd) ->
  closeConnection k l fd = (k', l') ->
  loop_ok base None tk k' d l' /\ l' = set_connections (delete fd (connections_ l)) l.
Proof.
  intros Hok Hs; pose proof Hs as [s Hs']. unfold closeConnection; rewrite Hs'.
  destruct (remove k (epoll_ l) fd) as [k1 r] eqn:Er. apply remove_spec in Er. intros E.
  apply (erase_ok base tk k1 d l fd) in E; auto.
  destruct Er as [(_ & _ & _ & Ev)|(_ & Ev)].
  - apply (loop_ok_interest _ _ k _ _ _ _ _ Hok Ev). intros; by apply lookup_delete_ne.
  - apply (loop_ok_kernel _ _ _ k); rewrite ?Ev; auto.
Qed.

(** Updating the interest of the client being handled. *)
Lemma update_ok base tk k d l fd s k' ok :
  loop_ok base (Some fd) tk k d l -> connections_ l !! fd = Some s ->
  rested (view k) (accepted d) fd s ->
  updateInterest k l (connection s) = (k', ok) ->
  loop_ok base (if ok : bool then None else Some fd) tk k' d l.
Proof.
  intros Hok Hs Hread. pose proof (ok_clients _ _ _ _ _ _ Hok fd s Hs) as [[Hpos Hfd] _ _ _ _ _ _].
  unfold updateInterest. rewrite Hfd.
  destruct (modify k (epoll_ l) fd _) as [k1 r] eqn:Em. apply modify_spec in Em.
  intros E; injection E as <- <-. destruct Em as [(-> & _ & _ & Ev)|(-> & Ev)].
  - apply (loop_ok_clean _ _ _ _ _ fd s); auto.
    + apply (loop_ok_interest _ _ k _ _ _ _ _ Hok Ev). intros; by apply lookup_insert_ne.
    + destruct Hread; split; [done|]. apply (settled_view (view k) _ (accepted d)); by rewrite ?Ev.
    + rewrite Ev. unfold Epoll.fd. by rewrite interest_set_interest, decide_True, lookup_insert_eq.
  - apply (loop_ok_kernel _ _ _ k); rewrite ?Ev; auto.
Qed.

(** Changing the connection of the client being handled, with calls on its
    socket; [tk'] adds results of that client only. *)
Lemma store_ok base tk tk' k d l fd s c k' out inn :
  loop_ok base (Some fd) tk k d l -> connections_ l !! fd = Some s ->
  Connection.fd c = fd -> FrameWriteBuffer.wf (write_buffer_ c) ->
  moved fd out inn (view k) (view k') ->
  outbound (view k) fd ++ out ++ FrameWriteBuffer.pending (write_buffer_ c)
    = answers tk' fd (id s) ->
  (forall fd' i, (fd', i) <> (fd, id s) -> answers tk' fd' i = answers tk fd' i) ->
  tk' `prefix_of` taken d ->
  loop_ok base (Some fd) tk' k' d (store_connection fd c l) /\
  connections_ (store_connection fd c l) !! fd = Some (mkClientState (id s) c).
Proof.
  intros Hok Hs Hfd Hwf [Hf Hc Hi Hcl Hsig Hout Hin Hoth] Hst Hans Hpre.
  assert (Hlook : connections_ (store_connection fd c l) !! fd = Some (mkClientState (id s) c)).
  { unfold store_connection; simpl. by rewrite lookup_alter_eq, Hs. }
  split; [|done]. pose proof Hok as [Hsv Hep Hb Hpt Hl Hopen Hap Hint Hcls Hids Hnx Hcome Htasks Hstr Htk].
  assert (Hsome : forall fd', is_Some (connections_ (store_connection fd c l) !! fd') <->
    is_Some (connections_ l !! fd')).
  { intros fd'; simpl; apply lookup_alter_is_Some. }
  assert (Hother : forall fd', fd' <> fd ->
    connections_ (store_connection fd c l) !! fd' = connections_ l !! fd')
    by (intros fd' Hne; simpl; by rewrite lookup_alter_ne).
  split; auto.
  - by apply (service_ok_kernel k); [|rewrite Hc].
  - intros fd'. rewrite Hsome. unfold is_open in *; rewrite Hf; apply Hopen.
  - intros fd' Hx; apply Hap. by apply Hsome.
  - intros fd' Hne. unfold interest in *; rewrite Hi.
    rewrite Hint, !wanted_lookup, Hother by congruence. done.
  - intros fd' s' Hs'. destruct (decide (fd' = fd)) as [->|Hne].
    + rewrite Hlook in Hs'; injection Hs' as <-.
      pose proof (Hcls fd s Hs) as [[Hpos _] Hid _ _ _ [data Hd] Hown]. split; simpl; auto.
      * by rewrite bool_decide_eq_true_2.
      * by rewrite Hout, <-app_assoc.
      * exists (data ++ inn). by rewrite <-app_assoc, <-Hin.
    + rewrite Hother in Hs' by done.
      apply (client_ok_view (view k) _ _ _ _ _ tk _ _ _ _ _ (Hcls fd' s' Hs')).
      * by destruct (Hoth fd' Hne).
      * by destruct (Hoth fd' Hne).
      * done.
      * done.
      * apply Hans; congruence.
      * done.
  - intros fd1 fd2 s1 s2 H1 H2 Hii.
    assert (Hback : forall fd' s', connections_ (store_connection fd c l) !! fd' = Some s' ->
      exists s0, connections_ l !! fd' = Some s0 /\ id s0 = id s').
    { intros fd' s' Hs'. destruct (decide (fd' = fd)) as [->|Hne].
      - rewrite Hlook in Hs'; injection Hs' as <-; eauto.
      - rewrite Hother in Hs' by done; eauto. }
    destruct (Hback _ _ H1) as (t1 & ? & ?), (Hback _ _ H2) as (t2 & ? & ?).
    apply (Hids fd1 fd2 t1 t2); congruence.
  - simpl. by rewrite Hcl.
  - simpl. by rewrite Hcl.
Qed.

(** ** Answers *)

Lemma addressed_app fd i rs1 rs2 : addressed fd i (rs1 ++ rs2) = addressed fd i rs1 ++ addressed fd i rs2.
Proof. apply filter_app. Qed.

Lemma answers_snoc rs r fd i :
  answers (rs ++ [r]) fd i =
    answers rs fd i ++
      (if decide (result_client_fd r = fd /\ result_connection_id r = i)
       then encode_frame (result_response r) else []).
Proof.
  unfold answers. rewrite addressed_app, !fmap_app, concat_app. f_equal.
  unfold addressed. rewrite filter_cons, filter_nil. case_decide; [|done].
  cbn [fmap list_fmap concat]. apply app_nil_r.
Qed.

(** The results handed out are the acknowledgements of accepted tasks. *)
Lemma taken_spec k d r :
  service_ok k d -> r ∈ taken d ->
  len (result_response r) = 18 /\ exists t, t ∈ accepted d /\ r = processFrame t.
Proof.
  intros Hs Hr. pose proof (service_answers k d Hs) as Hsub.
  apply (elem_of_submseteq _ _ _ Hr), list_elem_of_fmap in Hsub as (t & -> & Ht).
  split; [apply processFrame_small|eauto].
Qed.

Lemma answers_fit rs fd i :
  Forall (fun r => len (result_response r) = 18) rs -> len (answers rs fd i) <= 22 * len rs.
Proof.
  induction rs as [|r rs IH] using rev_ind; intros Hrs; [done|].
  apply Forall_app in Hrs as [Hrs Hr]. apply Forall_cons in Hr as [Hr _]. specialize (IH Hrs).
  rewrite answers_snoc, !len_app, len_cons, len_nil. case_decide; [|rewrite len_nil; lia].
  rewrite len_encode_frame; lia.
Qed.

(** A new id has no answers yet. *)
Lemma answers_new base dirty tk k d l fd :
  loop_ok base dirty tk k d l -> answers tk fd (next_connection_id_ l) = [].
Proof.
  intros Hok. assert (Hno : addressed fd (next_connection_id_ l) tk = []).
  { apply elem_of_nil_inv; intros r [[_ Hi] Hr]%list_elem_of_filter.
    destruct (taken_spec k d r) as (_ & t & Ht & ->); [apply Hok| |].
    - destruct (ok_taken _ _ _ _ _ _ Hok) as [? ->]. apply elem_of_app; by left.
    - apply (ok_tasks _ _ _ _ _ _ Hok) in Ht. simpl in Hi; lia. }
  unfold answers; by rewrite Hno.
Qed.

(** ** Submitting *)

(** The frames [fs] have been decoded and are not submitted yet. *)
Definition decoded (v : OsView) (acc : list ProcessingTask) (fd : Z) (s : ClientState)
    (fs : list bytes) (rest : bytes) (st : FrameDecodeStatus) : Prop :=
  exists data, stream_of (id s) = Some (data ++ incoming v fd) /\
    parses data (tasks_of (id s) acc ++ fs) rest st.

Lemma submit_ok base tk k d l fd s fs rest st k' d' ok :
  loop_ok base (Some fd) tk k d l -> connections_ l !! fd = Some s ->
  decoded (view k) (accepted d) fd s fs rest st ->
  submit_frames k d fd (id s) fs = (k', d', ok) ->
  loop_ok base (Some fd) tk k' d' l /\ only_counts (view k) (view k') /\
  exists pre post, fs = pre ++ post /\
    accepted d' = accepted d ++ (mkProcessingTask fd (id s) <$> pre) /\
    (ok = true <-> post = []) /\ decoded (view k') (accepted d') fd s post rest st.
Proof.
  intros Hok Hs; revert k d Hok; induction fs as [|f fs IH]; intros k d Hok Hdec; simpl.
  { intros E; simplify_eq. split; [done|split; [apply only_counts_refl|]].
    exists [], []; split_and!; rewrite ?app_nil_r; done. }
  unfold submitFrameForProcessing.
  destruct (service_trySubmit k d _) as [[k1 d1] st1] eqn:Et.
  pose proof (trySubmit_taken k d (mkProcessingTask fd (id s) f)) as Htk. rewrite Et in Htk; simpl in Htk.
  apply trySubmit_law in Et as (Hs1 & Hfd1 & Hv1 & Hacc1 & _); [|apply Hok].
  assert (Hin : incoming (view k1) fd = incoming (view k) fd)
    by (destruct Hv1 as [_ ->]; done).
  destruct Hdec as (data & Hstr & Hp).
  destruct (decide (st1 = Success)) as [->|Hne].
  - simpl. intros E.
    assert (Hok1 : loop_ok base (Some fd) tk k1 d1 l).
    { apply (loop_ok_accepts base tk k d l fd s f); auto. intros stream Hstr'.
      rewrite Hstr in Hstr'; injection Hstr' as <-.
      exists data, (tasks_of (id s) (accepted d) ++ f :: fs), rest, st.
      split; [by apply prefix_app_r|split; [done|]].
      rewrite (app_assoc _ [f] fs : _ ++ f :: fs = _). by apply prefix_app_r. }
    apply IH in E as (Hok' & Hv' & pre & post & -> & Hacc & Hiff & Hdec); [|done|].
    + split; [done|split; [by eapply only_counts_trans|]].
      exists (f :: pre), post. split; [done|]. rewrite Hacc, Hacc1, <-app_assoc in *. done.
    + exists data. rewrite Hin, Hacc1. split; [done|].
      rewrite (tasks_of_snoc (mkProcessingTask fd (id s) f)), <-app_assoc; done.
  - rewrite app_nil_r in Hacc1.
    assert (Hok1 : loop_ok base (Some fd) tk k1 d1 l).
    { apply (loop_ok_service _ _ _ k d); auto. rewrite Htk; apply Hok. }
    destruct st1; simpl; try done; intros E; simplify_eq; (split; [done|split; [done|]]);
      exists [], (f :: fs); rewrite Hacc1, app_nil_r; split_and!; try done;
      exists data; by rewrite Hin.
Qed.

(** ** Results *)

Lemma queueFrame_ok base tk r rest k d l s st c :
  loop_ok base None tk k d l -> taken d = tk ++ r :: rest ->
  connections_ l !! result_client_fd r = Some s -> id s = result_connection_id r ->
  queueFrame (connection s) (result_response r) = (st, c) ->
  st = queued /\ rested (view k) (accepted d) (result_client_fd r) (mkClientState (id s) c) /\
  loop_ok base (Some (result_client_fd r)) (tk ++ [r]) k d
    (store_connection (result_client_fd r) c l) /\
  connections_ (store_connection (result_client_fd r) c l) !! result_client_fd r
    = Some (mkClientState (id s) c).
Proof.
  intros Hok Etk Hs Hid; unfold queueFrame.
  pose proof (ok_clients _ _ _ _ _ _ Hok _ _ Hs) as [[Hpos Hfd] Hi Hread Hwf Hst _ _].
  destruct (taken_spec k d r) as [Hlen _]; [apply Hok|rewrite Etk; apply elem_of_app; right; constructor|].
  assert (Hfit2 : len (answers tk (result_client_fd r) (id s)) + 22 <= vector_max).
  { pose proof (loop_room _ _ _ _ _ _ Hok) as Hroom.
    pose proof (taken_bound k d (ok_service _ _ _ _ _ _ Hok)) as Hle.
    rewrite Etk, len_app, len_cons in Hle. pose proof (len_nonneg rest).
    enough (len (answers tk (result_client_fd r) (id s)) <= 22 * len tk) by lia.
    apply answers_fit, Forall_forall; intros r' Hr'. eapply taken_spec; [apply Hok|].
    rewrite Etk; apply elem_of_app; by left. }
  destruct (enqueue_spec (write_buffer_ (connection s)) (result_response r) Hwf) as (b & Eb & Hwf' & Hp).
  { rewrite Hlen; by vm_compute. }
  { rewrite len_encode_frame, Hlen. rewrite <-Hst, len_app in Hfit2.
    pose proof (len_nonneg (outbound (view k) (result_client_fd r))); lia. }
  rewrite Eb; intros Ec; injection Ec as <- <-. destruct (Hread eq_refl).
  split; [done|split; [by split|]].
  apply (store_ok _ tk _ k _ _ _ s _ _ [] []); auto using loop_ok_dirty, moved_refl.
  - simpl. rewrite Hp, app_assoc, Hst, answers_snoc, decide_True by auto. done.
  - intros fd' i Hne. rewrite answers_snoc, decide_False; [apply app_nil_r|].
    intros [<- <-]; congruence.
  - rewrite Etk. exists rest. by rewrite <-app_assoc.
Qed.

Lemma handle_result_ok base tk r rest k d l k' l' :
  loop_ok base None tk k d l -> taken d = tk ++ r :: rest ->
  handle_result k l r = (k', l') -> loop_ok base None (tk ++ [r]) k' d l'.
Proof.
  intros Hok Etk; unfold handle_result.
  assert (Hpre : tk ++ [r] `prefix_of` taken d) by (exists rest; by rewrite Etk, <-app_assoc).
  assert (Hskip : (forall s, connections_ l !! result_client_fd r = Some s ->
      id s <> result_connection_id r) -> loop_ok base None (tk ++ [r]) k d l).
  { intros Hno. destruct Hok; split; auto. intros fd s Hs.
    apply (client_ok_view (view k) _ _ _ _ _ tk _ _ _ _ _ (ok_clients0 fd s Hs)); auto; [lia|].
    rewrite answers_snoc, decide_False; [apply app_nil_r|]. intros [<- Hi]; by apply (Hno s). }
  destruct (connections_ l !! result_client_fd r) as [s|] eqn:Hs;
    [|intros; simplify_eq; by apply Hskip].
  destruct (id s =? result_connection_id r) eqn:Hid; zbool; simpl;
    [|intros; simplify_eq; apply Hskip; intros ? [= <-]; done].
  destruct (queueFrame _ _) as [st c] eqn:Eq.
  destruct (queueFrame_ok _ _ _ _ _ _ _ _ _ _ Hok Etk Hs Hid Eq) as (-> & Hread & Hok1 & Hs1).
  rewrite bool_decide_eq_true_2 by done; simpl.
  destruct (updateInterest k _ c) as [k1 ok] eqn:Eu.
  apply (update_ok base (tk ++ [r]) k d _ _ _ _ _ Hok1 Hs1 Hread) in Eu.
  destruct ok; simpl; intros E; [by simplify_eq|].
  eapply close_ok in E; [by destruct E|exact Eu|rewrite Hs1; eauto].
Qed.

Lemma handle_results_ok base tk rs k d l k' l' :
  loop_ok base None tk k d l -> taken d = tk ++ rs ->
  handle_results k l rs = (k', l') -> loop_ok base None (taken d) k' d l'.
Proof.
  revert tk k l; induction rs as [|r rs IH]; intros tk k l Hok Etk; simpl.
  { intros; simplify_eq. by rewrite Etk, app_nil_r. }
  destruct (handle_result k l r) as [k1 l1] eqn:Er.
  apply (handle_result_ok base tk r rs k d l) in Er; [|done..].
  apply IH with (tk ++ [r]); [done|]. by rewrite <-app_assoc.
Qed.

Lemma loop_ok_error base dirty tk k d l e :
  loop_ok base dirty tk k d l -> loop_ok base dirty tk k d (set_error e l).
Proof. intros []; split; auto. Qed.

Lemma handleProcessingResults_ok base fuel k d l k' d' l' ok :
  loop_ok base None (taken d) k d l ->
  handleProcessingResults fuel k d l = Some (k', d', l', ok) ->
  loop_ok base None (taken d') k' d' l' /\ (ok = false -> 0 < error_number_ l').
Proof.
  intros Hok; unfold handleProcessingResults.
  destruct (service_consume fuel k d) as [[[k1 d1] r]|] eqn:Ec; simpl; [|done].
  pose proof (consume_taken _ _ _ _ _ _ Ec) as Htk.
  apply consume_law in Ec as (Hs1 & Hfd1 & Hv1 & Hacc1 & Herr); [|apply Hok].
  assert (Hok1 : loop_ok base None (taken d1) k1 d1 l).
  { rewrite Htk. apply (loop_ok_service _ _ _ k d); auto; by rewrite Htk. }
  destruct (read_success r); simpl.
  - destruct (service_takeCompleted k1 d1) as [[k2 d2] rs] eqn:Et.
    pose proof (takeCompleted_taken _ _ _ _ _ Et) as Htk2.
    apply takeCompleted_law in Et as (Hs2 & Hfd2 & Hv2 & Hacc2); [|done].
    destruct (handle_results k2 l rs) as [k3 l3] eqn:Eh. intros E; simplify_eq. split; [|done].
    eapply handle_results_ok; [|exact Htk2|exact Eh].
    apply (loop_ok_service _ _ _ k1 d1); auto. rewrite Htk2. by exists rs.
  - destruct (_ || _); intros E; simplify_eq; [done|]. split; [by apply loop_ok_error|]. simpl; auto.
Qed.

(** ** A client's event *)

Lemma finish_ok base tk k d l fd s k' l' :
  loop_ok base (Some fd) tk k d l -> connections_ l !! fd = Some s ->
  rested (view k) (accepted d) fd s ->
  (let '(k, ok) := updateInterest k l (connection s) in
   if negb ok then closeConnection k l fd else (k, l)) = (k', l') ->
  loop_ok base None tk k' d l'.
Proof.
  intros Hok Hs Hread. destruct (updateInterest k l (connection s)) as [k1 ok] eqn:Eu.
  apply (update_ok base tk k d l fd s k1 ok Hok Hs Hread) in Eu.
  destruct ok; simpl; intros E; [by simplify_eq|].
  eapply close_ok in E; [by destruct E|exact Eu|eauto].
Qed.

Lemma write_client_ok base tk fuel k d l fd s k' d' l' :
  loop_ok base (Some fd) tk k d l -> connections_ l !! fd = Some s ->
  rested (view k) (accepted d) fd s ->
  write_client fuel k d l fd (connection s) = Some (k', d', l') ->
  d' = d /\ loop_ok base None tk k' d l'.
Proof.
  intros Hok Hs Hread; unfold write_client.
  pose proof (ok_clients _ _ _ _ _ _ Hok fd s Hs) as [[Hpos Hfd] _ _ Hwf Hst _ _].
  assert (Hfin : forall k1 l1 s1, loop_ok base (Some fd) tk k1 d l1 ->
    connections_ l1 !! fd = Some s1 -> rested (view k1) (accepted d) fd s1 ->
    (let '(k, ok) := updateInterest k1 l1 (connection s1) in
     if negb ok then let '(k, l) := closeConnection k l1 fd in Some (k, d, l)
     else Some (k, d, l1)) = Some (k', d', l') -> d' = d /\ loop_ok base None tk k' d l').
  { intros k1 l1 s1 Hok1 Hs1 Hr1 E.
    pose proof (finish_ok base tk k1 d l1 fd s1 k' l' Hok1 Hs1 Hr1) as Hf.
    destruct (updateInterest k1 l1 (connection s1)) as [k2 ok].
    destruct ok; simpl in *; [|destruct (closeConnection k2 l1 fd) as [k3 l3]];
      simplify_eq; auto. }
  destruct (wantsWrite (connection s)); [|by apply Hfin].
  unfold flushWrites. rewrite Hfd.
  destruct (flush fuel k (write_buffer_ (connection s)) fd) as [[[k1 b] r]|] eqn:Ef; simpl; [|done].
  apply flush_spec in Ef as (sent & Hwf' & Hp & _ & Hm & _); [|done].
  set (c := mkConnection (socket_ (connection s)) (decoder_ (connection s)) b).
  destruct (store_ok base tk tk k d l fd s c k1 sent [] Hok Hs) as [Hok1 Hs1]; auto.
  { simpl; by rewrite <-Hp. }
  { apply Hok. }
  destruct (bool_decide _).
  - destruct (closeConnection k1 _ fd) as [k2 l2] eqn:E. intros; simplify_eq.
    eapply close_ok in E; [by destruct E|exact Hok1|rewrite Hs1; eauto].
  - apply (Hfin k1 _ (mkClientState (id s) c)); [done|done|].
    destruct Hread as [? Hset]; split; [done|].
    apply (settled_view (view k) _ (accepted d) _ _ (mkClientState (id s) c)); [|done|exact Hset].
    symmetry; apply (moved_in _ _ _ _ _ Hm).
Qed.

(** After reading, before anything else. *)
Lemma read_store_ok base tk fuel k d l fd s k1 c r :
  loop_ok base None tk k d l -> connections_ l !! fd = Some s ->
  readAvailable fuel k (connection s) = Some (k1, c, r) ->
  loop_ok base (Some fd) tk k1 d (store_connection fd c l) /\
  connections_ (store_connection fd c l) !! fd = Some (mkClientState (id s) c) /\
  read_outcome fd k (decoder_ (connection s)) k1 (decoder_ c) r /\
  decoded (view k1) (accepted d) fd (mkClientState (id s) c) (frames r)
    (FrameDecoder.pending (decoder_ c))
    (if decide (read_status r = protocol_error) then FrameDecoder.payload_too_large
     else need_more_data).
Proof.
  intros Hok Hs Er.
  pose proof (ok_clients _ _ _ _ _ _ Hok fd s Hs) as [[Hpos Hfd] _ Hread Hwf Hst _ _].
  destruct (Hread eq_refl) as [Hr (data0 & Hstr & Hp0)].
  destruct (readAvailable_spec _ _ _ _ _ _ Hr Er) as [Ec Ho]. rewrite Hfd in Ho.
  pose proof Ho as [(_ & _ & data & Hm & Hp) _].
  destruct (store_ok base tk tk k d l fd s c k1 [] data (loop_ok_dirty _ _ _ _ _ fd Hok) Hs)
    as [Hok1 Hs1]; auto; [by rewrite Ec|by rewrite Ec|by rewrite Ec|apply Hok|].
  split_and!; auto. exists (data0 ++ data). rewrite <-app_assoc, <-(moved_in _ _ _ _ _ Hm).
  split; [done|]. by eapply parses_app.
Qed.

Lemma decoded_settled v acc fd s c :
  decoded v acc fd (mkClientState (id s) c) [] (FrameDecoder.pending (decoder_ c)) need_more_data ->
  settled v acc fd (mkClientState (id s) c).
Proof. intros (data & ? & Hp); exists data; by rewrite app_nil_r in Hp. Qed.

(** No event of a client breaks the invariant. *)
Lemma handleClientEvent_ok base tk fuel k d l fd evs k' d' l' :
  loop_ok base None tk k d l ->
  handleClientEvent fuel k d l fd evs = Some (k', d', l') ->
  loop_ok base None tk k' d' l'.
Proof.
  intros Hok; unfold handleClientEvent.
  destruct (connections_ l !! fd) as [s|] eqn:Hs; [|intros; by simplify_eq].
  assert (Hclose : forall k1 d1 l1, loop_ok base (Some fd) tk k1 d1 l1 ->
    is_Some (connections_ l1 !! fd) ->
    (let '(k, l) := closeConnection k1 l1 fd in Some (k, d1, l)) = Some (k', d', l') ->
    loop_ok base None tk k' d' l').
  { intros k1 d1 l1 Hok1 Hs1. destruct (closeConnection k1 l1 fd) as [k2 l2] eqn:E.
    intros; simplify_eq. eapply close_ok in E; [by destruct E|exact Hok1|done]. }
  pose proof (ok_clients _ _ _ _ _ _ Hok fd s Hs) as [[Hpos Hfd] _ Hread Hwf Hst _ _].
  specialize (Hread eq_refl). pose proof (loop_ok_dirty _ _ _ _ _ fd Hok) as Hokd.
  destruct (has evs (Z.lor EPOLLERR EPOLLHUP)); [by apply Hclose|].
  destruct (has evs _).
  2: { intros E. by apply (write_client_ok base tk fuel k d l fd s) in E as [-> ?]. }
  destruct (readAvailable fuel k (connection s)) as [[[k1 c] r]|] eqn:Er; simpl; [|done].
  destruct (read_store_ok _ _ _ _ _ _ _ _ _ _ _ Hok Hs Er) as (Hok1 & Hs1 & Ho & Hdec).
  pose proof (read_outcome_ok _ _ _ _ _ _ Ho) as Hread'.
  destruct (submit_frames k1 d fd (id s) (frames r)) as [[k2 d2] ok] eqn:Es.
  eapply (submit_ok _ _ _ _ _ _ (mkClientState (id s) c) _ _ _ _ _ _ Hok1 Hs1 Hdec) in Es
    as (Hok2 & _ & pre & post & _ & _ & Hiff & Hdec2).
  destruct ok; simpl; [|by apply Hclose].
  destruct (read_status r) eqn:Hrs; try (by apply Hclose).
  intros E. specialize (Hread' ltac:(congruence)).
  apply (write_client_ok base tk fuel k2 d2 _ fd _ _ _ _ Hok2 Hs1) in E as [-> ?]; [done|].
  rewrite (proj1 Hiff eq_refl) in Hdec2. split; [done|]. by apply decoded_settled.
Qed.

(** What an event of client [fd] does to the connections: the others stay. *)
Definition only_client (fd : Z) (l l' : EventLoop) : Prop :=
  forall fd', fd' <> fd -> connections_ l' !! fd' = connections_ l !! fd'.

Lemma closeConnection_lookup k l fd k' l' :
  closeConnection k l fd = (k', l') -> only_client fd l l' /\ connections_ l' !! fd = None.
Proof.
  unfold closeConnection, erase_connection, only_client.
  destruct (connections_ l !! fd) as [s|] eqn:Hs; [|intros; by simplify_eq].
  destruct (remove k (epoll_ l) fd) as [k1 r]. intros; simplify_eq; simpl.
  split; [intros; by rewrite lookup_delete_ne|apply lookup_delete_eq].
Qed.

Lemma store_connection_lookup fd c l s :
  connections_ l !! fd = Some s ->
  only_client fd l (store_connection fd c l) /\
  connections_ (store_connection fd c l) !! fd = Some (mkClientState (id s) c).
Proof.
  intros Hs; unfold only_client; simpl. split; [intros; by rewrite lookup_alter_ne|].
  by rewrite lookup_alter_eq, Hs.
Qed.

(** Writing changes nothing of a connection but its write buffer, or closes it. *)
Lemma write_client_lookup fuel k (d : D) l fd s k' d' l' :
  connections_ l !! fd = Some s ->
  write_client fuel k d l fd (connection s) = Some (k', d', l') ->
  only_client fd l l' /\
  (connections_ l' !! fd = None \/
   exists b, connections_ l' !! fd = Some (mkClientState (id s)
     (mkConnection (socket_ (connection s)) (decoder_ (connection s)) b))).
Proof.
  intros Hs; unfold write_client, flushWrites.
  assert (Hfin : forall k1 l1 b, only_client fd l l1 ->
    connections_ l1 !! fd = Some (mkClientState (id s)
      (mkConnection (socket_ (connection s)) (decoder_ (connection s)) b)) -> forall c1,
    (let '(k, ok) := updateInterest k1 l1 c1 in
     if negb ok then let '(k, l) := closeConnection k l1 fd in Some (k, d, l)
     else Some (k, d, l1)) = Some (k', d', l') ->
    only_client fd l l' /\ (connections_ l' !! fd = None \/
      exists b, connections_ l' !! fd = Some (mkClientState (id s)
        (mkConnection (socket_ (connection s)) (decoder_ (connection s)) b)))).
  { intros k1 l1 b Ho Hl c1. destruct (updateInterest k1 l1 c1) as [k2 []]; simpl;
      [intros; simplify_eq; eauto|].
    destruct (closeConnection k2 l1 fd) as [k3 l3] eqn:E. apply closeConnection_lookup in E as [Ho3 Hn].
    intros; simplify_eq. split; [|by left]. intros fd' Hne. by rewrite Ho3, Ho. }
  assert (Es : s = mkClientState (id s) (mkConnection (socket_ (connection s))
    (decoder_ (connection s)) (write_buffer_ (connection s)))) by by destruct s as [i []].
  destruct (wantsWrite (connection s)); [|apply (Hfin k l (write_buffer_ (connection s)));
    [done|by rewrite <-Es]].
  destruct (flush fuel k _ _) as [[[k1 b] r]|]; simpl; [|done].
  set (c := mkConnection (socket_ (connection s)) (decoder_ (connection s)) b).
  destruct (store_connection_lookup fd c l s Hs) as [Ho Hl].
  destruct (bool_decide _); [|by apply (Hfin k1 _ b)].
  destruct (closeConnection k1 _ fd) as [k3 l3] eqn:E. apply closeConnection_lookup in E as [Ho3 Hn].
  intros; simplify_eq. split; [|by left]. intros fd' Hne. by rewrite Ho3, Ho.
Qed.

(** ** Accepting *)

(** The new client's entry, before epoll knows of it. *)
Lemma accept_insert_ok base tk k d l fd stream rest k1 :
  loop_ok base None tk k d l -> 0 <= fd -> ~ is_open (view k) fd ->
  os_clients (view k) = stream :: rest ->
  view k1 = set_flags fd (Z.land (Z.lor SOCK_NONBLOCK SOCK_CLOEXEC) O_NONBLOCK)
    (set_out fd [] (set_in fd stream (set_clients rest (view k)))) ->
  let i := next_connection_id_ l in
  let l1 := set_connections (<[fd := make_client i (make_socket fd)]> (connections_ l))
              (set_next_id (wrap64 (i + 1)) l) in
  connections_ l !! fd = None /\ next_connection_id_ l1 = i + 1 /\
  loop_ok base (Some fd) tk k1 d l1.
Proof.
  intros Hok Hpos Hno Hcl Ev i l1.
  pose proof (answers_new _ _ _ _ _ _ fd Hok) as Hnew.
  pose proof Hok as [Hsv Hep Hb Hpt Hl Hopen Hap Hint Hcls Hids [Hn1 Hn2] [Hcome Hcount] Htasks Hstr Htk].
  assert (Hnb : fd ∉ others base) by (intros Hin; apply Hno, Hopen; by left).
  assert (Hnone : connections_ l !! fd = None).
  { destruct (connections_ l !! fd) eqn:E; [|done]. destruct Hno; apply Hopen; right; eauto. }
  rewrite Hcl, len_cons in Hn2, Hcount. rewrite Hcl in Hcome. pose proof (len_nonneg rest).
  set (n := Z.to_nat (next_connection_id_ l - 1)) in *.
  assert (Hlen : length (take n streams) = n)
    by (rewrite length_take; unfold len in *; pose proof (Zle_0_nat (length rest)); lia).
  assert (Hthis : stream_of (next_connection_id_ l) = Some stream).
  { unfold stream_of; fold n. rewrite Hcome, lookup_app_r by lia. by rewrite Hlen, Nat.sub_diag. }
  assert (Hacc0 : of_id (next_connection_id_ l) (accepted d) = [])
    by (apply of_id_none; intros t Ht%Htasks; lia).
  assert (Hw : next_connection_id_ l1 = i + 1) by (simpl; apply wrap64_small; lia).
  split; [done|split; [done|]]. unfold i in *. split; auto.
  - apply (service_ok_kernel k); [done|]. by rewrite Ev.
  - intros f; unfold is_open in *; rewrite Ev; simpl.
    rewrite !lookup_insert_is_Some', Hopen. intuition.
  - intros f; simpl; rewrite lookup_insert_is_Some'. intros [<-|?]; auto.
  - intros f Hne. rewrite Ev, wanted_lookup; simpl. rewrite lookup_insert_ne by congruence.
    rewrite <-(wanted_lookup l). by apply Hint.
  - intros f s. simpl connections_. rewrite lookup_insert_Some. intros [[<- <-]|[Hne Hs]].
    + split; simpl; auto using wf_empty_buffer.
      * simpl in Hw; lia.
      * rewrite bool_decide_eq_true_2; done.
      * unfold outbound; rewrite Ev; simpl. by rewrite lookup_insert_eq, Hnew.
      * exists []. unfold incoming; rewrite Ev; simpl. by rewrite lookup_insert_eq.
      * by rewrite Hacc0.
    + apply (client_ok_view (view k) _ (next_connection_id_ l) _ _ _ tk _ _ _ _ _ (Hcls f s Hs)); auto.
      * unfold outbound; rewrite Ev; simpl. by rewrite lookup_insert_ne.
      * unfold incoming; rewrite Ev; simpl. by rewrite lookup_insert_ne.
      * lia.
  - intros f1 f2 s1 s2; simpl connections_. rewrite !lookup_insert_Some.
    assert (Hlt : forall f s, connections_ l !! f = Some s -> id s < next_connection_id_ l)
      by (intros f s Hs; by destruct (client_id _ _ _ _ _ _ _ (Hcls f s Hs))).
    intros [[<- <-]|[? Hx]] [[<- <-]|[? Hy]] E; simpl in E; auto;
      [apply Hlt in Hy; lia|apply Hlt in Hx; lia|by apply (Hids f1 f2 s1 s2)].
  - rewrite Hw, Ev; simpl. lia.
  - rewrite Hw, Ev; simpl. split; [|lia].
    replace (Z.to_nat (next_connection_id_ l + 1 - 1)) with (S n) by lia.
    rewrite (take_S_r _ _ stream) by exact Hthis. by rewrite <-app_assoc.
  - intros t Ht%Htasks; rewrite Hw; lia.
Qed.

(** A new client has nothing received and nothing submitted. *)
Lemma client_starts_rested base tk k d l fd stream rest k1 k2 m :
  loop_ok base None tk k d l -> os_clients (view k) = stream :: rest ->
  view k1 = set_flags fd (Z.land (Z.lor SOCK_NONBLOCK SOCK_CLOEXEC) O_NONBLOCK)
    (set_out fd [] (set_in fd stream (set_clients rest (view k)))) ->
  view k2 = set_interest (Epoll.fd (epoll_ l)) m (view k1) ->
  rested (view k2) (accepted d) fd (make_client (next_connection_id_ l) (make_socket fd)).
Proof.
  intros Hok Hcl Ev1 Ev2. split; [apply read_ok_empty|]. exists []. simpl.
  destruct (ok_to_come _ _ _ _ _ _ Hok) as [Hcome Hcount]. destruct (ok_next _ _ _ _ _ _ Hok).
  rewrite Hcl, len_cons in Hcount. rewrite Hcl in Hcome. pose proof (len_nonneg rest).
  unfold tasks_of. rewrite of_id_none by (intros t Ht%(ok_tasks _ _ _ _ _ _ Hok); lia).
  split; [|by apply parses_stop].
  unfold stream_of, incoming; rewrite Ev2, Ev1; simpl. rewrite lookup_insert_eq; simpl.
  set (n := Z.to_nat (next_connection_id_ l - 1)) in *.
  assert (Hlen : length (take n streams) = n) by (rewrite length_take; unfold len in *; lia).
  rewrite Hcome, lookup_app_r by lia. by rewrite Hlen, Nat.sub_diag.
Qed.

Definition clients_to_come (k : K) : nat := length (os_clients (view k)) + os_signals (view k).

(** Between two states clients were accepted: each used one id, in order, and
    starts as a new connection; the others are as they were. *)
Definition accepted_more (k : K) (l : EventLoop) (k' : K) (l' : EventLoop) : Prop :=
  connections_ l ⊆ connections_ l' /\
  (forall fd s, connections_ l' !! fd = Some s -> connections_ l !! fd = None ->
     next_connection_id_ l <= id s < next_connection_id_ l' /\
     connection s = make_connection (make_socket fd)) /\
  next_connection_id_ l' + len (os_clients (view k'))
    = next_connection_id_ l + len (os_clients (view k)) /\
  next_connection_id_ l <= next_connection_id_ l'.

Lemma accepted_more_refl k k' l l' :
  connections_ l' = connections_ l -> next_connection_id_ l' = next_connection_id_ l ->
  os_clients (view k') = os_clients (view k) -> accepted_more k l k' l'.
Proof.
  unfold accepted_more; intros -> -> ->. split; [done|]. split; [congruence|lia].
Qed.

Lemma accepted_more_trans k1 l1 k2 l2 k3 l3 :
  accepted_more k1 l1 k2 l2 -> accepted_more k2 l2 k3 l3 -> accepted_more k1 l1 k3 l3.
Proof.
  intros (Hs1 & Hn1 & Hc1 & Hl1) (Hs2 & Hn2 & Hc2 & Hl2).
  split; [by etransitivity|split; [|lia]]. intros fd s Hs Hnone.
  destruct (connections_ l2 !! fd) as [s2|] eqn:E2.
  - pose proof (lookup_weaken _ _ _ _ E2 Hs2) as E. rewrite Hs in E; injection E as ->.
    destruct (Hn1 fd s2 E2 Hnone); split; [lia|done].
  - destruct (Hn2 fd s Hs E2); split; [lia|done].
Qed.

Lemma accept_body_ok base tk k d l :
  loop_ok base None tk k d l ->
  match accept_body (k, l) with
  | inl (k', l') => loop_ok base None tk k' d l' /\ accepted_more k l k' l' /\
      (clients_to_come k' < clients_to_come k)%nat
  | inr (k', l', ok) => loop_ok base None tk k' d l' /\ accepted_more k l k' l' /\
      (ok = false -> 0 < error_number_ l')
  end.
Proof.
  intros Hok; unfold accept_body.
  destruct (sys_accept4 k _ _) as [k1 cfd] eqn:Ea. apply accept_law in Ea.
  inversion Ea as [fd stream rest e Hpos Hno Hcl|Hsig E0 E1 E2|e Hep Hne E0 E1 E2]; subst cfd.
  - replace (0 <=? fd) with true by lia.
    match goal with E : _ = view k1 |- _ => symmetry in E; rename E into Ev end.
    destruct (accept_insert_ok base tk k d l fd stream rest k1 Hok Hpos Hno Hcl Ev)
      as (Hnone & Hnext & Hok1).
    simpl. rewrite Hnone.
    set (l1 := set_connections _ _) in *.
    assert (Hs1 : connections_ l1 !! fd
      = Some (make_client (next_connection_id_ l) (make_socket fd))) by apply lookup_insert_eq.
    destruct (add k1 (epoll_ l) fd kClientEvents) as [k2 r] eqn:Eadd. apply add_spec in Eadd.
    destruct Eadd as [(-> & _ & _ & Ev2)|(-> & Ev2)]; simpl negb; cbn match.
    + rewrite destruct_closed_socket by done. split_and!.
      2: { split; [by apply insert_subseteq|]. rewrite Hnext, Ev2, Ev, Hcl; simpl.
           rewrite len_cons. split; [|lia]. intros f s.
           rewrite lookup_insert_Some. intros [[<- <-]|[? ?]] ?; [simpl; split; [lia|done]|congruence]. }
      2: { unfold clients_to_come; rewrite Ev2, Ev, Hcl; simpl; lia. }
      apply (loop_ok_clean base tk k2 d l1 fd _) in Hs1 as Hclean; [done| | |].
      * apply (loop_ok_interest _ _ k1 _ _ _ _ _ Hok1 Ev2). intros; by apply lookup_insert_ne.
      * by apply (client_starts_rested base tk k d l fd stream rest k1 k2 _ Hok Hcl Ev Ev2).
      * rewrite Ev2. unfold Epoll.fd.
        by rewrite interest_set_interest, decide_True, lookup_insert_eq.
    + destruct (erase_connection k2 l1 fd) as [k3 l3] eqn:Ee. rewrite destruct_closed_socket by done.
      assert (Hok2 : loop_ok base (Some fd) tk k2 d l1)
        by (apply (loop_ok_kernel _ _ _ k1); rewrite ?Ev2; auto).
      pose proof Ee as Ee'. apply (erase_ok base tk k2 d l1 fd) in Ee as [Hok3 El3]; eauto.
      split; [done|]. unfold erase_connection in Ee'. rewrite Hs1 in Ee'. injection Ee' as <- _.
      assert (Ev3 : os_clients (view (destruct_socket k2 (make_socket fd))) = rest /\
        os_signals (view (destruct_socket k2 (make_socket fd))) = os_signals (view k)).
      { rewrite destruct_socket_view by (unfold Socket.valid; simpl; lia). by rewrite Ev2, Ev. }
      destruct Ev3 as [Ev3 Ev4]. split.
      * assert (Ec : connections_ l3 = connections_ l) by (rewrite El3; by apply delete_insert_id).
        assert (En : next_connection_id_ l3 = next_connection_id_ l1) by (by rewrite El3).
        unfold accepted_more; rewrite Ec, En, Hnext; simpl. rewrite Ev3, Hcl, len_cons.
        split; [done|split; [congruence|lia]].
      * unfold clients_to_come. simpl. rewrite Ev3, Ev4, Hcl; simpl; lia.
  - change (0 <=? -1) with false; cbn match zeta.
    change (EINTR =? EINTR) with true; cbn match. split; [by apply (loop_ok_kernel _ _ _ k); rewrite <-?E2|].
    split; [apply accepted_more_refl; rewrite <-?E2; done|]. unfold clients_to_come.
    rewrite <-E2; simpl; lia.
  - change (0 <=? -1) with false; cbn match zeta.
    replace (errno k1 =? EINTR) with false by lia.
    assert (loop_ok base None tk k1 d l) by (apply (loop_ok_kernel _ _ _ k); rewrite <-?E2; auto).
    assert (accepted_more k l k1 l) by (apply accepted_more_refl; by rewrite <-?E2).
    destruct (_ || _); [done|]. split; [by apply loop_ok_error|done].
Qed.

Lemma acceptReadyClients_ok base tk fuel k d l k' l' ok :
  loop_ok base None tk k d l -> acceptReadyClients fuel k l = Some (k', l', ok) ->
  loop_ok base None tk k' d l' /\ (ok = false -> 0 < error_number_ l').
Proof.
  intros Hok. unfold acceptReadyClients.
  apply (loop_inv accept_body (fun s => loop_ok base None tk s.1 d s.2)
    (fun r => loop_ok base None tk r.1.1 d r.1.2 /\ (r.2 = false -> 0 < error_number_ r.1.2)));
    [|done].
  intros [k1 l1] Hs; simpl in Hs. apply accept_body_ok in Hs.
  destruct (accept_body (k1, l1)) as [[k2 l2]|[[k2 l2] ok2]]; [by destruct Hs|by destruct Hs as (? & _ & ?)].
Qed.

Lemma acceptReadyClients_more base tk fuel k d l k' l' ok :
  loop_ok base None tk k d l -> acceptReadyClients fuel k l = Some (k', l', ok) ->
  accepted_more k l k' l'.
Proof.
  intros Hok. unfold acceptReadyClients.
  apply (loop_inv accept_body
    (fun s => loop_ok base None tk s.1 d s.2 /\ accepted_more k l s.1 s.2)
    (fun r => accepted_more k l r.1.1 r.1.2)); [|split; [done|by apply accepted_more_refl]].
  intros [k1 l1] [Hs Hm]; simpl in Hs, Hm. apply accept_body_ok in Hs.
  destruct (accept_body (k1, l1)) as [[k2 l2]|[[k2 l2] ok2]]; simpl;
    destruct Hs as (? & ? & ?); [split; [done|]|]; by eapply accepted_more_trans.
Qed.

Lemma acceptReadyClients_returns base tk k d l :
  loop_ok base None tk k d l -> exists fuel, is_Some (acceptReadyClients fuel k l).
Proof.
  intros Hok. exists (S (clients_to_come k)). unfold acceptReadyClients.
  destruct (loop_total accept_body (fun s => loop_ok base None tk s.1 d s.2)
    (fun s => clients_to_come s.1) (fun _ => True) (S (clients_to_come k)) (k, l)) as (r & E & _);
    [|done|simpl; lia|rewrite E; eauto].
  intros [k1 l1] Hs; simpl in Hs. apply accept_body_ok in Hs.
  destruct (accept_body (k1, l1)) as [[k2 l2]|[[k2 l2] ok2]]; [by destruct Hs as (? & _ & ?)|done].
Qed.

(** ** Rounds *)

Lemma submit_frames_taken k d fd i fs k' d' ok :
  submit_frames k d fd i fs = (k', d', ok) -> taken d' = taken d.
Proof.
  revert k d; induction fs as [|f fs IH]; intros k d; simpl; [by intros; simplify_eq|].
  unfold submitFrameForProcessing.
  pose proof (trySubmit_taken k d (mkProcessingTask fd i f)) as Htk.
  destruct (service_trySubmit k d _) as [[k1 d1] st]; simpl in Htk. rewrite <-Htk.
  destruct st; simpl; intros E; simplify_eq; eauto.
Qed.

Lemma write_client_service fuel k (d : D) l fd c k' d' l' :
  write_client fuel k d l fd c = Some (k', d', l') -> d' = d.
Proof.
  unfold write_client. intros E. destruct (wantsWrite c).
  - destruct (flushWrites fuel k c) as [[[k1 c1] r]|]; simpl in E; [|done].
    destruct (bool_decide _).
    + destruct (closeConnection k1 _ fd); by simplify_eq.
    + destruct (updateInterest k1 _ c1) as [k2 []]; simpl in E;
        [|destruct (closeConnection k2 _ fd)]; by simplify_eq.
  - destruct (updateInterest k l c) as [k2 []]; simpl in E;
      [|destruct (closeConnection k2 l fd)]; by simplify_eq.
Qed.

Lemma handleClientEvent_taken fuel k d l fd evs k' d' l' :
  handleClientEvent fuel k d l fd evs = Some (k', d', l') -> taken d' = taken d.
Proof.
  unfold handleClientEvent. destruct (connections_ l !! fd) as [s|]; [|by intros; simplify_eq].
  destruct (has evs _); [destruct (closeConnection k l fd); by intros; simplify_eq|].
  destruct (has evs _); [|by intros ->%write_client_service].
  destruct (readAvailable fuel k _) as [[[k1 c] r]|]; simpl; [|done].
  destruct (submit_frames k1 d fd (id s) (frames r)) as [[k2 d2] ok] eqn:Es.
  apply submit_frames_taken in Es. rewrite <-Es.
  destruct ok; simpl; [|destruct (closeConnection k2 _ fd); by intros; simplify_eq].
  destruct (read_status r); try (destruct (closeConnection k2 _ fd); by intros; simplify_eq).
  by intros ->%write_client_service.
Qed.

Lemma handle_event_ok base fuel k d l ev k' d' l' ok :
  loop_ok base None (taken d) k d l ->
  handle_event fuel k d l ev = Some (k', d', l', ok) ->
  loop_ok base None (taken d') k' d' l' /\ (ok = false -> 0 < error_number_ l').
Proof.
  intros Hok; unfold handle_event. intros E.
  destruct (_ =? service_fd d).
  { destruct (has _ _); [simplify_eq; split; [by apply loop_ok_error|done]|].
    destruct (has _ _); [|by simplify_eq]. by eapply handleProcessingResults_ok. }
  destruct (_ =? _).
  { destruct (if has _ _ then _ else _) as [[[k1 l1] ok1]|] eqn:Ea; simpl in E; [|done].
    assert (Hok1 : loop_ok base None (taken d) k1 d l1 /\ (ok1 = false -> 0 < error_number_ l1)).
    { destruct (has _ _); [by eapply acceptReadyClients_ok|by simplify_eq]. }
    destruct Hok1 as [Hok1 Herr].
    destruct ok1; simpl in E; [|simplify_eq; auto].
    destruct (has (events ev) (Z.lor EPOLLERR EPOLLHUP)); simplify_eq; auto.
    split; [by apply loop_ok_error|done]. }
  destruct (handleClientEvent _ _ _ _ _ _) as [[[k1 d1] l1]|] eqn:Ee; simpl in E; [|done].
  simplify_eq. split; [|done]. rewrite (handleClientEvent_taken _ _ _ _ _ _ _ _ _ Ee).
  by eapply handleClientEvent_ok.
Qed.

Lemma handle_events_ok base fuel k d l evs k' d' l' ok :
  loop_ok base None (taken d) k d l ->
  handle_events fuel k d l evs = Some (k', d', l', ok) ->
  loop_ok base None (taken d') k' d' l' /\ (ok = false -> 0 < error_number_ l').
Proof.
  revert k d l; induction evs as [|ev evs IH]; intros k d l Hok; simpl;
    [by intros; simplify_eq|].
  destruct (handle_event fuel k d l ev) as [[[[k1 d1] l1] ok1]|] eqn:Ee; simpl; [|done].
  destruct ok1; simpl; intros E.
  - apply (handle_event_ok base) in Ee as [Hok1 _]; eauto.
  - simplify_eq. by apply (handle_event_ok base) in Ee.
Qed.

Lemma loop_ok_signals base dirty tk k d l k' :
  loop_ok base dirty tk k d l -> only_signals (view k) (view k') -> loop_ok base dirty tk k' d l.
Proof.
  intros Hok [_ Ev]. apply (loop_ok_kernel _ _ _ k); [done|by rewrite Ev..|].
  intros fd _. unfold interest. by rewrite Ev.
Qed.

Lemma run_round_ok base fuel k d l k' d' l' ok :
  loop_ok base None (taken d) k d l ->
  run_round fuel k d l = Some (k', d', l', ok) ->
  loop_ok base None (taken d') k' d' l' /\ (ok = false -> 0 < error_number_ l').
Proof.
  intros Hok; unfold run_round.
  destruct (wait _ _ _ _ _) as [[[k1 r] evs]|] eqn:Ew; simpl; [|done].
  apply wait_spec in Ew as [Hv Ho]; [|done]. unfold wait_outcome in Ho.
  apply (loop_ok_signals _ _ _ _ _ _ _ Hok) in Hv as Hok1.
  destruct (completed r); simpl; [by apply handle_events_ok|].
  intros; simplify_eq. split; [by apply loop_ok_error|]. simpl; tauto.
Qed.

Lemma run_rounds_ok base rounds fuel k d l k' d' l' o :
  loop_ok base None (taken d) k d l ->
  run_rounds rounds fuel k d l = Some (k', d', l', o) ->
  loop_ok base None (taken d') k' d' l' /\
  match o with Some r => r = 1 /\ 0 < error_number_ l' | None => True end.
Proof.
  revert k d l; induction rounds as [|n IH]; intros k d l Hok; simpl;
    [by intros; simplify_eq|].
  destruct (run_round fuel k d l) as [[[[k1 d1] l1] ok]|] eqn:Er; simpl; [|done].
  destruct ok; simpl; intros E.
  - apply (run_round_ok base) in Er as [Hok1 _]; eauto.
  - simplify_eq. apply (run_round_ok base) in Er as [Hok1 Herr]; auto.
Qed.
End Invariant.
