(* ===== verification/EventLoopReturns.v ===== *)
(** * Every round of the event loop returns

    More fuel does not change what a handler returns, and from a state of the
    invariant every handler, and so every round of [run], returns with enough
    fuel. *)

From S2P Require Import Prelude Endian Kernel SimKernel Frame FrameDecoder.
From S2P Require Import FrameWriteBuffer Raii Socket Epoll EventFd NonBlocking Processing.
From S2P Require Import Connection BoundedQueue ThreadPool Dispatcher Service.
From S2P Require Import EventLoop Streams EventLoopInvariant.

Section Returns.
Context `{Host} {K D : Type} {KO : Kernel K} {KV : KernelView K} {KL : KernelLaws K}.
Context {SO : Service K D} {SL : ServiceLaws K D}.
Context (streams : list bytes) (streams_fit : 6 * total streams <= vector_max).
Abbreviation loop_ok := (loop_ok streams).

(** ** More fuel *)

Lemma handleProcessingResults_mono fuel fuel' k d l r :
  (fuel <= fuel')%nat -> handleProcessingResults fuel k d l = Some r ->
  handleProcessingResults fuel' k d l = Some r.
Proof.
  intros Hle; unfold handleProcessingResults.
  destruct (service_consume fuel k d) as [x|] eqn:E; [|done].
  by rewrite (consume_mono _ _ _ _ _ Hle E).
Qed.

Lemma write_client_mono fuel fuel' k (d : D) l fd c r :
  (fuel <= fuel')%nat -> write_client fuel k d l fd c = Some r ->
  write_client fuel' k d l fd c = Some r.
Proof.
  intros Hle; unfold write_client, flushWrites, flush. destruct (wantsWrite c); [|done].
  destruct (loop _ fuel _) as [x|] eqn:E; [|done]. by rewrite (loop_mono _ _ _ _ _ Hle E).
Qed.

Lemma handleClientEvent_mono fuel fuel' k d l fd evs r :
  (fuel <= fuel')%nat -> handleClientEvent fuel k d l fd evs = Some r ->
  handleClientEvent fuel' k d l fd evs = Some r.
Proof.
  intros Hle; unfold handleClientEvent. destruct (connections_ l !! fd) as [s|]; [|done].
  destruct (has evs _); [done|]. destruct (has evs _); [|by apply write_client_mono].
  destruct (readAvailable fuel k _) as [[[k1 c] rr]|] eqn:E; [|done].
  rewrite (readAvailable_mono _ _ _ _ _ Hle E); simpl.
  destruct (submit_frames k1 d fd (id s) _) as [[k2 d2] []]; simpl; [|done].
  destruct (read_status rr); try done. by apply write_client_mono.
Qed.

Lemma handle_event_mono fuel fuel' k d l ev r :
  (fuel <= fuel')%nat -> handle_event fuel k d l ev = Some r ->
  handle_event fuel' k d l ev = Some r.
Proof.
  intros Hle; unfold handle_event, acceptReadyClients. destruct (_ =? service_fd d).
  { destruct (has _ _); [done|]. destruct (has _ _); [|done].
    by apply handleProcessingResults_mono. }
  destruct (_ =? _).
  { destruct (has _ EPOLLIN); [|done].
    destruct (loop _ fuel _) as [x|] eqn:E; [|done]. by rewrite (loop_mono _ _ _ _ _ Hle E). }
  destruct (handleClientEvent fuel _ _ _ _ _) as [x|] eqn:E; [|done].
  by rewrite (handleClientEvent_mono _ _ _ _ _ _ _ _ Hle E).
Qed.

Lemma handle_events_mono fuel fuel' k d l evs r :
  (fuel <= fuel')%nat -> handle_events fuel k d l evs = Some r ->
  handle_events fuel' k d l evs = Some r.
Proof.
  intros Hle; revert k d l; induction evs as [|ev evs IH]; intros k d l; simpl; [done|].
  destruct (handle_event fuel k d l ev) as [[[[k1 d1] l1] ok]|] eqn:E; [|done].
  rewrite (handle_event_mono _ _ _ _ _ _ _ Hle E); simpl. destruct ok; simpl; auto.
Qed.

Lemma run_round_mono fuel fuel' k d l r :
  (fuel <= fuel')%nat -> run_round fuel k d l = Some r -> run_round fuel' k d l = Some r.
Proof.
  intros Hle; unfold run_round. destruct (wait fuel _ _ _ _) as [[[k1 rr] evs]|] eqn:E; [|done].
  rewrite (wait_mono _ _ _ _ _ _ _ Hle E); simpl.
  destruct (completed rr); simpl; [by apply handle_events_mono|done].
Qed.

Lemma run_rounds_mono rounds fuel fuel' k d l r :
  (fuel <= fuel')%nat -> run_rounds rounds fuel k d l = Some r ->
  run_rounds rounds fuel' k d l = Some r.
Proof.
  intros Hle; revert k d l; induction rounds as [|n IH]; intros k d l; simpl; [done|].
  destruct (run_round fuel k d l) as [[[[k1 d1] l1] ok]|] eqn:E; [|done].
  rewrite (run_round_mono _ _ _ _ _ _ Hle E); simpl. destruct ok; simpl; auto.
Qed.

(** ** Enough fuel *)

Lemma write_client_returns base tk k d l fd s :
  loop_ok base (Some fd) tk k d l -> connections_ l !! fd = Some s ->
  exists fuel, is_Some (write_client fuel k d l fd (connection s)).
Proof.
  intros Hok Hs; unfold write_client, flushWrites.
  pose proof (ok_clients _ _ _ _ _ _ _ Hok fd s Hs) as [_ _ _ Hwf _ _ _].
  assert (Hfin : forall k1 l1 c1, is_Some
    (let '(k, ok) := updateInterest k1 l1 c1 in
     if negb ok then let '(k, l) := closeConnection k l1 fd in Some (k, d, l)
     else Some (k, d, l1))).
  { intros k1 l1 c1. destruct (updateInterest k1 l1 c1) as [k2 []]; simpl; [eauto|].
    destruct (closeConnection k2 l1 fd); eauto. }
  destruct (wantsWrite (connection s)); [|exists 0%nat; apply Hfin].
  set (b := write_buffer_ (connection s)) in *.
  destruct (flush_total (S (Z.to_nat (len (FrameWriteBuffer.pending b)) + os_signals (view k)))
    k b (Connection.fd (connection s)) Hwf ltac:(lia)) as (k1 & b1 & r & sent & E & _).
  eexists; rewrite E; simpl. destruct (bool_decide _); [|apply Hfin].
  destruct (closeConnection k1 _ fd); eauto.
Qed.

Lemma handleClientEvent_returns base tk k d l fd evs :
  loop_ok base None tk k d l -> exists fuel, is_Some (handleClientEvent fuel k d l fd evs).
Proof.
  intros Hok; unfold handleClientEvent.
  destruct (connections_ l !! fd) as [s|] eqn:Hs; [|exists 0%nat; eauto].
  pose proof (ok_clients _ _ _ _ _ _ _ Hok fd s Hs) as [_ _ Hread _ _ _ _].
  specialize (Hread eq_refl). pose proof (loop_ok_dirty _ _ _ _ _ _ fd Hok) as Hokd.
  destruct (has evs _); [exists 0%nat; destruct (closeConnection k l fd); eauto|].
  destruct (has evs _); [|by eapply write_client_returns].
  destruct (readAvailable_total (S (read_fuel (Connection.fd (connection s)) k)) k (connection s)
    (proj1 Hread) ltac:(lia)) as (k1 & b & r & Er & _).
  set (c := mkConnection (socket_ (connection s)) b (write_buffer_ (connection s))) in *.
  destruct (read_store_ok _ _ _ _ _ _ _ _ _ _ _ _ Hok Hs Er) as (Hok1 & Hs1 & _ & Hdec).
  destruct (submit_frames k1 d fd (id s) (frames r)) as [[k2 d2] ok] eqn:Es.
  pose proof (submit_ok _ _ _ _ _ _ _ (mkClientState (id s) c) _ _ _ _ _ _ Hok1 Hs1 Hdec Es)
    as [Hok2 _].
  destruct (write_client_returns _ _ _ _ _ _ _ Hok2 Hs1) as [f2 [x Hx]].
  set (f1 := S (read_fuel (Connection.fd (connection s)) k)) in *.
  exists (f1 `max` f2)%nat.
  rewrite (readAvailable_mono f1 (f1 `max` f2)%nat _ _ _ ltac:(lia) Er); simpl. rewrite Es.
  destruct ok; simpl; [|destruct (closeConnection k2 _ fd); eauto].
  destruct (read_status r); try (destruct (closeConnection k2 _ fd); eauto).
  eexists. by apply (write_client_mono f2); [lia|].
Qed.

Lemma handle_event_returns base tk k d l ev :
  loop_ok base None tk k d l -> exists fuel, is_Some (handle_event fuel k d l ev).
Proof.
  intros Hok; unfold handle_event. destruct (_ =? service_fd d).
  { destruct (has _ _); [exists 0%nat; eauto|]. destruct (has _ _); [|exists 0%nat; eauto].
    destruct (consume_returns k d) as [fuel [[[k1 d1] r] E]]; [apply Hok|].
    exists fuel; unfold handleProcessingResults; rewrite E; simpl.
    destruct (read_success r); simpl; [|destruct (_ || _); eauto].
    destruct (service_takeCompleted k1 d1) as [[k2 d2] rs].
    destruct (handle_results k2 l rs); eauto. }
  destruct (_ =? _).
  { destruct (acceptReadyClients_returns _ _ _ _ _ _ Hok) as [fuel [[[k1 l1] ok] E]].
    exists fuel. destruct (has _ EPOLLIN); [rewrite E|]; simpl.
    - destruct ok; simpl; [destruct (has _ _)|]; eauto.
    - destruct (has _ _); eauto. }
  destruct (handleClientEvent_returns _ _ _ _ _ (data_fd ev) (events ev) Hok)
    as [fuel [[[k1 d1] l1] E]]. exists fuel; rewrite E; simpl; eauto.
Qed.

Lemma handle_events_returns base k d l evs :
  loop_ok base None (taken d) k d l -> exists fuel, is_Some (handle_events fuel k d l evs).
Proof.
  revert k d l; induction evs as [|ev evs IH]; intros k d l Hok; [exists 0%nat; eauto|].
  destruct (handle_event_returns _ _ _ _ _ ev Hok) as [f1 [[[[k1 d1] l1] ok] E]].
  destruct ok; [|exists f1; simpl; rewrite E; simpl; eauto].
  destruct (handle_event_ok _ streams_fit _ _ _ _ _ _ _ _ _ _ Hok E) as [Hok1 _].
  destruct (IH k1 d1 l1 Hok1) as [f2 [x Hx]]. exists (f1 `max` f2)%nat; simpl.
  rewrite (handle_event_mono f1 (f1 `max` f2)%nat _ _ _ _ _ ltac:(lia) E); simpl.
  rewrite (handle_events_mono f2 (f1 `max` f2)%nat _ _ _ _ _ ltac:(lia) Hx); eauto.
Qed.

Lemma run_round_returns base k d l :
  loop_ok base None (taken d) k d l -> exists fuel, is_Some (run_round fuel k d l).
Proof.
  intros Hok.
  destruct (wait_total (S (os_signals (view k))) k (epoll_ l) kMaxEvents (-1) ltac:(lia) ltac:(done))
    as (k1 & r & evs & Ew & Hv & _).
  pose proof (loop_ok_signals _ _ _ _ _ _ _ _ Hok Hv) as Hok1.
  set (f1 := S (os_signals (view k))) in *.
  destruct (handle_events_returns _ _ _ _ evs Hok1) as [f2 [x Hx]].
  exists (f1 `max` f2)%nat; unfold run_round.
  rewrite (wait_mono f1 (f1 `max` f2)%nat _ _ _ _ _ ltac:(lia) Ew); simpl.
  destruct (completed r); simpl; [|eauto].
  rewrite (handle_events_mono f2 (f1 `max` f2)%nat _ _ _ _ _ ltac:(lia) Hx); eauto.
Qed.

Lemma run_rounds_returns base rounds k d l :
  loop_ok base None (taken d) k d l -> exists fuel, is_Some (run_rounds rounds fuel k d l).
Proof.
  revert k d l; induction rounds as [|n IH]; intros k d l Hok; [exists 0%nat; simpl; eauto|].
  destruct (run_round_returns _ _ _ _ Hok) as [f1 [[[[k1 d1] l1] ok] E]].
  destruct ok; [|exists f1; simpl; rewrite E; simpl; eauto].
  destruct (run_round_ok _ streams_fit _ _ _ _ _ _ _ _ _ Hok E) as [Hok1 _].
  destruct (IH k1 d1 l1 Hok1) as [f2 [x Hx]]. exists (f1 `max` f2)%nat; simpl.
  rewrite (run_round_mono f1 (f1 `max` f2)%nat _ _ _ _ ltac:(lia) E); simpl.
  rewrite (run_rounds_mono _ f2 (f1 `max` f2)%nat _ _ _ _ ltac:(lia) Hx); eauto.
Qed.
End Returns.
