(* ===== verification/EventLoopSafety.v ===== *)
(** * What the event loop guarantees

    For a loop constructed on an open listening socket, after any number of
    rounds of [run], with any service that keeps its promises. *)

From S2P Require Import Prelude Endian Kernel SimKernel Frame FrameDecoder.
From S2P Require Import FrameWriteBuffer Raii Socket Epoll EventFd NonBlocking Processing.
From S2P Require Import Connection BoundedQueue ThreadPool Dispatcher Service Scheduled.
From S2P Require Import EventLoop Streams EventLoopInvariant EventLoopReturns.

Section Start.
Context `{Host} {K D : Type} {KO : Kernel K} {KV : KernelView K} {KL : KernelLaws K}.
Context {SO : Service K D} {SL : ServiceLaws K D}.

(** ** The start *)

Lemma make_epoll_spec k k' e :
  make_epoll k = (k', e) -> Epoll.valid e = true ->
  ~ is_open (view k) (Epoll.fd e) /\
  view k' = set_flags (Epoll.fd e) 0 (set_interest (Epoll.fd e) ∅ (view k)).
Proof.
  unfold make_epoll, Epoll.valid, Epoll.fd. destruct (sys_epoll_create1 k _) as [k1 r] eqn:Ec.
  apply epoll_create_law in Ec. intros E; simplify_eq; simpl. intros Hv.
  inversion Ec; subst; done.
Qed.

(** A loop that has no clients yet. *)
Lemma loop_ok_start k d l :
  service_ok k d -> accepted d = [] -> taken d = [] -> Epoll.valid (epoll_ l) = true ->
  connections_ l = ∅ -> next_connection_id_ l = 1 ->
  is_open (view k) (Socket.fd (listener_ l)) -> is_open (view k) (Epoll.fd (epoll_ l)) ->
  is_open (view k) (service_fd d) -> Socket.fd (listener_ l) <> service_fd d ->
  1 + len (os_clients (view k)) < 2 ^ 64 ->
  interest (view k) (Epoll.fd (epoll_ l))
    = <[service_fd d := EpollEvent EPOLLIN (service_fd d)]>
        (<[Socket.fd (listener_ l) := EpollEvent EPOLLIN (Socket.fd (listener_ l))]> ∅) ->
  loop_ok (os_clients (view k)) (parts_of k d l) None [] k d l.
Proof.
  intros Hs Ha Ht He Hc Hn Ho1 Ho2 Ho3 Hne Hcl Hi.
  split; rewrite ?Hc, ?Ha, ?Ht; auto; try (intros *; rewrite lookup_empty; first [done|by intros [? ?]]).
  - unfold is_open in *; simpl. by rewrite !elem_of_dom.
  - intros fd. simpl. rewrite lookup_empty, elem_of_dom. unfold is_open. split; [by left|intros [?|[]]; done].
  - intros fd _. rewrite Hi, wanted_lookup, Hc, lookup_empty; simpl.
    destruct (decide (fd = Socket.fd (listener_ l) \/ fd = service_fd d)) as [[->| ->]|Hno].
    + by rewrite lookup_insert_ne, lookup_insert_eq.
    + by rewrite lookup_insert_eq.
    + rewrite !lookup_insert_ne, lookup_empty; [done|intros <-; tauto..].
  - rewrite Hn; lia.
  - rewrite Hn; simpl. split; [done|lia].
  - by intros ? ?%elem_of_nil.
  - intros; apply stream_tasks_nil.
Qed.

Lemma make_event_loop_ok k listener n cap k' d l :
  0 <= n -> 0 <= cap -> is_open (view k) (Socket.fd listener) ->
  1 + len (os_clients (view k)) < 2 ^ 64 ->
  make_event_loop k listener n cap = (k', Some (d, l)) -> valid l = true ->
  loop_ok (os_clients (view k)) (parts_of k' d l) None (taken d) k' d l /\
  connections_ l = ∅ /\
  listener_ l = listener /\ taken d = [] /\ accepted d = [].
Proof.
  intros Hn Hc Hopen Hcl; unfold make_event_loop, valid.
  destruct (make_epoll k) as [k1 e] eqn:Ee.
  destruct (service_make k1 n cap) as [k2 [d0|]] eqn:Es; [|done].
  destruct (Socket.valid _) eqn:Hv1; simpl negb; cbn match; [|intros; simplify_eq; done].
  destruct (Epoll.valid _) eqn:Hv2; simpl negb; cbn match; [|intros; simplify_eq; done].
  destruct (service_valid d0) eqn:Hv3; simpl negb; cbn match; [|intros; simplify_eq; done].
  simpl in Hv1, Hv2.
  destruct (make_epoll_spec _ _ _ Ee Hv2) as [Hnew Ev1].
  destruct (make_law _ _ _ _ _ Hn Hc Es Hv3) as (Hok & Ha & Ht & Hpos & Hfresh & Hopen2 & Hi2 & Hcl2).
  destruct (setNonBlocking k2 _) as [k3 r3] eqn:E3. apply setNonBlocking_view in E3.
  destruct (NonBlocking.success r3); simpl negb; cbn match; [|intros; simplify_eq; done].
  destruct (add k3 _ (Socket.fd _) _) as [k4 r4] eqn:E4. apply add_spec in E4.
  destruct E4 as [(-> & _ & _ & Ev4)|(-> & _)]; simpl negb; cbn match; [|intros; simplify_eq; done].
  destruct (add k4 _ (service_fd d0) _) as [k5 r5] eqn:E5. apply add_spec in E5.
  destruct E5 as [(-> & _ & _ & Ev5)|(-> & _)]; simpl negb; cbn match; [|intros; simplify_eq; done].
  intros E _; injection E as -> <- <-. rewrite Ht. split; [|auto].
  simpl in E3, Ev4, Ev5. fold (Epoll.fd e) in Ev4, Ev5.
  assert (Hne1 : Socket.fd listener <> Epoll.fd e) by (intros E; by rewrite E in Hopen).
  assert (Ho1 : is_open (view k1) (Socket.fd listener) /\ is_open (view k1) (Epoll.fd e)).
  { rewrite Ev1; unfold is_open in *; simpl. rewrite !lookup_insert_is_Some'. auto. }
  destruct Ho1 as [Ho1 Ho2].
  assert (Hne2 : Socket.fd listener <> service_fd d0) by (intros E; by rewrite E in Ho1).
  assert (Hne3 : Epoll.fd e <> service_fd d0) by (intros E; by rewrite E in Ho2).
  assert (H3 : os_count (view k3) = os_count (view k2) /\ os_clients (view k3) = os_clients (view k2) /\
    os_interest (view k3) = os_interest (view k2) /\
    (forall f, is_open (view k2) f -> is_open (view k3) f)).
  { destruct E3 as [->|(Ho & f & ->)]; [auto|]. split_and!; auto.
    intros f'; unfold is_open; simpl. rewrite lookup_insert_is_Some'. auto. }
  destruct H3 as (Hcount & Hcl3 & Hi3 & Hopen3).
  assert (Hopen5 : forall f, is_open (view k2) f -> is_open (view k') f)
    by (intros f Hf; rewrite Ev5, Ev4; by apply Hopen3).
  assert (Hi1 : interest (view k3) (Epoll.fd e) = ∅).
  { unfold interest. rewrite Hi3, Hi2, Ev1; simpl. by rewrite lookup_insert_eq. }
  replace (os_clients (view k)) with (os_clients (view k'))
    by (rewrite Ev5, Ev4; simpl; rewrite Hcl3, Hcl2, Ev1; done).
  apply loop_ok_start; simpl; auto.
  - apply (service_ok_kernel k2); [done|]. rewrite Ev5, Ev4; simpl. by rewrite Hcount.
  - apply Hopen5, Hopen2; auto.
  - apply Hopen5, Hopen2; auto.
  - apply Hopen5, Hopen2; auto.
  - rewrite Ev5, Ev4; simpl. rewrite Hcl3, Hcl2, Ev1; done.
  - fold (Epoll.fd e). rewrite Ev5, interest_set_interest, decide_True by done.
    rewrite Ev4, interest_set_interest, decide_True by done. by rewrite Hi1.
Qed.
End Start.

(** ** The theorems *)

Section Theorems.
Context `{Host} {K D : Type} {KO : Kernel K} {KV : KernelView K} {KL : KernelLaws K}.
Context {SO : Service K D} {SL : ServiceLaws K D}.

(** The tasks of a connection are its frames, when they name its descriptor. *)
Lemma of_id_tasks fd i ts :
  Forall (fun t => task_client_fd t = fd) (of_id i ts) ->
  of_id i ts = mkProcessingTask fd i <$> tasks_of i ts.
Proof.
  intros Hown; unfold tasks_of.
  assert (Hi : Forall (fun t => task_connection_id t = i) (of_id i ts))
    by (apply Forall_forall; intros t [? _]%list_elem_of_filter; done).
  induction Hown as [|[f j p] ts' Hf _ IH]; [done|].
  apply Forall_cons in Hi as [Hj Hi]; simpl in *; subst. csimpl. f_equal; auto.
Qed.

(** The answers to a connection are acknowledgements, at most one for each of
    its tasks. *)
Lemma answers_of_tasks k d fd i :
  service_ok k d -> Forall (fun t => task_client_fd t = fd) (of_id i (accepted d)) ->
  exists n, answers (taken d) fd i
      = concat (replicate n (encode_frame acknowledgement)) /\
    (n <= length (tasks_of i (accepted d)))%nat /\
    (taken d ≡ₚ (processFrame <$> accepted d) -> n = length (tasks_of i (accepted d))).
Proof.
  intros Hs Hown. exists (length (addressed fd i (taken d))).
  assert (Hlen : length (addressed fd i (processFrame <$> accepted d))
    = length (tasks_of i (accepted d))).
  { unfold tasks_of. rewrite length_fmap. revert Hown. unfold addressed, of_id.
    induction (accepted d) as [|t ts IH]; [done|]. rewrite fmap_cons, !filter_cons; simpl.
    destruct (decide (task_connection_id t = i)) as [Hi|Hi].
    - intros [Hf Hown]%Forall_cons. rewrite decide_True by done. simpl; by rewrite IH.
    - intros Hown. rewrite decide_False by tauto. by apply IH. }
  split_and!.
  - unfold answers. f_equal.
    assert (Hack : Forall (fun r => result_response r = acknowledgement)
      (addressed fd i (taken d))).
    { apply Forall_forall; intros r [_ Hr]%list_elem_of_filter.
      destruct (taken_spec k d r Hs Hr) as (_ & t & _ & ->). done. }
    induction Hack as [|r rs Hr _ IH]; [done|]. csimpl. by rewrite Hr, IH.
  - rewrite <-Hlen. apply submseteq_length, submseteq_filter, (service_answers k d Hs).
  - intros Hall. rewrite <-Hlen. by apply Permutation_length, filter_Permutation.
Qed.

(** The loop was constructed in [k0] on [listener], as [l1], and what the
    clients send, with the answers to it, fits in memory. *)
Definition started (k0 : K) (listener : Socket) (k1 : K) (d1 : D) (l1 : EventLoop) : Prop :=
  exists n cap, 0 <= n /\ 0 <= cap /\ is_open (view k0) (Socket.fd listener) /\
    1 + len (os_clients (view k0)) < 2 ^ 64 /\
    6 * total (os_clients (view k0)) <= vector_max /\
    make_event_loop k0 listener n cap = (k1, Some (d1, l1)) /\ valid l1 = true.

Lemma run_ok k0 listener k1 d1 l1 rounds fuel k d l o :
  started k0 listener k1 d1 l1 -> run rounds fuel k1 d1 l1 = Some (k, d, l, o) ->
  loop_ok (os_clients (view k0)) (parts_of k1 d1 l1) None (taken d) k d l /\
  match o with Some r => r = 1 /\ 0 < error_number_ l | None => True end.
Proof.
  intros (n & cap & Hn & Hc & Ho & Hcl & Hfit & Hm & Hv); unfold run; rewrite Hv; simpl. intros Hrun.
  destruct (make_event_loop_ok _ _ _ _ _ _ _ Hn Hc Ho Hcl Hm Hv) as (Hok & _).
  by apply (run_rounds_ok _ Hfit _ rounds fuel k1 d1 l1).
Qed.

(** C1. Each client gets exactly its answers: the bytes a client's socket has
    taken, followed by the bytes waiting in its write buffer, are the
    encodings, in order, of the results addressed to that very connection
    (its descriptor and its id), and every result answers a frame that was
    accepted for processing, each frame at most once. A reused descriptor
    never receives the answers of the client that had it before. *)
Theorem clients_get_their_answers k0 listener k1 d1 l1 rounds fuel k d l o :
  started k0 listener k1 d1 l1 -> run rounds fuel k1 d1 l1 = Some (k, d, l, o) ->
  (forall fd s, connections_ l !! fd = Some s ->
     outbound (view k) fd ++ FrameWriteBuffer.pending (write_buffer_ (connection s))
       = answers (taken d) fd (id s)) /\
  taken d ⊆+ (processFrame <$> accepted d).
Proof.
  intros Hst Hrun. destruct (run_ok _ _ _ _ _ _ _ _ _ _ _ Hst Hrun) as [Hok _].
  split; [|apply (service_answers k), Hok].
  intros fd s Hs. apply (ok_clients _ _ _ _ _ _ _ Hok fd s Hs).
Qed.

(** The state of the conversation with the client [s] behind [fd], of the
    clients who send [streams]: [fs] are the frames that the bytes [received]
    complete, and [n] of them have been answered. *)
Definition conversing (streams : list bytes) (k : K) (d : D) (fd : Z) (s : ClientState)
    (received : bytes) (fs : list bytes) (n : nat) : Prop :=
  streams !! Z.to_nat (id s - 1) = Some (received ++ incoming (view k) fd) /\
  parses received fs (FrameDecoder.pending (decoder_ (connection s))) need_more_data /\
  of_id (id s) (accepted d) = mkProcessingTask fd (id s) <$> fs /\
  outbound (view k) fd ++ FrameWriteBuffer.pending (write_buffer_ (connection s))
    = concat (replicate n (encode_frame acknowledgement)) /\
  (n <= length fs)%nat /\
  (taken d ≡ₚ (processFrame <$> accepted d) -> n = length fs).

Lemma loop_conversing streams base k d l fd s :
  loop_ok streams base None (taken d) k d l -> connections_ l !! fd = Some s ->
  exists received fs n, conversing streams k d fd s received fs n.
Proof.
  intros Hok Hs.
  destruct (ok_clients _ _ _ _ _ _ _ Hok fd s Hs) as [_ _ Hrest _ Hout _ Hown].
  destruct (Hrest eq_refl) as [_ (data & Hstr & Hp)].
  destruct (answers_of_tasks k d fd (id s) (ok_service _ _ _ _ _ _ _ Hok) Hown) as (n & En & Hn & Hall).
  exists data, (tasks_of (id s) (accepted d)), n. unfold conversing. rewrite Hout.
  split_and!; auto. by apply of_id_tasks.
Qed.

(** C2. The conversation with each client: of the bytes that the client sends,
    the ones received so far are the frames that have been accepted for
    processing, in order, and a rest that is not a whole frame yet; and the
    bytes it was sent or is still to be sent are nothing but acknowledgements,
    never more than its frames, and exactly as many when the dispatcher has no
    more results to hand out. *)
Theorem conversation k0 listener k1 d1 l1 rounds fuel k d l o fd s :
  started k0 listener k1 d1 l1 -> run rounds fuel k1 d1 l1 = Some (k, d, l, o) ->
  connections_ l !! fd = Some s ->
  exists received fs n, conversing (os_clients (view k0)) k d fd s received fs n.
Proof.
  intros Hst Hrun Hs. destruct (run_ok _ _ _ _ _ _ _ _ _ _ _ Hst Hrun) as [Hok _].
  by eapply loop_conversing.
Qed.

(** C4. Descriptors, epoll and ids: the open descriptors are the ones open when
    the loop was constructed and the clients', so that no client leaks and
    nothing else is closed; every connection is filed under its own
    descriptor; the interest list of epoll is exactly the listener and the
    notifier with [EPOLLIN], and each client with its read events and, if and
    only if it has something to send, [EPOLLOUT], all with their descriptor as
    user data; and no two connections share an id, nor is one an id that is
    still to be given. *)
Theorem descriptors_interest_ids k0 listener k1 d1 l1 rounds fuel k d l o :
  started k0 listener k1 d1 l1 -> run rounds fuel k1 d1 l1 = Some (k, d, l, o) ->
  (forall fd, is_open (view k) fd <-> is_open (view k1) fd \/ is_Some (connections_ l !! fd)) /\
  (forall fd s, connections_ l !! fd = Some s ->
     ~ is_open (view k1) fd /\ Connection.fd (connection s) = fd /\
     1 <= id s < next_connection_id_ l) /\
  interest (view k) (Epoll.fd (epoll_ l)) = wanted l (service_fd d) /\
  (forall fd1 fd2 s1 s2, connections_ l !! fd1 = Some s1 -> connections_ l !! fd2 = Some s2 ->
     id s1 = id s2 -> fd1 = fd2).
Proof.
  intros Hst Hrun. destruct (run_ok _ _ _ _ _ _ _ _ _ _ _ Hst Hrun) as [Hok _].
  destruct Hok as [Hsv Hep Hb _ Hl Hopen Hap Hint Hcls Hids _ _ _ _ _].
  setoid_rewrite elem_of_dom in Hopen. setoid_rewrite elem_of_dom in Hap.
  split; [exact Hopen|]. split; [|split; [|exact Hids]].
  - intros fd s Hs. destruct (Hcls fd s Hs) as [[? ?] ? _ _ _ _ _]. split; [|auto].
    apply Hap; eauto.
  - apply map_eq; intros fd. by apply Hint.
Qed.

(** The ranges of what the program keeps: sizes and offsets fit [size_t] and
    the vectors, ids fit [uint64_t], payloads the frame limit. *)
Record client_typed (next : Z) (fd : Z) (s : ClientState) : Prop := ClientTyped {
  typed_fd : 0 <= fd;
  typed_id : 1 <= id s < next;
  typed_decoder : FrameDecoder.wf (decoder_ (connection s));
  typed_decoder_room : len (FrameDecoder.buffer_ (decoder_ (connection s))) + kReadBufferSize <= vector_max;
  typed_decoder_held :
    FrameDecoder.bufferedBytes (decoder_ (connection s)) < kFrameHeaderSize + max_payload_size;
  typed_writer : FrameWriteBuffer.wf (write_buffer_ (connection s))
}.

Record loop_typed (d : D) (l : EventLoop) : Prop := LoopTyped {
  typed_next : 1 <= next_connection_id_ l < 2 ^ 64;
  typed_clients : map_Forall (client_typed (next_connection_id_ l)) (connections_ l);
  typed_tasks : Forall (fun t => 1 <= task_connection_id t < next_connection_id_ l /\
    len (task_payload t) <= max_payload_size) (accepted d);
  typed_results : Forall (fun r => 1 <= result_connection_id r < next_connection_id_ l /\
    len (result_response r) <= max_payload_size) (taken d)
}.

(** A task of a client is a frame of its stream. *)
Lemma task_payload_fits streams base k d l t :
  loop_ok streams base None (taken d) k d l -> t ∈ accepted d ->
  len (task_payload t) <= max_payload_size.
Proof.
  intros Hok Ht. pose proof (ok_tasks _ _ _ _ _ _ _ Hok t Ht) as Hid.
  pose proof (ok_to_come _ _ _ _ _ _ _ Hok) as [_ Hlen].
  pose proof (len_nonneg (os_clients (view k))).
  destruct (lookup_lt_is_Some_2 streams (Z.to_nat (task_connection_id t - 1))) as [stream Hstr];
    [unfold len in *; lia|].
  destruct (ok_streams _ _ _ _ _ _ _ Hok (task_connection_id t) stream ltac:(lia) Hstr)
    as (data & fs & rest & st & _ & (_ & Hall & _)%parses_sound & [more ->]).
  apply Forall_app in Hall as [Hall _]. rewrite Forall_forall in Hall. apply Hall.
  unfold tasks_of. apply list_elem_of_fmap_2, list_elem_of_filter. done.
Qed.

(** C17. Everything the loop keeps stays in the range of its type: connection
    ids never wrap around, every decoder's offset lies within its vector, which
    has room for the next read, and it holds less than one frame of the largest
    size; every write buffer is well-formed; and no task or result is larger
    than a frame may be, or names an id that was not given. *)
Theorem state_well_typed k0 listener k1 d1 l1 rounds fuel k d l o :
  started k0 listener k1 d1 l1 -> run rounds fuel k1 d1 l1 = Some (k, d, l, o) ->
  loop_typed d l.
Proof.
  intros Hst Hrun. destruct (run_ok _ _ _ _ _ _ _ _ _ _ _ Hst Hrun) as [Hok _].
  assert (Htasks : Forall (fun t => 1 <= task_connection_id t < next_connection_id_ l /\
    len (task_payload t) <= max_payload_size) (accepted d)).
  { apply Forall_forall; intros t Ht.
    split; [by apply (ok_tasks _ _ _ _ _ _ _ Hok)|by eapply task_payload_fits]. }
  split; [| |done|].
  - pose proof (ok_next _ _ _ _ _ _ _ Hok). pose proof (len_nonneg (os_clients (view k))); lia.
  - intros fd s Hs. destruct (ok_clients _ _ _ _ _ _ _ Hok fd s Hs) as [[? _] ? Hrest ? _ _ _].
    destruct (Hrest eq_refl) as [Hread _]. pose proof (read_ok_bound _ Hread) as [Hheld Hroom].
    pose proof (read_wf _ Hread). split; auto. by rewrite bufferedBytes_pending.
  - apply Forall_forall; intros r Hr.
    destruct (taken_spec k d r (ok_service _ _ _ _ _ _ _ Hok) Hr) as (_ & t & Ht & ->).
    split; [by apply (ok_tasks _ _ _ _ _ _ _ Hok)|by vm_compute].
Qed.

(** C16. The loop ends only by an error, and never hangs inside a round: with
    enough fuel any number of rounds comes to an end, and [run] returns only the
    value 1, with a positive error number. *)
Theorem run_returns_on_error k0 listener k1 d1 l1 rounds :
  started k0 listener k1 d1 l1 ->
  (exists fuel, is_Some (run rounds fuel k1 d1 l1)) /\
  forall fuel k d l o, run rounds fuel k1 d1 l1 = Some (k, d, l, o) ->
    match o with Some r => r = 1 /\ 0 < errorNumber l | None => True end.
Proof.
  intros Hst. split.
  - destruct Hst as (n & cap & Hn & Hc & Ho & Hcl & Hfit & Hm & Hv). unfold run; rewrite Hv; simpl.
    destruct (make_event_loop_ok _ _ _ _ _ _ _ Hn Hc Ho Hcl Hm Hv) as (Hok & _).
    by apply (run_rounds_returns _ Hfit _ _ _ _ _ Hok).
  - intros fuel k d l o Hrun. by destruct (run_ok _ _ _ _ _ _ _ _ _ _ _ Hst Hrun).
Qed.

(** C22. Accepting returns. Each accepted client uses exactly one id, in order
    from the next one, and starts with an empty decoder and write buffer; the
    connections there were are not touched; and only an error other than "no
    more clients" makes the function fail, with that error recorded. *)
Theorem acceptReadyClients_correct streams base tk k d l :
  loop_ok streams base None tk k d l ->
  exists fuel k' l' ok, acceptReadyClients fuel k l = Some (k', l', ok) /\
    loop_ok streams base None tk k' d l' /\ accepted_more k l k' l' /\
    (ok = false -> 0 < errorNumber l').
Proof.
  intros Hok. destruct (acceptReadyClients_returns _ _ _ _ _ _ Hok) as [fuel [[[k' l'] ok] E]].
  exists fuel, k', l', ok. split; [done|].
  destruct (acceptReadyClients_ok _ _ _ _ _ _ _ _ _ _ Hok E).
  split; [done|split; [|done]]. by eapply acceptReadyClients_more.
Qed.

(** What a readable client's event does: [data] was received, its frames were
    [submitted] up to a [refused] one, and the connection goes on or is
    closed. *)
Definition client_event_outcome (k k' : K) (d d' : D) (l l' : EventLoop) (fd : Z)
    (s : ClientState) : Prop :=
  only_client fd l l' /\
  exists data unread fs rest st submitted refused,
    incoming (view k) fd = data ++ unread /\
    parses (FrameDecoder.pending (decoder_ (connection s)) ++ data) fs rest st /\
    fs = submitted ++ refused /\
    accepted d' = accepted d ++ (mkProcessingTask fd (id s) <$> submitted) /\
    match connections_ l' !! fd with
    | Some s' => id s' = id s /\ refused = [] /\ st = need_more_data /\
        FrameDecoder.pending (decoder_ (connection s')) = rest
    | None => ~ is_open (view k') fd
    end.

(** After reading and submitting, in loop [l1], the event goes on to [l']. *)
Lemma client_event_end streams base tk k d l fd s k1 c r l1 d2 pre post k' l' :
  loop_ok streams base None tk k d l -> connections_ l !! fd = Some s ->
  loop_ok streams base None tk k' d2 l' ->
  read_outcome fd k (decoder_ (connection s)) k1 (decoder_ c) r -> only_client fd l l1 ->
  frames r = pre ++ post -> accepted d2 = accepted d ++ (mkProcessingTask fd (id s) <$> pre) ->
  only_client fd l1 l' ->
  match connections_ l' !! fd with
  | Some s' => id s' = id s /\ post = [] /\ read_status r = ready /\
      decoder_ (connection s') = decoder_ c
  | None => True
  end ->
  client_event_outcome k k' d d2 l l' fd s.
Proof.
  intros Hok Hs Hok' [(_ & _ & data & Hm & Hp) _] Ho1 Efs Hacc Ho Hcase.
  split; [intros fd' Hne; by rewrite Ho, Ho1|].
  exists data, (incoming (view k1) fd), (frames r), (FrameDecoder.pending (decoder_ c)),
    (if decide (read_status r = protocol_error) then FrameDecoder.payload_too_large
     else need_more_data), pre, post.
  split; [apply (moved_in _ _ _ _ _ Hm)|]. split_and!; auto.
  destruct (connections_ l' !! fd) eqn:El.
  - destruct Hcase as (? & ? & -> & ->). auto.
  - intros Hopen. apply (ok_open _ _ _ _ _ _ _ Hok') in Hopen as [Hb|[? Hb]]; [|congruence].
    by apply (ok_apart _ _ _ _ _ _ _ Hok fd ltac:(eauto)).
Qed.

Lemma client_event_readable streams base tk fuel k d l fd s evs k' d' l' :
  loop_ok streams base None tk k d l -> connections_ l !! fd = Some s ->
  has evs (Z.lor EPOLLERR EPOLLHUP) = false -> has evs (Z.lor EPOLLIN EPOLLRDHUP) = true ->
  handleClientEvent fuel k d l fd evs = Some (k', d', l') ->
  client_event_outcome k k' d d' l l' fd s.
Proof.
  intros Hok Hs Herr Hin E.
  pose proof (handleClientEvent_ok _ _ _ _ _ _ _ _ _ _ _ _ Hok E) as Hok'.
  revert E; unfold handleClientEvent; rewrite Hs, Herr, Hin.
  destruct (readAvailable fuel k (connection s)) as [[[k1 c] r]|] eqn:Er; simpl; [|done].
  destruct (read_store_ok _ _ _ _ _ _ _ _ _ _ _ _ Hok Hs Er) as (Hok1 & Hs1 & Ho & Hdec).
  destruct (store_connection_lookup fd c l s Hs) as [Ho1 _].
  destruct (submit_frames k1 d fd (id s) (frames r)) as [[k2 d2] ok] eqn:Es.
  destruct (submit_ok _ _ _ _ _ _ _ (mkClientState (id s) c) _ _ _ _ _ _ Hok1 Hs1 Hdec Es)
    as (_ & _ & pre & post & Efs & Hacc & Hiff & _).
  set (l1 := store_connection fd c l) in *. intros E.
  assert (Hclose : (let '(k, l) := closeConnection k2 l1 fd in Some (k, d2, l)) = Some (k', d', l') ->
    client_event_outcome k k' d d' l l' fd s).
  { destruct (closeConnection k2 l1 fd) as [k3 l3] eqn:Ecl.
    apply closeConnection_lookup in Ecl as [? Hn]. intros; simplify_eq.
    eapply client_event_end; eauto. by rewrite Hn. }
  destruct ok; simpl in E; [|by apply Hclose].
  destruct (read_status r) eqn:Hrs; try by apply Hclose.
  pose proof (write_client_service _ _ _ _ _ _ _ _ _ E) as ->.
  apply (write_client_lookup fuel k2 d2 l1 fd (mkClientState (id s) c)) in E as [Hoc Hl]; [|done].
  eapply client_event_end; eauto.
  destruct Hl as [Hn|[b Hb]]; [by rewrite Hn|]. rewrite Hb; simpl. split_and!; auto. by apply Hiff.
Qed.
(** What a client's event does, branch by branch. *)
Definition client_event_effect (k k' : K) (d d' : D) (l l' : EventLoop) (fd events : Z) : Prop :=
  only_client fd l l' /\
  match connections_ l !! fd with
  | None => k' = k /\ d' = d /\ l' = l
  | Some s =>
      if has events (Z.lor EPOLLERR EPOLLHUP) then
        d' = d /\ connections_ l' !! fd = None /\ ~ is_open (view k') fd
      else if has events (Z.lor EPOLLIN EPOLLRDHUP) then client_event_outcome k k' d d' l l' fd s
      else d' = d /\
        match connections_ l' !! fd with
        | Some s' => id s' = id s /\ decoder_ (connection s') = decoder_ (connection s)
        | None => ~ is_open (view k') fd
        end
  end.

(** A closed client's descriptor is closed. *)
Lemma closed_client streams base tk k d l fd tk' k' d' l' :
  loop_ok streams base None tk k d l -> is_Some (connections_ l !! fd) ->
  loop_ok streams base None tk' k' d' l' -> connections_ l' !! fd = None -> ~ is_open (view k') fd.
Proof.
  intros Hok Hs Hok' Hn Hopen. apply (ok_open _ _ _ _ _ _ _ Hok') in Hopen as [Hb|[? Hb]]; [|congruence].
  by apply (ok_apart _ _ _ _ _ _ _ Hok fd Hs).
Qed.

(** C12. A client's event: its handler always returns and keeps the loop's
    invariant. An unknown descriptor is ignored; a failed socket is closed; of a
    readable one, the frames that the bytes received complete are submitted for
    processing in order, under the client's descriptor and id, and if all are
    accepted and the stream goes on, the connection keeps the rest of the bytes
    and its id, and otherwise it is closed and its descriptor with it. Any
    other event only writes. The other clients are never touched. *)
Theorem handleClientEvent_correct streams base tk k d l fd evs :
  loop_ok streams base None tk k d l ->
  (exists fuel, is_Some (handleClientEvent fuel k d l fd evs)) /\
  forall fuel k' d' l', handleClientEvent fuel k d l fd evs = Some (k', d', l') ->
    loop_ok streams base None tk k' d' l' /\ client_event_effect k k' d d' l l' fd evs.
Proof.
  intros Hok. split; [by eapply handleClientEvent_returns|]. intros fuel k' d' l' E.
  pose proof (handleClientEvent_ok _ _ _ _ _ _ _ _ _ _ _ _ Hok E) as Hok'.
  split; [done|]. unfold client_event_effect.
  destruct (connections_ l !! fd) as [s|] eqn:Hs;
    [|unfold handleClientEvent in E; rewrite Hs in E; by simplify_eq].
  destruct (has evs (Z.lor EPOLLERR EPOLLHUP)) eqn:He.
  { unfold handleClientEvent in E; rewrite Hs, He in E.
    destruct (closeConnection k l fd) as [k1 l1] eqn:Ec; simplify_eq.
    apply closeConnection_lookup in Ec as [Ho Hn]. split_and!; auto.
    by eapply closed_client; [exact Hok| |exact Hok'|]. }
  destruct (has evs (Z.lor EPOLLIN EPOLLRDHUP)) eqn:Hi.
  { pose proof (client_event_readable _ _ _ _ _ _ _ _ _ _ _ _ _ Hok Hs He Hi E) as Hout.
    split; [apply Hout|exact Hout]. }
  unfold handleClientEvent in E; rewrite Hs, He, Hi in E.
  pose proof (write_client_service _ _ _ _ _ _ _ _ _ E) as ->.
  apply write_client_lookup in E as [Ho Hl]; [|done].
  split_and!; auto. destruct Hl as [Hn|[b Hb]]; [rewrite Hn|by rewrite Hb].
  by eapply closed_client; [exact Hok| |exact Hok'|].
Qed.
End Theorems.

(** ** A concrete run

    A listener, descriptor 3, one client that sends one frame, and one worker.
    Four rounds: the client is accepted as descriptor 6, its frame is read and
    submitted, the worker's result is taken and queued, and the answer is sent
    in two pieces, a signal interrupting in between. *)

#[local] Instance demo_service : Service Sim Scheduled :=
  scheduled_service ([[]; [DoLock 0; DoTask 0; DoTask 0; DoTask 0; DoNotify None]; []], 3%nat).

Definition demo_kernel : Sim :=
  mkSim (mkOs {[3 := 0]} ∅ ∅ ∅ ∅ [encode_frame [x41; x42]] 1) 0
    [1; 1; 1; 1; 1; 1; 1; 1; 1; 4096; -11; 1; 1; 1; 1; 1; 1; 10; -4; 100; 1]
    [[EpollEvent EPOLLIN 3]; [EpollEvent EPOLLIN 6]; [EpollEvent EPOLLIN 5];
     [EpollEvent EPOLLOUT 6]].

Definition demo_start : Sim * option (Scheduled * EventLoop) :=
  make_event_loop demo_kernel (make_socket 3) 1 1.

Lemma demo_started k d l : demo_start = (k, Some (d, l)) -> started demo_kernel (make_socket 3) k d l.
Proof.
  intros E. exists 1, 1. split_and!; [lia|lia|by exists 0|by vm_compute|by vm_compute|exact E|].
  vm_compute in E; by injection E as <- <- <-.
Qed.

Lemma clients_get_their_answers_witness :
  exists k1 d1 l1 k d l o, demo_start = (k1, Some (d1, l1)) /\
    run 4 20 k1 d1 l1 = Some (k, d, l, o) /\ is_Some (connections_ l !! 6) /\
    outbound (view k) 6 = encode_frame (result_response (processFrame (mkProcessingTask 6 1 [x41; x42]))).
Proof.
  destruct demo_start as [k1 [[d1 l1]|]] eqn:E1; [|by vm_compute in E1].
  destruct (run 4 20 k1 d1 l1) as [[[[k d] l] o]|] eqn:E2;
    [|vm_compute in E1; injection E1 as <- <- <-; by vm_compute in E2].
  exists k1, d1, l1, k, d, l, o. split; [reflexivity|]. split; [exact E2|].
  destruct (clients_get_their_answers demo_kernel (make_socket 3) k1 d1 l1 4 20 k d l o
    (demo_started _ _ _ E1) E2) as [Hans _].
  vm_compute in E1; injection E1 as <- <- <-. vm_compute in E2; injection E2 as <- <- <- <-.
  split; [by eexists|]. specialize (Hans 6 _ eq_refl).
  etransitivity; [symmetry; apply app_nil_r|]. etransitivity; [exact Hans|]. by vm_compute.
Defined.

Lemma conversation_witness :
  exists k1 d1 l1 k d l o s fs, demo_start = (k1, Some (d1, l1)) /\
    run 4 20 k1 d1 l1 = Some (k, d, l, o) /\ connections_ l !! 6 = Some s /\
    of_id 1 (accepted d) = mkProcessingTask 6 1 <$> fs /\
    outbound (view k) 6 ++ FrameWriteBuffer.pending (write_buffer_ (connection s))
      = concat (replicate (length fs) (encode_frame acknowledgement)).
Proof.
  destruct demo_start as [k1 [[d1 l1]|]] eqn:E1; [|by vm_compute in E1].
  destruct (run 4 20 k1 d1 l1) as [[[[k d] l] o]|] eqn:E2;
    [|vm_compute in E1; injection E1 as <- <- <-; by vm_compute in E2].
  destruct (connections_ l !! 6) as [s|] eqn:Hs;
    [|vm_compute in E1; injection E1 as <- <- <-; vm_compute in E2;
      injection E2 as <- <- <- <-; by vm_compute in Hs].
  destruct (conversation demo_kernel (make_socket 3) k1 d1 l1 4 20 k d l o 6 s
    (demo_started _ _ _ E1) E2 Hs) as (received & fs & n & _ & _ & Hacc & Hout & _ & Hall).
  exists k1, d1, l1, k, d, l, o, s, fs. split; [reflexivity|]. split; [exact E2|]. split; [done|].
  assert (Hid : id s = 1) by (vm_compute in E1; injection E1 as <- <- <-; vm_compute in E2;
    injection E2 as <- <- <- <-; vm_compute in Hs; by injection Hs as <-).
  rewrite Hid in Hacc. split; [exact Hacc|]. rewrite <-Hall; [exact Hout|].
  clear Hall Hout Hacc Hs. vm_compute in E1; injection E1 as <- <- <-; vm_compute in E2;
    injection E2 as <- <- <- <-. reflexivity.
Defined.

Lemma state_well_typed_witness :
  exists k1 d1 l1 k d l o, demo_start = (k1, Some (d1, l1)) /\
    run 3 20 k1 d1 l1 = Some (k, d, l, o) /\ next_connection_id_ l = 2 /\ loop_typed d l.
Proof.
  destruct demo_start as [k1 [[d1 l1]|]] eqn:E1; [|by vm_compute in E1].
  destruct (run 3 20 k1 d1 l1) as [[[[k d] l] o]|] eqn:E2;
    [|vm_compute in E1; injection E1 as <- <- <-; by vm_compute in E2].
  exists k1, d1, l1, k, d, l, o. split; [reflexivity|]. split; [exact E2|].
  split; [|exact (state_well_typed _ _ _ _ _ _ _ _ _ _ _ (demo_started _ _ _ E1) E2)].
  vm_compute in E1; injection E1 as <- <- <-. vm_compute in E2; by injection E2 as <- <- <- <-.
Defined.

Lemma descriptors_interest_ids_witness :
  exists k1 d1 l1 k d l o, demo_start = (k1, Some (d1, l1)) /\
    run 3 20 k1 d1 l1 = Some (k, d, l, o) /\
    interest (view k) 4 !! 6 = Some (EpollEvent (Z.lor kClientEvents EPOLLOUT) 6) /\ is_open (view k) 6.
Proof.
  destruct demo_start as [k1 [[d1 l1]|]] eqn:E1; [|by vm_compute in E1].
  destruct (run 3 20 k1 d1 l1) as [[[[k d] l] o]|] eqn:E2;
    [|vm_compute in E1; injection E1 as <- <- <-; by vm_compute in E2].
  exists k1, d1, l1, k, d, l, o. split; [reflexivity|]. split; [exact E2|].
  destruct (descriptors_interest_ids demo_kernel (make_socket 3) k1 d1 l1 3 20 k d l o
    (demo_started _ _ _ E1) E2) as (Hopen & _ & Hint & _).
  assert (Hl : Epoll.fd (epoll_ l) = 4 /\ is_Some (connections_ l !! 6) /\
    wanted l (service_fd d) !! 6 = Some (EpollEvent (Z.lor kClientEvents EPOLLOUT) 6)).
  { clear Hopen Hint. vm_compute in E1; injection E1 as <- <- <-.
    vm_compute in E2; injection E2 as <- <- <- <-. split; [done|split; [by eexists|done]]. }
  destruct Hl as (Hep & Hc & Hw). split; [|apply Hopen; by right].
  rewrite <-Hep, Hint. exact Hw.
Defined.

Lemma run_returns_on_error_witness :
  exists k1 d1 l1 k d l, demo_start = (k1, Some (d1, l1)) /\
    run 5 20 k1 d1 l1 = Some (k, d, l, Some 1) /\ 0 < errorNumber l.
Proof.
  destruct demo_start as [k1 [[d1 l1]|]] eqn:E1; [|by vm_compute in E1].
  destruct (run 5 20 k1 d1 l1) as [[[[k d] l] o]|] eqn:E2;
    [|vm_compute in E1; injection E1 as <- <- <-; by vm_compute in E2].
  assert (Ho : o = Some 1) by (vm_compute in E1; injection E1 as <- <- <-;
    vm_compute in E2; by injection E2 as <- <- <- <-).
  subst o. exists k1, d1, l1, k, d, l. split; [reflexivity|]. split; [exact E2|].
  exact (proj2 (proj2 (run_returns_on_error demo_kernel (make_socket 3) k1 d1 l1 5
    (demo_started _ _ _ E1)) 20%nat k d l (Some 1) E2)).
Defined.

(** The state after [n] rounds of the run. *)
Lemma demo_ok n k1 d1 l1 k d l o :
  demo_start = (k1, Some (d1, l1)) -> run n 20 k1 d1 l1 = Some (k, d, l, o) ->
  loop_ok (os_clients (sim_view demo_kernel)) (parts_of k1 d1 l1) None (taken d) k d l.
Proof. intros E1 E2. by apply (run_ok _ _ _ _ _ _ _ _ _ _ _ (demo_started _ _ _ E1) E2). Qed.

Lemma acceptReadyClients_correct_witness :
  exists k1 d1 l1 fuel k' l' ok, demo_start = (k1, Some (d1, l1)) /\
    acceptReadyClients fuel k1 l1 = Some (k', l', ok) /\
    next_connection_id_ l' + len (os_clients (view k')) = 2.
Proof.
  destruct demo_start as [k1 [[d1 l1]|]] eqn:E1; [|by vm_compute in E1].
  destruct (acceptReadyClients_correct _ _ _ _ _ _ (demo_ok 0 k1 d1 l1 k1 d1 l1 None E1
    ltac:(vm_compute in E1; by injection E1 as <- <- <-)))
    as (fuel & k' & l' & ok & E & _ & (_ & _ & Hn & _) & _).
  exists k1, d1, l1, fuel, k', l', ok. split; [reflexivity|]. split; [exact E|].
  rewrite Hn. vm_compute in E1; by injection E1 as <- <- <-.
Defined.

Lemma handleClientEvent_correct_witness :
  exists k1 d1 l1 k d l o s k' d' l', demo_start = (k1, Some (d1, l1)) /\
    run 1 20 k1 d1 l1 = Some (k, d, l, o) /\ connections_ l !! 6 = Some s /\
    handleClientEvent 20 k d l 6 EPOLLIN = Some (k', d', l') /\
    client_event_effect k k' d d' l l' 6 EPOLLIN.
Proof.
  destruct demo_start as [k1 [[d1 l1]|]] eqn:E1; [|by vm_compute in E1].
  destruct (run 1 20 k1 d1 l1) as [[[[k d] l] o]|] eqn:E2;
    [|vm_compute in E1; injection E1 as <- <- <-; by vm_compute in E2].
  pose proof (demo_ok _ _ _ _ _ _ _ _ E1 E2) as Hok.
  destruct (connections_ l !! 6) as [s|] eqn:Hs;
    [|vm_compute in E1; injection E1 as <- <- <-; vm_compute in E2;
      injection E2 as <- <- <- <-; by vm_compute in Hs].
  destruct (handleClientEvent 20 k d l 6 EPOLLIN) as [[[k' d'] l']|] eqn:E3;
    [|vm_compute in E1; injection E1 as <- <- <-; vm_compute in E2;
      injection E2 as <- <- <- <-; by vm_compute in E3].
  exists k1, d1, l1, k, d, l, o, s, k', d', l'. do 4 (split; [first [reflexivity|assumption]|]).
  exact (proj2 (proj2 (handleClientEvent_correct _ _ _ k d l 6 EPOLLIN Hok) 20%nat k' d' l' E3)).
Defined.
