(* ===== verification/EventLoopFinish.v ===== *)
(** * Construction that fails, and destruction of the event loop

    Whatever the constructor comes to, and after any number of rounds, the
    destructor closes what the loop has opened and nothing else. *)

From S2P Require Import Prelude Endian Kernel SimKernel Raii Socket Epoll EventFd NonBlocking.
From S2P Require Import Processing Connection ThreadPool Dispatcher Service Scheduled.
From S2P Require Import EventLoop Streams EventLoopInvariant EventLoopReturns EventLoopSafety.

Section Finish.
Context `{Host} {K D : Type} {KO : Kernel K} {KV : KernelView K} {KL : KernelLaws K}.
Context {SO : Service K D} {SL : ServiceLaws K D}.

Lemma destruct_epoll_open k e f :
  0 <= f -> is_open (view (destruct_epoll k e)) f <-> is_open (view k) f /\ f <> Epoll.fd e.
Proof.
  intros Hf. change (destruct_epoll k e) with (close_owned k (Epoll.fd e)).
  rewrite close_owned_open. intuition lia.
Qed.

Lemma destroy_connections_open k m f :
  (forall fd s, m !! fd = Some s -> Connection.fd (connection s) = fd) -> 0 <= f ->
  is_open (view (destroy_connections k m)) f <-> is_open (view k) f /\ m !! f = None.
Proof.
  unfold destroy_connections. intros Hm Hf; revert Hm.
  apply (map_fold_weak_ind (fun k' m => (forall fd s, m !! fd = Some s -> Connection.fd (connection s) = fd) ->
    is_open (view k') f <-> is_open (view k) f /\ m !! f = None)).
  - intros _. by rewrite lookup_empty; intuition.
  - intros fd s m' k' Hno IH Hm.
    assert (Hfd : Connection.fd (connection s) = fd) by (apply Hm, lookup_insert_eq).
    rewrite destruct_socket_open by done. rewrite IH.
    2: { intros fd' s' Hs'. apply Hm. rewrite lookup_insert_ne; [done|]. intros ->; congruence. }
    fold (Connection.fd (connection s)). rewrite Hfd.
    destruct (decide (f = fd)) as [->|Hne].
    + rewrite lookup_insert_eq. split; [intros [_ ?]; done|by intros [_ ?]].
    + rewrite lookup_insert_ne by congruence. intuition.
Qed.

Lemma destruct_event_loop_open fuel k d l k' f :
  service_live k d -> destruct_event_loop fuel k d l = Some k' ->
  (forall fd s, connections_ l !! fd = Some s -> Connection.fd (connection s) = fd) -> 0 <= f ->
  is_open (view k') f <-> is_open (view k) f /\ f <> service_fd d /\ connections_ l !! f = None /\
    f <> Epoll.fd (epoll_ l) /\ f <> Socket.fd (listener_ l).
Proof.
  intros Hl; unfold destruct_event_loop.
  destruct (service_destroy fuel k d) as [k1|] eqn:Ed; simpl; [|done]. intros E Hm Hf.
  apply destroy_law in Ed as (k2 & [_ Ev] & ->); [|done]. injection E as <-.
  rewrite destruct_socket_open, destruct_epoll_open, destroy_connections_open, close_owned_open by done.
  unfold is_open in *; rewrite Ev. simpl. intuition lia.
Qed.

(** What is open once the constructor has ended, in every case. *)
Definition constructed (k k' : K) (listener : Socket) (d : D) (l : EventLoop) : Prop :=
  listener_ l = listener /\ connections_ l = ∅ /\ service_live k' d /\
  (0 <= Epoll.fd (epoll_ l) -> ~ is_open (view k) (Epoll.fd (epoll_ l))) /\
  (0 <= service_fd d -> ~ is_open (view k) (service_fd d)) /\
  (forall f, 0 <= f -> is_open (view k') f <->
     is_open (view k) f \/ f = Epoll.fd (epoll_ l) \/ f = service_fd d).

Lemma make_epoll_open k k' e :
  make_epoll k = (k', e) ->
  (0 <= Epoll.fd e -> ~ is_open (view k) (Epoll.fd e)) /\
  (forall f, 0 <= f -> is_open (view k') f <-> is_open (view k) f \/ f = Epoll.fd e).
Proof.
  unfold make_epoll. destruct (sys_epoll_create1 k _) as [k0 r0] eqn:Ec.
  apply epoll_create_law in Ec. intros E; injection E as <- <-. unfold Epoll.fd; simpl.
  inversion Ec as [fd e0 Hp Hno E1 E2 E3|e0 He E1 E2 E3].
  - split; [done|]. intros f _; unfold is_open; simpl. rewrite lookup_insert_is_Some'. intuition.
  - split; [lia|]. intros f Hf; intuition lia.
Qed.

(** Registering descriptors opens and closes nothing. *)
Lemma constructed_later k k2 k' listener d l l' :
  constructed k k2 listener d l -> listener_ l' = listener_ l -> epoll_ l' = epoll_ l ->
  connections_ l' = connections_ l -> os_count (view k') = os_count (view k2) ->
  (forall f, is_open (view k') f <-> is_open (view k2) f) -> constructed k k' listener d l'.
Proof.
  unfold constructed. intros (-> & -> & Hl & ? & ? & Hopen) -> -> -> Hcount Hsame.
  split_and!; auto.
  - apply (live_kernel k2); [done|by rewrite Hcount].
  - intros f Hf. by rewrite Hsame, Hopen.
Qed.

Lemma make_event_loop_open k listener n cap k' r :
  0 <= n -> 0 <= cap -> make_event_loop k listener n cap = (k', r) ->
  match r with
  | None => forall f, 0 <= f -> is_open (view k') f <-> is_open (view k) f /\ f <> Socket.fd listener
  | Some (d, l) => constructed k k' listener d l
  end.
Proof.
  intros Hn Hc; unfold make_event_loop.
  destruct (make_epoll k) as [k1 e] eqn:Ee. apply make_epoll_open in Ee as [Hfresh Hopen1].
  destruct (service_make k1 n cap) as [k2 [d|]] eqn:Es.
  2: { intros E; injection E as <- <-. intros f Hf.
       rewrite destruct_socket_open, destruct_epoll_open, (make_throws _ _ _ _ Hn Hc Es), Hopen1 by done.
       destruct (decide (f = Epoll.fd e)) as [->|]; [|tauto].
       split; [tauto|]. intros [Ho _]. by destruct (Hfresh Hf). }
  destruct (make_live _ _ _ _ _ Hn Hc Es) as (Hl2 & Hnew & Hopen2).
  set (l := mkEventLoop listener e ∅ 1 0 false).
  assert (H2 : constructed k k2 listener d l).
  { split_and!; auto.
    - intros Hf Ho. apply (Hnew Hf), Hopen1; auto.
    - intros f Hf. rewrite Hopen2, Hopen1 by done. simpl. tauto. }
  destruct (negb (Socket.valid _)); [intros E; injection E as <- <-; by apply (constructed_later _ k2 _ _ _ l)|].
  destruct (negb (Epoll.valid _)); [intros E; injection E as <- <-; by apply (constructed_later _ k2 _ _ _ l)|].
  destruct (negb (service_valid d)); [intros E; injection E as <- <-; by apply (constructed_later _ k2 _ _ _ l)|].
  destruct (setNonBlocking k2 _) as [k3 r3] eqn:E3. apply setNonBlocking_view in E3.
  assert (H3 : constructed k k3 listener d l).
  { apply (constructed_later _ k2 _ _ _ l); auto; destruct E3 as [->|(Ho & f & ->)]; try done.
    intros f'; unfold is_open in *; simpl. rewrite lookup_insert_is_Some'.
    split; [intros [<-|]; auto|by right]. }
  destruct (negb (NonBlocking.success r3));
    [intros E; injection E as <- <-; by apply (constructed_later _ k3 _ _ _ l)|].
  destruct (add k3 _ (Socket.fd _) _) as [k4 r4] eqn:E4.
  assert (H4 : constructed k k4 listener d l).
  { apply add_spec in E4. apply (constructed_later _ k3 _ _ _ l); auto;
      destruct E4 as [(_ & _ & _ & ->)|(_ & ->)]; done. }
  destruct (negb (Epoll.success r4));
    [intros E; injection E as <- <-; by apply (constructed_later _ k4 _ _ _ l)|].
  destruct (add k4 _ (service_fd d) _) as [k5 r5] eqn:E5.
  assert (H5 : constructed k k5 listener d l).
  { apply add_spec in E5. apply (constructed_later _ k4 _ _ _ l); auto;
      destruct E5 as [(_ & _ & _ & ->)|(_ & ->)]; done. }
  destruct (negb (Epoll.success r5)); intros E; injection E as <- <-;
    by apply (constructed_later _ k5 _ _ _ l).
Qed.

(** It runs to its end once the interrupting signals are over. *)
Lemma destruct_event_loop_returns fuel k d l :
  service_live k d -> (os_signals (view k) < fuel)%nat -> is_Some (destruct_event_loop fuel k d l).
Proof.
  intros Hl Hf. destruct (destroy_returns fuel k d Hl Hf) as [k1 E].
  unfold destruct_event_loop; rewrite E; simpl; eauto.
Qed.

(** What is left of [k], in which a loop was constructed on [listener], when the
    loop has been destroyed. *)
Definition cleaned_up (k k' : K) (listener : Socket) : Prop :=
  forall f, 0 <= f -> is_open (view k') f <-> is_open (view k) f /\ f <> Socket.fd listener.

(** A loop that has only been constructed is destroyed without a trace. *)
Lemma constructed_cleaned_up k k' listener d l fuel k2 :
  constructed k k' listener d l -> destruct_event_loop fuel k' d l = Some k2 ->
  cleaned_up k k2 listener.
Proof.
  intros (Hlis & Hm & Hl & Hne & Hns & Hopen) E f Hpos.
  assert (Hids : forall fd s, connections_ l !! fd = Some s -> Connection.fd (connection s) = fd)
    by (intros ? ?; by rewrite Hm, lookup_empty).
  rewrite (destruct_event_loop_open _ _ _ _ _ f Hl E Hids Hpos), Hlis, Hm, lookup_empty, Hopen by done.
  split; [tauto|]. intros [Ho Hl0]. split; [by left|].
  split; [intros ->; by apply Hns|]. split; [done|]. split; [intros ->; by apply Hne|done].
Qed.

Lemma started_open k0 listener k1 d1 l1 :
  started k0 listener k1 d1 l1 -> constructed k0 k1 listener d1 l1.
Proof.
  intros (n & cap & Hn & Hc & _ & _ & _ & Hm & _).
  exact (make_event_loop_open _ _ _ _ _ _ Hn Hc Hm).
Qed.

Lemma run_live k0 listener k1 d1 l1 rounds fuel k d l o :
  started k0 listener k1 d1 l1 -> run rounds fuel k1 d1 l1 = Some (k, d, l, o) -> service_live k d.
Proof.
  intros Hst Hrun. destruct (run_ok _ _ _ _ _ _ _ _ _ _ _ Hst Hrun) as [Hok _].
  apply live_ok, Hok.
Qed.

(** Nor does one leave a trace that has made some rounds. *)
Lemma run_cleaned_up k0 listener k1 d1 l1 rounds fuel k d l o fuel' k2 :
  started k0 listener k1 d1 l1 -> run rounds fuel k1 d1 l1 = Some (k, d, l, o) ->
  destruct_event_loop fuel' k d l = Some k2 -> cleaned_up k0 k2 listener.
Proof.
  intros Hst Hrun E f Hpos.
  destruct (started_open _ _ _ _ _ Hst) as (Hlis & _ & _ & Hne & Hns & Hopen1).
  pose proof (run_live _ _ _ _ _ _ _ _ _ _ _ Hst Hrun) as Hlive.
  destruct (run_ok _ _ _ _ _ _ _ _ _ _ _ Hst Hrun) as [[_ _ _ (El & Ee & Ed) _ Hopen Hap _ Hcls _ _ _ _ _ _] _].
  assert (Hids : forall fd s, connections_ l !! fd = Some s -> Connection.fd (connection s) = fd)
    by (intros fd s Hs; by destruct (client_fd _ _ _ _ _ _ _ _ (Hcls fd s Hs))).
  simpl in *. setoid_rewrite elem_of_dom in Hopen. setoid_rewrite elem_of_dom in Hap.
  fold (is_open (view k1) f) in *.
  rewrite (destruct_event_loop_open _ _ _ _ _ f Hlive E Hids Hpos), Hopen, El, Ee, Ed, Hlis.
  fold (is_open (view k1) f). rewrite Hopen1 by done. rewrite eq_None_not_Some.
  split; [tauto|]. intros [Ho Hl0].
  assert (Hk1 : is_open (view k1) f) by (apply Hopen1; auto).
  split; [left; by left|]. split; [intros ->; by apply Hns|].
  split; [intros Hx; by apply (Hap f Hx)|]. split; [intros ->; by apply Hne|done].
Qed.

(** C5. Nothing is left behind: however many rounds [run] has made, the
    destructor comes to an end once the interrupting signals are over, and then
    exactly the descriptors are open that were open before the loop was
    constructed, except the listening socket, which the loop owns. *)
Theorem event_loop_cleans_up k0 listener k1 d1 l1 rounds fuel k d l o fuel' :
  started k0 listener k1 d1 l1 -> run rounds fuel k1 d1 l1 = Some (k, d, l, o) ->
  (os_signals (view k) < fuel')%nat ->
  exists k2, destruct_event_loop fuel' k d l = Some k2 /\
    forall f, 0 <= f -> is_open (view k2) f <-> is_open (view k0) f /\ f <> Socket.fd listener.
Proof.
  intros Hst Hrun Hf.
  destruct (destruct_event_loop_returns fuel' k d l) as [k2 E]; [by eapply run_live|done|].
  exists k2. split; [done|]. by eapply run_cleaned_up.
Qed.

(** An unusable listener is reported as such. *)
Lemma make_event_loop_no_listener k listener n cap k' d l :
  Socket.valid listener = false -> make_event_loop k listener n cap = (k', Some (d, l)) ->
  valid l = false /\ errorNumber l = EBADF.
Proof.
  intros Hv; unfold make_event_loop. destruct (make_epoll k) as [k1 e].
  destruct (service_make k1 n cap) as [k2 [d0|]]; [|done]. simpl. rewrite Hv; simpl.
  intros E; by simplify_eq.
Qed.

(** C18. The constructor of the loop, on every path: it throws only with
    everything closed, the listener included; otherwise exactly epoll's and the
    dispatcher's descriptors are new, and the loop has no clients. A loop on an
    open listener that says it is valid satisfies the invariant that [run] and
    all handlers keep, with exactly the listener and the notifier registered
    for reading; without a listener it is invalid, with [EBADF]. *)
Theorem make_event_loop_correct k listener n cap k' r :
  0 <= n -> 0 <= cap -> make_event_loop k listener n cap = (k', r) ->
  match r with
  | None => cleaned_up k k' listener
  | Some (d, l) => constructed k k' listener d l /\
      (Socket.valid listener = false -> valid l = false /\ errorNumber l = EBADF) /\
      (valid l = true -> is_open (view k) (Socket.fd listener) ->
       1 + len (os_clients (view k)) < 2 ^ 64 ->
       loop_ok (os_clients (view k)) (parts_of k' d l) None [] k' d l /\
       interest (view k') (Epoll.fd (epoll_ l))
         = <[service_fd d := EpollEvent EPOLLIN (service_fd d)]>
             (<[Socket.fd listener := EpollEvent EPOLLIN (Socket.fd listener)]> ∅))
  end.
Proof.
  intros Hn Hc Hm. pose proof (make_event_loop_open _ _ _ _ _ _ Hn Hc Hm) as Hopen.
  destruct r as [[d l]|]; [|exact Hopen]. split; [exact Hopen|].
  split; [intros Hv; by eapply make_event_loop_no_listener|]. intros Hv Ho Hcl.
  destruct (make_event_loop_ok _ _ _ _ _ _ _ Hn Hc Ho Hcl Hm Hv) as (Hok & Hnil & Hlis & Htk & _).
  rewrite Htk in Hok. split; [done|]. apply map_eq; intros fd.
  rewrite (ok_interest _ _ _ _ _ _ _ Hok fd) by done.
  rewrite wanted_lookup, Hnil, lookup_empty, Hlis; simpl.
  destruct (decide (fd = Socket.fd listener \/ fd = service_fd d)) as [[->| ->]|Hno].
  - destruct (decide (Socket.fd listener = service_fd d)) as [->|?];
      [by rewrite lookup_insert_eq|by rewrite lookup_insert_ne, lookup_insert_eq].
  - by rewrite lookup_insert_eq.
  - rewrite !lookup_insert_ne, lookup_empty; [done|intros <-; tauto..].
Qed.
End Finish.

#[local] Existing Instance demo_service.

(** After the concrete run, which an error of epoll ends, only what was open at
    its start is open again, without the listening socket. *)
Lemma event_loop_cleans_up_witness :
  exists k1 d1 l1 k d l k2, demo_start = (k1, Some (d1, l1)) /\
    run 5 20 k1 d1 l1 = Some (k, d, l, Some 1) /\ is_open (view k) 6 /\
    destruct_event_loop 2 k d l = Some k2 /\ ~ is_open (view k2) 6 /\ ~ is_open (view k2) 3.
Proof.
  destruct demo_start as [k1 [[d1 l1]|]] eqn:E1; [|by vm_compute in E1].
  destruct (run 5 20 k1 d1 l1) as [[[[k d] l] o]|] eqn:E2;
    [|vm_compute in E1; injection E1 as <- <- <-; by vm_compute in E2].
  assert (Ho : o = Some 1 /\ (os_signals (view k) < 2)%nat /\ is_open (view k) 6)
    by (vm_compute in E1; injection E1 as <- <- <-; vm_compute in E2;
        injection E2 as <- <- <- <-; split; [done|split; [simpl; lia|by eexists]]).
  destruct Ho as (-> & Hf & Hopen).
  destruct (event_loop_cleans_up demo_kernel (make_socket 3) k1 d1 l1 5 20 k d l (Some 1) 2
    (demo_started _ _ _ E1) E2 Hf) as (k2 & Ed & Hend).
  exists k1, d1, l1, k, d, l, k2. split; [reflexivity|]. split; [exact E2|]. split; [done|].
  split; [exact Ed|]. rewrite !Hend by lia. split; [intros [Hx _]|by intros [_ ?]].
  destruct Hx as [fl Hx]. by vm_compute in Hx.
Defined.

(** The concrete loop, and one whose dispatcher's constructor throws. *)
Lemma make_event_loop_correct_witness :
  exists k d l k', demo_start = (k, Some (d, l)) /\
    interest (view k) 4 = <[5 := EpollEvent EPOLLIN 5]> (<[3 := EpollEvent EPOLLIN 3]> ∅) /\
    make_event_loop (D := Scheduled) demo_kernel (make_socket 3) 0 1 = (k', None) /\
    ~ is_open (view k') 3.
Proof.
  destruct demo_start as [k [[d l]|]] eqn:E1; [|by vm_compute in E1].
  destruct (make_event_loop demo_kernel (make_socket 3) 0 1) as [k' [dl|]] eqn:E2;
    [by vm_compute in E2|].
  pose proof (make_event_loop_correct demo_kernel (make_socket 3) 1 1 k (Some (d, l))
    ltac:(done) ltac:(done) E1) as (_ & _ & H1).
  pose proof (make_event_loop_correct demo_kernel (make_socket 3) 0 1 k' None
    ltac:(done) ltac:(done) E2) as H2.
  exists k, d, l, k'. split; [reflexivity|].
  assert (Hv : valid l = true /\ Epoll.fd (epoll_ l) = 4 /\ service_fd d = 5)
    by (vm_compute in E1; by injection E1 as <- <- <-).
  destruct Hv as (Hv & He & Hd).
  destruct (H1 Hv ltac:(by eexists) ltac:(by vm_compute)) as [_ Hi]. rewrite He, Hd in Hi.
  split; [exact Hi|]. split; [reflexivity|]. rewrite (H2 3 ltac:(done)). by intros [_ ?].
Defined.
