(* ===== verification/ServerMain.v ===== *)
(** * The server program: [apps/server/main.cpp]

    [main] opens the listening socket, constructs the event loop and serves.
    What it prints is left out; the status it returns is not. *)

From S2P Require Import Prelude Endian Kernel SimKernel Sockets Raii Socket Service Scheduled.
From S2P Require Import EventLoop Streams EventLoopInvariant EventLoopReturns EventLoopSafety.
From S2P Require Import EventLoopFinish.

(** ** Data *)

Definition kServerPort : Z := 9000.
Definition kListenBacklog : Z := 128.
Definition kWorkerCount : Z := 4.
Definition kTaskQueueCapacity : Z := 1024.

(** ** Operations *)

Section ServerMain.
Context `{Host} {K D : Type} {KO : Kernel K} {KS : SocketCalls K} {SO : Service K D}.

(** From the socket to [listen]; [false] means that [main] returns 1. *)
Definition open_listener (k : K) : K * Socket * bool :=
  let '(k, fd) := sys_socket k AF_INET (Z.lor SOCK_STREAM SOCK_CLOEXEC) 0 in
  let listener := make_socket fd in
  if negb (Socket.valid listener) then (k, listener, false)
  else
    let reuse_address := 1 in
    let '(k, r) := sys_setsockopt k (Socket.fd listener) SOL_SOCKET SO_REUSEADDR reuse_address in
    if r <? 0 then (k, listener, false)
    else
      let server_address := mkSockaddrIn AF_INET (htons kServerPort) (htonl INADDR_ANY) in
      let '(k, r) := sys_bind k (Socket.fd listener) server_address in
      if r <? 0 then (k, listener, false)
      else
        let '(k, r) := sys_listen k (Socket.fd listener) kListenBacklog in
        if r <? 0 then (k, listener, false) else (k, listener, true).

(** The [try] block, with at most [rounds] rounds of [run]: the status that
    [main] returns, after the destructor of [event_loop], or the loop that is
    still running. The constructor's exception is caught. *)
Definition serve (rounds fuel : nat) (k : K) (listener : Socket) :
    option (K * (Z + D * EventLoop)) :=
  match make_event_loop k listener kWorkerCount kTaskQueueCapacity with
  | (k, None) => Some (k, inl 1)
  | (k, Some (d, event_loop)) =>
      if negb (EventLoop.valid event_loop) then
        k ← destruct_event_loop fuel k d event_loop;
        Some (k, inl 1)
      else
        '(k, d, event_loop, status) ← run rounds fuel k d event_loop;
        match status with
        | None => Some (k, inr (d, event_loop))
        | Some status =>
            k ← destruct_event_loop fuel k d event_loop;
            Some (k, inl status)
        end
  end.

(** [main]: the loop takes the socket over, and the moved-from [listener] is
    destroyed when [main] returns. *)
Definition server_main (rounds fuel : nat) (k : K) : option (K * (Z + D * EventLoop)) :=
  let '(k, listener, ok) := open_listener k in
  if negb ok then Some (destruct_socket k listener, inl 1)
  else
    let '(moved, listener) := move_socket listener in
    '(k, outcome) ← serve rounds fuel k moved;
    match outcome with
    | inl status => Some (destruct_socket k listener, inl status)
    | inr serving => Some (k, inr serving)
    end.
End ServerMain.

(** ** Properties *)

Section Facts.
Context `{Host} {K D : Type} {KO : Kernel K} {KV : KernelView K} {KL : KernelLaws K}.
Context {KS : SocketCalls K} {KSL : SocketLaws K} {SO : Service K D} {SL : ServiceLaws K D}.

(** What the clients send, with the answers to it, fits in memory. *)
Definition clients_fit (k : K) : Prop :=
  1 + len (os_clients (view k)) < 2 ^ 64 /\ 6 * total (os_clients (view k)) <= vector_max.

Lemma open_listener_spec k k' listener ok :
  open_listener k = (k', listener, ok) ->
  (0 <= Socket.fd listener -> ~ is_open (view k) (Socket.fd listener)) /\
  (forall f, 0 <= f -> is_open (view k') f <-> is_open (view k) f \/ f = Socket.fd listener) /\
  os_clients (view k') = os_clients (view k) /\
  (ok = true -> is_open (view k') (Socket.fd listener)).
Proof.
  unfold open_listener. destruct (sys_socket k _ _ _) as [k1 fd] eqn:E1.
  apply socket_law in E1.
  assert (H1 : (0 <= fd -> ~ is_open (view k) fd) /\
    (forall f, 0 <= f -> is_open (view k1) f <-> is_open (view k) f \/ f = fd) /\
    os_clients (view k1) = os_clients (view k) /\ (0 <= fd -> is_open (view k1) fd)).
  { inversion E1 as [fd' Hp Hno E2 E3|E2 E3]; subst.
    - split; [done|]. unfold is_open; simpl. split_and!; try done.
      + intros f _. rewrite lookup_insert_is_Some'. intuition.
      + intros _. rewrite lookup_insert_eq. eauto.
    - split; [lia|]. split_and!; try done. intros f Hf; intuition lia. }
  clear E1. destruct (Socket.valid (make_socket fd)) eqn:Hv; simpl negb; cbn match.
  2: { intros E; simplify_eq. by destruct H1 as (? & ? & ? & _). }
  assert (Hpos : 0 <= fd) by (unfold Socket.valid in Hv; simpl in Hv; by zbool).
  destruct (sys_setsockopt k1 _ _ _ _) as [k2 r2] eqn:E2. apply setsockopt_law in E2 as [_ Ev2].
  rewrite <-Ev2 in H1.
  destruct (r2 <? 0); [intros E; simplify_eq; by destruct H1 as (? & ? & ? & _)|].
  destruct (sys_bind k2 _ _) as [k3 r3] eqn:E3. apply bind_law in E3 as [_ Ev3]. rewrite <-Ev3 in H1.
  destruct (r3 <? 0); [intros E; simplify_eq; by destruct H1 as (? & ? & ? & _)|].
  destruct (sys_listen k3 _ _) as [k4 r4] eqn:E4. apply listen_law in E4 as [_ Ev4]. rewrite <-Ev4 in H1.
  destruct (r4 <? 0); intros E; simplify_eq; destruct H1 as (? & ? & ? & ?); split_and!; auto; done.
Qed.

(** What [serve] comes to: 1, without a trace but for the listener, which is
    closed, or a loop that was started on it and is running. *)
Definition serving_outcome (rounds : nat) (k k' : K) (listener : Socket) (o : Z + D * EventLoop) : Prop :=
  match o with
  | inl status => status = 1 /\ cleaned_up k k' listener
  | inr (d, l) => exists k1 d1 l1 fuel,
      started k listener k1 d1 l1 /\ run rounds fuel k1 d1 l1 = Some (k', d, l, None)
  end.

Lemma serve_spec rounds fuel k listener k' o :
  clients_fit k -> is_open (view k) (Socket.fd listener) ->
  serve rounds fuel k listener = Some (k', o) -> serving_outcome rounds k k' listener o.
Proof.
  intros [Hcl Hfit] Hopen; unfold serve.
  destruct (make_event_loop k listener kWorkerCount kTaskQueueCapacity) as [k1 [[d1 l1]|]] eqn:Em;
    pose proof (make_event_loop_open _ _ kWorkerCount kTaskQueueCapacity _ _ ltac:(done) ltac:(done) Em) as Hm;
    [|intros E; simplify_eq; by split].
  destruct (EventLoop.valid l1) eqn:Hv; simpl negb; cbn match.
  2: { destruct (destruct_event_loop _ _ _ _) as [k2|] eqn:Ed; simpl; intros E; simplify_eq.
       split; [done|]. exact (constructed_cleaned_up _ _ _ _ _ _ _ Hm Ed). }
  assert (Hst : started k listener k1 d1 l1) by (exists kWorkerCount, kTaskQueueCapacity; by split_and!).
  destruct (run rounds fuel k1 d1 l1) as [[[[k2 d2] l2] [st|]]|] eqn:Er; simpl; [| |done].
  - destruct (run_ok _ _ _ _ _ _ _ _ _ _ _ Hst Er) as [_ [-> _]].
    destruct (destruct_event_loop _ _ _ _) as [k3|] eqn:Ed; simpl; intros E; simplify_eq.
    split; [done|]. by eapply run_cleaned_up.
  - intros E; simplify_eq. exists k1, d1, l1, fuel. by split.
Qed.

Lemma serve_returns rounds k listener :
  clients_fit k -> is_open (view k) (Socket.fd listener) ->
  exists fuel, is_Some (serve rounds fuel k listener).
Proof.
  intros [Hcl Hfit] Hopen; unfold serve.
  destruct (make_event_loop k listener kWorkerCount kTaskQueueCapacity) as [k1 [[d1 l1]|]] eqn:Em;
    [|exists O; eauto].
  pose proof (make_event_loop_open _ _ kWorkerCount kTaskQueueCapacity _ _ ltac:(done) ltac:(done) Em) as Hm.
  destruct (EventLoop.valid l1) eqn:Hv; simpl negb; cbn match.
  2: { exists (S (os_signals (view k1))).
       destruct (destruct_event_loop_returns (S (os_signals (view k1))) k1 d1 l1) as [k2 ->];
         [apply Hm|lia|simpl; eauto]. }
  assert (Hst : started k listener k1 d1 l1) by (exists kWorkerCount, kTaskQueueCapacity; by split_and!).
  destruct (make_event_loop_ok k listener kWorkerCount kTaskQueueCapacity k1 d1 l1
    ltac:(done) ltac:(done) Hopen Hcl Em Hv) as (Hok & _).
  destruct (run_rounds_returns _ Hfit _ rounds _ _ _ Hok) as [f1 [[[[k2 d2] l2] o] Er]].
  set (f := (f1 `max` S (os_signals (view k2)))%nat). exists f.
  assert (Er' : run rounds f k1 d1 l1 = Some (k2, d2, l2, o))
    by (unfold run; rewrite Hv; simpl; by apply (run_rounds_mono rounds f1); [lia|]).
  rewrite Er'; simpl. destruct o; [|eauto].
  destruct (destruct_event_loop_returns f k2 d2 l2) as [k3 ->]; [by eapply run_live|lia|simpl; eauto].
Qed.

(** What [server_main] comes to. *)
Definition main_outcome (rounds : nat) (k k' : K) (o : Z + D * EventLoop) : Prop :=
  match o with
  | inl status => status = 1 /\ forall f, 0 <= f -> is_open (view k') f <-> is_open (view k) f
  | inr (d, l) => exists k0 listener k1 d1 l1 fuel1,
      os_clients (view k0) = os_clients (view k) /\ started k0 listener k1 d1 l1 /\
      run rounds fuel1 k1 d1 l1 = Some (k', d, l, None)
  end.

Lemma server_main_outcome rounds fuel k k' o :
  clients_fit k -> server_main rounds fuel k = Some (k', o) -> main_outcome rounds k k' o.
Proof.
  intros Hfit; unfold server_main. destruct (open_listener k) as [[k1 s] ok] eqn:Eo.
  destruct (open_listener_spec _ _ _ _ Eo) as (Hnew & Hopen & Hcl & Hok).
  destruct ok; simpl.
  2: { intros E; simplify_eq. split; [done|]. intros f Hf.
       rewrite destruct_socket_open, Hopen by done. split; [tauto|].
       intros Ho. split; [by left|]. intros ->. by apply Hnew. }
  specialize (Hok eq_refl). change (mkSocket (fd_ s)) with (make_socket (Socket.fd s)).
  assert (Hfit1 : clients_fit k1) by (unfold clients_fit; by rewrite Hcl).
  destruct (serve rounds fuel k1 _) as [[k2 o2]|] eqn:Es; simpl; [|done].
  apply (serve_spec rounds fuel k1 (make_socket (Socket.fd s)) k2 o2 Hfit1 Hok) in Es.
  destruct o2 as [status|[d l]]; intros E; simplify_eq; simpl in Es.
  - destruct Es as [-> Hclean]. split; [done|]. intros f Hf.
    rewrite destruct_closed_socket by done. rewrite (Hclean f Hf), Hopen by done. simpl.
    split; [tauto|]. intros Ho. split; [by left|]. intros ->. by apply Hnew.
  - destruct Es as (k3 & d3 & l3 & f3 & ? & ?).
    exists k1, (make_socket (Socket.fd s)), k3, d3, l3, f3. auto.
Qed.

Lemma server_main_returns rounds k :
  clients_fit k -> exists fuel, is_Some (server_main rounds fuel k).
Proof.
  intros Hfit; unfold server_main. destruct (open_listener k) as [[k1 s] ok] eqn:Eo.
  destruct (open_listener_spec _ _ _ _ Eo) as (_ & _ & Hcl & Hok).
  destruct ok; simpl; [|exists O; eauto].
  assert (Hfit1 : clients_fit k1) by (unfold clients_fit; by rewrite Hcl).
  destruct (serve_returns rounds k1 (make_socket (Socket.fd s)) Hfit1 (Hok eq_refl)) as [fuel [[k2 o] E]].
  exists fuel. change (mkSocket (fd_ s)) with (make_socket (Socket.fd s)).
  rewrite E; simpl. destruct o; eauto.
Qed.

(** C6. The server program: whatever the system calls answer, [main] never
    hangs inside a round; it returns only the status 1, on every path with
    exactly the descriptors open that were open when it was called; and until it
    returns, an event loop is running that was properly started on the
    listening socket, with all the clients there were. *)
Theorem server_main_correct rounds k :
  clients_fit k ->
  (exists fuel, is_Some (server_main rounds fuel k)) /\
  forall fuel k' o, server_main rounds fuel k = Some (k', o) ->
    match o with
    | inl status => status = 1 /\ forall f, 0 <= f -> is_open (view k') f <-> is_open (view k) f
    | inr (d, l) => exists k0 listener k1 d1 l1 fuel1,
        os_clients (view k0) = os_clients (view k) /\ started k0 listener k1 d1 l1 /\
        run rounds fuel1 k1 d1 l1 = Some (k', d, l, None)
    end.
Proof.
  intros Hfit. split; [by apply server_main_returns|].
  intros fuel k' o. by apply server_main_outcome.
Qed.
End Facts.

(** ** Concrete runs *)

#[local] Existing Instance demo_service.

(** One client sends a frame; epoll fails in the second round. *)
Definition server_kernel (ready : list (list epoll_event)) : Sim :=
  mkSim (mkOs {[0 := 0; 1 := 0; 2 := 0]} ∅ ∅ ∅ ∅ [Frame.encode_frame [x41]] 0) 0 [] ready.

Lemma server_main_correct_witness :
  exists k' k2 d l, server_main 2 20 (server_kernel [[EpollEvent EPOLLIN 3]]) = Some (k', inl 1) /\
    ~ is_open (view k') 3 /\
    server_main 1 20 (server_kernel [[EpollEvent EPOLLIN 3]]) = Some (k2, inr (d, l)) /\
    exists k0 listener k1 d1 l1, started k0 listener k1 d1 l1.
Proof.
  assert (Hfit : clients_fit (server_kernel [[EpollEvent EPOLLIN 3]])) by (by split; vm_compute).
  destruct (server_main 2 20 (server_kernel [[EpollEvent EPOLLIN 3]])) as [[k' [st|]]|] eqn:E;
    [|by vm_compute in E..].
  destruct (server_main 1 20 (server_kernel [[EpollEvent EPOLLIN 3]])) as [[k2 [|[d l]]]|] eqn:E2;
    [by vm_compute in E2| |by vm_compute in E2].
  destruct (server_main_correct 2 _ Hfit) as [_ H1]. destruct (H1 _ _ _ E) as [-> Hopen].
  destruct (server_main_correct 1 _ Hfit) as [_ H2].
  destruct (H2 _ _ _ E2) as (k0 & listener & k1 & d1 & l1 & fuel1 & _ & Hst & _).
  exists k', k2, d, l. split; [reflexivity|]. split.
  - rewrite Hopen by lia. intros [x Hx]. by vm_compute in Hx.
  - split; [reflexivity|]. exists k0, listener, k1, d1, l1. exact Hst.
Defined.
