(* ===== verification/Simulator.v ===== *)
(** * The device simulator: [tools/device_simulator/main.cpp]

    [main] connects to the server, sends one telemetry frame and prints the
    frame that comes back.  Of its output, the server's response is kept. *)

From Stdlib Require Import Strings.String Strings.Ascii.
From S2P Require Import Prelude Endian Kernel SimKernel Sockets Io Frame Raii Socket.

(** ** Data *)

Definition kServerPort : Z := 9000.
Definition kServerAddress : string := "127.0.0.1".

(** A JSON string; 34 is the code of the quotation mark. *)
Definition quoted (s : string) : string :=
  String "034"%char (String.append s (String "034"%char EmptyString)).

Definition telemetry : string :=
  String.concat EmptyString
    ["{"; quoted "device_id"; ":"; quoted "sensor-001"; ","; quoted "temperature"; ":25.4,";
     quoted "humidity"; ":61}"]%string.

(** [std::as_bytes] of the text. *)
Definition telemetry_bytes : bytes := list_byte_of_string telemetry.

(** ** Operations *)

Section Simulator.
Context `{Host} {K : Type} {KO : Kernel K} {KS : SocketCalls K}.

(** From the socket to [connect]; [false] means that [main] returns 1. *)
Definition connect_device (k : K) : K * Socket * bool :=
  let '(k, fd) := sys_socket k AF_INET SOCK_STREAM 0 in
  let connection := make_socket fd in
  if negb (Socket.valid connection) then (k, connection, false)
  else
    let '(r, sin_addr) := inet_pton AF_INET kServerAddress in
    if negb (r =? 1) then (k, connection, false)
    else
      let server_address := mkSockaddrIn AF_INET (htons kServerPort) sin_addr in
      let '(k, r) := sys_connect k (Socket.fd connection) server_address in
      if r <? 0 then (k, connection, false) else (k, connection, true).

(** The rest of [main]: its status and the response it prints. *)
Definition exchange (fuel : nat) (k : K) (connection : Socket) : option (K * Z * option bytes) :=
  '(k, send_result) ← sendFrame fuel k (Socket.fd connection) telemetry_bytes;
  if negb (send_completed send_result) then Some (k, 1, None)
  else
    '(k, response_result) ← receiveFrame fuel k (Socket.fd connection);
    if negb (receive_completed response_result) then Some (k, 1, None)
    else Some (k, 0, Some (receive_payload response_result)).

Definition simulator_main (fuel : nat) (k : K) : option (K * Z * option bytes) :=
  let '(k, connection, ok) := connect_device k in
  if negb ok then Some (destruct_socket k connection, 1, None)
  else
    '(k, status, response) ← exchange fuel k connection;
    Some (destruct_socket k connection, status, response).
End Simulator.

(** ** Properties *)

Section Facts.
Context `{Host} {K : Type} {KO : Kernel K} {KV : KernelView K} {KL : KernelLaws K}.
Context {KS : SocketCalls K} {KSL : SocketLaws K}.

Lemma connect_device_spec k k' s ok :
  connect_device k = (k', s, ok) ->
  (0 <= Socket.fd s -> ~ is_open (view k) (Socket.fd s)) /\
  (forall f, 0 <= f -> is_open (view k') f <-> is_open (view k) f \/ f = Socket.fd s) /\
  os_signals (view k') = os_signals (view k) /\
  (ok = true -> is_open (view k') (Socket.fd s) /\ outbound (view k') (Socket.fd s) = []).
Proof.
  unfold connect_device. destruct (sys_socket k _ _ _) as [k1 fd] eqn:E1.
  apply socket_law in E1. unfold Socket.valid, Socket.fd; simpl.
  inversion E1 as [fd' Hp Hno E2 E3|E2 E3]; subst.
  2: { simpl; intros E; simplify_eq; simpl. rewrite <-E3. split; [lia|].
       split_and!; try done. intros f Hf; intuition lia. }
  assert (Hopen1 : forall f, is_open (view k1) f <-> is_open (view k) f \/ f = fd)
    by (intros f; rewrite <-E3; unfold is_open; simpl; rewrite lookup_insert_is_Some'; intuition).
  assert (Hs1 : os_signals (view k1) = os_signals (view k)) by (by rewrite <-E3).
  assert (Ho1 : outbound (view k1) fd = [])
    by (rewrite <-E3; unfold outbound; simpl; by rewrite lookup_insert_eq).
  replace (0 <=? fd) with true by lia; simpl.
  destruct (inet_pton _ _) as [r a]. destruct (r =? 1); simpl; [|by intros E; simplify_eq].
  destruct (sys_connect k1 _ _) as [k2 r2] eqn:Ec. apply connect_law in Ec.
  assert (Hv : os_flags (view k2) = os_flags (view k1) /\ os_signals (view k2) = os_signals (view k1) /\
    outbound (view k2) fd = outbound (view k1) fd) by (by inversion Ec).
  destruct Hv as (Hf & Hs & Ho).
  assert (Hopen2 : forall f, is_open (view k2) f <-> is_open (view k) f \/ f = fd)
    by (intros f; rewrite <-Hopen1; unfold is_open; by rewrite Hf).
  destruct (r2 <? 0); intros E; simplify_eq; simpl; split_and!; auto; try congruence.
  intros _. split; [apply Hopen2; by right|congruence].
Qed.

(** The exchange on a connected socket: it sends its telemetry frame or a part
    of it, and what it prints is the frame that it received. *)
Lemma exchange_total fuel k s :
  (Z.to_nat (kFrameHeaderSize + max_payload_size) + os_signals (view k) < fuel)%nat ->
  exists k' status response sent received,
    exchange fuel k s = Some (k', status, response) /\
    moved (Socket.fd s) sent received (view k) (view k') /\
    sent `prefix_of` encode_frame telemetry_bytes /\
    match response with
    | Some r => status = 0 /\ sent = encode_frame telemetry_bytes /\ received = encode_frame r /\
        len r <= max_payload_size
    | None => status = 1
    end.
Proof.
  intros Hfuel; unfold exchange.
  destruct (sendFrame_total fuel k (Socket.fd s) telemetry_bytes) as (k1 & r1 & E1 & Hm1 & Ho1).
  { by vm_compute. } { unfold kFrameHeaderSize, max_payload_size in Hfuel.
    assert (length telemetry_bytes < 100)%nat by (vm_compute; lia). lia. }
  run E1. set (sent := upto _ _) in Hm1.
  assert (Hpre : sent `prefix_of` encode_frame telemetry_bytes)
    by (exists (from (send_bytes_transferred r1) (encode_frame telemetry_bytes)); unfold sent; by rewrite upto_from).
  destruct (send_completed r1) eqn:Ec; cbn [negb].
  2: { exists k1, 1, None, sent, []. auto. }
  apply bool_decide_eq_true in Ec. unfold send_outcome in Ho1; rewrite Ec in Ho1.
  destruct Ho1 as [En _].
  assert (Hsent : sent = encode_frame telemetry_bytes)
    by (unfold sent; rewrite En; by apply upto_all).
  pose proof (moved_signals _ _ _ _ _ Hm1).
  destruct (receiveFrame_total fuel k1 (Socket.fd s)) as (k2 & r2 & d & E2 & Hm2 & _ & Ho2); [lia|].
  run E2. pose proof (moved_trans _ _ _ _ _ _ _ _ Hm1 Hm2) as Hm. rewrite app_nil_r in Hm. simpl in Hm.
  destruct (receive_completed r2) eqn:Ec2; cbn [negb].
  - apply bool_decide_eq_true in Ec2. rewrite Ec2 in Ho2. destruct Ho2 as (-> & Hlen & _).
    eexists k2, 0, (Some _), sent, _. split; [done|]. split; [exact Hm|]. auto.
  - exists k2, 1, None, sent, d. auto.
Qed.

(** C24. The device simulator always ends, with exactly the descriptors open
    that were open when it started. It returns 0 if and only if it prints a
    response, and then it has sent its telemetry frame whole, and nothing more,
    and the response is the payload of the one frame that it took from its
    peer's stream. *)
Theorem simulator_main_correct fuel k :
  (Z.to_nat (kFrameHeaderSize + max_payload_size) + os_signals (view k) < fuel)%nat ->
  exists k' status response, simulator_main fuel k = Some (k', status, response) /\
    (forall f, 0 <= f -> is_open (view k') f <-> is_open (view k) f) /\
    match response with
    | Some r => status = 0 /\ exists k1 k2 s,
        connect_device k = (k1, s, true) /\ k' = destruct_socket k2 s /\
        outbound (view k2) (Socket.fd s) = encode_frame telemetry_bytes /\
        incoming (view k1) (Socket.fd s) = encode_frame r ++ incoming (view k2) (Socket.fd s)
    | None => status = 1
    end.
Proof.
  intros Hfuel; unfold simulator_main.
  destruct (connect_device k) as [[k1 s] ok] eqn:Ec.
  destruct (connect_device_spec _ _ _ _ Ec) as (Hnew & Hopen & Hsig & Hok).
  assert (Hback : forall f k2, 0 <= f -> os_flags (view k2) = os_flags (view k1) ->
    is_open (view (destruct_socket k2 s)) f <-> is_open (view k) f).
  { intros f k2 Hf Hfl. rewrite destruct_socket_open by done.
    replace (is_open (view k2) f) with (is_open (view k1) f) by (unfold is_open; by rewrite Hfl).
    rewrite Hopen by done. split; [tauto|]. intros Ho. split; [by left|]. intros ->. by apply Hnew. }
  destruct ok; simpl.
  2: { eexists _, _, _. split; [done|]. split; [|done]. intros f Hf. by apply Hback. }
  destruct (exchange_total fuel k1 s) as (k2 & status & response & sent & received & E & Hm & _ & Hr);
    [lia|]. rewrite E; simpl. eexists _, _, _. split; [done|].
  split; [intros f Hf; apply Hback; [done|apply (moved_flags _ _ _ _ _ Hm)]|].
  destruct response as [r|]; [|done]. destruct Hr as (-> & -> & -> & _). split; [done|].
  exists k1, k2, s. destruct (Hok eq_refl) as [_ Hout]. split_and!; auto.
  - by rewrite (moved_out _ _ _ _ _ Hm), Hout.
  - apply (moved_in _ _ _ _ _ Hm).
Qed.
End Facts.

(** ** A concrete run *)

Definition device_fuel : nat := Z.to_nat (kFrameHeaderSize + max_payload_size) + 2.

(** The peer answers [AB]; a signal interrupts the first [send], which then
    takes 10 bytes. *)
Definition device_kernel : Sim :=
  mkSim (mkOs {[0 := 0; 1 := 0; 2 := 0]} ∅ ∅ ∅ ∅ [encode_frame [x41; x42]] 1) 0
    [1; 1; -4; 10] [].

Lemma simulator_main_correct_witness :
  exists k', simulator_main device_fuel device_kernel = Some (k', 0, Some [x41; x42]) /\
    ~ is_open (view k') 3.
Proof.
  destruct (simulator_main_correct device_fuel device_kernel) as (k' & st & r & E & Hopen & Hr).
  { change (os_signals (view device_kernel)) with 1%nat. unfold device_fuel. lia. }
  assert (Hr' : r = Some [x41; x42]).
  { clear Hopen Hr. vm_compute in E. by injection E as <- <- <-. }
  subst r. destruct Hr as [-> _]. exists k'. split; [exact E|].
  rewrite Hopen by lia. intros [x Hx]. by vm_compute in Hx.
Defined.
