(* ===== verification/System.v ===== *)
(** * The two programs together

    The device simulator against a serving server.  The two run on machines of
    their own, of either byte order; what one's socket has taken is what the
    other's receives, or a part of it. *)

From S2P Require Import Prelude Endian Kernel SimKernel Sockets Frame FrameDecoder.
From S2P Require Import FrameWriteBuffer Raii Socket Processing Connection Service Scheduled.
From S2P Require Import EventLoop Streams EventLoopInvariant EventLoopSafety EventLoopFinish.
From S2P Require Import ServerMain Simulator.

(** Of a prefix of one frame's encoding, a decoder makes that frame or none. *)
Lemma parses_one_frame p received tail fs rest :
  len p <= max_payload_size -> encode_frame p = received ++ tail ->
  parses received fs rest need_more_data ->
  fs = [] /\ received = rest /\ tail <> [] \/ fs = [p] /\ rest = [] /\ tail = [].
Proof.
  intros Hp E Hparse. pose proof (parses_sound _ _ _ _ Hparse) as (-> & Hall & _ & _).
  destruct fs as [|q fs].
  { left. split_and!; [done|done|]. simpl in *. intros ->. rewrite app_nil_r in E; subst rest.
    assert (Hone : parses (encode_frame p) [p] [] need_more_data).
    { pose proof (parses_encode [p] [] [] [] need_more_data) as H1. simpl in H1.
      rewrite !app_nil_r in H1. apply H1; [by constructor|]. by apply parses_stop. }
    by destruct (parses_det _ _ _ _ _ _ _ Hparse Hone). }
  right. apply Forall_cons in Hall as [Hq _]. rewrite fmap_cons, concat_cons, <-!app_assoc in E.
  rewrite <-(app_nil_r (encode_frame p)) in E. apply encode_frame_inj in E as [-> E]; [|done..].
  symmetry in E. apply app_nil in E as [E [-> ->]%app_nil]. destruct fs as [|f fs]; [done|].
  rewrite fmap_cons, concat_cons in E. apply app_nil in E as [E _].
  apply (f_equal len) in E. rewrite len_encode_frame, len_nil in E. pose proof (len_nonneg f); lia.
Qed.

(** At most one acknowledgement holds at most one frame. *)
Lemma one_acknowledgement (n : nat) r rest tail :
  (n <= 1)%nat -> len r <= max_payload_size ->
  concat (replicate n (encode_frame acknowledgement)) = encode_frame r ++ rest ++ tail ->
  r = acknowledgement /\ rest = [] /\ n = 1%nat.
Proof.
  intros Hn Hr E. destruct n as [|[|n]]; [| |lia].
  - apply (f_equal len) in E. revert E. cbn [replicate concat]. rewrite len_app, len_encode_frame, len_nil.
    pose proof (len_nonneg r); pose proof (len_nonneg (rest ++ tail)); lia.
  - cbn [replicate concat] in E. apply encode_frame_inj in E as [<- E]; [|done|done].
    symmetry in E. by apply app_nil in E as [-> _].
Qed.

Section System.
Context (Hd : Host) {KD : Type} {KOd : Kernel KD} {KVd : KernelView KD} {KLd : @KernelLaws KD Hd KOd KVd}.
Context `{Hs : Host} {K D : Type} {KO : Kernel K} {KV : KernelView K} {KL : KernelLaws K}.
Context {KS : SocketCalls K} {KSL : SocketLaws K} {SO : Service K D} {SL : ServiceLaws K D}.

(** C3. The two programs together: the server has been serving from [k] to
    [k'], and the client [s] behind its descriptor [fd] is the device, which ran
    its exchange on the connected socket [device] from [kd] to [kd'] and
    received from it only what the server had sent. Then the server has
    accepted from this client nothing but the telemetry, at most once, and
    indeed once if it was sent whole and received whole; and if the device
    succeeds, what it prints is the server's acknowledgement, which it got for
    its telemetry, and nothing follows it. *)
Theorem telemetry_is_acknowledged rounds fuel k k' d l fd s
    fuel_d (kd kd' : KD) (device : Socket) status response :
  clients_fit k -> server_main rounds fuel k = Some (k', inr (d, l)) ->
  connections_ l !! fd = Some s ->
  (Z.to_nat (kFrameHeaderSize + max_payload_size) + os_signals (view kd) < fuel_d)%nat ->
  outbound (view kd) (Socket.fd device) = [] ->
  exchange (H := Hd) fuel_d kd device = Some (kd', status, response) ->
  os_clients (view k) !! Z.to_nat (id s - 1) = Some (outbound (view kd') (Socket.fd device)) ->
  incoming (view kd) (Socket.fd device) `prefix_of` outbound (view k') fd ->
  let task := mkProcessingTask fd (id s) telemetry_bytes in
  of_id (id s) (accepted d) `prefix_of` [task] /\
  (outbound (view kd') (Socket.fd device) = encode_frame telemetry_bytes ->
   incoming (view k') fd = [] -> of_id (id s) (accepted d) = [task]) /\
  (forall r, response = Some r -> status = 0 /\ r = acknowledgement /\
     of_id (id s) (accepted d) = [task] /\ incoming (view kd') (Socket.fd device) = []).
Proof.
  intros Hfit Hmain Hc Hfuel Hout0 Hex Hstream [more Hmore] task.
  destruct (server_main_outcome _ _ _ _ _ Hfit Hmain) as
    (k0 & listener & k1 & d1 & l1 & fuel1 & Hcl & Hst & Hrun).
  destruct (run_ok _ _ _ _ _ _ _ _ _ _ _ Hst Hrun) as [Hok _].
  destruct (loop_conversing _ _ _ _ _ _ _ Hok Hc) as
    (received & fs & n & Hbytes & Hparse & Hacc & Hans & Hn & _).
  destruct (exchange_total (H := Hd) fuel_d kd device Hfuel) as
    (kd2 & st2 & r2 & sent & got & Hex2 & Hm & [unsent Hsent] & Hr). simplify_eq.
  rewrite (moved_out _ _ _ _ _ Hm), Hout0, app_nil_l in *.
  rewrite Hcl in Hbytes. simplify_eq.
  rewrite <-app_assoc in Hsent.
  assert (Hmax : len telemetry_bytes <= max_payload_size) by (by vm_compute).
  destruct (parses_one_frame _ _ _ _ _ Hmax Hsent Hparse) as [(-> & -> & Htail)|(-> & _ & Htail)];
    rewrite Hacc; csimpl.
  - split; [apply prefix_nil|]. split.
    { intros E Hin. rewrite <-E in Hsent. rewrite Hin, app_nil_r in Hsent.
      destruct Htail. rewrite Hin. simpl. by apply (app_inv_head (FrameDecoder.pending (decoder_ (connection s)))); rewrite app_nil_r. }
    intros r ->. destruct Hr as (-> & _ & -> & Hlen). simpl in Hn.
    destruct (one_acknowledgement n r (incoming (view kd') (Socket.fd device))
      (more ++ FrameWriteBuffer.pending (write_buffer_ (connection s)))) as (_ & _ & ->); try lia; auto.
    rewrite <-Hans, Hmore, (moved_in _ _ _ _ _ Hm). by rewrite <-!app_assoc.
  - split; [done|]. split; [done|]. intros r ->. destruct Hr as (-> & _ & -> & Hlen). simpl in Hn.
    destruct (one_acknowledgement n r (incoming (view kd') (Socket.fd device))
      (more ++ FrameWriteBuffer.pending (write_buffer_ (connection s)))) as (-> & -> & _); auto.
    rewrite <-Hans, Hmore, (moved_in _ _ _ _ _ Hm). by rewrite <-!app_assoc.
Qed.
End System.

(** ** A concrete run

    The server accepts the device as descriptor 6 and answers its frame in four
    rounds; the device's socket is its descriptor 3. *)

#[local] Existing Instance demo_service.

Definition serving_kernel : Sim :=
  mkSim (mkOs {[0 := 0; 1 := 0; 2 := 0]} ∅ ∅ ∅ ∅ [encode_frame telemetry_bytes] 0) 0
    [1; 1; 1; 1; 1; 1; 1; 1; 1; 1; 1; 1; 1; 4096; -11]
    [[EpollEvent EPOLLIN 3]; [EpollEvent EPOLLIN 6]; [EpollEvent EPOLLIN 5];
     [EpollEvent EPOLLOUT 6]].

Definition connected_kernel : Sim :=
  mkSim (mkOs {[3 := 0]} ∅ {[3 := encode_frame acknowledgement]} ∅ ∅ [] 0) 0 [] [].

Lemma telemetry_is_acknowledged_witness :
  exists k' d l s kd' r, server_main 4 20 serving_kernel = Some (k', inr (d, l)) /\
    connections_ l !! 6 = Some s /\
    exchange device_fuel connected_kernel (make_socket 3) = Some (kd', 0, Some r) /\
    r = acknowledgement /\ of_id (id s) (accepted d) = [mkProcessingTask 6 (id s) telemetry_bytes].
Proof.
  destruct (server_main 4 20 serving_kernel) as [[k' [|[d l]]]|] eqn:E1;
    [by vm_compute in E1| |by vm_compute in E1].
  destruct (connections_ l !! 6) as [s|] eqn:Hs;
    [|vm_compute in E1; injection E1 as <- <- <-; by vm_compute in Hs].
  destruct (exchange device_fuel connected_kernel (make_socket 3)) as [[[kd' st] [r|]]|] eqn:E2;
    [|by vm_compute in E2..].
  assert (Hfit : clients_fit serving_kernel) by (by split; vm_compute).
  assert (Hfuel : (Z.to_nat (kFrameHeaderSize + max_payload_size) +
    os_signals (view connected_kernel) < device_fuel)%nat).
  { change (os_signals (view connected_kernel)) with O. unfold device_fuel. lia. }
  assert (Hsent : os_clients (view serving_kernel) !! Z.to_nat (id s - 1)
    = Some (outbound (view kd') (Socket.fd (make_socket 3)))).
  { vm_compute in E1; injection E1 as <- <- <-. vm_compute in Hs; injection Hs as <-.
    vm_compute in E2; injection E2 as <- <- <-. by vm_compute. }
  assert (Hgot : incoming (view connected_kernel) (Socket.fd (make_socket 3))
    `prefix_of` outbound (view k') 6).
  { exists []. rewrite app_nil_r. vm_compute in E1; injection E1 as <- <- <-. by vm_compute. }
  destruct (telemetry_is_acknowledged sim_host 4 20 serving_kernel k' d l 6 s device_fuel
    connected_kernel kd' (make_socket 3) st (Some r) Hfit E1 Hs Hfuel eq_refl E2 Hsent Hgot)
    as (_ & _ & Hr).
  destruct (Hr r eq_refl) as (-> & Hack & Htask & _).
  exists k', d, l, s, kd', r. split; [reflexivity|]. split; [exact Hs|].
  split; [reflexivity|]. split; [exact Hack|exact Htask].
Defined.
